(** * Slipcover bytecode editor: a shallow embedding of [slipcover/bytecode.py]

    Python integers are unbounded, so every integer of the source is a [Z];
    byte strings, bytearrays and lists of integers are [list Z]; a Python
    exception is the [Raise] case of [result].  The interpreter generation
    ([PYTHON_VERSION]) and the tables of the standard [dis] module are not part
    of the repository: they are the fields of the class [Runtime]. *)

From Stdlib Require Import ZArith List Lia Bool String Ascii.
From Equations Require Import Equations.
Import ListNotations.
Local Open Scope Z_scope.

(** ** Exceptions and the error monad *)

Inductive exn : Type :=
| AssertionError
| StopIteration
| ValueError
| IndexError
| TypeError.

Inductive result (A : Type) : Type :=
| Ok (a : A)
| Raise (e : exn).
Arguments Ok {A} a.
Arguments Raise {A} e.

Definition bind {A B : Type} (m : result A) (k : A -> result B) : result B :=
  match m with
  | Ok a => k a
  | Raise e => Raise e
  end.

Declare Scope py_scope.
Delimit Scope py_scope with py.
Notation "x <- m ;; k" := (bind m (fun x => k))
  (at level 61, m at next level, right associativity) : py_scope.
Notation "' p <- m ;; k" := (bind m (fun x => match x with p => k end))
  (at level 61, p pattern, m at next level, right associativity) : py_scope.
Notation "'assert' c ;; k" := (if c then k else Raise AssertionError)
  (at level 61, c at next level, right associativity) : py_scope.
Local Open Scope py_scope.

(** ** Python primitives *)

Definition len {A : Type} (l : list A) : Z := Z.of_nat (List.length l).

(** [int.bit_length]: the number of bits of the absolute value. *)
Definition bit_length (n : Z) : Z :=
  match n with
  | Z0 => 0
  | Zpos p => Zpos (Pos.size p)
  | Zneg p => Zpos (Pos.size p)
  end.

(** [range(n)] *)
Definition range (n : Z) : list Z := map Z.of_nat (seq 0 (Z.to_nat n)).

(** [range(start, stop, step)] for a negative [step]. *)
Definition range_down (start stop step : Z) : list Z :=
  map (fun i => start + Z.of_nat i * step)
      (seq 0 (Z.to_nat ((start - stop - step - 1) / (- step)))).

(** [l[i]] on a list, bytes or bytearray: negative indices count from the end. *)
Definition getitem {A : Type} (l : list A) (i : Z) : result A :=
  let j := if i <? 0 then i + len l else i in
  if j <? 0 then Raise IndexError
  else match nth_error l (Z.to_nat j) with
       | Some x => Ok x
       | None => Raise IndexError
       end.

(** Clamping of one bound of a slice [l[i:j]]. *)
Definition slice_index {A : Type} (l : list A) (i : Z) : Z :=
  if i <? 0 then Z.max 0 (i + len l) else Z.min i (len l).

(** [l[i:j] = repl] *)
Definition setslice {A : Type} (l : list A) (i j : Z) (repl : list A) : list A :=
  let lo := slice_index l i in
  let hi := Z.max lo (slice_index l j) in
  firstn (Z.to_nat lo) l ++ repl ++ skipn (Z.to_nat hi) l.

(** [x in l] for integers. *)
Definition mem (x : Z) (l : list Z) : bool := existsb (Z.eqb x) l.

(** A [bytearray] or [bytes] accepts only values in [range(256)]. *)
Definition is_byte (x : Z) : bool := (0 <=? x) && (x <? 256).

Definition as_bytes (l : list Z) : result (list Z) :=
  if forallb is_byte l then Ok l else Raise ValueError.

(** [needle in hay] for strings. *)
Fixpoint contains (needle hay : string) : bool :=
  String.prefix needle hay ||
  match hay with
  | EmptyString => false
  | String _ rest => contains needle rest
  end.

(** Truth value of an integer in a condition. *)
Definition truthy (n : Z) : bool := negb (n =? 0).

(** [l * n] for a list [l]. *)
Definition repeat_list {A : Type} (l : list A) (n : Z) : list A :=
  List.concat (repeat l (Z.to_nat n)).

(** A value together with the equation that names it, for a case analysis
    that has to remember which case it is in. *)
Definition inspect {A : Type} (a : A) : {b : A | a = b} := exist _ a eq_refl.

(** [while cond(s): s = body(s)], for a loop that has a variant: a measure
    every turn decreases. *)
Section While.
Context {S : Type} (cond : S -> bool) (body : S -> S) (variant : S -> nat).
Hypothesis decreases : forall s, cond s = true -> (variant (body s) < variant s)%nat.

Equations while (s : S) : S by wf (variant s) lt :=
  while s with inspect (cond s) => {
    | exist _ true _ => while (body s)
    | exist _ false _ => s }.

Lemma while_eq (s : S) :
  while s = if cond s then while (body s) else s.
Proof.
  funelim (while s);
    match goal with E : cond _ = _ |- _ => now rewrite E end.
Qed.

End While.

(** ** The interpreter: version and [dis] tables *)

Definition version : Type := Z * Z.

Definition version_ge (v w : version) : bool :=
  (fst w <? fst v) || ((fst v =? fst w) && (snd w <=? snd v)).

Definition version_eq (v w : version) : bool :=
  (fst v =? fst w) && (snd v =? snd w).

Definition version_lt (v w : version) : bool := negb (version_ge v w).

Record Dis : Type := {
  EXTENDED_ARG : Z;
  EXTENDED_ARG_QUICK : Z;
  HAVE_ARGUMENT : Z;
  LOAD_CONST : Z;
  LOAD_GLOBAL : Z;
  PUSH_NULL : Z;
  PRECALL : Z;
  CALL : Z;
  CACHE : Z;
  CALL_FUNCTION : Z;
  POP_TOP : Z;
  JUMP_FORWARD : Z;
  NOP : Z;
  hasjrel : list Z;
  hasjabs : list Z;
  opname : list string;
  _inline_cache_entries : list Z;
  stack_effect : Z -> option Z -> result Z
}.

(** The fields of a code object ([types.CodeType]) that the editor reads. *)
Record CodeType (object : Type) : Type := {
  co_code : list Z;
  co_consts : list object;
  co_names : list string;
  co_firstlineno : Z;
  co_stacksize : Z;
  co_exceptiontable : list Z;
  co_lnotab : list Z;
  co_linetable : list Z
}.
Arguments co_code {object} _.
Arguments co_consts {object} _.
Arguments co_names {object} _.
Arguments co_firstlineno {object} _.
Arguments co_stacksize {object} _.
Arguments co_exceptiontable {object} _.
Arguments co_lnotab {object} _.
Arguments co_linetable {object} _.

(** The keyword arguments [finish] passes to [CodeType.replace]; the table
    arguments are present or not according to the interpreter generation. *)
Record ReplaceArgs (object : Type) : Type := {
  kw_co_code : list Z;
  kw_co_stacksize : Z;
  kw_co_consts : list object;
  kw_co_lnotab : option (list Z);
  kw_co_linetable : option (list Z);
  kw_co_exceptiontable : option (list Z)
}.
Arguments Build_ReplaceArgs {object} _ _ _ _ _ _.

(** What the interpreter provides: its version, the [dis] tables, the type of
    the values of a constant pool, [dis.findlinestarts] and
    [CodeType.replace]. *)
Class Runtime : Type := {
  PYTHON_VERSION : version;
  dis : Dis;
  object : Type;
  findlinestarts : CodeType object -> list (Z * option Z);
  replace : CodeType object -> ReplaceArgs object -> result (CodeType object)
}.

Section Bytecode.
Context {rt : Runtime}.

Definition offset2branch (offset : Z) : result Z :=
  if version_ge PYTHON_VERSION (3, 10) then
    assert (offset mod 2 =? 0) ;;
    Ok (offset / 2)
  else Ok offset.

Definition branch2offset (arg : Z) : Z :=
  if version_ge PYTHON_VERSION (3, 10) then arg * 2 else arg.

Definition op_EXTENDED_ARG : Z := EXTENDED_ARG dis.
Definition is_EXTENDED_ARG : list Z :=
  [op_EXTENDED_ARG] ++
  (if version_ge PYTHON_VERSION (3, 11) then [EXTENDED_ARG_QUICK dis] else []).
Definition op_LOAD_CONST : Z := LOAD_CONST dis.
Definition op_LOAD_GLOBAL : Z := LOAD_GLOBAL dis.
Definition op_PUSH_NULL : Z := PUSH_NULL dis.
Definition op_PRECALL : Z := PRECALL dis.
Definition op_CALL : Z := CALL dis.
Definition op_CACHE : Z := CACHE dis.
Definition op_CALL_FUNCTION : Z := CALL_FUNCTION dis.
Definition op_POP_TOP : Z := POP_TOP dis.
Definition op_JUMP_FORWARD : Z := JUMP_FORWARD dis.
Definition op_NOP : Z := NOP dis.

(** Number of EXTENDED_ARGs needed for an argument. *)
Definition arg_ext_needed (arg : Z) : Z := (bit_length arg - 1) / 8.

(** Emits an opcode and its (variable length) argument. *)
Definition opcode_arg (opcode arg min_ext : Z) : result (list Z) :=
  let ext := Z.max (arg_ext_needed arg) min_ext in
  assert (ext <=? 3) ;;
  let bytecode :=
    flat_map (fun i => [op_EXTENDED_ARG; Z.land (Z.shiftr arg ((ext - i) * 8)) 255])
             (range ext) in
  let bytecode := bytecode ++ [opcode; Z.land arg 255] in
  if version_ge PYTHON_VERSION (3, 11) then
    n <- getitem (_inline_cache_entries dis) opcode ;;
    Ok (bytecode ++ repeat_list [op_CACHE; 0] n)
  else Ok bytecode.

(** The inner loop of [unpack_opargs] that skips the CACHE words following an
    instruction:
    [while off+2 < len(code) and code[off+2] == op_CACHE: off += 2]. *)
Equations? skip_cache (code : list Z) (off : Z) : result Z
  by wf (Z.to_nat (len code - off)) lt :=
  skip_cache code off with Z_lt_dec (off + 2) (len code) => {
    | right _ => Ok off
    | left _ with getitem code (off + 2) => {
        | Raise e => Raise e
        | Ok c with c =? op_CACHE => {
            | true => skip_cache code (off + 2)
            | false => Ok off } } }.
Proof. lia. Qed.

Lemma skip_cache_ge (code : list Z) (off off' : Z) :
  skip_cache code off = Ok off' -> off <= off'.
Proof.
  funelim (skip_cache code off); intros E;
    try discriminate; try (injection E as <-; lia).
  specialize (H _ E). lia.
Qed.

(** One decoded instruction: beginning offset (including that of the first
    EXTENDED_ARG), length, opcode, decoded argument. *)
Definition oparg : Type := Z * Z * Z * Z.

(** A finished generator: the values it yielded, and the exception that ended
    it, if it did not end normally. *)
Definition generated (A : Type) : Type := list A * option exn.

Definition yield {A : Type} (x : A) (g : generated A) : generated A :=
  (x :: fst g, snd g).

(** The [while off < len(code)] loop of [unpack_opargs], from the state
    [(ext_arg, next_off, off)]. *)
Equations? unpack_loop (code : list Z) (ext_arg next_off off : Z) : generated oparg
  by wf (Z.to_nat (len code - off)) lt :=
  unpack_loop code ext_arg next_off off with Z_lt_dec off (len code) => {
    | right _ => ([], None)
    | left _ with getitem code off => {
        | Raise e => ([], Some e)
        | Ok op with getitem code (off + 1) => {
            | Raise e => ([], Some e)
            | Ok b with mem op is_EXTENDED_ARG => {
                | true => unpack_loop code (Z.shiftl (Z.lor ext_arg b) 8) next_off (off + 2)
                | false with inspect (if version_ge PYTHON_VERSION (3, 11)
                                      then skip_cache code off else Ok off) => {
                    | exist _ (Raise e) _ => ([], Some e)
                    | exist _ (Ok off') _ =>
                        yield (next_off, off' + 2 - next_off, op, Z.lor ext_arg b)
                              (unpack_loop code 0 (off' + 2) (off' + 2)) } } } } }.
Proof.
  - clear unpack_loop. lia.
  - clear unpack_loop. assert (off <= off').
    { destruct (version_ge PYTHON_VERSION (3, 11)).
      + now apply (skip_cache_ge code).
      + injection e as <-. lia. }
    lia.
Qed.

Definition unpack_opargs (code : list Z) : generated oparg :=
  unpack_loop code 0 0 0.

(** [for x in g: s = f(s, x)]: the body runs on every yielded value, in order,
    before the exception that ended the generator, if any, is seen. *)
Fixpoint for_each {A S : Type} (f : S -> A -> result S) (l : list A) (s : S)
  : result S :=
  match l with
  | [] => Ok s
  | x :: l' => s' <- f s x ;; for_each f l' s'
  end.

Definition for_generated {A S : Type} (f : S -> A -> result S)
  (g : generated A) (s : S) : result S :=
  s' <- for_each f (fst g) s ;;
  match snd g with
  | None => Ok s'
  | Some e => Raise e
  end.

(** Maximum stack size for code to execute, assuming linear execution.
    The loop state is [(max_stack, stack)]. *)
Definition calc_max_stack (code : list Z) : result Z :=
  ' (max_stack, _) <-
    for_generated
      (fun (st : Z * Z) (i : oparg) =>
         let '(max_stack, stack) := st in
         let '(_, _, op, arg) := i in
         d <- stack_effect dis op
                (if HAVE_ARGUMENT dis <=? op then Some arg else None) ;;
         let stack := stack + d in
         Ok (Z.max stack max_stack, stack))
      (unpack_opargs code) (0, 0) ;;
  Ok max_stack.

End Bytecode.

(** ** Branch *)

Module Branch.

Record t : Type := mk {
  offset : Z;
  length : Z;
  opcode : Z;
  is_relative : bool;
  is_backward : bool;
  target : Z
}.

Definition set_offset (self : t) (v : Z) : t :=
  mk v (length self) (opcode self) (is_relative self) (is_backward self) (target self).
Definition set_length (self : t) (v : Z) : t :=
  mk (offset self) v (opcode self) (is_relative self) (is_backward self) (target self).
Definition set_target (self : t) (v : Z) : t :=
  mk (offset self) (length self) (opcode self) (is_relative self) (is_backward self) v.

Section WithRuntime.
Context {rt : Runtime}.

(** [Branch.__init__] *)
Definition init (offset length opcode arg : Z) : result t :=
  let is_relative := mem opcode (hasjrel dis) in
  name <- getitem (opname dis) opcode ;;
  let is_backward := contains "JUMP_BACKWARD" name in
  let target :=
    if negb is_relative then branch2offset arg
    else offset + length + branch2offset (if is_backward then - arg else arg) in
  Ok (mk offset length opcode is_relative is_backward target).

(** This branch's opcode argument. *)
Definition arg (self : t) : result Z :=
  if is_relative self then
    offset2branch (Z.abs (target self - (offset self + length self)))
  else offset2branch (target self).

(** Adjusts this branch after a code insertion. *)
Definition adjust (self : t) (insert_offset insert_length : Z) : t :=
  let self :=
    if offset self >=? insert_offset
    then set_offset self (offset self + insert_length) else self in
  if target self >? insert_offset
  then set_target self (target self + insert_length) else self.

(** Adjusts this branch's opcode length, if needed; returns the number of
    bytes by which the length increased, and the branch as it is left. *)
Definition adjust_length (self : t) : result (Z * t) :=
  a <- arg self ;;
  let length_needed := 2 + 2 * arg_ext_needed a in
  let change := Z.max 0 (length_needed - length self) in
  if truthy change then
    let self :=
      if target self >? offset self
      then set_target self (target self + change) else self in
    Ok (change, set_length self length_needed)
  else Ok (change, self).

(** Emits this branch's code. *)
Definition code (self : t) : result (list Z) :=
  a <- arg self ;;
  assert (length self >=? 2 + 2 * arg_ext_needed a) ;;
  a <- arg self ;;
  opcode_arg (opcode self) a ((length self - 2) / 2).

(** Finds all Branches in code (given as its [co_code]). *)
Definition from_code (co_code : list Z) : result (list t) :=
  let branch_opcodes := hasjrel dis ++ hasjabs dis in
  for_generated
    (fun (branches : list t) (i : oparg) =>
       let '(off, length, op, arg) := i in
       if mem op branch_opcodes then
         b <- init off length op arg ;;
         Ok (branches ++ [b])
       else Ok branches)
    (unpack_opargs co_code) [].

End WithRuntime.
End Branch.

(** ** Variable-length integers *)

(** Appends a (little endian) variable length unsigned integer to [data]. *)
Equations? append_varint (data : list Z) (n : Z) : list Z
  by wf (Z.to_nat n) lt :=
  append_varint data n with Z_gt_dec n 63 => {
    | left _ => append_varint (data ++ [Z.lor 64 (Z.land n 63)]) (Z.shiftr n 6)
    | right _ => data ++ [n] }.
Proof.
  rewrite Z.shiftr_div_pow2 by lia. change (2 ^ 6) with 64.
  assert (n / 64 < n) by (apply Z.div_lt; lia).
  assert (0 <= n / 64) by (apply Z.div_pos; lia).
  lia.
Qed.

(** Appends a (little endian) variable length signed integer to [data]. *)
Definition append_svarint (data : list Z) (n : Z) : list Z :=
  append_varint data
    (if n <? 0 then Z.lor (Z.shiftl (- n) 1) 1 else Z.shiftl n 1).

(** Encodes a (big endian) variable length unsigned integer.  [mark_first] is
    [None] for the default argument. *)
Definition write_varint_be (n : Z) (mark_first : option Z) : result (list Z) :=
  let top_bit := bit_length n - 1 in
  let data :=
    map (fun shift => Z.lor 64 (Z.land (Z.shiftr n shift) 63))
        (range_down (top_bit - top_bit mod 6) 0 (-6)) in
  let data := data ++ [Z.land n 63] in
  match mark_first with
  | None => Ok data
  | Some m =>
      if truthy m then
        match data with
        | [] => Raise IndexError
        | b :: rest => as_bytes (Z.lor b m :: rest)
        end
      else Ok data
  end.

(** The loop of [read_varint_be]; [it] is what the iterator has left. *)
Fixpoint read_varint_be_loop (value : Z) (it : list Z) : result (Z * list Z) :=
  match it with
  | [] => Raise StopIteration
  | b :: it =>
      if truthy (Z.land b 64)
      then read_varint_be_loop (Z.shiftl (Z.lor value (Z.land b 63)) 6) it
      else Ok (Z.lor value (Z.land b 63), it)
  end.

(** Decodes a (big endian) variable length unsigned integer from [it];
    returns the value and what the iterator has left. *)
Definition read_varint_be (it : list Z) : result (Z * list Z) :=
  read_varint_be_loop 0 it.

(** Modelled from the spec: the decoder of the little-endian encoding, which
    the source does not have (it only writes that encoding, for the
    interpreter to read).  The spec gives the format: 6-bit chunks, least
    significant chunk first, the continuation flag 0x40 set on all but the
    last chunk.  Returns the value and what the iterator has left. *)
Fixpoint read_varint_le (it : list Z) : result (Z * list Z) :=
  match it with
  | [] => Raise StopIteration
  | b :: it =>
      if truthy (Z.land b 64)
      then ' (high, it) <- read_varint_le it ;;
           Ok (Z.lor (Z.land b 63) (Z.shiftl high 6), it)
      else Ok (Z.land b 63, it)
  end.

(** The number of six-bit chunks a value requires. *)
Definition chunks (n : Z) : nat := List.length (append_varint [] n).

Lemma read_varint_be_loop_consumes (it : list Z) :
  forall value v it',
    read_varint_be_loop value it = Ok (v, it') ->
    (List.length it' < List.length it)%nat.
Proof.
  induction it as [| b it IH]; cbn; intros value v it' E; [discriminate |].
  destruct (truthy (Z.land b 64)).
  - apply IH in E. lia.
  - injection E as _ <-. lia.
Qed.

(** ** Exception table entries *)

Module ExceptionTableEntry.

Record t : Type := mk {
  start : Z;
  end_ : Z;
  target : Z;
  other : Z
}.

(** Adjusts this exception table entry, handling a code insertion. *)
Definition adjust (self : t) (insert_offset insert_length : Z) : t :=
  let self :=
    if insert_offset <=? start self
    then mk (start self + insert_length) (end_ self) (target self) (other self)
    else self in
  let self :=
    if insert_offset <? end_ self
    then mk (start self) (end_ self + insert_length) (target self) (other self)
    else self in
  if insert_offset <? target self
  then mk (start self) (end_ self) (target self + insert_length) (other self)
  else self.

Section WithRuntime.
Context {rt : Runtime}.

(** One turn of the [while True] loop of [from_code]: the entry read, and
    what the iterator has left. *)
Definition read_entry (it : list Z) : result (t * list Z) :=
  ' (v, it) <- read_varint_be it ;;
  let start := branch2offset v in
  ' (v, it) <- read_varint_be it ;;
  let length := branch2offset v in
  let end_ := start + length in
  ' (v, it) <- read_varint_be it ;;
  let target := branch2offset v in
  ' (other, it) <- read_varint_be it ;;
  Ok (mk start end_ target other, it).

Lemma read_entry_consumes (it it' : list Z) (e : t) :
  read_entry it = Ok (e, it') -> (List.length it' < List.length it)%nat.
Proof.
  unfold read_entry, read_varint_be.
  destruct (read_varint_be_loop 0 it) as [[v1 it1] |] eqn:E1; cbn; [| discriminate].
  destruct (read_varint_be_loop 0 it1) as [[v2 it2] |] eqn:E2; cbn; [| discriminate].
  destruct (read_varint_be_loop 0 it2) as [[v3 it3] |] eqn:E3; cbn; [| discriminate].
  destruct (read_varint_be_loop 0 it3) as [[v4 it4] |] eqn:E4; cbn; [| discriminate].
  intros E. injection E as _ <-.
  apply read_varint_be_loop_consumes in E1, E2, E3, E4. lia.
Qed.

(** The [while True] loop of [from_code] under its [try]. *)
Equations? from_code_loop (it : list Z) (entries : list t) : result (list t)
  by wf (List.length it) lt :=
  from_code_loop it entries with inspect (read_entry it) => {
    | exist _ (Ok (e, it')) _ => from_code_loop it' (entries ++ [e])
    | exist _ (Raise StopIteration) _ => Ok entries
    | exist _ (Raise x) _ => Raise x }.
Proof. eapply read_entry_consumes; eassumption. Qed.

(** The exception table entries of a code object (given as its
    [co_exceptiontable]). *)
Definition from_code (co_exceptiontable : list Z) : result (list t) :=
  from_code_loop co_exceptiontable [].

(** The bytes one entry contributes to the table. *)
Definition encode_entry (e : t) : result (list Z) :=
  a <- offset2branch (start e) ;;
  b1 <- write_varint_be a (Some 128) ;;
  a <- offset2branch (end_ e - start e) ;;
  b2 <- write_varint_be a None ;;
  a <- offset2branch (target e) ;;
  b3 <- write_varint_be a None ;;
  b4 <- write_varint_be (other e) None ;;
  Ok (b1 ++ b2 ++ b3 ++ b4).

(** Generates an exception table from a list of entries. *)
Definition make_exceptiontable (entries : list t) : result (list Z) :=
  table <- for_each (fun table e => b <- encode_entry e ;; Ok (table ++ b))
                    entries [] ;;
  Ok table.

End WithRuntime.
End ExceptionTableEntry.

(** ** Line entries *)

Ltac solve_variant :=
  intros;
  repeat match goal with s : (_ * _)%type |- _ => destruct s end;
  cbn in *;
  rewrite ?Z.gtb_ltb, ?Z.ltb_lt in *;
  lia.

Module LineEntry.

Record t : Type := mk {
  start : Z;
  end_ : Z;
  number : option Z
}.

(** Adjusts this line after a code insertion. *)
Definition adjust (self : t) (insert_offset insert_length : Z) : t :=
  let self :=
    if start self >? insert_offset
    then mk (start self + insert_length) (end_ self) (number self) else self in
  if end_ self >? insert_offset
  then mk (start self) (end_ self + insert_length) (number self) else self.

(** The generator [gen_lines] of [from_code], over the line starts that are
    left; [last] is the pending line start. *)
Fixpoint gen_lines (starts : list (Z * option Z)) (last : option (Z * option Z))
  (code_len : Z) : list t :=
  match starts with
  | line :: starts =>
      match last with
      | Some last => mk (fst last) (fst line) (snd last) :: gen_lines starts (Some line) code_len
      | None => gen_lines starts (Some line) code_len
      end
  | [] =>
      match last with
      | Some last => [mk (fst last) code_len (snd last)]
      | None => []
      end
  end.

Definition from_code {rt : Runtime} (code : CodeType object) : list t :=
  gen_lines (findlinestarts code) None (len (co_code code)).

(** *** The line number table of Python 3.9 and earlier *)

(** [while delta_start > 255] *)
Definition lnotab_long_start : list Z * Z -> list Z * Z :=
  while (fun '(lnotab, delta_start) => delta_start >? 255)
        (fun '(lnotab, delta_start) => (lnotab ++ [255; 0], delta_start - 255))
        (fun '(lnotab, delta_start) => Z.to_nat delta_start)
        ltac:(solve_variant).

(** [while delta_number > 127] *)
Definition lnotab_long_forward : list Z * Z * Z -> list Z * Z * Z :=
  while (fun '(lnotab, delta_start, delta_number) => delta_number >? 127)
        (fun '(lnotab, delta_start, delta_number) =>
           (lnotab ++ [delta_start; 127], 0, delta_number - 127))
        (fun '(lnotab, delta_start, delta_number) => Z.to_nat delta_number)
        ltac:(solve_variant).

(** [while delta_number < -128] *)
Definition lnotab_long_backward : list Z * Z * Z -> list Z * Z * Z :=
  while (fun '(lnotab, delta_start, delta_number) => delta_number <? -128)
        (fun '(lnotab, delta_start, delta_number) =>
           (lnotab ++ [delta_start; Z.land (-128) 255], 0, delta_number + 128))
        (fun '(lnotab, delta_start, delta_number) => Z.to_nat (- delta_number))
        ltac:(solve_variant).

(** Generates the line number table used by Python 3.9- to map offsets to
    line numbers.  The loop state is [(lnotab, prev_start, prev_number)];
    subtracting from the number of a line that has none is a [TypeError]. *)
Definition make_lnotab (firstlineno : Z) (lines : list t) : result (list Z) :=
  ' (lnotab, _, _) <-
    for_each
      (fun '(lnotab, prev_start, prev_number) l =>
         let delta_start := start l - prev_start in
         match number l with
         | None => Raise TypeError
         | Some number =>
             let delta_number := number - prev_number in
             let '(lnotab, delta_start) := lnotab_long_start (lnotab, delta_start) in
             let '(lnotab, delta_start, delta_number) :=
               lnotab_long_forward (lnotab, delta_start, delta_number) in
             let '(lnotab, delta_start, delta_number) :=
               lnotab_long_backward (lnotab, delta_start, delta_number) in
             let lnotab :=
               if truthy delta_start || truthy delta_number
               then lnotab ++ [delta_start; Z.land delta_number 255] else lnotab in
             Ok (lnotab, start l, number)
         end)
      lines ([], 0, firstlineno) ;;
  as_bytes lnotab.

(** *** The line number table of Python 3.10 *)

(** [while gap > 254] *)
Definition linetable_long_gap : list Z * Z -> list Z * Z :=
  while (fun '(linetable, gap) => gap >? 254)
        (fun '(linetable, gap) => (linetable ++ [254; Z.land (-128) 255], gap - 254))
        (fun '(linetable, gap) => Z.to_nat gap)
        ltac:(solve_variant).

(** [while delta_number > 127] *)
Definition linetable_long_forward : list Z * Z -> list Z * Z :=
  while (fun '(linetable, delta_number) => delta_number >? 127)
        (fun '(linetable, delta_number) => (linetable ++ [0; 127], delta_number - 127))
        (fun '(linetable, delta_number) => Z.to_nat delta_number)
        ltac:(solve_variant).

(** [while delta_number < -127] *)
Definition linetable_long_backward : list Z * Z -> list Z * Z :=
  while (fun '(linetable, delta_number) => delta_number <? -127)
        (fun '(linetable, delta_number) =>
           (linetable ++ [0; Z.land (-127) 255], delta_number + 127))
        (fun '(linetable, delta_number) => Z.to_nat (- delta_number))
        ltac:(solve_variant).

(** [while delta_end > 254] *)
Definition linetable_long_end : list Z * Z * Z -> list Z * Z * Z :=
  while (fun '(linetable, delta_number, delta_end) => delta_end >? 254)
        (fun '(linetable, delta_number, delta_end) =>
           (linetable ++ [254; Z.land delta_number 255], 0, delta_end - 254))
        (fun '(linetable, delta_number, delta_end) => Z.to_nat delta_end)
        ltac:(solve_variant).

(** The loop body of [make_linetable] from [delta_end = ...] on. *)
Definition linetable_entry (linetable : list Z) (prev_end prev_number : Z) (l : t)
  : result (list Z * Z * Z) :=
  let delta_end := end_ l - prev_end in
  match number l with
  | None => Raise TypeError
  | Some number =>
      let delta_number := number - prev_number in
      let '(linetable, delta_number) :=
        linetable_long_forward (linetable, delta_number) in
      let '(linetable, delta_number) :=
        linetable_long_backward (linetable, delta_number) in
      let '(linetable, delta_number, delta_end) :=
        linetable_long_end (linetable, delta_number, delta_end) in
      let linetable := linetable ++ [delta_end; Z.land delta_number 255] in
      Ok (linetable, end_ l, number)
  end.

(** Generates the line number table used by Python 3.10 to map offsets to
    line numbers.  The loop state is [(linetable, prev_end, prev_number)]. *)
Definition make_linetable (firstlineno : Z) (lines : list t) : result (list Z) :=
  ' (linetable, _, _) <-
    for_each
      (fun '(linetable, prev_end, prev_number) l =>
         let gap :=
           match number l with
           | Some _ => start l - prev_end
           | None => end_ l - prev_end
           end in
         if truthy gap then
           let '(linetable, gap) := linetable_long_gap (linetable, gap) in
           let linetable := linetable ++ [gap; Z.land (-128) 255] in
           let prev_end := prev_end + gap in
           match number l with
           | None => Ok (linetable, prev_end, prev_number)
           | Some _ => linetable_entry linetable prev_end prev_number l
           end
         else linetable_entry linetable prev_end prev_number l)
      lines ([], 0, firstlineno) ;;
  as_bytes linetable.

(** *** The positions table of Python 3.11+ *)

(** [while bytecodes > 0] of the runs without a line (code 15). *)
Definition positions_no_line : list Z * Z -> list Z * Z :=
  while (fun '(linetable, bytecodes) => bytecodes >? 0)
        (fun '(linetable, bytecodes) =>
           (linetable ++ [Z.lor (Z.lor 128 (Z.shiftl 15 3)) (Z.min bytecodes 8 - 1)],
            bytecodes - 8))
        (fun '(linetable, bytecodes) => Z.to_nat bytecodes)
        ltac:(solve_variant).

(** [while bytecodes > 0] of the runs of one line (code 13). *)
Definition positions_line : list Z * Z * Z -> list Z * Z * Z :=
  while (fun '(linetable, line_delta, bytecodes) => bytecodes >? 0)
        (fun '(linetable, line_delta, bytecodes) =>
           (append_svarint
              (linetable ++ [Z.lor (Z.lor 128 (Z.shiftl 13 3)) (Z.min bytecodes 8 - 1)])
              line_delta,
            0, bytecodes - 8))
        (fun '(linetable, line_delta, bytecodes) => Z.to_nat bytecodes)
        ltac:(solve_variant).

(** Generates the positions table used by Python 3.11+ to map offsets to
    line numbers.  The loop state is [(linetable, prev_end, prev_number)]. *)
Definition make_positions (firstlineno : Z) (lines : list t) : result (list Z) :=
  let '(linetable, _, _) :=
    fold_left
      (fun '(linetable, prev_end, prev_number) l =>
         match number l with
         | None =>
             let bytecodes := (end_ l - prev_end) / 2 in
             let '(linetable, _) := positions_no_line (linetable, bytecodes) in
             (linetable, end_ l, prev_number)
         | Some number =>
             let linetable :=
               if prev_end <? start l then
                 let bytecodes := (start l - prev_end) / 2 in
                 fst (positions_no_line (linetable, bytecodes))
               else linetable in
             let line_delta := number - prev_number in
             let bytecodes := (end_ l - start l) / 2 in
             let '(linetable, _, _) :=
               positions_line (linetable, line_delta, bytecodes) in
             (linetable, end_ l, number)
         end)
      lines ([], 0, firstlineno) in
  as_bytes linetable.

End LineEntry.

(** ** The editor *)

(** [data.extend(values)] on a bytearray. *)
Definition extend (data values : list Z) : result (list Z) :=
  values <- as_bytes values ;;
  Ok (data ++ values).

(** [data[i] = v] on a bytearray. *)
Definition setitem (data : list Z) (i v : Z) : result (list Z) :=
  let j := if i <? 0 then i + len data else i in
  if (j <? 0) || (len data <=? j) then Raise IndexError
  else if is_byte v
       then Ok (firstn (Z.to_nat j) data ++ v :: skipn (S (Z.to_nat j)) data)
       else Raise ValueError.

(** [names.index(name)] for a name that is in [names]. *)
Fixpoint index (name : string) (names : list string) : Z :=
  match names with
  | [] => 0
  | n :: names => if String.eqb n name then 0 else 1 + index name names
  end.

Module Editor.
Section WithRuntime.
Context {rt : Runtime}.

Record t : Type := mk {
  orig_code : CodeType object;
  consts : list object;
  branches : list Branch.t;
  ex_table : list ExceptionTableEntry.t;
  lines : list LineEntry.t;
  patch : list Z;
  max_addtl_stack : Z;
  finished : bool
}.

(** [Editor.__init__] *)
Definition init (code : CodeType object) : result t :=
  branches <- Branch.from_code (co_code code) ;;
  ex_table <- (if version_ge PYTHON_VERSION (3, 11)
               then ExceptionTableEntry.from_code (co_exceptiontable code)
               else Ok []) ;;
  Ok (mk code (co_consts code) branches ex_table (LineEntry.from_code code)
         (co_code code) 0 false).

Definition add_const (self : t) (value : object) : Z * t :=
  let consts := consts self ++ [value] in
  (len consts - 1,
   mk (orig_code self) consts (branches self) (ex_table self) (lines self)
      (patch self) (max_addtl_stack self) (finished self)).

(** The three loops that follow every change of the patch:
    [for l in self.lines: l.adjust(offset, length)], and the same for the
    branches and the exception table. *)
Definition adjust_all (self : t) (patch : list Z) (offset length : Z) : t :=
  mk (orig_code self) (consts self)
     (map (fun b => Branch.adjust b offset length) (branches self))
     (map (fun e => ExceptionTableEntry.adjust e offset length) (ex_table self))
     (map (fun l => LineEntry.adjust l offset length) (lines self))
     patch (max_addtl_stack self) (finished self).

(** The call sequence [insert_function_call] builds, before its second byte is
    set.  [function] and the [args] are indices of constants. *)
Definition call_sequence (function : Z) (args : list Z) : result (list Z) :=
  if version_ge PYTHON_VERSION (3, 11) then
    c <- opcode_arg op_LOAD_CONST function 0 ;;
    insert <- extend [] ([op_NOP; 0; op_PUSH_NULL; 0] ++ c) ;;
    insert <- for_each (fun insert a =>
                          c <- opcode_arg op_LOAD_CONST a 0 ;;
                          extend insert c)
                       args insert ;;
    c1 <- opcode_arg op_PRECALL (len args) 0 ;;
    c2 <- opcode_arg op_CALL (len args) 0 ;;
    extend insert (c1 ++ c2 ++ [op_POP_TOP; 0])
  else
    c <- opcode_arg op_LOAD_CONST function 0 ;;
    insert <- extend [] ([op_NOP; 0] ++ c) ;;
    insert <- for_each (fun insert a =>
                          c <- opcode_arg op_LOAD_CONST a 0 ;;
                          extend insert c)
                       args insert ;;
    extend insert [op_CALL_FUNCTION; len args; op_POP_TOP; 0].

(** Returns the length of the inserted sequence, and the editor as it is
    left. *)
Definition insert_function_call (self : t) (offset function : Z) (args : list Z)
  : result (Z * t) :=
  insert <- call_sequence function args ;;
  let len_insert := len insert in
  v <- offset2branch (len_insert - 2) ;;
  insert <- setitem insert 1 v ;;
  s <- calc_max_stack insert ;;
  let self :=
    mk (orig_code self) (consts self) (branches self) (ex_table self) (lines self)
       (patch self) (Z.max (max_addtl_stack self) s) (finished self) in
  let patch := setslice (patch self) offset offset insert in
  Ok (len_insert, adjust_all self patch offset len_insert).

(** The generator [find_load_globals], as the list [list(find_load_globals())]. *)
Definition find_load_globals (self : t) (name_index : Z) : result (list oparg) :=
  for_generated
    (fun found '(op_off, op_len, op, op_arg) =>
       if op =? op_LOAD_GLOBAL then
         if version_ge PYTHON_VERSION (3, 11) then
           if Z.shiftr op_arg 1 =? name_index
           then Ok (found ++ [(op_off, op_len, op, op_arg)]) else Ok found
         else
           if op_arg =? name_index
           then Ok (found ++ [(op_off, op_len, op, op_arg)]) else Ok found
       else Ok found)
    (unpack_opargs (patch self)) [].

(** The body of the loop over the loads found; the state is [(self, delta)]. *)
Definition replace_load (const_index : Z) (st : t * Z) (i : oparg) : result (t * Z) :=
  let '(self, delta) := st in
  let '(op_off, op_len, op, op_arg) := i in
  repl <- (if version_ge PYTHON_VERSION (3, 11) && truthy (Z.land op_arg 1)
           then c <- opcode_arg op_PUSH_NULL 0 0 ;; extend [] c
           else Ok []) ;;
  c <- opcode_arg op_LOAD_CONST const_index 0 ;;
  repl <- extend repl c ;;
  let op_off := op_off + delta in
  let patch := setslice (patch self) op_off (op_off + op_len) repl in
  let change := len repl - op_len in
  let self :=
    if truthy change then adjust_all self patch op_off change
    else mk (orig_code self) (consts self) (branches self) (ex_table self)
            (lines self) patch (max_addtl_stack self) (finished self) in
  Ok (self, delta + change).

Definition replace_global_with_const (self : t) (global_name : string)
  (const_index : Z) : result t :=
  if existsb (String.eqb global_name) (co_names (orig_code self)) then
    let name_index := index global_name (co_names (orig_code self)) in
    found <- find_load_globals self name_index ;;
    ' (self, _) <- for_each (replace_load const_index) found (self, 0) ;;
    Ok self
  else Ok self.

Definition set_branches (self : t) (branches : list Branch.t) : t :=
  mk (orig_code self) (consts self) branches (ex_table self) (lines self)
     (patch self) (max_addtl_stack self) (finished self).

(** What the growth of the branch at [b_offset] by [change] bytes does to the
    patch, the lines and the exception table. *)
Definition grow (self : t) (b_offset change : Z) : t :=
  mk (orig_code self) (consts self) (branches self)
     (map (fun e => ExceptionTableEntry.adjust e b_offset change) (ex_table self))
     (map (fun l => LineEntry.adjust l b_offset change) (lines self))
     (setslice (patch self) b_offset b_offset (repeat_list [0] change))
     (max_addtl_stack self) (finished self).

(** The loop [for b in self.branches] inside the [while] loop of [finish]:
    [done] are the branches already visited and [todo] those still to visit,
    and the branches of the editor are [done ++ todo], whatever the field of
    [self] says meanwhile; the branches [c] with [b != c] are all the other
    elements of that list. *)
Equations? adjust_lengths (self : t) (done todo : list Branch.t) (any_adjusted : bool)
  : result (t * bool) by wf (List.length todo) lt :=
  adjust_lengths self done [] any_adjusted :=
    Ok (set_branches self done, any_adjusted);
  adjust_lengths self done (b :: todo) any_adjusted with Branch.adjust_length b => {
    | Raise e => Raise e
    | Ok (change, b') with truthy change => {
        | true =>
            let others c := Branch.adjust c (Branch.offset b') change in
            adjust_lengths (grow self (Branch.offset b') change)
                           (map others done ++ [b']) (map others todo) true
        | false => adjust_lengths self (done ++ [b']) todo any_adjusted } }.
Proof. all: cbn; rewrite ?length_map; lia. Qed.

(** The [while any_adjusted] loop of [finish], for at most [fuel] turns:
    [None] when the loop has not ended by then. *)
Fixpoint stabilize (fuel : nat) (self : t) : option (result t) :=
  match fuel with
  | O => None
  | S fuel =>
      match adjust_lengths self [] (branches self) false with
      | Raise e => Some (Raise e)
      | Ok (self, any_adjusted) =>
          if any_adjusted then stabilize fuel self else Some (Ok self)
      end
  end.

(** The loop of [finish] that writes every branch into the patch. *)
Definition emit_branches (self : t) : result (list Z) :=
  for_each
    (fun patch b =>
       op <- getitem patch (Branch.offset b + Branch.length b - 2) ;;
       assert (op =? Branch.opcode b) ;;
       c <- Branch.code b ;;
       c <- as_bytes c ;;
       Ok (setslice patch (Branch.offset b) (Branch.offset b + Branch.length b) c))
    (branches self) (patch self).

(** [finish], with a bound on the turns of its [while] loop: [None] when the
    loop has not ended within [fuel] turns, otherwise the rewritten code
    object and the editor as it is left, or the exception raised. *)
Definition finish (fuel : nat) (self : t) : option (result (CodeType object * t)) :=
  if finished self then Some (Raise AssertionError)
  else
    match stabilize fuel self with
    | None => None
    | Some (Raise e) => Some (Raise e)
    | Some (Ok self) =>
        Some (
          patched <- emit_branches self ;;
          ' (co_lnotab, co_linetable, co_exceptiontable) <-
            (if version_lt PYTHON_VERSION (3, 10) then
               b <- LineEntry.make_lnotab (co_firstlineno (orig_code self)) (lines self) ;;
               Ok (Some b, None, None)
             else if version_eq PYTHON_VERSION (3, 10) then
               b <- LineEntry.make_linetable (co_firstlineno (orig_code self)) (lines self) ;;
               Ok (None, Some b, None)
             else
               b <- LineEntry.make_positions (co_firstlineno (orig_code self)) (lines self) ;;
               e <- ExceptionTableEntry.make_exceptiontable (ex_table self) ;;
               Ok (None, Some b, Some e)) ;;
          let self :=
            mk (orig_code self) (consts self) (branches self) (ex_table self)
               (lines self) patched (max_addtl_stack self) true in
          code <- replace (orig_code self)
                    (Build_ReplaceArgs (patch self)
                       (co_stacksize (orig_code self) + max_addtl_stack self)
                       (consts self) co_lnotab co_linetable co_exceptiontable) ;;
          Ok (code, self))
    end.

End WithRuntime.
End Editor.

(** ** Interpreters to run the model on

    The opcode numbers are those of CPython for the opcodes that occur in the
    examples; every other opcode has the name [dis] gives to an opcode that is
    not defined. *)

Module Sample.

Definition opnames (named : list (Z * string)) : list string :=
  map (fun op =>
         match find (fun e => fst e =? op) named with
         | Some e => snd e
         | None => "<unknown>"%string
         end)
      (range 256).

Definition replace_fields (code : CodeType Z) (kw : ReplaceArgs Z)
  : result (CodeType Z) :=
  Ok {| co_code := kw_co_code _ kw;
        co_consts := kw_co_consts _ kw;
        co_names := co_names code;
        co_firstlineno := co_firstlineno code;
        co_stacksize := kw_co_stacksize _ kw;
        co_exceptiontable :=
          match kw_co_exceptiontable _ kw with
          | Some b => b
          | None => co_exceptiontable code
          end;
        co_lnotab :=
          match kw_co_lnotab _ kw with Some b => b | None => co_lnotab code end;
        co_linetable :=
          match kw_co_linetable _ kw with Some b => b | None => co_linetable code end |}.

(** One line, the first, for the whole of a function that has code. *)
Definition one_line (code : CodeType Z) : list (Z * option Z) :=
  match co_code code with
  | [] => []
  | _ => [(0, Some (co_firstlineno code))]
  end.

Definition dis39 : Dis := {|
  EXTENDED_ARG := 144;
  EXTENDED_ARG_QUICK := 144;
  HAVE_ARGUMENT := 90;
  LOAD_CONST := 100;
  LOAD_GLOBAL := 116;
  PUSH_NULL := 2;
  PRECALL := 166;
  CALL := 171;
  CACHE := 0;
  CALL_FUNCTION := 131;
  POP_TOP := 1;
  JUMP_FORWARD := 110;
  NOP := 9;
  hasjrel := [93; 110; 122; 143; 154];
  hasjabs := [111; 112; 113; 114; 115; 121];
  opname := opnames [(1, "POP_TOP"%string); (9, "NOP"%string); (83, "RETURN_VALUE"%string);
                     (93, "FOR_ITER"%string); (100, "LOAD_CONST"%string); (110, "JUMP_FORWARD"%string);
                     (113, "JUMP_ABSOLUTE"%string); (114, "POP_JUMP_IF_FALSE"%string);
                     (115, "POP_JUMP_IF_TRUE"%string); (116, "LOAD_GLOBAL"%string);
                     (131, "CALL_FUNCTION"%string); (144, "EXTENDED_ARG"%string)];
  _inline_cache_entries := [];
  stack_effect := fun op arg =>
    if op =? 100 then Ok 1
    else if op =? 116 then Ok 1
    else if op =? 1 then Ok (-1)
    else if op =? 131 then Ok (- match arg with Some a => a | None => 0 end)
    else Ok 0
|}.

Definition dis311 : Dis := {|
  EXTENDED_ARG := 144;
  EXTENDED_ARG_QUICK := 187;
  HAVE_ARGUMENT := 90;
  LOAD_CONST := 100;
  LOAD_GLOBAL := 116;
  PUSH_NULL := 2;
  PRECALL := 166;
  CALL := 171;
  CACHE := 0;
  CALL_FUNCTION := 131;
  POP_TOP := 1;
  JUMP_FORWARD := 110;
  NOP := 9;
  hasjrel := [93; 110; 111; 112; 114; 115; 123; 128; 129; 134; 140; 173; 174; 175; 176];
  hasjabs := [];
  opname := opnames [(0, "CACHE"%string); (1, "POP_TOP"%string); (2, "PUSH_NULL"%string); (9, "NOP"%string);
                     (83, "RETURN_VALUE"%string); (93, "FOR_ITER"%string); (100, "LOAD_CONST"%string);
                     (110, "JUMP_FORWARD"%string); (114, "POP_JUMP_FORWARD_IF_FALSE"%string);
                     (115, "POP_JUMP_FORWARD_IF_TRUE"%string); (116, "LOAD_GLOBAL"%string);
                     (140, "JUMP_BACKWARD"%string); (144, "EXTENDED_ARG"%string);
                     (166, "PRECALL"%string); (171, "CALL"%string);
                     (175, "POP_JUMP_BACKWARD_IF_FALSE"%string);
                     (176, "POP_JUMP_BACKWARD_IF_TRUE"%string)];
  _inline_cache_entries :=
    map (fun op => if op =? 116 then 5 else if op =? 166 then 1
                   else if op =? 171 then 4 else 0)
        (range 256);
  stack_effect := fun op arg =>
    if op =? 100 then Ok 1
    else if op =? 116 then Ok 1
    else if op =? 2 then Ok 1
    else if op =? 1 then Ok (-1)
    else if op =? 166 then Ok (- match arg with Some a => a | None => 0 end)
    else if op =? 171 then Ok (-1)
    else Ok 0
|}.

Definition py39 : Runtime := {|
  PYTHON_VERSION := (3, 9);
  dis := dis39;
  object := Z;
  findlinestarts := one_line;
  replace := replace_fields
|}.

Definition py310 : Runtime := {|
  PYTHON_VERSION := (3, 10);
  dis := dis39;
  object := Z;
  findlinestarts := one_line;
  replace := replace_fields
|}.

Definition py311 : Runtime := {|
  PYTHON_VERSION := (3, 11);
  dis := dis311;
  object := Z;
  findlinestarts := one_line;
  replace := replace_fields
|}.

(** Ten instructions, the third of which (at offset 4) branches forward to
    the ninth (at offset 16): five words in the relative encoding of 3.11. *)
Definition forward_branch_code : CodeType Z := {|
  co_code := [100; 0; 100; 0; 114; 5; 9; 0; 9; 0; 9; 0; 9; 0; 9; 0; 100; 0; 83; 0];
  co_consts := [0];
  co_names := ["print"%string];
  co_firstlineno := 1;
  co_stacksize := 2;
  co_exceptiontable := [];
  co_lnotab := [];
  co_linetable := []
|}.

(** The editor [Editor(forward_branch_code)] under 3.11. *)
Definition forward_branch_editor : @Editor.t py311 :=
  @Editor.mk py311 forward_branch_code [0] [Branch.mk 4 2 114 true false 16] []
             [LineEntry.mk 0 20 (Some 1)] (co_code forward_branch_code) 0 false.

(** An editor under 3.9 whose one branch, two bytes long, jumps to the
    absolute offset 2^32. *)
Definition far_branch_editor : @Editor.t py39 :=
  @Editor.mk py39 forward_branch_code [0] [Branch.mk 0 2 113 false false 4294967296]
             [] [] [113; 0] 0 false.

End Sample.

(** * Properties *)

(** ** The model on small inputs *)

Example arg_ext_needed_values :
  map arg_ext_needed [0; 255; 256; 65535; 65536; 16777216; 4294967296; -1]
  = [-1; 0; 1; 1; 2; 3; 4; 0].
Proof. reflexivity. Qed.

Example opcode_arg_with_prefix :
  opcode_arg (rt := Sample.py39) 113 300 0 = Ok [144; 1; 113; 44].
Proof. reflexivity. Qed.

Example opcode_arg_with_caches :
  opcode_arg (rt := Sample.py311) 171 1 0 = Ok [171; 1; 0; 0; 0; 0; 0; 0; 0; 0].
Proof. reflexivity. Qed.

Example unpack_opargs_with_prefix :
  unpack_opargs (rt := Sample.py39) [144; 1; 113; 44; 100; 0]
  = ([(0, 4, 113, 300); (4, 2, 100, 0)], None).
Proof. reflexivity. Qed.

Example unpack_opargs_skips_caches :
  unpack_opargs (rt := Sample.py311) [171; 1; 0; 0; 0; 0; 0; 0; 0; 0; 1; 0]
  = ([(0, 10, 171, 1); (10, 2, 1, 0)], None).
Proof. reflexivity. Qed.

Example unpack_opargs_truncated :
  unpack_opargs (rt := Sample.py39) [100; 0; 83]
  = ([(0, 2, 100, 0)], Some IndexError).
Proof. reflexivity. Qed.

Example offset2branch_by_version :
  offset2branch (rt := Sample.py310) 7 = Raise AssertionError /\
  offset2branch (rt := Sample.py310) 8 = Ok 4 /\
  offset2branch (rt := Sample.py39) 7 = Ok 7.
Proof. repeat split. Qed.

Example calc_max_stack_of_call :
  calc_max_stack (rt := Sample.py39) [9; 6; 100; 0; 100; 1; 131; 1; 1; 0] = Ok 2.
Proof. reflexivity. Qed.

Example make_lnotab_sample :
  LineEntry.make_lnotab 1
    [LineEntry.mk 0 4 (Some 1); LineEntry.mk 4 10 (Some 3); LineEntry.mk 10 300 (Some 2)]
  = Ok [4; 2; 6; 255].
Proof. reflexivity. Qed.

Example make_linetable_sample :
  LineEntry.make_linetable 1
    [LineEntry.mk 0 4 (Some 1); LineEntry.mk 4 10 (Some 3); LineEntry.mk 10 300 None]
  = Ok [4; 0; 6; 2; 254; 128; 36; 128].
Proof. reflexivity. Qed.

Example make_positions_sample :
  LineEntry.make_positions 1
    [LineEntry.mk 0 4 (Some 1); LineEntry.mk 4 10 (Some 3); LineEntry.mk 10 30 None]
  = Ok [233; 0; 234; 4; 255; 249].
Proof. reflexivity. Qed.


(** [new] is [old] increased by [length] if, and only if, [P] holds: the
    increase is made when [P] holds and the value is left alone when it does
    not; for a positive [length] the outcome alone tells which was the case. *)
Definition increased_iff (old new length : Z) (P : Prop) : Prop :=
  (P -> new = old + length) /\
  (~ P -> new = old) /\
  (0 < length -> (new = old + length <-> P)).

Lemma increased_iff_intro (old new length : Z) (P : Prop) (b : bool) :
  (b = true <-> P) ->
  new = (if b then old + length else old) ->
  increased_iff old new length P.
Proof.
  intros Hb ->. unfold increased_iff. destruct b.
  - assert (P) by now apply Hb. intuition.
  - assert (~ P) by (intros HP; apply Hb in HP; discriminate).
    repeat split; intros; try tauto; lia.
Qed.

(** ** Adjusting after an insertion *)

Lemma exception_entry_adjust_fields (e : ExceptionTableEntry.t) (off n : Z) :
  ExceptionTableEntry.adjust e off n =
  ExceptionTableEntry.mk
    (if off <=? ExceptionTableEntry.start e
     then ExceptionTableEntry.start e + n else ExceptionTableEntry.start e)
    (if off <? ExceptionTableEntry.end_ e
     then ExceptionTableEntry.end_ e + n else ExceptionTableEntry.end_ e)
    (if off <? ExceptionTableEntry.target e
     then ExceptionTableEntry.target e + n else ExceptionTableEntry.target e)
    (ExceptionTableEntry.other e).
Proof.
  destruct e as [s en t o]. unfold ExceptionTableEntry.adjust. cbn.
  destruct (off <=? s); cbn; destruct (off <? en); cbn; destruct (off <? t);
    reflexivity.
Qed.

Lemma line_entry_adjust_fields (l : LineEntry.t) (off n : Z) :
  LineEntry.adjust l off n =
  LineEntry.mk
    (if LineEntry.start l >? off then LineEntry.start l + n else LineEntry.start l)
    (if LineEntry.end_ l >? off then LineEntry.end_ l + n else LineEntry.end_ l)
    (LineEntry.number l).
Proof.
  destruct l as [s en k]. unfold LineEntry.adjust. cbn.
  destruct (s >? off); cbn; destruct (en >? off); reflexivity.
Qed.

Lemma branch_adjust_fields (b : Branch.t) (off n : Z) :
  Branch.adjust b off n =
  Branch.mk
    (if Branch.offset b >=? off then Branch.offset b + n else Branch.offset b)
    (Branch.length b) (Branch.opcode b) (Branch.is_relative b) (Branch.is_backward b)
    (if Branch.target b >? off then Branch.target b + n else Branch.target b).
Proof.
  destruct b as [o l op r bw t]. unfold Branch.adjust. cbn.
  destruct (o >=? off); cbn; destruct (t >? off); reflexivity.
Qed.

Lemma geb_ge (a b : Z) : (a >=? b) = true <-> a >= b.
Proof. rewrite Z.geb_leb, Z.leb_le. lia. Qed.

Lemma gtb_gt (a b : Z) : (a >? b) = true <-> a > b.
Proof. rewrite Z.gtb_ltb, Z.ltb_lt. lia. Qed.

(** C1. After [e.adjust(insert_offset, insert_length)] with a non-negative
    length, [start] is increased by the length iff [insert_offset <= start],
    [end] iff [insert_offset < end] and [target] iff [insert_offset < target]
    ([other] is kept); so the size [end - start] of a region with
    [start < end] is increased by the length iff
    [start < insert_offset < end].  For the entry with start 4, end 20 and
    target 20, an insertion at 4 shifts the start, the end and the target
    alike: the region is moved behind the bytes inserted and keeps its size,
    it is not extended.  An insertion at 20 leaves end and target where they
    were. *)
Theorem exception_entry_adjust_boundaries
  (e : ExceptionTableEntry.t) (insert_offset insert_length : Z) :
  0 <= insert_length ->
  let e' := ExceptionTableEntry.adjust e insert_offset insert_length in
  increased_iff (ExceptionTableEntry.start e) (ExceptionTableEntry.start e')
                insert_length (insert_offset <= ExceptionTableEntry.start e) /\
  increased_iff (ExceptionTableEntry.end_ e) (ExceptionTableEntry.end_ e')
                insert_length (insert_offset < ExceptionTableEntry.end_ e) /\
  increased_iff (ExceptionTableEntry.target e) (ExceptionTableEntry.target e')
                insert_length (insert_offset < ExceptionTableEntry.target e) /\
  ExceptionTableEntry.other e' = ExceptionTableEntry.other e /\
  (forall other,
      ExceptionTableEntry.start
        (ExceptionTableEntry.adjust (ExceptionTableEntry.mk 4 20 20 other)
                                    4 insert_length) = 4 + insert_length /\
      ExceptionTableEntry.end_
        (ExceptionTableEntry.adjust (ExceptionTableEntry.mk 4 20 20 other)
                                    20 insert_length) = 20 /\
      ExceptionTableEntry.target
        (ExceptionTableEntry.adjust (ExceptionTableEntry.mk 4 20 20 other)
                                    20 insert_length) = 20 /\
      ExceptionTableEntry.adjust (ExceptionTableEntry.mk 4 20 20 other)
                                 4 insert_length
      = ExceptionTableEntry.mk (4 + insert_length) (20 + insert_length)
                               (20 + insert_length) other) /\
  (ExceptionTableEntry.start e < ExceptionTableEntry.end_ e ->
   increased_iff (ExceptionTableEntry.end_ e - ExceptionTableEntry.start e)
                 (ExceptionTableEntry.end_ e' - ExceptionTableEntry.start e')
                 insert_length
                 (ExceptionTableEntry.start e < insert_offset
                  < ExceptionTableEntry.end_ e)).
Proof.
  intros _ e'. subst e'. rewrite exception_entry_adjust_fields. cbn.
  split; [| split; [| split; [| split; [| split]]]].
  - apply increased_iff_intro with (b := insert_offset <=? ExceptionTableEntry.start e);
      [apply Z.leb_le | reflexivity].
  - apply increased_iff_intro with (b := insert_offset <? ExceptionTableEntry.end_ e);
      [apply Z.ltb_lt | reflexivity].
  - apply increased_iff_intro with (b := insert_offset <? ExceptionTableEntry.target e);
      [apply Z.ltb_lt | reflexivity].
  - reflexivity.
  - intros other. repeat split.
  - intros Hlt. unfold increased_iff.
    destruct (Z.leb_spec insert_offset (ExceptionTableEntry.start e));
      destruct (Z.ltb_spec insert_offset (ExceptionTableEntry.end_ e));
      repeat split; intros; lia.
Qed.

Lemma exception_entry_adjust_boundaries_witness :
  let e := ExceptionTableEntry.mk 4 20 20 1 in
  ExceptionTableEntry.adjust e 4 12 = ExceptionTableEntry.mk 16 32 32 1 /\
  ExceptionTableEntry.start (ExceptionTableEntry.adjust e 4 12) = 4 + 12 /\
  ExceptionTableEntry.end_ (ExceptionTableEntry.adjust e 20 12) = 20 /\
  ExceptionTableEntry.end_ (ExceptionTableEntry.adjust e 4 12)
  - ExceptionTableEntry.start (ExceptionTableEntry.adjust e 4 12) = 20 - 4.
Proof.
  pose proof (exception_entry_adjust_boundaries
                (ExceptionTableEntry.mk 4 20 20 1) 4 12 ltac:(lia)) as H.
  destruct H as (_ & _ & _ & _ & H & Hsize).
  destruct (H 1) as (Hs & He & _ & Hall).
  split; [exact Hall |]. split; [exact Hs |]. split; [exact He |].
  destruct (Hsize ltac:(cbn; lia)) as (_ & Hkeep & _).
  apply Hkeep. cbn. lia.
Defined.

(** C1 as stated has the region extend when the insertion is at its start.
    The entry with start 4, end 20 and target 20 becomes, after 12 bytes are
    inserted at 4, the entry with start 16, end 32 and target 32: the region
    has the 16 bytes it had, and the 12 bytes inserted lie before it.  It is
    an insertion behind the start, at 6 say, that extends the region. *)
Lemma exception_region_moves_at_its_start :
  let e := ExceptionTableEntry.mk 4 20 20 1 in
  let e' := ExceptionTableEntry.adjust e 4 12 in
  e' = ExceptionTableEntry.mk 16 32 32 1 /\
  ExceptionTableEntry.end_ e' - ExceptionTableEntry.start e'
  = ExceptionTableEntry.end_ e - ExceptionTableEntry.start e /\
  4 + 12 <= ExceptionTableEntry.start e' /\
  ExceptionTableEntry.adjust e 6 12 = ExceptionTableEntry.mk 4 32 32 1.
Proof. vm_compute. repeat split; discriminate. Qed.

(** C3. After [l.adjust(insert_offset, insert_length)] with a non-negative
    length, [start] is increased by the length iff [start > insert_offset] and
    [end] iff [end > insert_offset], both strict ([number] is kept).  A line
    that starts at the insertion point keeps its start, where an exception
    table entry that starts there has its start shifted. *)
Theorem line_entry_adjust_strict
  (l : LineEntry.t) (insert_offset insert_length : Z) :
  0 <= insert_length ->
  let l' := LineEntry.adjust l insert_offset insert_length in
  increased_iff (LineEntry.start l) (LineEntry.start l')
                insert_length (LineEntry.start l > insert_offset) /\
  increased_iff (LineEntry.end_ l) (LineEntry.end_ l')
                insert_length (LineEntry.end_ l > insert_offset) /\
  LineEntry.number l' = LineEntry.number l /\
  (LineEntry.start l = insert_offset ->
   LineEntry.start l' = LineEntry.start l /\
   forall e : ExceptionTableEntry.t,
     ExceptionTableEntry.start e = insert_offset ->
     ExceptionTableEntry.start
       (ExceptionTableEntry.adjust e insert_offset insert_length)
     = ExceptionTableEntry.start e + insert_length).
Proof.
  intros _ l'. subst l'. rewrite line_entry_adjust_fields. cbn.
  split; [| split; [| split]].
  - apply increased_iff_intro with (b := LineEntry.start l >? insert_offset);
      [apply gtb_gt | reflexivity].
  - apply increased_iff_intro with (b := LineEntry.end_ l >? insert_offset);
      [apply gtb_gt | reflexivity].
  - reflexivity.
  - intros E. split.
    + destruct (gtb_gt (LineEntry.start l) insert_offset) as [H _].
      destruct (LineEntry.start l >? insert_offset); [specialize (H eq_refl); lia |].
      reflexivity.
    + intros e Ee. rewrite exception_entry_adjust_fields. cbn.
      destruct (Z.leb_spec insert_offset (ExceptionTableEntry.start e)); [reflexivity | lia].
Qed.

Lemma line_entry_adjust_strict_witness :
  LineEntry.start (LineEntry.adjust (LineEntry.mk 4 20 (Some 7)) 4 12) = 4 /\
  LineEntry.end_ (LineEntry.adjust (LineEntry.mk 4 20 (Some 7)) 4 12) = 32 /\
  ExceptionTableEntry.start
    (ExceptionTableEntry.adjust (ExceptionTableEntry.mk 4 20 20 0) 4 12) = 16.
Proof.
  pose proof (line_entry_adjust_strict (LineEntry.mk 4 20 (Some 7)) 4 12 ltac:(lia))
    as (_ & (He & _) & _ & Hs).
  destruct (Hs eq_refl) as [Hl Hx].
  split; [exact Hl |].
  split; [apply He; cbn; lia |].
  exact (Hx (ExceptionTableEntry.mk 4 20 20 0) eq_refl).
Defined.

Lemma setslice_at_0 {A : Type} (l repl : list A) :
  setslice l 0 0 repl = repl ++ l.
Proof.
  unfold setslice, slice_index. cbn.
  assert (Z.min 0 (len l) = 0) as -> by (unfold len; lia).
  reflexivity.
Qed.

Lemma bind_Ok {A B : Type} (m : result A) (k : A -> result B) (b : B) :
  bind m k = Ok b -> exists a, m = Ok a /\ k a = Ok b.
Proof. destruct m as [a | e]; cbn; [eauto | discriminate]. Qed.

Ltac inv_bind H :=
  let a := fresh "a" in
  let E := fresh "E" in
  apply bind_Ok in H; destruct H as (a & E & H).

Lemma insert_function_call_effect {rt : Runtime}
  (self self' : Editor.t) (offset function : Z) (args : list Z) (n : Z) :
  Editor.insert_function_call self offset function args = Ok (n, self') ->
  exists insert,
    len insert = n /\
    Editor.patch self' = setslice (Editor.patch self) offset offset insert /\
    Editor.branches self' = map (fun b => Branch.adjust b offset n) (Editor.branches self) /\
    Editor.ex_table self' =
      map (fun e => ExceptionTableEntry.adjust e offset n) (Editor.ex_table self) /\
    Editor.lines self' = map (fun l => LineEntry.adjust l offset n) (Editor.lines self).
Proof.
  unfold Editor.insert_function_call. intros H.
  inv_bind H. inv_bind H. inv_bind H. inv_bind H.
  injection H as <- <-. exists a1. cbn.
  assert (len a1 = len a) as ->; [| repeat split].
  unfold setitem in E1. change (1 <? 0) with false in E1. cbn in E1.
  destruct (Z.leb_spec (len a) 1) as [Hle | Hgt]; [discriminate |].
  destruct (is_byte a0); [| discriminate].
  injection E1 as <-.
  destruct a as [| x [| y a]]; unfold len in *; cbn in *; try lia.
Qed.

(** C2. After [b.adjust(insert_offset, insert_length)] with a non-negative
    length, [offset] is increased by the length iff [offset >= insert_offset]
    and, independently, [target] iff [target > insert_offset]; length and
    opcode are kept.  So when [insert_function_call] inserts its sequence at
    offset 0, every branch that lies in the code and jumps forward has its
    target shifted by exactly the length of the inserted sequence, the number
    the call returns and the number of bytes the patch grows by. *)
Theorem branch_adjust_boundaries {rt : Runtime}
  (b : Branch.t) (insert_offset insert_length : Z) :
  0 <= insert_length ->
  let b' := Branch.adjust b insert_offset insert_length in
  increased_iff (Branch.offset b) (Branch.offset b')
                insert_length (Branch.offset b >= insert_offset) /\
  increased_iff (Branch.target b) (Branch.target b')
                insert_length (Branch.target b > insert_offset) /\
  Branch.length b' = Branch.length b /\
  Branch.opcode b' = Branch.opcode b /\
  (forall (self self' : Editor.t) (function : Z) (args : list Z) (n : Z),
      Editor.insert_function_call self 0 function args = Ok (n, self') ->
      (exists insert, len insert = n /\
                      Editor.patch self' = insert ++ Editor.patch self) /\
      Editor.branches self' = map (fun c => Branch.adjust c 0 n) (Editor.branches self) /\
      forall c, 0 <= Branch.offset c < Branch.target c ->
                Branch.target (Branch.adjust c 0 n) = Branch.target c + n /\
                Branch.opcode (Branch.adjust c 0 n) = Branch.opcode c).
Proof.
  intros _ b'. subst b'. rewrite branch_adjust_fields. cbn.
  split; [| split; [| split; [| split]]]; try reflexivity.
  - apply increased_iff_intro with (b := Branch.offset b >=? insert_offset);
      [apply geb_ge | reflexivity].
  - apply increased_iff_intro with (b := Branch.target b >? insert_offset);
      [apply gtb_gt | reflexivity].
  - intros self self' function args n H.
    apply insert_function_call_effect in H.
    destruct H as (insert & Hn & Hp & Hb & _).
    split; [| split].
    + exists insert. split; [exact Hn |]. rewrite Hp. apply setslice_at_0.
    + exact Hb.
    + intros c Hc. rewrite branch_adjust_fields. cbn. split; [| reflexivity].
      destruct (gtb_gt (Branch.target c) 0) as [_ H].
      rewrite H by lia. reflexivity.
Qed.

Lemma branch_adjust_boundaries_witness :
  Editor.init (rt := Sample.py311) Sample.forward_branch_code
    = Ok Sample.forward_branch_editor /\
  exists self',
    Editor.insert_function_call (rt := Sample.py311)
      Sample.forward_branch_editor 0 0 [] = Ok (22, self') /\
    len (Editor.patch self') = len (Editor.patch Sample.forward_branch_editor) + 22 /\
    Editor.branches self' = [Branch.mk 26 2 114 true false 38].
Proof.
  split; [vm_compute; reflexivity |].
  destruct (Editor.insert_function_call (rt := Sample.py311)
              Sample.forward_branch_editor 0 0 []) as [[n self'] | e] eqn:E;
    [| vm_compute in E; discriminate].
  assert (n = 22) as -> by (vm_compute in E; congruence).
  exists self'. split; [reflexivity |].
  pose proof (branch_adjust_boundaries (rt := Sample.py311)
                (Branch.mk 4 2 114 true false 16) 0 22 ltac:(lia)) as H.
  destruct H as (_ & _ & _ & _ & H).
  destruct (H _ _ _ _ _ E) as ((insert & Hn & Hp) & Hb & _).
  split.
  - rewrite Hp. unfold len in *. rewrite length_app. lia.
  - rewrite Hb. reflexivity.
Defined.

(** ** Growing a branch *)

(** C6. [adjust_length] returns [max(0, (2 + 2*arg_ext_needed(arg)) - length)]
    for the argument [arg] the branch has.  When that growth is positive, the
    length becomes exactly [2 + 2*arg_ext_needed(arg)], and the target is
    increased by the growth iff it lies strictly after the offset; when it is
    zero, the branch is left as it was.  The offset never changes and the
    length never decreases.  (Where [arg] raises, so does [adjust_length].) *)
Theorem adjust_length_growth {rt : Runtime} (b : Branch.t) :
  (forall a, Branch.arg b = Ok a ->
     let length_needed := 2 + 2 * arg_ext_needed a in
     let change := Z.max 0 (length_needed - Branch.length b) in
     exists b',
       Branch.adjust_length b = Ok (change, b') /\
       (0 < change ->
        Branch.length b' = length_needed /\
        increased_iff (Branch.target b) (Branch.target b') change
                      (Branch.target b > Branch.offset b)) /\
       (change = 0 -> b' = b) /\
       Branch.offset b' = Branch.offset b /\
       Branch.opcode b' = Branch.opcode b /\
       Branch.length b <= Branch.length b') /\
  (forall e, Branch.arg b = Raise e -> Branch.adjust_length b = Raise e).
Proof.
  split.
  - intros a Ha length_needed change.
    unfold Branch.adjust_length. rewrite Ha. cbn [bind].
    fold length_needed. fold change.
    unfold truthy. destruct (Z.eqb_spec change 0) as [E0 | Hne]; cbn [negb].
    + exists b. split; [reflexivity |].
      split; [intros; lia |]. split; [reflexivity |]. repeat split; lia.
    + eexists. split; [reflexivity |].
      assert (0 < change) by (subst change; lia).
      destruct b as [o l op r bw t]; cbn in *.
      split; [| split; [| split; [| split]]].
      * intros _. split.
        -- destruct (t >? o); reflexivity.
        -- apply increased_iff_intro with (b := t >? o); [apply gtb_gt |].
           destruct (t >? o); reflexivity.
      * intros; lia.
      * destruct (t >? o); reflexivity.
      * destruct (t >? o); reflexivity.
      * destruct (t >? o); cbn; subst change; lia.
  - intros e He. unfold Branch.adjust_length. rewrite He. reflexivity.
Qed.

Lemma adjust_length_growth_witness :
  Branch.adjust_length (rt := Sample.py39) (Branch.mk 4 2 113 false false 300)
  = Ok (2, Branch.mk 4 4 113 false false 302).
Proof.
  destruct (adjust_length_growth (rt := Sample.py39)
              (Branch.mk 4 2 113 false false 300)) as [H _].
  destruct (H 300 eq_refl) as (b' & E & Hpos & _ & Ho & Hop & _).
  rewrite E. f_equal. f_equal.
  destruct (Hpos ltac:(vm_compute; reflexivity)) as (Hl & Ht & _).
  specialize (Ht ltac:(cbn; lia)).
  destruct b' as [o l op r bw t]. cbn in *.
  vm_compute in E. congruence.
Defined.

(** ** The editor's life cycle *)

(** C8. A call of [finish] that returns was made on an unfinished editor and
    leaves the finished flag set, and any later call of [finish] on that
    editor fails the assertion instead of emitting a code object again;
    [finish] never returns normally on an editor whose flag is set.  (The
    bound on the turns of the loop plays no part in it.) *)
Theorem finish_is_terminal {rt : Runtime} (fuel : nat) (self : Editor.t) :
  (Editor.finished self = true ->
   Editor.finish fuel self = Some (Raise AssertionError)) /\
  (forall code self',
      Editor.finish fuel self = Some (Ok (code, self')) ->
      Editor.finished self = false /\
      Editor.finished self' = true /\
      forall fuel', Editor.finish fuel' self' = Some (Raise AssertionError)).
Proof.
  split.
  - intros Hf. unfold Editor.finish. rewrite Hf. reflexivity.
  - intros code self' H. unfold Editor.finish in H.
    destruct (Editor.finished self) eqn:Hf; [discriminate |].
    split; [reflexivity |].
    assert (Editor.finished self' = true) as Hf'.
    { destruct (Editor.stabilize fuel self) as [[s | e] |]; try discriminate.
      injection H as H.
      inv_bind H. inv_bind H. destruct a0 as [[lnotab linetable] exctable].
      inv_bind H. injection H as _ <-. reflexivity. }
    split; [exact Hf' |].
    intros fuel'. unfold Editor.finish. rewrite Hf'. reflexivity.
Qed.

Lemma finish_is_terminal_witness :
  exists code self',
    Editor.finish (rt := Sample.py311) 1 Sample.forward_branch_editor
      = Some (Ok (code, self')) /\
    Editor.finished self' = true /\
    Editor.finish (rt := Sample.py311) 1 self' = Some (Raise AssertionError).
Proof.
  destruct (Editor.finish (rt := Sample.py311) 1 Sample.forward_branch_editor)
    as [[[code self'] | e] |] eqn:E; try (vm_compute in E; discriminate).
  exists code, self'. split; [reflexivity |].
  destruct (finish_is_terminal (rt := Sample.py311) 1 Sample.forward_branch_editor)
    as [_ H].
  destruct (H code self' E) as (_ & Hf & Hagain).
  split; [exact Hf | exact (Hagain 1%nat)].
Defined.

(** C10. For a name that is not in the [co_names] of the original code
    object, [replace_global_with_const] returns with the editor exactly as it
    was (patch, branches, lines, exception table, constants, additional stack
    and finished flag), whatever the constant index. *)
Theorem replace_unknown_global_is_noop {rt : Runtime}
  (self : Editor.t) (global_name : string) (const_index : Z) :
  ~ In global_name (co_names (Editor.orig_code self)) ->
  Editor.replace_global_with_const self global_name const_index = Ok self.
Proof.
  intros Hnot. unfold Editor.replace_global_with_const.
  destruct (existsb (String.eqb global_name) (co_names (Editor.orig_code self)))
    eqn:E; [| reflexivity].
  apply existsb_exists in E. destruct E as (x & Hin & Heq).
  apply String.eqb_eq in Heq. subst x. contradiction.
Qed.

Lemma replace_unknown_global_is_noop_witness :
  Editor.replace_global_with_const (rt := Sample.py311)
    Sample.forward_branch_editor "len"%string 0
  = Ok Sample.forward_branch_editor.
Proof.
  apply (replace_unknown_global_is_noop (rt := Sample.py311)).
  cbn. intros [H | []]. discriminate H.
Defined.

(** ** Variable-length integers *)

Lemma bit_length_log2 (n : Z) : 0 < n -> bit_length n = Z.log2 n + 1.
Proof.
  destruct n as [| p | p]; try lia. intros _.
  destruct p; cbn; lia.
Qed.

Lemma bit_length_bound (n : Z) : 0 <= n -> n < 2 ^ bit_length n.
Proof.
  intros Hn. destruct (Z.eq_dec n 0) as [-> | Hne]; [reflexivity |].
  rewrite bit_length_log2 by lia.
  apply (Z.log2_spec n). lia.
Qed.

Lemma bit_length_le (n k : Z) : 0 <= n < 2 ^ k -> 0 <= k -> bit_length n <= k.
Proof.
  intros Hn Hk. destruct (Z.eq_dec n 0) as [-> | Hne]; [cbn; lia |].
  rewrite bit_length_log2 by lia.
  assert (Z.log2 n < k); [| lia].
  apply Z.log2_lt_pow2; lia.
Qed.

Lemma bit_length_nonneg (n : Z) : 0 <= bit_length n.
Proof. destruct n; cbn; lia. Qed.

(** A value is its low six bits under the rest. *)
Lemma chunk_join (m : Z) :
  Z.lor (Z.shiftl (Z.shiftr m 6) 6) (Z.land m 63) = m.
Proof.
  apply Z.bits_inj'. intros i Hi.
  rewrite Z.lor_spec, Z.land_spec.
  change 63 with (Z.ones 6). rewrite Z.testbit_ones_nonneg by lia.
  destruct (Z.ltb_spec i 6).
  - rewrite Z.shiftl_spec_low by lia. cbn. now rewrite andb_true_r.
  - rewrite Z.shiftl_spec, Z.shiftr_spec by lia.
    replace (i - 6 + 6) with i by lia. now rewrite andb_false_r, orb_false_r.
Qed.

Lemma land_63_bounds (m : Z) : 0 <= Z.land m 63 < 64.
Proof.
  change 63 with (Z.ones 6). rewrite Z.land_ones by lia.
  apply Z.mod_pos_bound. reflexivity.
Qed.

Lemma chunk_bits (c x : Z) :
  0 <= c < 64 -> Z.land x 63 = 0 -> 0 <= x ->
  Z.land (Z.lor x c) 63 = c.
Proof.
  intros Hc Hx _. rewrite Z.land_lor_distr_l, Hx, Z.lor_0_l.
  change 63 with (Z.ones 6). rewrite Z.land_ones by lia.
  apply Z.mod_small. exact Hc.
Qed.

Lemma chunk_flag (c x : Z) :
  0 <= c < 64 -> Z.land (Z.lor x c) 64 = Z.land x 64.
Proof.
  intros Hc. rewrite Z.land_lor_distr_l.
  assert (Z.land c 64 = 0) as ->; [| apply Z.lor_0_r].
  apply Z.bits_inj'. intros i Hi. rewrite Z.land_spec, Z.bits_0.
  destruct (Z.eq_dec i 6) as [-> | Hne].
  - assert (Z.testbit c 6 = false) as ->; [| reflexivity].
    apply Z.testbit_false; [lia |].
    rewrite Z.div_small by (cbn; lia). reflexivity.
  - change 64 with (2 ^ 6). rewrite Z.pow2_bits_false by lia. apply andb_false_r.
Qed.

Lemma land_small_pow2 (c k : Z) : 0 <= c < 2 ^ k -> 0 <= k -> Z.land c (2 ^ k) = 0.
Proof.
  intros Hc Hk. apply Z.bits_inj'. intros i Hi. rewrite Z.land_spec, Z.bits_0.
  destruct (Z.eq_dec i k) as [-> | Hne].
  - assert (Z.testbit c k = false) as ->; [| reflexivity].
    apply Z.testbit_false; [lia |]. rewrite Z.div_small by lia. reflexivity.
  - rewrite Z.pow2_bits_false by lia. apply andb_false_r.
Qed.

Lemma lor_pow2_add (c k : Z) : 0 <= c < 2 ^ k -> 0 <= k -> Z.lor c (2 ^ k) = c + 2 ^ k.
Proof.
  intros Hc Hk. pose proof (land_small_pow2 c k Hc Hk) as H.
  rewrite <- Z.lxor_lor by exact H. symmetry. now apply Z.add_nocarry_lxor.
Qed.

(** The bytes [write_varint_be] emits before the last one, for the shifts
    [start], [start - 6], ... ([count] of them). *)
Definition be_lead (n start : Z) (count : nat) : list Z :=
  map (fun shift => Z.lor 64 (Z.land (Z.shiftr n shift) 63))
      (map (fun i => start + Z.of_nat i * -6) (seq 0 count)).

Lemma be_lead_S (n start : Z) (count : nat) :
  be_lead n start (S count) =
  Z.lor 64 (Z.land (Z.shiftr n start) 63) :: be_lead n (start - 6) count.
Proof.
  unfold be_lead. cbn [seq map]. f_equal.
  - do 3 f_equal. lia.
  - rewrite <- seq_shift, !map_map. apply map_ext. intros i. do 3 f_equal. lia.
Qed.

Lemma be_lead_bytes (n start : Z) (count : nat) :
  Forall (fun b => 64 <= b < 128) (be_lead n start count).
Proof.
  unfold be_lead. rewrite map_map. apply Forall_map, Forall_forall. intros i _.
  pose proof (land_63_bounds (Z.shiftr n (start + Z.of_nat i * -6))) as H.
  rewrite Z.lor_comm. change 64 with (2 ^ 6). rewrite lor_pow2_add; cbn; lia.
Qed.

Lemma read_be_lead (n : Z) (rest : list Z) (count : nat) :
  forall start value,
    start = 6 * Z.of_nat count ->
    value = Z.shiftl (Z.shiftr n (start + 6)) 6 ->
    read_varint_be_loop value (be_lead n start count ++ [Z.land n 63] ++ rest)
    = Ok (n, rest).
Proof.
  induction count as [| count IH]; intros start value Hs Hv.
  - cbn in Hs. subst start. cbn [be_lead seq map app read_varint_be_loop].
    pose proof (land_63_bounds n) as Hb.
    change 64 with (2 ^ 6) at 1. rewrite land_small_pow2 by (cbn; lia).
    cbn [truthy Z.eqb negb]. rewrite <- Z.land_assoc. change (Z.land 63 63) with 63.
    subst value. cbn [Z.add]. now rewrite chunk_join.
  - rewrite be_lead_S. cbn [app read_varint_be_loop].
    pose proof (land_63_bounds (Z.shiftr n start)) as Hb.
    rewrite chunk_flag by exact Hb. change (Z.land 64 64) with 64.
    cbn [truthy Z.eqb negb].
    rewrite chunk_bits by (try exact Hb; try reflexivity; lia).
    apply IH; [lia |]. subst value.
    rewrite <- (Z.shiftr_shiftr n start 6) by lia. rewrite chunk_join.
    f_equal. f_equal. lia.
Qed.

(** The bytes of [write_varint_be(n)] for a non-negative [n]. *)
Definition be_bytes (n : Z) : list Z :=
  let top_bit := bit_length n - 1 in
  be_lead n (top_bit - top_bit mod 6) (Z.to_nat ((top_bit - top_bit mod 6) / 6))
  ++ [Z.land n 63].

Lemma be_bytes_eq (n : Z) :
  map (fun shift => Z.lor 64 (Z.land (Z.shiftr n shift) 63))
      (range_down (bit_length n - 1 - (bit_length n - 1) mod 6) 0 (-6))
  ++ [Z.land n 63] = be_bytes n.
Proof.
  unfold be_bytes, be_lead, range_down. cbn zeta.
  set (top_bit := bit_length n - 1). set (start := top_bit - top_bit mod 6).
  do 4 f_equal.
  assert (start mod 6 = 0) as Hm.
  { subst start. rewrite Zminus_mod, Zmod_mod, Z.sub_diag. reflexivity. }
  apply Z.mod_divide in Hm; [| lia]. destruct Hm as [q Hq]. rewrite Hq.
  replace (q * 6 - 0 - -6 - 1) with (5 + q * 6) by lia.
  change (- -6) with 6. rewrite Z.div_add, Z.div_mul by lia. reflexivity.
Qed.

Lemma write_varint_be_plain (n : Z) : write_varint_be n None = Ok (be_bytes n).
Proof. unfold write_varint_be. cbn zeta. now rewrite be_bytes_eq. Qed.

Lemma read_be_bytes (n : Z) (rest : list Z) :
  0 <= n -> read_varint_be (be_bytes n ++ rest) = Ok (n, rest).
Proof.
  intros Hn. unfold read_varint_be, be_bytes. cbn zeta.
  destruct (Z.eq_dec n 0) as [-> | Hne]; [reflexivity |].
  set (top_bit := bit_length n - 1). set (start := top_bit - top_bit mod 6).
  assert (top_bit = Z.log2 n) as Htb
      by (subst top_bit; rewrite bit_length_log2; lia).
  pose proof (Z.log2_nonneg n) as Hlog.
  pose proof (Z.mod_pos_bound top_bit 6 ltac:(lia)) as Hmod.
  assert (start mod 6 = 0) as Hm.
  { subst start. rewrite Zminus_mod, Zmod_mod, Z.sub_diag. reflexivity. }
  apply Z.mod_divide in Hm; [| lia]. destruct Hm as [q Hq].
  rewrite <- app_assoc. apply read_be_lead.
  - rewrite Hq, Z.div_mul, Z2Nat.id; lia.
  - rewrite Z.shiftr_eq_0; [reflexivity | lia | lia].
Qed.

Lemma be_bytes_range (n : Z) : Forall (fun b => 0 <= b < 128) (be_bytes n).
Proof.
  unfold be_bytes. cbn zeta. apply Forall_app. split.
  - eapply Forall_impl; [| apply be_lead_bytes]. cbn. intros; lia.
  - constructor; [| constructor]. pose proof (land_63_bounds n). lia.
Qed.

(** The bytes of [write_varint_be(n, mark_first=0x80)]. *)
Definition be_marked (n : Z) : list Z :=
  match be_bytes n with
  | b :: rest => Z.lor b 128 :: rest
  | [] => []
  end.

Lemma be_bytes_not_nil (n : Z) : be_bytes n <> [].
Proof. unfold be_bytes. cbn zeta. destruct (be_lead _ _ _); discriminate. Qed.

Lemma write_varint_be_marked (n : Z) :
  write_varint_be n (Some 128) = Ok (be_marked n).
Proof.
  unfold write_varint_be. cbn zeta. rewrite be_bytes_eq. cbn [truthy Z.eqb negb].
  unfold be_marked. pose proof (be_bytes_range n) as Hr.
  pose proof (be_bytes_not_nil n) as Hnil.
  destruct (be_bytes n) as [| b rest]; [contradiction |].
  unfold as_bytes. inversion Hr as [| ? ? Hb Hrest]; subst.
  assert (forallb is_byte (Z.lor b 128 :: rest) = true) as ->; [| reflexivity].
  cbn [forallb]. apply andb_true_intro. split.
  - change 128 with (2 ^ 7). rewrite lor_pow2_add by (cbn; lia).
    unfold is_byte. cbn. lia.
  - apply forallb_forall. intros x Hx.
    rewrite Forall_forall in Hrest. specialize (Hrest x Hx).
    unfold is_byte. lia.
Qed.

Lemma read_be_marked (n : Z) (rest : list Z) :
  read_varint_be (be_marked n ++ rest) = read_varint_be (be_bytes n ++ rest).
Proof.
  unfold be_marked. destruct (be_bytes n) as [| b tl]; [reflexivity |].
  unfold read_varint_be. cbn [app read_varint_be_loop].
  rewrite !Z.land_lor_distr_l.
  change (Z.land 128 64) with 0. change (Z.land 128 63) with 0.
  now rewrite !Z.lor_0_r.
Qed.

Lemma append_varint_eq (data : list Z) (n : Z) :
  append_varint data n =
  if Z_gt_dec n 63
  then append_varint (data ++ [Z.lor 64 (Z.land n 63)]) (Z.shiftr n 6)
  else data ++ [n].
Proof.
  funelim (append_varint data n);
    match goal with E : Z_gt_dec _ _ = _ |- _ => now rewrite E end.
Qed.

Lemma le_round_trip (n : Z) :
  0 <= n ->
  exists bs,
    (forall data, append_varint data n = data ++ bs) /\
    (forall rest, read_varint_le (bs ++ rest) = Ok (n, rest)).
Proof.
  pattern n. apply (well_founded_induction (Z.lt_wf 0)). clear n.
  intros n IH Hn.
  destruct (Z_gt_dec n 63) as [Hbig | Hsmall] eqn:E.
  - assert (0 <= Z.shiftr n 6 < n) as Hm.
    { rewrite Z.shiftr_div_pow2 by lia. change (2 ^ 6) with 64.
      split; [apply Z.div_pos; lia | apply Z.div_lt; lia]. }
    destruct (IH (Z.shiftr n 6) ltac:(lia) ltac:(lia)) as (bs & Happ & Hread).
    exists (Z.lor 64 (Z.land n 63) :: bs). split.
    + intros data. rewrite append_varint_eq, E, Happ, <- app_assoc. reflexivity.
    + intros rest. cbn [app read_varint_le].
      pose proof (land_63_bounds n) as Hb.
      rewrite chunk_flag by exact Hb. change (Z.land 64 64) with 64.
      cbn [truthy Z.eqb negb]. rewrite Hread. cbn [bind].
      rewrite chunk_bits by (try exact Hb; try reflexivity; lia).
      rewrite Z.lor_comm, chunk_join. reflexivity.
  - exists [n]. split.
    + intros data. rewrite append_varint_eq, E. reflexivity.
    + intros rest. cbn [app read_varint_le].
      change 64 with (2 ^ 6). rewrite land_small_pow2 by (cbn; lia).
      cbn [truthy Z.eqb negb]. change 63 with (Z.ones 6).
      rewrite Z.land_ones, Z.mod_small by (cbn; lia). reflexivity.
Qed.

(** C9, as amended.  Every unsigned integer round-trips through both
    pairs: reading the bytes [write_varint_be] wrote gives the value back, and
    so does decoding the bytes [append_varint] appended (6-bit chunks, least
    significant first, 0x40 on all but the last).  That covers the values of
    three chunks, and 1,000,000, which takes four. *)
Theorem varint_round_trip (n : Z) :
  0 <= n ->
  (exists bs,
      write_varint_be n None = Ok bs /\
      forall rest, read_varint_be (bs ++ rest) = Ok (n, rest)) /\
  (exists bs,
      (forall data, append_varint data n = data ++ bs) /\
      forall rest, read_varint_le (bs ++ rest) = Ok (n, rest)).
Proof.
  intros Hn. split.
  - exists (be_bytes n). split; [apply write_varint_be_plain |].
    intros rest. now apply read_be_bytes.
  - now apply le_round_trip.
Qed.

Lemma varint_round_trip_witness :
  (write_varint_be 1000000 None = Ok [67; 116; 73; 0] /\
   read_varint_be [67; 116; 73; 0] = Ok (1000000, [])) /\
  (append_varint [] 1000000 = [64; 73; 116; 3] /\
   read_varint_le [64; 73; 116; 3] = Ok (1000000, [])) /\
  (chunks 100000 = 3%nat /\
   write_varint_be 100000 None = Ok [88; 90; 32] /\
   read_varint_be [88; 90; 32] = Ok (100000, []) /\
   append_varint [] 100000 = [96; 90; 24] /\
   read_varint_le [96; 90; 24] = Ok (100000, [])).
Proof.
  destruct (varint_round_trip 1000000 ltac:(lia))
    as [(bs & Hw & Hr) (bs' & Ha & Hr')].
  destruct (varint_round_trip 100000 ltac:(lia))
    as [(cs & Hw3 & Hr3) (cs' & Ha3 & Hr3')].
  assert (bs = [67; 116; 73; 0]) as -> by (vm_compute in Hw; congruence).
  assert (bs' = [64; 73; 116; 3]) as ->
      by (specialize (Ha []); vm_compute in Ha; congruence).
  assert (cs = [88; 90; 32]) as -> by (vm_compute in Hw3; congruence).
  assert (cs' = [96; 90; 24]) as ->
      by (specialize (Ha3 []); vm_compute in Ha3; congruence).
  specialize (Hr []). specialize (Hr' []). specialize (Hr3 []). specialize (Hr3' []).
  rewrite app_nil_r in *.
  repeat split; try assumption; try (vm_compute; reflexivity).
Defined.

(** C9 as stated takes 1,000,000 for a value of three six-bit chunks: it
    has twenty bits, and both encoders emit four bytes for it. *)
Lemma one_million_is_not_three_chunks :
  chunks 1000000 <> 3%nat /\
  ~ (exists bs, write_varint_be 1000000 None = Ok bs /\ List.length bs = 3%nat).
Proof.
  split.
  - vm_compute. discriminate.
  - intros (bs & Hw & Hl). vm_compute in Hw. injection Hw as <-. discriminate.
Qed.

(** ** The exception table *)

(** What C5 asks of an entry: even, non-negative offsets, a region that
    does not end before it starts, and non-negative flags. *)
Definition valid_entry (e : ExceptionTableEntry.t) : Prop :=
  0 <= ExceptionTableEntry.start e /\
  ExceptionTableEntry.start e <= ExceptionTableEntry.end_ e /\
  0 <= ExceptionTableEntry.target e /\
  0 <= ExceptionTableEntry.other e /\
  ExceptionTableEntry.start e mod 2 = 0 /\
  ExceptionTableEntry.end_ e mod 2 = 0 /\
  ExceptionTableEntry.target e mod 2 = 0.

Section ExceptionTable.
Context {rt : Runtime}.

Lemma from_code_loop_eq (it : list Z) (entries : list ExceptionTableEntry.t) :
  ExceptionTableEntry.from_code_loop it entries =
  match ExceptionTableEntry.read_entry it with
  | Ok (e, it') => ExceptionTableEntry.from_code_loop it' (entries ++ [e])
  | Raise StopIteration => Ok entries
  | Raise x => Raise x
  end.
Proof.
  funelim (ExceptionTableEntry.from_code_loop it entries);
    match goal with E : ExceptionTableEntry.read_entry _ = _ |- _ => now rewrite E end.
Qed.

Lemma offset2branch_inverse (x : Z) :
  0 <= x -> x mod 2 = 0 ->
  exists a, offset2branch x = Ok a /\ 0 <= a /\ branch2offset a = x.
Proof.
  intros Hx Heven. unfold offset2branch, branch2offset.
  destruct (version_ge PYTHON_VERSION (3, 10)).
  - rewrite Heven. cbn. exists (x / 2). split; [reflexivity |].
    split; [apply Z.div_pos; lia |].
    pose proof (Z.div_mod x 2 ltac:(lia)). lia.
  - exists x. auto.
Qed.

(** The bytes of one valid entry, and reading them back. *)
Lemma entry_round_trip (e : ExceptionTableEntry.t) :
  valid_entry e ->
  exists bs,
    ExceptionTableEntry.encode_entry e = Ok bs /\
    forall rest, ExceptionTableEntry.read_entry (bs ++ rest) = Ok (e, rest).
Proof.
  intros (Hs & Hse & Ht & Ho & Es & Ee & Et).
  destruct (offset2branch_inverse _ Hs Es) as (a1 & E1 & P1 & B1).
  destruct (offset2branch_inverse (ExceptionTableEntry.end_ e - ExceptionTableEntry.start e))
    as (a2 & E2 & P2 & B2); [lia | |].
  { rewrite Zminus_mod, Es, Ee. reflexivity. }
  destruct (offset2branch_inverse _ Ht Et) as (a3 & E3 & P3 & B3).
  exists (be_marked a1 ++ be_bytes a2 ++ be_bytes a3
          ++ be_bytes (ExceptionTableEntry.other e)).
  split.
  - unfold ExceptionTableEntry.encode_entry.
    rewrite E1, E2, E3. cbn [bind].
    rewrite write_varint_be_marked, !write_varint_be_plain. reflexivity.
  - intros rest. unfold ExceptionTableEntry.read_entry.
    rewrite <- !app_assoc, read_be_marked, read_be_bytes by exact P1. cbn [bind].
    rewrite read_be_bytes by exact P2. cbn [bind].
    rewrite read_be_bytes by exact P3. cbn [bind].
    rewrite read_be_bytes by exact Ho. cbn [bind].
    rewrite B1, B2, B3. destruct e as [s en t o]. cbn. do 2 f_equal. f_equal. lia.
Qed.

Lemma make_exceptiontable_round_trip (es : list ExceptionTableEntry.t) :
  Forall valid_entry es ->
  forall table entries,
  exists bs,
    for_each (fun table e => b <- ExceptionTableEntry.encode_entry e ;; Ok (table ++ b))
             es table = Ok (table ++ bs) /\
    ExceptionTableEntry.from_code_loop bs entries = Ok (entries ++ es).
Proof.
  induction 1 as [| e es He Hes IH]; intros table entries.
  - exists []. cbn [for_each]. rewrite !app_nil_r. split; [reflexivity |].
    rewrite from_code_loop_eq. reflexivity.
  - destruct (entry_round_trip e He) as (b & Eb & Rb).
    destruct (IH (table ++ b) (entries ++ [e])) as (bs & Ebs & Rbs).
    exists (b ++ bs). cbn [for_each]. rewrite Eb. cbn [bind].
    rewrite Ebs, <- !app_assoc. split; [reflexivity |].
    rewrite from_code_loop_eq, Rb, Rbs, <- app_assoc. reflexivity.
Qed.

End ExceptionTable.

(** C5. For entries with even, non-negative start, end and target,
    start <= end and non-negative other, [make_exceptiontable] returns a
    table [t]; decoding [t] with [from_code] gives the entries back, and
    encoding those again gives [t], byte for byte. *)
Theorem exception_table_round_trip {rt : Runtime} (es : list ExceptionTableEntry.t) :
  Forall valid_entry es ->
  exists t,
    ExceptionTableEntry.make_exceptiontable es = Ok t /\
    exists es',
      ExceptionTableEntry.from_code t = Ok es' /\
      es' = es /\
      ExceptionTableEntry.make_exceptiontable es' = Ok t.
Proof.
  intros Hes.
  destruct (make_exceptiontable_round_trip es Hes [] []) as (t & Et & Rt).
  assert (ExceptionTableEntry.make_exceptiontable es = Ok t) as Hmake.
  { unfold ExceptionTableEntry.make_exceptiontable. rewrite Et. reflexivity. }
  exists t. split; [exact Hmake |].
  exists es. repeat split; assumption.
Qed.

Lemma exception_table_round_trip_witness :
  let es := [ExceptionTableEntry.mk 4 20 20 1; ExceptionTableEntry.mk 24 300 302 3] in
  let t := [130; 8; 10; 1; 140; 66; 10; 66; 23; 3] in
  ExceptionTableEntry.make_exceptiontable (rt := Sample.py311) es = Ok t /\
  ExceptionTableEntry.from_code (rt := Sample.py311) t = Ok es.
Proof.
  intros es t.
  assert (Forall valid_entry es) as Hes.
  { repeat constructor; cbn; lia. }
  destruct (exception_table_round_trip (rt := Sample.py311) es Hes)
    as (t' & Hmake & es' & Hfrom & -> & _).
  subst es t.
  assert (t' = [130; 8; 10; 1; 140; 66; 10; 66; 23; 3]) as ->
      by (vm_compute in Hmake; congruence).
  split; assumption.
Defined.

(** ** Emitting a branch and decoding it *)

Section BranchCode.
Context {rt : Runtime}.

Lemma skip_cache_eq (code : list Z) (off : Z) :
  skip_cache code off =
  if Z_lt_dec (off + 2) (len code) then
    match getitem code (off + 2) with
    | Raise e => Raise e
    | Ok c => if c =? op_CACHE then skip_cache code (off + 2) else Ok off
    end
  else Ok off.
Proof.
  funelim (skip_cache code off);
    repeat match goal with
           | E : Z_lt_dec _ _ = _ |- _ => rewrite E; clear E
           | E : getitem _ _ = _ |- _ => rewrite E; clear E
           | E : (_ =? _) = _ |- _ => rewrite E; clear E
           end; reflexivity.
Qed.

Lemma unpack_loop_eq (code : list Z) (ext_arg next_off off : Z) :
  unpack_loop code ext_arg next_off off =
  if Z_lt_dec off (len code) then
    match getitem code off with
    | Raise e => ([], Some e)
    | Ok op =>
        match getitem code (off + 1) with
        | Raise e => ([], Some e)
        | Ok b =>
            if mem op is_EXTENDED_ARG
            then unpack_loop code (Z.shiftl (Z.lor ext_arg b) 8) next_off (off + 2)
            else
              match (if version_ge PYTHON_VERSION (3, 11)
                     then skip_cache code off else Ok off) with
              | Raise e => ([], Some e)
              | Ok off' =>
                  yield (next_off, off' + 2 - next_off, op, Z.lor ext_arg b)
                        (unpack_loop code 0 (off' + 2) (off' + 2))
              end
        end
    end
  else ([], None).
Proof.
  funelim (unpack_loop code ext_arg next_off off);
    repeat match goal with
           | E : Z_lt_dec _ _ = _ |- _ => rewrite E; clear E
           | E : getitem _ _ = _ |- _ => rewrite E; clear E
           | E : mem _ _ = _ |- _ => rewrite E; clear E
           end;
    try match goal with
        | E : (if _ then _ else _) = _ |- _ => rewrite E
        end; reflexivity.
Qed.

Lemma len_app {A : Type} (l l' : list A) : len (l ++ l') = len l + len l'.
Proof. unfold len. rewrite length_app. lia. Qed.

Lemma len_nonneg {A : Type} (l : list A) : 0 <= len l.
Proof. unfold len. lia. Qed.

Lemma getitem_app_0 {A : Type} (P R : list A) (x : A) :
  getitem (P ++ x :: R) (len P) = Ok x.
Proof.
  unfold getitem.
  assert ((len P <? 0) = false) as Hn by (apply Z.ltb_ge, len_nonneg).
  rewrite !Hn. unfold len.
  rewrite Nat2Z.id, nth_error_app2, Nat.sub_diag by lia. reflexivity.
Qed.

Lemma getitem_app_1 {A : Type} (P R : list A) (x y : A) :
  getitem (P ++ x :: y :: R) (len P + 1) = Ok y.
Proof.
  replace (P ++ x :: y :: R) with ((P ++ [x]) ++ y :: R)
    by (rewrite <- app_assoc; reflexivity).
  replace (len P + 1) with (len (P ++ [x])) by (rewrite len_app; reflexivity).
  apply getitem_app_0.
Qed.

(** A value is its low [w] bits under the rest. *)
Lemma low_bits_join (w m : Z) :
  0 <= w -> Z.lor (Z.shiftl (Z.shiftr m w) w) (Z.land m (Z.ones w)) = m.
Proof.
  intros Hw. apply Z.bits_inj'. intros i Hi.
  rewrite Z.lor_spec, Z.land_spec, Z.testbit_ones_nonneg by lia.
  destruct (Z.ltb_spec i w).
  - rewrite Z.shiftl_spec_low by lia. cbn. now rewrite andb_true_r.
  - rewrite Z.shiftl_spec, Z.shiftr_spec by lia.
    replace (i - w + w) with i by lia. now rewrite andb_false_r, orb_false_r.
Qed.

(** The EXTENDED_ARG words [opcode_arg] emits for the bytes [start],
    [start - 1], ... of the argument ([count] of them). *)
Fixpoint ext_words (a start : Z) (count : nat) : list Z :=
  match count with
  | O => []
  | S count =>
      op_EXTENDED_ARG :: Z.land (Z.shiftr a (start * 8)) 255
        :: ext_words a (start - 1) count
  end.

Lemma ext_words_eq (a ext : Z) (count k : nat) :
  flat_map (fun i => [op_EXTENDED_ARG; Z.land (Z.shiftr a ((ext - i) * 8)) 255])
           (map Z.of_nat (seq k count))
  = ext_words a (ext - Z.of_nat k) count.
Proof.
  revert k. induction count as [| count IH]; intros k; [reflexivity |].
  cbn [seq map flat_map ext_words app]. do 2 f_equal.
  rewrite IH. f_equal. lia.
Qed.

Lemma len_ext_words (a start : Z) (count : nat) :
  len (ext_words a start count) = 2 * Z.of_nat count.
Proof.
  revert start. induction count as [| count IH]; intros start; [reflexivity |].
  cbn [ext_words]. unfold len in *. cbn [List.length]. rewrite !Nat2Z.inj_succ, IH. lia.
Qed.

Lemma mem_EXTENDED_ARG : mem op_EXTENDED_ARG is_EXTENDED_ARG = true.
Proof. unfold mem, is_EXTENDED_ARG. cbn. now rewrite Z.eqb_refl. Qed.

(** Decoding the words of one instruction that ends the code: the prefixes
    rebuild the argument byte by byte. *)
Lemma unpack_ext_words (a opcode : Z) (count : nat) :
  0 <= a ->
  mem opcode is_EXTENDED_ARG = false ->
  forall P ext_arg,
    ext_arg = Z.shiftl (Z.shiftr a (8 * (Z.of_nat count + 1))) 8 ->
    unpack_loop (P ++ ext_words a (Z.of_nat count) count ++ [opcode; Z.land a 255])
                ext_arg 0 (len P)
    = ([(0, len (P ++ ext_words a (Z.of_nat count) count ++ [opcode; Z.land a 255]),
         opcode, a)], None).
Proof.
  intros Ha Hop. induction count as [| count IH]; intros P ext_arg Hext.
  - cbn [ext_words app].
    set (code := P ++ [opcode; Z.land a 255]).
    assert (len code = len P + 2) as Hlen by (subst code; now rewrite len_app).
    pose proof (len_nonneg P) as HP.
    rewrite unpack_loop_eq.
    destruct (Z_lt_dec (len P) (len code)) as [_ | Hge]; [| lia].
    subst code. rewrite getitem_app_0, getitem_app_1, Hop.
    assert ((if version_ge PYTHON_VERSION (3, 11)
             then skip_cache (P ++ [opcode; Z.land a 255]) (len P)
             else Ok (len P)) = Ok (len P)) as ->.
    { destruct (version_ge PYTHON_VERSION (3, 11)); [| reflexivity].
      rewrite skip_cache_eq.
      destruct (Z_lt_dec (len P + 2) (len (P ++ [opcode; Z.land a 255]))); [lia |].
      reflexivity. }
    rewrite (unpack_loop_eq _ 0).
    destruct (Z_lt_dec (len P + 2) (len (P ++ [opcode; Z.land a 255]))); [lia |].
    unfold yield. cbn [fst snd]. rewrite Hlen, Hext.
    change (8 * (Z.of_nat 0 + 1)) with 8. change 255 with (Z.ones 8).
    rewrite low_bits_join by lia.
    replace (len P + 2 - 0) with (len P + 2) by lia. reflexivity.
  - cbn [ext_words].
    set (c := Z.land (Z.shiftr a (Z.of_nat (S count) * 8)) 255).
    set (tail := ext_words a (Z.of_nat (S count) - 1) count ++ [opcode; Z.land a 255]).
    change ((op_EXTENDED_ARG :: c :: ext_words a (Z.of_nat (S count) - 1) count)
            ++ [opcode; Z.land a 255])
      with (op_EXTENDED_ARG :: c :: tail).
    pose proof (len_nonneg P) as HP.
    rewrite unpack_loop_eq.
    destruct (Z_lt_dec (len P) (len (P ++ op_EXTENDED_ARG :: c :: tail))) as [_ | Hge].
    2:{ rewrite len_app in Hge.
        assert (0 < len (op_EXTENDED_ARG :: c :: tail))
          by (unfold len; cbn [List.length]; lia).
        lia. }
    rewrite getitem_app_0, getitem_app_1, mem_EXTENDED_ARG.
    replace (P ++ op_EXTENDED_ARG :: c :: tail)
      with ((P ++ [op_EXTENDED_ARG; c]) ++ tail)
      by (rewrite <- app_assoc; reflexivity).
    replace (len P + 2) with (len (P ++ [op_EXTENDED_ARG; c]))
      by (rewrite len_app; reflexivity).
    subst tail. replace (Z.of_nat (S count) - 1) with (Z.of_nat count) by lia.
    apply IH. subst ext_arg c.
    replace (8 * (Z.of_nat (S count) + 1)) with (Z.of_nat (S count) * 8 + 8) by lia.
    rewrite <- Z.shiftr_shiftr by lia. change 255 with (Z.ones 8).
    rewrite low_bits_join by lia. f_equal. f_equal. lia.
Qed.

End BranchCode.

(** The flags of a branch are those [Branch.__init__] derives from its
    opcode; the source sets them nowhere else. *)
Definition flags_of_opcode {rt : Runtime} (b : Branch.t) : Prop :=
  Branch.is_relative b = mem (Branch.opcode b) (hasjrel dis) /\
  exists name,
    getitem (opname dis) (Branch.opcode b) = Ok name /\
    Branch.is_backward b = contains "JUMP_BACKWARD" name.

(** The target lies where the kind of the branch can reach it: at or after
    the end of a relative forward branch, at or before the end of a relative
    backward branch, at a non-negative offset for an absolute branch. *)
Definition reachable_target (b : Branch.t) : Prop :=
  if Branch.is_relative b then
    if Branch.is_backward b
    then Branch.target b <= Branch.offset b + Branch.length b
    else Branch.offset b + Branch.length b <= Branch.target b
  else 0 <= Branch.target b.

Section BranchRoundTrip.
Context {rt : Runtime}.

Lemma offset2branch_Ok (x a : Z) :
  offset2branch x = Ok a -> branch2offset a = x /\ (0 <= x -> 0 <= a).
Proof.
  unfold offset2branch, branch2offset.
  destruct (version_ge PYTHON_VERSION (3, 10)).
  - destruct (Z.eqb_spec (x mod 2) 0) as [E | _]; [| discriminate].
    intros H. injection H as <-.
    pose proof (Z.div_mod x 2 ltac:(lia)). split; [lia |].
    intros. apply Z.div_pos; lia.
  - intros H. injection H as <-. auto.
Qed.

Lemma branch2offset_opp (a : Z) : branch2offset (- a) = - branch2offset a.
Proof. unfold branch2offset. destruct (version_ge _ _); lia. Qed.

Lemma arg_ext_needed_bound (a k : Z) :
  0 <= a -> 0 <= k -> arg_ext_needed a <= k -> a < 2 ^ (8 * (k + 1)).
Proof.
  intros Ha Hk Hn. unfold arg_ext_needed in Hn.
  assert (bit_length a - 1 < 8 * (k + 1)) as Hb.
  { pose proof (Z.div_mod (bit_length a - 1) 8 ltac:(lia)).
    pose proof (Z.mod_pos_bound (bit_length a - 1) 8 ltac:(lia)). lia. }
  eapply Z.lt_le_trans; [apply bit_length_bound; exact Ha |].
  apply Z.pow_le_mono_r; lia.
Qed.

Lemma shiftr_small (a n : Z) : 0 <= a < 2 ^ n -> 0 <= n -> Z.shiftr a n = 0.
Proof.
  intros Ha Hn. rewrite Z.shiftr_div_pow2 by lia. apply Z.div_small. lia.
Qed.

End BranchRoundTrip.

(** C4, as amended.  For a branch whose flags are those of its opcode, whose
    target its kind can reach, whose argument [a] is defined, and whose length
    is even, between 2 and 8 and at least [2 + 2*arg_ext_needed(a)] (its
    opcode being no extension prefix and having no inline cache entries):
    [code] returns exactly [length] bytes, decoding them gives the one
    instruction [(0, length, opcode, a)], and the branch constructed from
    [(offset, length, opcode, a)] is the branch itself, target included. *)
Theorem branch_code_round_trip {rt : Runtime} (b : Branch.t) (a : Z) :
  flags_of_opcode b ->
  reachable_target b ->
  Branch.arg b = Ok a ->
  Branch.length b >= 2 + 2 * arg_ext_needed a ->
  2 <= Branch.length b <= 8 ->
  Branch.length b mod 2 = 0 ->
  mem (Branch.opcode b) is_EXTENDED_ARG = false ->
  (version_ge PYTHON_VERSION (3, 11) = true ->
   getitem (_inline_cache_entries dis) (Branch.opcode b) = Ok 0) ->
  exists bytes,
    Branch.code b = Ok bytes /\
    len bytes = Branch.length b /\
    unpack_opargs bytes = ([(0, Branch.length b, Branch.opcode b, a)], None) /\
    Branch.init (Branch.offset b) (Branch.length b) (Branch.opcode b) a = Ok b.
Proof.
  intros (Hrel & name & Hname & Hback) Hreach Harg Hlen Hrange Heven Hop Hcache.
  set (k := (Branch.length b - 2) / 2).
  assert (Branch.length b = 2 * k + 2) as Hk.
  { subst k. pose proof (Z.div_mod (Branch.length b - 2) 2 ltac:(lia)) as Hd.
    assert ((Branch.length b - 2) mod 2 = 0) as Hm
        by (rewrite Zminus_mod, Heven; reflexivity).
    lia. }
  assert (0 <= k <= 3) as Hk3 by lia.
  assert (arg_ext_needed a <= k) as Hext by lia.
  assert (0 <= a) as Ha.
  { unfold Branch.arg in Harg. unfold reachable_target in Hreach.
    destruct (Branch.is_relative b).
    - apply offset2branch_Ok in Harg. apply Harg. lia.
    - apply offset2branch_Ok in Harg. apply Harg. exact Hreach. }
  exists (ext_words a k (Z.to_nat k) ++ [Branch.opcode b; Z.land a 255]).
  assert (len (ext_words a k (Z.to_nat k) ++ [Branch.opcode b; Z.land a 255])
          = Branch.length b) as Hbytes.
  { rewrite len_app, len_ext_words, Z2Nat.id by lia.
    change (len [Branch.opcode b; Z.land a 255]) with 2. lia. }
  split; [| split; [exact Hbytes | split]].
  - unfold Branch.code. rewrite Harg. cbn [bind].
    destruct (geb_ge (Branch.length b) (2 + 2 * arg_ext_needed a)) as [_ ->];
      [| exact Hlen].
    unfold opcode_arg. fold k. rewrite Z.max_r by exact Hext.
    destruct (Z.leb_spec k 3) as [_ | ?]; [| lia].
    unfold range. rewrite (ext_words_eq a k (Z.to_nat k) 0).
    replace (k - Z.of_nat 0) with k by lia.
    destruct (version_ge PYTHON_VERSION (3, 11)) eqn:Hv; [| reflexivity].
    rewrite Hcache by reflexivity. cbn [bind]. unfold repeat_list. cbn.
    now rewrite app_nil_r.
  - unfold unpack_opargs. rewrite <- Hbytes.
    pose proof (unpack_ext_words a (Branch.opcode b) (Z.to_nat k) Ha Hop [] 0) as H.
    rewrite Z2Nat.id in H by lia. apply H.
    rewrite shiftr_small; [reflexivity | | lia].
    split; [exact Ha | now apply arg_ext_needed_bound].
  - unfold Branch.init. rewrite Hname. cbn [bind].
    rewrite <- Hrel, <- Hback.
    unfold Branch.arg in Harg. unfold reachable_target in Hreach.
    destruct b as [o l op r bw t]. cbn in *. f_equal. f_equal.
    destruct r; cbn.
    + apply offset2branch_Ok in Harg. destruct Harg as [Hinv _].
      destruct bw.
      * rewrite branch2offset_opp, Hinv. lia.
      * rewrite Hinv. lia.
    + apply offset2branch_Ok in Harg. apply Harg.
Qed.

Lemma branch_code_round_trip_witness :
  let b := Branch.mk 26 4 114 true false 600 in
  Branch.code (rt := Sample.py311) b = Ok [144; 1; 114; 29] /\
  unpack_opargs (rt := Sample.py311) [144; 1; 114; 29] = ([(0, 4, 114, 285)], None) /\
  Branch.init (rt := Sample.py311) 26 4 114 285 = Ok b.
Proof.
  intros b.
  assert (flags_of_opcode (rt := Sample.py311) b) as Hflags.
  { split; [reflexivity |].
    exists "POP_JUMP_FORWARD_IF_FALSE"%string. split; reflexivity. }
  destruct (branch_code_round_trip (rt := Sample.py311) b 285 Hflags)
    as (bytes & Hcode & Hlen & Hdecode & Hinit).
  - cbn. lia.
  - reflexivity.
  - vm_compute. discriminate.
  - cbn. lia.
  - reflexivity.
  - reflexivity.
  - intros _. reflexivity.
  - subst b.
    assert (bytes = [144; 1; 114; 29]) as -> by (vm_compute in Hcode; congruence).
    repeat split; assumption.
Defined.

(** C4 as stated asks only that the length be at least
    [2 + 2*arg_ext_needed(arg)].  The decoder accepts an instruction behind
    four empty prefixes; the branch it gives has length 10 and argument 0, so
    the condition holds, and [code] fails the assertion of [opcode_arg]
    instead of returning ten bytes. *)
Lemma branch_of_four_prefixes_has_no_code :
  let b := Branch.mk 0 10 113 false false 0 in
  Branch.from_code (rt := Sample.py39) [144; 0; 144; 0; 144; 0; 144; 0; 113; 0]
    = Ok [b] /\
  Branch.arg (rt := Sample.py39) b = Ok 0 /\
  Branch.length b >= 2 + 2 * arg_ext_needed 0 /\
  Branch.code (rt := Sample.py39) b = Raise AssertionError.
Proof. vm_compute. repeat split; discriminate. Qed.

(** The other conditions of the amended statement are needed as well: a
    branch of odd length gets one byte less than its length, and a relative
    forward branch whose target lies before its end comes back, from the
    argument decoded, with the target mirrored behind it. *)
Example branch_code_other_limits :
  Branch.code (rt := Sample.py39) (Branch.mk 0 3 113 false false 0) = Ok [113; 0] /\
  Branch.code (rt := Sample.py39) (Branch.mk 10 2 110 true false 4) = Ok [110; 8] /\
  Branch.init (rt := Sample.py39) 10 2 110 8
    = Ok (Branch.mk 10 2 110 true false 20).
Proof. vm_compute. repeat split. Qed.

(** ** The fixed point of [finish] *)

Definition weight (b : Branch.t) : Z :=
  Z.abs (Branch.offset b) + Z.abs (Branch.target b) + Z.abs (Branch.length b).

Fixpoint total_length (bs : list Branch.t) : Z :=
  match bs with
  | [] => 0
  | b :: bs => Branch.length b + total_length bs
  end.

Definition needed_for (a : Z) : Z := 2 + 2 * arg_ext_needed a.

Section FixedPoint.
Context {rt : Runtime}.

Lemma adjust_lengths_eq (self : Editor.t) (done todo : list Branch.t) (any_adjusted : bool) :
  Editor.adjust_lengths self done todo any_adjusted =
  match todo with
  | [] => Ok (Editor.set_branches self done, any_adjusted)
  | b :: todo =>
      match Branch.adjust_length b with
      | Raise e => Raise e
      | Ok (change, b') =>
          if truthy change then
            Editor.adjust_lengths
              (Editor.grow self (Branch.offset b') change)
              (map (fun c => Branch.adjust c (Branch.offset b') change) done ++ [b'])
              (map (fun c => Branch.adjust c (Branch.offset b') change) todo) true
          else Editor.adjust_lengths self (done ++ [b']) todo any_adjusted
      end
  end.
Proof.
  funelim (Editor.adjust_lengths self done todo any_adjusted);
    repeat match goal with
           | E : Branch.adjust_length _ = _ |- _ => rewrite E; clear E
           | E : truthy _ = _ |- _ => rewrite E; clear E
           end; reflexivity.
Qed.

(** What [adjust_length] returns, when it returns. *)
Lemma adjust_length_Ok (b b' : Branch.t) (change : Z) :
  Branch.adjust_length b = Ok (change, b') ->
  exists a,
    Branch.arg b = Ok a /\
    change = Z.max 0 (needed_for a - Branch.length b) /\
    b' = if truthy change
         then Branch.set_length
                (if Branch.target b >? Branch.offset b
                 then Branch.set_target b (Branch.target b + change) else b)
                (needed_for a)
         else b.
Proof.
  unfold Branch.adjust_length. intros H. inv_bind H. exists a.
  split; [exact E |]. fold (needed_for a) in H.
  destruct (truthy (Z.max 0 (needed_for a - Branch.length b))) eqn:Ht;
    injection H as <- <-; rewrite Ht; split; reflexivity.
Qed.

Lemma offset2branch_abs (x a : Z) : offset2branch x = Ok a -> Z.abs a <= Z.abs x.
Proof.
  unfold offset2branch. destruct (version_ge PYTHON_VERSION (3, 10)).
  - destruct (x mod 2 =? 0); [| discriminate]. intros H. injection H as <-.
    pose proof (Z.div_mod x 2 ltac:(lia)).
    pose proof (Z.mod_pos_bound x 2 ltac:(lia)). lia.
  - intros H. injection H as <-. lia.
Qed.

Lemma arg_le_weight (b : Branch.t) (a : Z) :
  Branch.arg b = Ok a -> Z.abs a <= weight b.
Proof.
  unfold Branch.arg, weight. destruct (Branch.is_relative b); intros H;
    apply offset2branch_abs in H; lia.
Qed.

Lemma bit_length_abs (a : Z) : bit_length a = bit_length (Z.abs a).
Proof. destruct a; reflexivity. Qed.

Lemma bit_length_mono (u v : Z) : 0 <= u <= v -> bit_length u <= bit_length v.
Proof.
  intros H. apply bit_length_le; [| apply bit_length_nonneg].
  pose proof (bit_length_bound v ltac:(lia)). lia.
Qed.

Lemma needed_for_mono (a x : Z) : Z.abs a <= x -> needed_for a <= needed_for x.
Proof.
  intros H. unfold needed_for, arg_ext_needed.
  assert (bit_length a <= bit_length x)
    by (rewrite bit_length_abs; apply bit_length_mono; lia).
  assert ((bit_length a - 1) / 8 <= (bit_length x - 1) / 8)
    by (apply Z.div_le_mono; lia).
  lia.
Qed.

Lemma needed_for_nonneg (a : Z) : 0 <= needed_for a.
Proof.
  unfold needed_for, arg_ext_needed. pose proof (bit_length_nonneg a).
  assert (-1 <= (bit_length a - 1) / 8) by (apply Z.div_le_lower_bound; lia).
  lia.
Qed.

Lemma adjust_weight (x : Branch.t) (off c : Z) :
  0 <= c ->
  weight (Branch.adjust x off c) <= weight x + 2 * c /\
  Branch.length (Branch.adjust x off c) = Branch.length x.
Proof.
  intros Hc. rewrite branch_adjust_fields. unfold weight.
  cbn [Branch.offset Branch.target Branch.length].
  destruct (Branch.offset x >=? off), (Branch.target x >? off); lia.
Qed.

Lemma weight_nonneg (b : Branch.t) : 0 <= weight b.
Proof. unfold weight. lia. Qed.

Lemma total_length_app (l l' : list Branch.t) :
  total_length (l ++ l') = total_length l + total_length l'.
Proof. induction l as [| b l IH]; cbn; [reflexivity | rewrite IH; lia]. Qed.

Lemma total_length_adjust (l : list Branch.t) (off c : Z) :
  total_length (map (fun x => Branch.adjust x off c) l) = total_length l.
Proof.
  induction l as [| b l IH]; cbn; [reflexivity |].
  rewrite IH, branch_adjust_fields. reflexivity.
Qed.

(** Every branch weighs at most [X] and is at most [Y] long. *)
Definition bounded (X Y : Z) (bs : list Branch.t) : Prop :=
  Forall (fun b => weight b <= X /\ Branch.length b <= Y) bs.

(** The invariant of the loop: with [L] the sum of the lengths, no branch
    weighs more than [2*L + K], and none is longer than both [C] and what an
    argument of that size needs. *)
Definition settled (K C : Z) (bs : list Branch.t) : Prop :=
  bounded (2 * total_length bs + K)
          (Z.max C (needed_for (2 * total_length bs + K))) bs.

Lemma bounded_shift (C X c : Z) (x : Branch.t) (off : Z) :
  0 <= c ->
  weight x <= X /\ Branch.length x <= Z.max C (needed_for X) ->
  weight (Branch.adjust x off c) <= X + 2 * c /\
  Branch.length (Branch.adjust x off c) <= Z.max C (needed_for (X + 2 * c)).
Proof.
  intros Hc [Hw Hl]. destruct (adjust_weight x off c Hc) as [Hw' ->].
  pose proof (weight_nonneg x).
  assert (needed_for X <= needed_for (X + 2 * c)) by (apply needed_for_mono; lia).
  lia.
Qed.

(** One growth step of the loop, on the branches [done ++ b :: todo]. *)
Lemma grow_settled (K C : Z) (done todo : list Branch.t) (b b' : Branch.t) (change : Z) :
  settled K C (done ++ b :: todo) ->
  Branch.adjust_length b = Ok (change, b') ->
  truthy change = true ->
  let others := fun c => Branch.adjust c (Branch.offset b') change in
  0 < change /\
  Branch.length b' = Branch.length b + change /\
  total_length (map others done ++ b' :: map others todo)
    = total_length (done ++ b :: todo) + change /\
  settled K C (map others done ++ b' :: map others todo).
Proof.
  intros Hs Hb Ht others.
  destruct (adjust_length_Ok _ _ _ Hb) as (a & Ha & Hc & Hb').
  rewrite Ht in Hb'.
  assert (0 < change) as Hpos.
  { unfold truthy in Ht. destruct (Z.eqb_spec change 0); [discriminate | lia]. }
  assert (needed_for a = Branch.length b + change) as Hneed by lia.
  assert (Branch.length b' = Branch.length b + change) as Hlen.
  { subst b'. cbn. exact Hneed. }
  assert (weight b' <= weight b + 2 * change) as Hweight.
  { subst b'. unfold weight.
    destruct (Branch.target b >? Branch.offset b);
      cbn [Branch.set_length Branch.set_target
           Branch.offset Branch.target Branch.length]; lia. }
  assert (total_length (map others done ++ b' :: map others todo)
          = total_length (done ++ b :: todo) + change) as Htotal.
  { rewrite !total_length_app. cbn [total_length].
    unfold others. rewrite !total_length_adjust. lia. }
  split; [exact Hpos |]. split; [exact Hlen |]. split; [exact Htotal |].
  unfold settled, bounded in *. rewrite Htotal.
  set (X := 2 * total_length (done ++ b :: todo) + K) in *.
  replace (2 * (total_length (done ++ b :: todo) + change) + K)
    with (X + 2 * change) by (subst X; lia).
  apply Forall_app in Hs. destruct Hs as [Hdone Hrest].
  apply Forall_cons_iff in Hrest. destruct Hrest as [Hbb Htodo].
  apply Forall_app. split; [| constructor].
  - apply Forall_map. eapply Forall_impl; [| exact Hdone].
    intros x Hx. apply bounded_shift; [lia | exact Hx].
  - split; [lia |].
    pose proof (arg_le_weight _ _ Ha) as Harg.
    assert (needed_for a <= needed_for (X + 2 * change))
      by (apply needed_for_mono; lia).
    lia.
  - apply Forall_map. eapply Forall_impl; [| exact Htodo].
    intros x Hx. apply bounded_shift; [lia | exact Hx].
Qed.

(** Position by position, no branch of [bs'] is shorter than in [bs]. *)
Definition never_shorter (bs bs' : list Branch.t) : Prop :=
  Forall2 (fun b b' => Branch.length b <= Branch.length b') bs bs'.

Lemma never_shorter_refl (bs : list Branch.t) : never_shorter bs bs.
Proof. induction bs; constructor; [lia | assumption]. Qed.

Lemma never_shorter_trans (bs1 bs2 bs3 : list Branch.t) :
  never_shorter bs1 bs2 -> never_shorter bs2 bs3 -> never_shorter bs1 bs3.
Proof.
  intros H. revert bs3. induction H as [| b1 b2 l1 l2 Hb H12 IH]; intros bs3 H23;
    inversion H23; subst; constructor; [lia | now apply IH].
Qed.

Lemma never_shorter_adjust (bs : list Branch.t) (off c : Z) :
  never_shorter bs (map (fun x => Branch.adjust x off c) bs).
Proof.
  induction bs as [| b bs IH]; constructor; [| exact IH].
  rewrite branch_adjust_fields. cbn. lia.
Qed.

Lemma never_shorter_app (l1 l1' l2 l2' : list Branch.t) :
  never_shorter l1 l1' -> never_shorter l2 l2' -> never_shorter (l1 ++ l2) (l1' ++ l2').
Proof. apply Forall2_app. Qed.

(** One scan of the branches keeps the invariant, shortens no branch, and
    reports a growth only when the sum of the lengths has grown. *)
Lemma adjust_lengths_settled (K C : Z) (n : nat) :
  forall todo, List.length todo = n ->
  forall done self any_adjusted self' any_adjusted',
    Editor.adjust_lengths self done todo any_adjusted = Ok (self', any_adjusted') ->
    settled K C (done ++ todo) ->
    settled K C (Editor.branches self') /\
    never_shorter (done ++ todo) (Editor.branches self') /\
    total_length (done ++ todo) <= total_length (Editor.branches self') /\
    (any_adjusted' = true ->
     any_adjusted = true \/
     total_length (done ++ todo) < total_length (Editor.branches self')).
Proof.
  induction n as [| n IH]; intros todo Hn done self any self' any' Hrun Hs;
    rewrite adjust_lengths_eq in Hrun.
  - destruct todo; [| discriminate]. injection Hrun as <- <-. cbn.
    rewrite app_nil_r in *.
    repeat split; [exact Hs | apply never_shorter_refl | lia | auto].
  - destruct todo as [| b todo]; [discriminate |]. injection Hn as Hn.
    destruct (Branch.adjust_length b) as [[change b'] | e] eqn:Hb; [| discriminate].
    destruct (truthy change) eqn:Ht.
    + destruct (grow_settled K C done todo b b' change Hs Hb Ht)
        as (Hpos & Hlen & Htotal & Hs').
      set (others := fun c => Branch.adjust c (Branch.offset b') change) in *.
      apply IH in Hrun; [| now rewrite length_map |].
      2:{ rewrite <- app_assoc. exact Hs'. }
      rewrite <- app_assoc in Hrun. cbn [app] in Hrun.
      destruct Hrun as (Hfinal & Hshort & Hle & _).
      split; [exact Hfinal |]. split; [| split; [lia | right; lia]].
      eapply never_shorter_trans; [| exact Hshort].
      apply never_shorter_app; [apply never_shorter_adjust |].
      constructor; [lia | apply never_shorter_adjust].
    + destruct (adjust_length_Ok _ _ _ Hb) as (a & _ & _ & ->). rewrite Ht in *.
      apply IH in Hrun; [| exact Hn |].
      2:{ rewrite <- app_assoc. exact Hs. }
      rewrite <- app_assoc in Hrun. exact Hrun.
Qed.

Lemma total_length_le (Y : Z) (bs : list Branch.t) :
  Forall (fun b => Branch.length b <= Y) bs ->
  total_length bs <= Z.of_nat (List.length bs) * Y.
Proof.
  induction 1 as [| b bs Hb _ IH]; [cbn; lia |].
  cbn [total_length List.length]. rewrite Nat2Z.inj_succ. lia.
Qed.

(** The number of bits grows slower than any share of the value. *)
Lemma bit_length_lin (x k : Z) :
  0 <= x -> 0 <= k -> bit_length x <= k + 1 + x / 2 ^ k.
Proof.
  intros Hx Hk.
  assert (0 < 2 ^ k) as Hpow by (apply Z.pow_pos_nonneg; lia).
  assert (0 <= x / 2 ^ k) as Hq by (apply Z.div_pos; lia).
  apply bit_length_le; [| lia]. split; [exact Hx |].
  replace (k + 1 + x / 2 ^ k) with (k + (x / 2 ^ k + 1)) by lia.
  rewrite Z.pow_add_r by lia.
  pose proof (Z.mul_succ_div_gt x (2 ^ k) Hpow) as Hlt.
  pose proof (Z.pow_gt_lin_r 2 (x / 2 ^ k + 1) ltac:(lia) ltac:(lia)) as Hlin.
  assert (2 ^ k * Z.succ (x / 2 ^ k) <= 2 ^ k * 2 ^ (x / 2 ^ k + 1)); [| lia].
  apply Z.mul_le_mono_nonneg_l; lia.
Qed.

(** What the sum of the lengths of [n] branches cannot exceed, under the
    invariant with [K] and [C]. *)
Definition growth_bound (K C : Z) (n : nat) : Z :=
  2 * (Z.of_nat n * (Z.max C 0 + 2 * bit_length (8 * Z.of_nat n) + 4)) + Z.abs K.

Lemma settled_bound (K C : Z) (bs : list Branch.t) :
  settled K C bs -> total_length bs <= growth_bound K C (List.length bs).
Proof.
  intros Hs. unfold growth_bound.
  destruct bs as [| b0 bs0]; [cbn; lia |].
  assert (0 <= 2 * total_length (b0 :: bs0) + K) as HX.
  { pose proof Hs as Hs0. unfold settled, bounded in Hs0.
    apply Forall_cons_iff in Hs0. destruct Hs0 as [[Hw _] _].
    pose proof (weight_nonneg b0). lia. }
  remember (b0 :: bs0) as bs eqn:Ebs. clear Ebs b0 bs0.
  unfold settled, bounded in Hs.
  set (n := Z.of_nat (List.length bs)). set (k := bit_length (8 * n)).
  set (L := total_length bs) in *. set (X := 2 * L + K) in *.
  assert (0 <= n) as Hn by (subst n; lia).
  pose proof (bit_length_nonneg (8 * n)) as Hk. fold k in Hk.
  assert (L <= n * Z.max C (needed_for X)) as HL.
  { subst L n. apply total_length_le. eapply Forall_impl; [| exact Hs].
    cbn. intros b [_ Hb]. exact Hb. }
  set (q := X / 2 ^ k).
  assert (0 < 2 ^ k) as Hpow by (apply Z.pow_pos_nonneg; lia).
  assert (0 <= q) as Hq by (apply Z.div_pos; lia).
  assert (needed_for X <= 2 * k + 4 + 2 * q) as Hneed.
  { pose proof (bit_length_lin X k HX Hk) as Hlin. fold q in Hlin.
    pose proof (bit_length_nonneg X) as Hb.
    unfold needed_for, arg_ext_needed.
    assert ((bit_length X - 1) / 8 <= bit_length X)
      by (apply Z.div_le_upper_bound; lia).
    lia. }
  assert (8 * n * q <= X) as Hshare.
  { pose proof (bit_length_bound (8 * n) ltac:(lia)) as Hb. fold k in Hb.
    pose proof (Z.mul_div_le X (2 ^ k) Hpow) as Hd. fold q in Hd.
    assert (8 * n * q <= 2 ^ k * q) by (apply Z.mul_le_mono_nonneg_r; lia).
    lia. }
  assert (n * Z.max C (needed_for X) <= n * (Z.max C 0 + 2 * k + 4 + 2 * q)) as HY.
  { apply Z.mul_le_mono_nonneg_l; [exact Hn |].
    pose proof (needed_for_nonneg X). lia. }
  replace (n * (Z.max C 0 + 2 * k + 4 + 2 * q))
    with (n * (Z.max C 0 + 2 * k + 4) + 2 * (n * q)) in HY by ring.
  replace (8 * n * q) with (8 * (n * q)) in Hshare by ring.
  subst X. lia.
Qed.

Fixpoint total_weight (bs : list Branch.t) : Z :=
  match bs with
  | [] => 0
  | b :: bs => weight b + total_weight bs
  end.

Lemma total_weight_nonneg (bs : list Branch.t) : 0 <= total_weight bs.
Proof.
  induction bs as [| b bs IH]; cbn; [lia |]. pose proof (weight_nonneg b). lia.
Qed.

Lemma weight_le_total (b : Branch.t) (bs : list Branch.t) :
  In b bs -> weight b <= total_weight bs.
Proof.
  induction bs as [| x bs IH]; cbn; [tauto |]. intros [-> | Hin].
  - pose proof (total_weight_nonneg bs). lia.
  - specialize (IH Hin). pose proof (weight_nonneg x). lia.
Qed.

(** Any branches satisfy the invariant, for constants taken from them. *)
Lemma settled_initially (bs : list Branch.t) :
  settled (total_weight bs + 2 * Z.abs (total_length bs)) (total_weight bs) bs.
Proof.
  unfold settled, bounded. apply Forall_forall. intros b Hin.
  apply weight_le_total in Hin. unfold weight in *. lia.
Qed.

Lemma stabilize_ends (K C : Z) (fuel : nat) :
  forall self,
    settled K C (Editor.branches self) ->
    growth_bound K C (List.length (Editor.branches self))
      - total_length (Editor.branches self) < Z.of_nat fuel ->
    exists outcome, Editor.stabilize fuel self = Some outcome.
Proof.
  induction fuel as [| fuel IH]; intros self Hs Hfuel.
  - apply settled_bound in Hs. lia.
  - cbn [Editor.stabilize].
    destruct (Editor.adjust_lengths self [] (Editor.branches self) false)
      as [[self' any_adjusted] | e] eqn:Hscan; [| eauto].
    destruct any_adjusted; [| eauto].
    destruct (adjust_lengths_settled K C _ _ eq_refl _ _ _ _ _ Hscan Hs)
      as (Hs' & Hshort & _ & Hgrow).
    cbn [app] in *. apply Forall2_length in Hshort.
    destruct (Hgrow eq_refl) as [Hfalse | Hlt]; [discriminate |].
    apply IH; [exact Hs' |]. rewrite <- Hshort. lia.
Qed.

Lemma stabilize_more (fuel : nat) :
  forall self outcome,
    Editor.stabilize fuel self = Some outcome ->
    forall fuel', (fuel <= fuel')%nat -> Editor.stabilize fuel' self = Some outcome.
Proof.
  induction fuel as [| fuel IH]; intros self outcome H fuel' Hle; [discriminate |].
  destruct fuel' as [| fuel']; [lia |]. cbn [Editor.stabilize] in *.
  destruct (Editor.adjust_lengths self [] (Editor.branches self) false)
    as [[self' any_adjusted] | e]; [| exact H].
  destruct any_adjusted; [| exact H].
  apply (IH _ _ H). lia.
Qed.

Lemma stabilize_terminates (self : Editor.t) :
  exists fuel outcome,
    forall fuel', (fuel <= fuel')%nat -> Editor.stabilize fuel' self = Some outcome.
Proof.
  set (bs := Editor.branches self).
  set (K := total_weight bs + 2 * Z.abs (total_length bs)).
  set (C := total_weight bs).
  set (fuel := Z.to_nat (growth_bound K C (List.length bs) - total_length bs + 1)).
  destruct (stabilize_ends K C fuel self) as [outcome H].
  - apply settled_initially.
  - fold bs. pose proof (settled_bound K C bs (settled_initially bs)). subst fuel. lia.
  - exists fuel, outcome. now apply stabilize_more.
Qed.

End FixedPoint.

(** C7, as amended.  For every editor, the [while] loop of [finish] ends,
    with an outcome (the stabilized editor, or the exception raised) that no
    larger bound on its turns changes, and so does [finish].  A scan shortens
    no branch, and it reports a growth only when the sum of the lengths of the
    branches has grown; that sum is bounded, by a bound that depends on the
    branches the editor starts from ([settled_bound]), so only finitely many
    scans report a growth. *)
Theorem finish_loop_terminates {rt : Runtime} (self : Editor.t) :
  (exists fuel outcome,
      forall fuel', (fuel <= fuel')%nat ->
                    Editor.stabilize fuel' self = Some outcome) /\
  (exists fuel outcome,
      forall fuel', (fuel <= fuel')%nat ->
                    Editor.finish fuel' self = Some outcome) /\
  (forall self' any_adjusted,
      Editor.adjust_lengths self [] (Editor.branches self) false
        = Ok (self', any_adjusted) ->
      never_shorter (Editor.branches self) (Editor.branches self') /\
      (any_adjusted = true ->
       total_length (Editor.branches self) < total_length (Editor.branches self'))).
Proof.
  destruct (stabilize_terminates self) as (fuel & outcome & Hends).
  split; [exists fuel, outcome; exact Hends |]. split.
  - unfold Editor.finish. destruct (Editor.finished self).
    + exists 0%nat. eexists. intros fuel' _. reflexivity.
    + destruct outcome as [stable | e]; exists fuel; eexists; intros fuel' Hle;
        rewrite (Hends fuel' Hle); reflexivity.
  - intros self' any_adjusted Hscan.
    destruct (adjust_lengths_settled _ _ _ _ eq_refl _ _ _ _ _ Hscan
                (settled_initially (Editor.branches self)))
      as (_ & Hshort & _ & Hgrow).
    split; [exact Hshort |]. intros ->.
    destruct (Hgrow eq_refl) as [Hfalse | Hlt]; [discriminate | exact Hlt].
Qed.

Lemma finish_loop_terminates_witness :
  exists self',
    Editor.adjust_lengths (rt := Sample.py39) Sample.far_branch_editor []
      (Editor.branches Sample.far_branch_editor) false = Ok (self', true) /\
    total_length (Editor.branches Sample.far_branch_editor)
      < total_length (Editor.branches self').
Proof.
  destruct (Editor.adjust_lengths (rt := Sample.py39) Sample.far_branch_editor []
              (Editor.branches Sample.far_branch_editor) false)
    as [[self' any_adjusted] | e] eqn:E; [| vm_compute in E; discriminate].
  assert (any_adjusted = true) as -> by (vm_compute in E; congruence).
  exists self'. split; [reflexivity |].
  destruct (finish_loop_terminates (rt := Sample.py39) Sample.far_branch_editor)
    as (_ & _ & H).
  destruct (H self' true E) as [_ Hgrow]. exact (Hgrow eq_refl).
Defined.

(** C7 as stated bounds the length of a branch by 8 bytes.  The loop sets no
    such bound: it leaves the branch to 2^32 ten bytes long, and only the
    emission that follows refuses a fourth prefix. *)
Lemma finish_loop_grows_past_eight_bytes :
  exists self',
    Editor.stabilize (rt := Sample.py39) 2 Sample.far_branch_editor = Some (Ok self') /\
    map Branch.length (Editor.branches self') = [10] /\
    Editor.finish (rt := Sample.py39) 2 Sample.far_branch_editor
      = Some (Raise AssertionError).
Proof.
  destruct (Editor.stabilize (rt := Sample.py39) 2 Sample.far_branch_editor)
    as [[self' | e] |] eqn:E; try (vm_compute in E; discriminate).
  exists self'. split; [reflexivity |].
  split.
  - vm_compute in E. injection E as <-. reflexivity.
  - unfold Editor.finish. rewrite E. vm_compute in E. injection E as <-.
    vm_compute. reflexivity.
Qed.

(** * Further properties of the code *)

(** ** Loops *)

(** A property every turn of a [while] loop keeps holds when the loop ends,
    and the condition is false then. *)
Lemma while_invariant {S : Type} (cond : S -> bool) (body : S -> S)
  (variant : S -> nat)
  (decreases : forall s, cond s = true -> (variant (body s) < variant s)%nat)
  (P : S -> Prop) :
  (forall s, P s -> cond s = true -> P (body s)) ->
  forall s, P s ->
    P (while cond body variant decreases s) /\
    cond (while cond body variant decreases s) = false.
Proof.
  intros Hstep s. remember (variant s) as n eqn:Hn. revert s Hn.
  induction n as [n IH] using lt_wf_ind. intros s Hn Hs.
  rewrite while_eq. destruct (cond s) eqn:Hc.
  - apply (IH (variant (body s))); [subst n; now apply decreases | reflexivity |].
    now apply Hstep.
  - split; [exact Hs | exact Hc].
Qed.

(** ** Instructions: [opcode_arg] and [unpack_opargs] *)

Section Instructions.
Context {rt : Runtime}.

Lemma skip_cache_words (m : nat) :
  forall Q,
    2 <= len Q ->
    skip_cache (Q ++ List.concat (repeat [op_CACHE; 0] m)) (len Q - 2)
    = Ok (len Q - 2 + 2 * Z.of_nat m).
Proof.
  induction m as [| m IH]; intros Q HQ; rewrite skip_cache_eq.
  - cbn [repeat List.concat]. rewrite app_nil_r.
    destruct (Z_lt_dec (len Q - 2 + 2) (len Q)); [lia |]. f_equal. lia.
  - cbn [repeat List.concat app].
    replace (len Q - 2 + 2) with (len Q) by lia.
    destruct (Z_lt_dec (len Q) (len (Q ++ op_CACHE :: 0 :: List.concat (repeat [op_CACHE; 0] m))))
      as [_ | Hge].
    2:{ rewrite len_app in Hge.
        assert (0 < len (op_CACHE :: 0 :: List.concat (repeat [op_CACHE; 0] m)))
          by (unfold len; cbn [List.length]; lia).
        lia. }
    rewrite getitem_app_0, Z.eqb_refl.
    replace (Q ++ op_CACHE :: 0 :: List.concat (repeat [op_CACHE; 0] m))
      with ((Q ++ [op_CACHE; 0]) ++ List.concat (repeat [op_CACHE; 0] m))
      by (rewrite <- app_assoc; reflexivity).
    replace (len Q) with (len (Q ++ [op_CACHE; 0]) - 2)
      by (rewrite len_app; change (len [op_CACHE; 0]) with 2; lia).
    rewrite IH by (rewrite len_app; change (len [op_CACHE; 0]) with 2; lia).
    f_equal. rewrite len_app. change (len [op_CACHE; 0]) with 2. lia.
Qed.

Lemma len_cache_words (m : nat) :
  len (List.concat (repeat [op_CACHE; 0] m)) = 2 * Z.of_nat m.
Proof.
  induction m as [| m IH]; [reflexivity |].
  cbn [repeat List.concat]. rewrite len_app, IH.
  change (len [op_CACHE; 0]) with 2. lia.
Qed.

(** Decoding the words of one instruction, its cache words included, that
    ends the code. *)
Lemma unpack_instruction (a opcode : Z) (m count : nat) :
  0 <= a ->
  mem opcode is_EXTENDED_ARG = false ->
  (version_ge PYTHON_VERSION (3, 11) = false -> m = 0%nat) ->
  forall P ext_arg,
    ext_arg = Z.shiftl (Z.shiftr a (8 * (Z.of_nat count + 1))) 8 ->
    unpack_loop (P ++ ext_words a (Z.of_nat count) count
                   ++ opcode :: Z.land a 255 :: List.concat (repeat [op_CACHE; 0] m))
                ext_arg 0 (len P)
    = ([(0, len (P ++ ext_words a (Z.of_nat count) count
                   ++ opcode :: Z.land a 255 :: List.concat (repeat [op_CACHE; 0] m)),
         opcode, a)], None).
Proof.
  intros Ha Hop Hm. set (tail := List.concat (repeat [op_CACHE; 0] m)).
  induction count as [| count IH]; intros P ext_arg Hext.
  - cbn [ext_words app].
    set (code := P ++ opcode :: Z.land a 255 :: tail).
    assert (len code = len P + 2 + 2 * Z.of_nat m) as Hlen.
    { subst code. rewrite len_app.
      change (opcode :: Z.land a 255 :: tail) with ([opcode; Z.land a 255] ++ tail).
      rewrite len_app. subst tail. rewrite len_cache_words.
      change (len [opcode; Z.land a 255]) with 2. lia. }
    pose proof (len_nonneg P) as HP.
    rewrite unpack_loop_eq.
    destruct (Z_lt_dec (len P) (len code)) as [_ | Hge]; [| lia].
    subst code. rewrite getitem_app_0, getitem_app_1, Hop.
    assert ((if version_ge PYTHON_VERSION (3, 11)
             then skip_cache (P ++ opcode :: Z.land a 255 :: tail) (len P)
             else Ok (len P)) = Ok (len P + 2 * Z.of_nat m)) as ->.
    { destruct (version_ge PYTHON_VERSION (3, 11)).
      - replace (P ++ opcode :: Z.land a 255 :: tail)
          with ((P ++ [opcode; Z.land a 255]) ++ tail)
          by (rewrite <- app_assoc; reflexivity).
        assert (len (P ++ [opcode; Z.land a 255]) = len P + 2) as HQ
            by (rewrite len_app; reflexivity).
        pose proof (skip_cache_words m (P ++ [opcode; Z.land a 255]) ltac:(lia)) as Hs.
        rewrite HQ in Hs. replace (len P + 2 - 2) with (len P) in Hs by lia.
        subst tail. rewrite Hs. reflexivity.
      - rewrite (Hm eq_refl). f_equal. lia. }
    rewrite (unpack_loop_eq _ 0).
    destruct (Z_lt_dec (len P + 2 * Z.of_nat m + 2)
                       (len (P ++ opcode :: Z.land a 255 :: tail))); [lia |].
    unfold yield. cbn [fst snd]. rewrite Hlen, Hext.
    change (8 * (Z.of_nat 0 + 1)) with 8. change 255 with (Z.ones 8).
    rewrite low_bits_join by lia.
    replace (len P + 2 * Z.of_nat m + 2 - 0) with (len P + 2 + 2 * Z.of_nat m) by lia.
    reflexivity.
  - cbn [ext_words].
    set (c := Z.land (Z.shiftr a (Z.of_nat (S count) * 8)) 255).
    set (rest := ext_words a (Z.of_nat (S count) - 1) count
                 ++ opcode :: Z.land a 255 :: tail).
    change ((op_EXTENDED_ARG :: c :: ext_words a (Z.of_nat (S count) - 1) count)
            ++ opcode :: Z.land a 255 :: tail)
      with (op_EXTENDED_ARG :: c :: rest).
    pose proof (len_nonneg P) as HP.
    rewrite unpack_loop_eq.
    destruct (Z_lt_dec (len P) (len (P ++ op_EXTENDED_ARG :: c :: rest))) as [_ | Hge].
    2:{ rewrite len_app in Hge.
        assert (0 < len (op_EXTENDED_ARG :: c :: rest))
          by (unfold len; cbn [List.length]; lia).
        lia. }
    rewrite getitem_app_0, getitem_app_1, mem_EXTENDED_ARG.
    replace (P ++ op_EXTENDED_ARG :: c :: rest)
      with ((P ++ [op_EXTENDED_ARG; c]) ++ rest)
      by (rewrite <- app_assoc; reflexivity).
    replace (len P + 2) with (len (P ++ [op_EXTENDED_ARG; c]))
      by (rewrite len_app; reflexivity).
    subst rest. replace (Z.of_nat (S count) - 1) with (Z.of_nat count) by lia.
    apply IH. subst ext_arg c.
    replace (8 * (Z.of_nat (S count) + 1)) with (Z.of_nat (S count) * 8 + 8) by lia.
    rewrite <- Z.shiftr_shiftr by lia. change 255 with (Z.ones 8).
    rewrite low_bits_join by lia. f_equal. f_equal. lia.
Qed.

(** What [opcode_arg] returns, when it returns: the prefixes, the
    instruction and its cache words. *)
Lemma opcode_arg_Ok (opcode arg min_ext : Z) (code : list Z) :
  opcode_arg opcode arg min_ext = Ok code ->
  let ext := Z.max (arg_ext_needed arg) min_ext in
  ext <= 3 /\
  exists m : nat,
    (version_ge PYTHON_VERSION (3, 11) = false -> m = 0%nat) /\
    (version_ge PYTHON_VERSION (3, 11) = true ->
     exists n, getitem (_inline_cache_entries dis) opcode = Ok n /\ m = Z.to_nat n) /\
    code = ext_words arg ext (Z.to_nat ext)
           ++ opcode :: Z.land arg 255 :: List.concat (repeat [op_CACHE; 0] m).
Proof.
  intros H ext. unfold opcode_arg in H. fold ext in H.
  destruct (Z.leb_spec ext 3) as [Hext | ?]; [| discriminate].
  split; [exact Hext |].
  unfold range in H. rewrite (ext_words_eq arg ext (Z.to_nat ext) 0) in H.
  replace (ext - Z.of_nat 0) with ext in H by lia.
  destruct (version_ge PYTHON_VERSION (3, 11)).
  - inv_bind H. injection H as <-. exists (Z.to_nat a).
    split; [discriminate |]. split; [intros _; eauto |].
    unfold repeat_list. rewrite <- app_assoc. reflexivity.
  - injection H as <-. exists 0%nat.
    split; [reflexivity |]. split; [discriminate |]. reflexivity.
Qed.

End Instructions.

Lemma arg_ext_needed_large (arg : Z) : 2 ^ 32 <= Z.abs arg -> 4 <= arg_ext_needed arg.
Proof.
  intros H. unfold arg_ext_needed. rewrite bit_length_abs.
  pose proof (bit_length_bound (Z.abs arg) ltac:(lia)) as Hb.
  pose proof (bit_length_nonneg (Z.abs arg)) as Hn.
  assert (32 < bit_length (Z.abs arg)).
  { apply (Z.pow_lt_mono_r_iff 2); lia. }
  apply Z.div_le_lower_bound; lia.
Qed.

(** X1. Decoding what [opcode_arg] emitted for a non-negative argument gives
    one instruction: it starts at 0, takes up all the bytes emitted (prefixes
    and cache words included), and has the opcode and the argument given. *)
Theorem opcode_arg_decodes {rt : Runtime} (opcode arg min_ext : Z) (code : list Z) :
  0 <= arg ->
  mem opcode is_EXTENDED_ARG = false ->
  opcode_arg opcode arg min_ext = Ok code ->
  unpack_opargs code = ([(0, len code, opcode, arg)], None).
Proof.
  intros Harg Hop Hcode.
  destruct (opcode_arg_Ok _ _ _ _ Hcode) as (Hext & m & Hold & _ & ->).
  set (ext := Z.max (arg_ext_needed arg) min_ext) in *.
  set (count := Z.to_nat ext).
  assert (ext_words arg ext count = ext_words arg (Z.of_nat count) count) as ->.
  { destruct (Z_lt_dec ext 0) as [Hneg | Hpos].
    - assert (count = 0%nat) as -> by (subst count; lia). reflexivity.
    - subst count. rewrite Z2Nat.id by lia. reflexivity. }
  unfold unpack_opargs.
  apply (unpack_instruction arg opcode m count Harg Hop Hold []).
  rewrite shiftr_small; [reflexivity | | lia].
  split; [exact Harg |].
  apply arg_ext_needed_bound; [exact Harg | lia | subst count ext; lia].
Qed.

Lemma opcode_arg_decodes_witness :
  opcode_arg (rt := Sample.py311) 171 300 0
    = Ok [144; 1; 171; 44; 0; 0; 0; 0; 0; 0; 0; 0] /\
  unpack_opargs (rt := Sample.py311) [144; 1; 171; 44; 0; 0; 0; 0; 0; 0; 0; 0]
    = ([(0, 12, 171, 300)], None).
Proof.
  split; [reflexivity |].
  apply (opcode_arg_decodes (rt := Sample.py311) 171 300 0); [lia | reflexivity..].
Defined.

(** X2. [opcode_arg] never truncates: for an argument of 2^32 or more in
    absolute value, or more than 3 prefixes asked for, it fails its
    assertion; when it returns, the argument is below 2^32 and the bytes are
    two for each prefix ([max(arg_ext_needed(arg), min_ext)] of them, if
    positive), two for the instruction and two for each cache entry: there
    are none before 3.11, and [dis._inline_cache_entries[opcode]] of them
    from 3.11 on. *)
Theorem opcode_arg_never_truncates {rt : Runtime} (opcode arg min_ext : Z) :
  (2 ^ 32 <= Z.abs arg \/ 3 < min_ext ->
   opcode_arg opcode arg min_ext = Raise AssertionError) /\
  (forall code,
      opcode_arg opcode arg min_ext = Ok code ->
      Z.abs arg < 2 ^ 32 /\ min_ext <= 3 /\
      exists caches : nat,
        (version_ge PYTHON_VERSION (3, 11) = false -> caches = 0%nat) /\
        (version_ge PYTHON_VERSION (3, 11) = true ->
         exists n, getitem (_inline_cache_entries dis) opcode = Ok n /\
                   caches = Z.to_nat n) /\
        len code = 2 * Z.max 0 (Z.max (arg_ext_needed arg) min_ext) + 2
                   + 2 * Z.of_nat caches).
Proof.
  assert (2 ^ 32 <= Z.abs arg \/ 3 < min_ext ->
          opcode_arg opcode arg min_ext = Raise AssertionError) as Hfail.
  { intros H. unfold opcode_arg.
    destruct (Z.leb_spec (Z.max (arg_ext_needed arg) min_ext) 3) as [Hle | _];
      [| reflexivity].
    destruct H as [H | H]; [apply arg_ext_needed_large in H |]; lia. }
  split; [exact Hfail |].
  intros code Hcode.
  assert (Z.abs arg < 2 ^ 32 /\ min_ext <= 3) as [Ha Hm].
  { split.
    - destruct (Z_lt_dec (Z.abs arg) (2 ^ 32)) as [? | Hge]; [assumption |].
      rewrite Hfail in Hcode by lia. discriminate.
    - destruct (Z_le_dec min_ext 3) as [? | Hgt]; [assumption |].
      rewrite Hfail in Hcode by lia. discriminate. }
  split; [exact Ha |]. split; [exact Hm |].
  destruct (opcode_arg_Ok _ _ _ _ Hcode) as (_ & m & Hold & Hnew & ->).
  exists m. split; [exact Hold |]. split; [exact Hnew |].
  change (opcode :: Z.land arg 255 :: List.concat (repeat [op_CACHE; 0] m))
    with ([opcode; Z.land arg 255] ++ List.concat (repeat [op_CACHE; 0] m)).
  rewrite !len_app, len_ext_words, len_cache_words.
  change (len [opcode; Z.land arg 255]) with 2. lia.
Qed.

Lemma opcode_arg_never_truncates_witness :
  opcode_arg (rt := Sample.py39) 113 4294967296 0 = Raise AssertionError /\
  opcode_arg (rt := Sample.py39) 113 0 4 = Raise AssertionError /\
  len [144; 0; 144; 1; 113; 44] = 2 * 2 + 2 + 2 * 0 /\
  len [144; 1; 171; 44; 0; 0; 0; 0; 0; 0; 0; 0] = 2 * 1 + 2 + 2 * 4.
Proof.
  destruct (opcode_arg_never_truncates (rt := Sample.py39) 113 4294967296 0)
    as [H1 _].
  destruct (opcode_arg_never_truncates (rt := Sample.py39) 113 0 4) as [H2 _].
  destruct (opcode_arg_never_truncates (rt := Sample.py39) 113 300 2) as [_ H3].
  destruct (opcode_arg_never_truncates (rt := Sample.py311) 171 300 0) as [_ H4].
  destruct (H3 [144; 0; 144; 1; 113; 44] eq_refl) as (_ & _ & caches & Hc & _ & Hlen).
  rewrite (Hc eq_refl) in Hlen.
  destruct (H4 [144; 1; 171; 44; 0; 0; 0; 0; 0; 0; 0; 0] eq_refl)
    as (_ & _ & caches' & _ & Hc' & Hlen').
  destruct (Hc' eq_refl) as (n & Hn & ->).
  assert (n = 4) as -> by (vm_compute in Hn; congruence).
  split; [apply H1; left; cbn; lia |].
  split; [apply H2; right; lia |]. split; [exact Hlen | exact Hlen'].
Defined.

(** ** What [unpack_opargs] yields *)

(** The instructions follow one another from [start]: each begins where the
    one before ended, and takes an even number of bytes, two at least. *)
Fixpoint tiles (start : Z) (l : list oparg) : Prop :=
  match l with
  | [] => True
  | (off, length, _, _) :: l =>
      off = start /\ 2 <= length /\ length mod 2 = 0 /\ tiles (start + length) l
  end.

(** What holds of an instruction decoded from [code]: it lies in the code
    (for a code of even length); over bytes, its argument is non-negative and
    has at most one byte for each word of the instruction; and before 3.11,
    which has no cache words, its opcode is the byte before its last. *)
Definition decoded_from {rt : Runtime} (code : list Z) (i : oparg) : Prop :=
  let '(off, length, op, arg) := i in
  0 <= off /\
  (len code mod 2 = 0 -> off + length <= len code) /\
  (Forall (fun b => is_byte b = true) code -> 0 <= arg < 2 ^ (4 * length)) /\
  (version_ge PYTHON_VERSION (3, 11) = false ->
   getitem code (off + length - 2) = Ok op).

Section Decoding.
Context {rt : Runtime}.

Lemma skip_cache_Ok (code : list Z) (off off' : Z) :
  skip_cache code off = Ok off' ->
  off <= off' /\ (off' - off) mod 2 = 0 /\ (off' = off \/ off' < len code).
Proof.
  funelim (skip_cache code off); intros E; try discriminate.
  - injection E as <-. rewrite Z.sub_diag. auto with zarith.
  - destruct (H _ E) as (Hle & Hpar & Hend).
    split; [lia |]. split.
    + replace (off' - off) with ((off' - (off + 2)) + 1 * 2) by lia.
      rewrite Z.mod_add by lia. exact Hpar.
    + right. destruct Hend as [-> | ?]; lia.
  - injection E as <-. rewrite Z.sub_diag. auto with zarith.
Qed.

Lemma getitem_Ok {A : Type} (l : list A) (i : Z) (x : A) :
  0 <= i -> getitem l i = Ok x -> i < len l /\ In x l.
Proof.
  intros Hi. unfold getitem.
  destruct (Z.ltb_spec i 0); [lia |].
  destruct (Z.ltb_spec i 0); [lia |].
  destruct (nth_error l (Z.to_nat i)) eqn:E; [| discriminate].
  intros Hx. injection Hx as <-. split.
  - assert (Z.to_nat i < List.length l)%nat
      by (apply nth_error_Some; congruence).
    unfold len. lia.
  - eapply nth_error_In; eassumption.
Qed.

Lemma lor_below (x y n : Z) :
  0 <= n -> 0 <= x < 2 ^ n -> 0 <= y < 2 ^ n -> 0 <= Z.lor x y < 2 ^ n.
Proof.
  intros Hn Hx Hy. split; [apply Z.lor_nonneg; lia |].
  destruct (Z.eq_dec (Z.lor x y) 0) as [-> | Hne].
  - apply Z.pow_pos_nonneg; lia.
  - apply Z.log2_lt_pow2; [pose proof (proj2 (Z.lor_nonneg x y)); lia |].
    rewrite Z.log2_lor by lia.
    destruct (Z.eq_dec x 0) as [-> | Hx0], (Z.eq_dec y 0) as [-> | Hy0];
      cbn [Z.log2]; try (rewrite Z.lor_0_l in Hne || rewrite Z.lor_0_r in Hne);
      try lia.
    + rewrite Z.max_r by apply Z.log2_nonneg. apply Z.log2_lt_pow2; lia.
    + rewrite Z.max_l by apply Z.log2_nonneg. apply Z.log2_lt_pow2; lia.
    + apply Z.max_lub_lt; apply Z.log2_lt_pow2; lia.
Qed.

Lemma even_plus (x y : Z) : x mod 2 = 0 -> y mod 2 = 0 -> (x + y) mod 2 = 0.
Proof. intros Hx Hy. rewrite Z.add_mod, Hx, Hy by lia. reflexivity. Qed.

Lemma even_minus (x y : Z) : x mod 2 = 0 -> y mod 2 = 0 -> (x - y) mod 2 = 0.
Proof. intros Hx Hy. rewrite Zminus_mod, Hx, Hy. reflexivity. Qed.

Lemma even_below (x y : Z) : x mod 2 = 0 -> y mod 2 = 0 -> x < y -> x + 2 <= y.
Proof.
  intros Hx Hy Hlt.
  pose proof (Z.div_mod x 2 ltac:(lia)). pose proof (Z.div_mod y 2 ltac:(lia)). lia.
Qed.

Lemma byte_of_code (code : list Z) (i b : Z) :
  Forall (fun b => is_byte b = true) code ->
  0 <= i -> getitem code i = Ok b -> 0 <= b < 256.
Proof.
  intros Hbytes Hi Hget. apply getitem_Ok in Hget; [| exact Hi].
  destruct Hget as [_ Hin]. rewrite Forall_forall in Hbytes.
  specialize (Hbytes b Hin). unfold is_byte in Hbytes.
  apply andb_prop in Hbytes. destruct Hbytes as [H1 H2].
  apply Z.leb_le in H1. apply Z.ltb_lt in H2. lia.
Qed.

Lemma unpack_loop_decoded (code : list Z) (ext_arg next_off off : Z) :
  0 <= next_off <= off ->
  (off - next_off) mod 2 = 0 ->
  off mod 2 = 0 ->
  (Forall (fun b => is_byte b = true) code ->
   0 <= ext_arg < 2 ^ (4 * (off - next_off) + 8)) ->
  tiles next_off (fst (unpack_loop code ext_arg next_off off)) /\
  Forall (decoded_from code) (fst (unpack_loop code ext_arg next_off off)).
Proof.
  funelim (unpack_loop code ext_arg next_off off); intros Hoff Hpar Heven Hext;
    cbn [fst yield]; try solve [split; constructor].
  - (* an extension prefix *)
    apply H; [lia | | |].
    + replace (off + 2 - next_off) with (off - next_off + 2) by lia.
      now apply even_plus.
    + now apply even_plus.
    + intros Hbytes. specialize (Hext Hbytes).
      pose proof (byte_of_code code (off + 1) b Hbytes ltac:(lia) Heq0) as Hb.
      set (n := 4 * (off - next_off) + 8) in *.
      assert (0 <= Z.lor ext_arg b < 2 ^ n) as Hlor.
      { apply lor_below; [lia | exact Hext |]. split; [lia |].
        apply Z.lt_le_trans with (2 ^ 8); [cbn; lia |].
        apply Z.pow_le_mono_r; lia. }
      rewrite Z.shiftl_mul_pow2 by lia.
      replace (4 * (off + 2 - next_off) + 8) with (n + 8) by lia.
      rewrite Z.pow_add_r by lia. change (2 ^ 8) with 256. nia.
  - (* an instruction *)
    assert (off <= off' /\ (off' - off) mod 2 = 0 /\ (off' = off \/ off' < len code)
            /\ (version_ge PYTHON_VERSION (3, 11) = false -> off' = off))
      as (Hle & Hpar' & Hend & Hold).
    { pose proof e as He. clear H0.
      destruct (version_ge PYTHON_VERSION (3, 11)).
      - apply skip_cache_Ok in He. destruct He as (? & ? & ?).
        repeat split; try assumption. discriminate.
      - injection He as <-. rewrite Z.sub_diag. repeat split; auto with zarith. }
    assert (off' mod 2 = 0) as Heven'.
    { replace off' with (off + (off' - off)) by lia. now apply even_plus. }
    destruct H as [Htiles Hall].
    + lia.
    + rewrite Z.sub_diag. reflexivity.
    + now apply even_plus.
    + intros _. rewrite Z.sub_diag. cbn. lia.
    + split.
      * cbn [tiles fst]. split; [reflexivity |]. split; [lia |]. split.
        -- replace (off' + 2 - next_off)
             with ((off - next_off) + ((off' - off) + 2)) by lia.
           apply even_plus; [exact Hpar | now apply even_plus].
        -- replace (next_off + (off' + 2 - next_off)) with (off' + 2) by lia.
           exact Htiles.
      * constructor; [| exact Hall].
        unfold decoded_from. split; [lia |]. split; [| split].
        -- intros Hcode.
           replace (next_off + (off' + 2 - next_off)) with (off' + 2) by lia.
           apply even_below; [exact Heven' | exact Hcode |].
           destruct Hend as [-> | ?]; lia.
        -- intros Hbytes. specialize (Hext Hbytes).
           pose proof (byte_of_code code (off + 1) b Hbytes ltac:(lia) Heq0) as Hb.
           set (n := 4 * (off - next_off) + 8) in *.
           assert (0 <= Z.lor ext_arg b < 2 ^ n) as Hlor.
           { apply lor_below; [lia | exact Hext |]. split; [lia |].
             apply Z.lt_le_trans with (2 ^ 8); [cbn; lia |].
             apply Z.pow_le_mono_r; lia. }
           split; [lia |].
           apply Z.lt_le_trans with (2 ^ n); [lia |].
           apply Z.pow_le_mono_r; lia.
        -- intros Hv. rewrite (Hold Hv).
           replace (next_off + (off + 2 - next_off) - 2) with off by lia.
           exact Heq1.
Qed.

Lemma unpack_opargs_decoded (code : list Z) :
  tiles 0 (fst (unpack_opargs code)) /\
  Forall (decoded_from code) (fst (unpack_opargs code)).
Proof.
  unfold unpack_opargs. apply unpack_loop_decoded; try reflexivity; lia.
Qed.

End Decoding.

(** X3. The instructions [unpack_opargs] yields follow one another from
    offset 0, each an even number of bytes long, two at least; each lies in
    the code when its length is even; over bytes, the argument of an
    instruction of [n] bytes is non-negative and below [2^(4n)]; and before
    3.11 the opcode of an instruction is the byte before its last. *)
Theorem unpack_opargs_tiles {rt : Runtime} (code : list Z) :
  tiles 0 (fst (unpack_opargs code)) /\
  Forall (decoded_from code) (fst (unpack_opargs code)).
Proof.
  apply unpack_opargs_decoded.
Qed.

Lemma unpack_opargs_tiles_witness :
  let code := [144; 1; 113; 44; 100; 0; 83; 0] in
  fst (unpack_opargs (rt := Sample.py39) code)
    = [(0, 4, 113, 300); (4, 2, 100, 0); (6, 2, 83, 0)] /\
  tiles 0 [(0, 4, 113, 300); (4, 2, 100, 0); (6, 2, 83, 0)] /\
  Forall (decoded_from (rt := Sample.py39) code)
         [(0, 4, 113, 300); (4, 2, 100, 0); (6, 2, 83, 0)].
Proof.
  intros code. split; [reflexivity |].
  exact (unpack_opargs_tiles (rt := Sample.py39) code).
Defined.

(** ** Branches *)

Section Branches.
Context {rt : Runtime}.

Lemma offset2branch_branch2offset (a : Z) : offset2branch (branch2offset a) = Ok a.
Proof.
  unfold offset2branch, branch2offset.
  destruct (version_ge PYTHON_VERSION (3, 10)); [| reflexivity].
  rewrite Z.mod_mul, Z.div_mul by lia. reflexivity.
Qed.

Lemma branch2offset_abs (a : Z) : Z.abs (branch2offset a) = branch2offset (Z.abs a).
Proof. unfold branch2offset. destruct (version_ge _ _); lia. Qed.

(** What [Branch.__init__] builds, when it returns. *)
Lemma init_Ok (offset length opcode a : Z) (b : Branch.t) :
  Branch.init offset length opcode a = Ok b ->
  Branch.offset b = offset /\ Branch.length b = length /\ Branch.opcode b = opcode /\
  flags_of_opcode b /\
  Branch.arg b = Ok (if Branch.is_relative b then Z.abs a else a).
Proof.
  unfold Branch.init. intros H. inv_bind H. injection H as <-.
  cbn [Branch.offset Branch.length Branch.opcode].
  split; [reflexivity |]. split; [reflexivity |]. split; [reflexivity |]. split.
  - split; [reflexivity |]. exists a0. split; [exact E | reflexivity].
  - unfold Branch.arg. cbn [Branch.is_relative Branch.target Branch.offset Branch.length].
    destruct (mem opcode (hasjrel dis)); cbn [negb].
    + replace (offset + length
               + branch2offset (if contains "JUMP_BACKWARD" a0 then - a else a)
               - (offset + length))
        with (branch2offset (if contains "JUMP_BACKWARD" a0 then - a else a)) by lia.
      rewrite branch2offset_abs.
      replace (Z.abs (if contains "JUMP_BACKWARD" a0 then - a else a)) with (Z.abs a)
        by (destruct (contains "JUMP_BACKWARD" a0); lia).
      apply offset2branch_branch2offset.
    + apply offset2branch_branch2offset.
Qed.

End Branches.

(** X4. A branch as [Branch.__init__] builds it has the offset, length and
    opcode given and the flags of that opcode, and its [arg()] is the
    argument it was built from (its absolute value, for a relative branch);
    the only failure is an opcode outside the table of names. *)
Theorem branch_init_then_arg {rt : Runtime} (offset length opcode a : Z) :
  (forall b,
      Branch.init offset length opcode a = Ok b ->
      Branch.offset b = offset /\ Branch.length b = length /\
      Branch.opcode b = opcode /\ flags_of_opcode b /\
      Branch.arg b = Ok (if Branch.is_relative b then Z.abs a else a)) /\
  (forall e,
      Branch.init offset length opcode a = Raise e ->
      e = IndexError /\ getitem (opname dis) opcode = Raise IndexError).
Proof.
  split; [intros b; apply init_Ok |].
  intros e. unfold Branch.init.
  destruct (getitem (opname dis) opcode) as [name | e'] eqn:E; cbn [bind];
    [discriminate |].
  intros H. injection H as ->. unfold getitem in E.
  destruct (_ <? 0); [injection E as <-; auto |].
  destruct (nth_error _ _); [discriminate |]. injection E as <-. auto.
Qed.

Lemma branch_init_then_arg_witness :
  Branch.init (rt := Sample.py311) 600 4 140 285
    = Ok (Branch.mk 600 4 140 true true 34) /\
  Branch.arg (rt := Sample.py311) (Branch.mk 600 4 140 true true 34) = Ok 285 /\
  Branch.init (rt := Sample.py311) 0 2 256 0 = Raise IndexError.
Proof.
  destruct (branch_init_then_arg (rt := Sample.py311) 600 4 140 285) as [H _].
  destruct (H (Branch.mk 600 4 140 true true 34) eq_refl) as (_ & _ & _ & _ & Harg).
  destruct (branch_init_then_arg (rt := Sample.py311) 0 2 256 0) as [_ H'].
  split; [reflexivity |]. split; [exact Harg |].
  destruct (Branch.init (rt := Sample.py311) 0 2 256 0) as [b | e] eqn:E;
    [vm_compute in E; discriminate |].
  destruct (H' e eq_refl) as [-> _]. reflexivity.
Defined.

Section FreshBranches.
Context {rt : Runtime}.

(** The opcode of a decoded instruction. *)
Definition opcode_of (i : oparg) : Z := let '(_, _, op, _) := i in op.

(** The branch [Branch.from_code] makes of a decoded instruction. *)
Definition branch_of (i : oparg) : result Branch.t :=
  let '(off, length, op, arg) := i in Branch.init off length op arg.

Lemma collect_branches (l : list oparg) :
  forall acc bs,
    for_each
      (fun (branches : list Branch.t) (i : oparg) =>
         let '(off, length, op, arg) := i in
         if mem op (hasjrel dis ++ hasjabs dis) then
           b <- Branch.init off length op arg ;;
           Ok (branches ++ [b])
         else Ok branches) l acc = Ok bs ->
    exists new,
      bs = acc ++ new /\
      Forall2 (fun i b => branch_of i = Ok b)
              (filter (fun i => mem (opcode_of i) (hasjrel dis ++ hasjabs dis)) l) new.
Proof.
  induction l as [| [[[off length] op] arg] l IH]; intros acc bs H.
  - injection H as <-. exists []. rewrite app_nil_r. split; [reflexivity | constructor].
  - cbn [for_each filter opcode_of] in *.
    destruct (mem op (hasjrel dis ++ hasjabs dis)).
    + inv_bind H. inv_bind E. injection E as <-.
      destruct (IH _ _ H) as (new & -> & Hnew).
      exists (a0 :: new). rewrite <- app_assoc. split; [reflexivity |].
      constructor; [exact E0 | exact Hnew].
    + inv_bind H. injection E as <-. apply (IH _ _ H).
Qed.

Lemma from_code_Ok (code : list Z) (bs : list Branch.t) :
  Branch.from_code code = Ok bs ->
  snd (unpack_opargs code) = None /\
  Forall2 (fun i b => branch_of i = Ok b)
          (filter (fun i => mem (opcode_of i) (hasjrel dis ++ hasjabs dis))
                  (fst (unpack_opargs code))) bs.
Proof.
  unfold Branch.from_code, for_generated. intros H. inv_bind H.
  destruct (snd (unpack_opargs code)); [discriminate |]. injection H as <-.
  split; [reflexivity |].
  destruct (collect_branches _ _ _ E) as (new & -> & Hnew). exact Hnew.
Qed.

Lemma tiles_lengths (l : list oparg) :
  forall start,
    tiles start l ->
    Forall (fun i => let '(_, length, _, _) := i in 2 <= length /\ length mod 2 = 0) l.
Proof.
  induction l as [| [[[off length] op] arg] l IH]; intros start H; constructor.
  - cbn in H. tauto.
  - cbn in H. apply (IH (start + length)). tauto.
Qed.

(** An argument of at most one byte for each word needs no more prefixes than
    the instruction has. *)
Lemma needed_within_length (a length : Z) :
  2 <= length -> length mod 2 = 0 -> 0 <= a < 2 ^ (4 * length) ->
  2 + 2 * arg_ext_needed a <= length.
Proof.
  intros Hl Heven Ha. unfold arg_ext_needed.
  pose proof (bit_length_le a (4 * length) Ha ltac:(lia)) as Hb.
  pose proof (Z.div_mod length 2 ltac:(lia)) as Hd. rewrite Heven in Hd.
  assert ((bit_length a - 1) / 8 < length / 2); [| lia].
  apply Z.div_lt_upper_bound; lia.
Qed.

Lemma stable_when_long_enough (b : Branch.t) (a : Z) :
  Branch.arg b = Ok a ->
  2 + 2 * arg_ext_needed a <= Branch.length b ->
  Branch.adjust_length b = Ok (0, b).
Proof.
  intros Ha Hl. unfold Branch.adjust_length. rewrite Ha. cbn [bind].
  rewrite Z.max_l by lia. reflexivity.
Qed.

(** [adjust_length] has nothing to do on the branch. *)
Definition stable (b : Branch.t) : Prop := Branch.adjust_length b = Ok (0, b).

Lemma from_code_facts (code : list Z) (bs : list Branch.t) :
  Branch.from_code code = Ok bs ->
  Forall (fun b => is_byte b = true) code ->
  Forall (fun b =>
            mem (Branch.opcode b) (hasjrel dis ++ hasjabs dis) = true /\
            flags_of_opcode b /\
            0 <= Branch.offset b /\
            stable b /\
            (version_ge PYTHON_VERSION (3, 11) = false ->
             getitem code (Branch.offset b + Branch.length b - 2)
             = Ok (Branch.opcode b))) bs.
Proof.
  intros Hfrom Hbytes. apply from_code_Ok in Hfrom. destruct Hfrom as [_ Hall].
  destruct (unpack_opargs_decoded code) as [Htiles Hdec].
  apply tiles_lengths in Htiles.
  set (branchy := fun i => mem (opcode_of i) (hasjrel dis ++ hasjabs dis)) in *.
  assert (Forall (fun i => branchy i = true /\ decoded_from code i /\
                           let '(_, length, _, _) := i in
                           2 <= length /\ length mod 2 = 0)
                 (filter branchy (fst (unpack_opargs code)))) as Hins.
  { apply Forall_forall. intros i Hi. apply filter_In in Hi. destruct Hi as [Hi Hb].
    rewrite Forall_forall in Hdec, Htiles.
    split; [exact Hb |]. split; [apply Hdec; exact Hi | apply (Htiles i Hi)]. }
  revert Hins. induction Hall as [| i b is' bs' Hb _ IH]; intros Hins; constructor.
  - apply Forall_cons_iff in Hins. destruct Hins as [(Hbr & Hdec' & Hlen) _].
    destruct i as [[[off length] op] arg]. cbn [branch_of] in Hb.
    destruct (init_Ok _ _ _ _ _ Hb) as (Ho & Hl & Hop & Hflags & Harg).
    destruct Hdec' as (Hoff & _ & Harg' & Hpos). specialize (Harg' Hbytes).
    replace (if Branch.is_relative b then Z.abs arg else arg) with arg in Harg
      by (destruct (Branch.is_relative b); lia).
    unfold branchy in Hbr. cbn [opcode_of] in Hbr. subst off length op.
    split; [exact Hbr |]. split; [exact Hflags |]. split; [exact Hoff |].
    split; [| exact Hpos].
    eapply stable_when_long_enough; [exact Harg |].
    apply needed_within_length; tauto.
  - apply IH. apply Forall_cons_iff in Hins. tauto.
Qed.

End FreshBranches.

(** X5. The branches [Branch.from_code] finds in a code of bytes have
    branch opcodes and the flags of their opcodes, start at non-negative
    offsets, and are long enough for their arguments: [adjust_length] returns
    0 for each and leaves it as it is.  Before 3.11 the opcode of each is at
    [offset + length - 2] in the code, as [finish] asserts. *)
Theorem fresh_branches_are_stable {rt : Runtime} (code : list Z) (bs : list Branch.t) :
  Branch.from_code code = Ok bs ->
  Forall (fun b => is_byte b = true) code ->
  Forall (fun b =>
            mem (Branch.opcode b) (hasjrel dis ++ hasjabs dis) = true /\
            flags_of_opcode b /\
            0 <= Branch.offset b /\
            Branch.adjust_length b = Ok (0, b) /\
            (version_ge PYTHON_VERSION (3, 11) = false ->
             getitem code (Branch.offset b + Branch.length b - 2)
             = Ok (Branch.opcode b))) bs.
Proof. apply from_code_facts. Qed.

Lemma fresh_branches_are_stable_witness :
  let code := [100; 0; 114; 8; 9; 0; 9; 0; 83; 0] in
  let b := Branch.mk 2 2 114 false false 8 in
  Branch.from_code (rt := Sample.py39) code = Ok [b] /\
  Branch.adjust_length (rt := Sample.py39) b = Ok (0, b) /\
  getitem code 2 = Ok 114.
Proof.
  intros code b.
  assert (Branch.from_code (rt := Sample.py39) code = Ok [b]) as Hfrom by reflexivity.
  assert (Forall (fun x => is_byte x = true) code) as Hbytes
      by (repeat constructor).
  pose proof (fresh_branches_are_stable (rt := Sample.py39) code [b] Hfrom Hbytes) as H.
  apply Forall_cons_iff in H. destruct H as [(_ & _ & _ & Hstable & Hpos) _].
  split; [exact Hfrom |]. split; [exact Hstable | exact (Hpos eq_refl)].
Defined.

(** ** The loop of [finish] *)

Section Stabilizing.
Context {rt : Runtime}.

Lemma stable_iff (b : Branch.t) :
  stable b <->
  exists a, Branch.arg b = Ok a /\ Branch.length b >= 2 + 2 * arg_ext_needed a.
Proof.
  unfold stable. split.
  - intros H. destruct (adjust_length_Ok _ _ _ H) as (a & Ha & Hc & _).
    exists a. split; [exact Ha |]. unfold needed_for in Hc. lia.
  - intros (a & Ha & Hl). apply (stable_when_long_enough b a Ha). lia.
Qed.

Lemma set_branches_same (self : Editor.t) :
  Editor.set_branches self (Editor.branches self) = self.
Proof. destruct self. reflexivity. Qed.

(** A scan over stable branches changes nothing. *)
Lemma adjust_lengths_stable (todo : list Branch.t) :
  forall self done any_adjusted,
    Forall stable todo ->
    Editor.adjust_lengths self done todo any_adjusted
    = Ok (Editor.set_branches self (done ++ todo), any_adjusted).
Proof.
  induction todo as [| b todo IH]; intros self done any Hst;
    rewrite adjust_lengths_eq.
  - now rewrite app_nil_r.
  - apply Forall_cons_iff in Hst. destruct Hst as [Hb Hst].
    unfold stable in Hb. rewrite Hb. cbn [truthy Z.eqb negb].
    rewrite IH by exact Hst. now rewrite <- app_assoc.
Qed.

(** A scan that reports no growth found every branch stable, and changed
    nothing. *)
Lemma adjust_lengths_quiet (n : nat) :
  forall todo, List.length todo = n ->
  forall self done any_adjusted self',
    Editor.adjust_lengths self done todo any_adjusted = Ok (self', false) ->
    any_adjusted = false /\
    self' = Editor.set_branches self (done ++ todo) /\
    Forall stable todo.
Proof.
  induction n as [| n IH]; intros todo Hn self done any self' Hrun;
    rewrite adjust_lengths_eq in Hrun.
  - destruct todo; [| discriminate]. injection Hrun as <- ->.
    rewrite app_nil_r. repeat split. constructor.
  - destruct todo as [| b todo]; [discriminate |]. injection Hn as Hn.
    destruct (Branch.adjust_length b) as [[change b'] | e] eqn:Hb; [| discriminate].
    destruct (truthy change) eqn:Ht.
    + apply IH in Hrun; [| now rewrite length_map]. destruct Hrun as [Hfalse _].
      discriminate.
    + destruct (adjust_length_Ok _ _ _ Hb) as (a & _ & _ & Hb').
      rewrite Ht in Hb'. subst b'.
      assert (change = 0) as ->.
      { unfold truthy in Ht. destruct (Z.eqb_spec change 0); [assumption | discriminate]. }
      apply IH in Hrun; [| exact Hn]. destruct Hrun as (-> & -> & Hst).
      rewrite <- app_assoc. repeat split. constructor; assumption.
Qed.

Lemma stabilize_Ok (fuel : nat) :
  forall self self',
    Editor.stabilize fuel self = Some (Ok self') ->
    Forall stable (Editor.branches self').
Proof.
  induction fuel as [| fuel IH]; intros self self' H; [discriminate |].
  cbn [Editor.stabilize] in H.
  destruct (Editor.adjust_lengths self [] (Editor.branches self) false)
    as [[s any_adjusted] | e] eqn:Hscan; [| discriminate].
  destruct any_adjusted; [apply (IH _ _ H) |].
  injection H as <-.
  destruct (adjust_lengths_quiet _ _ eq_refl _ _ _ _ Hscan) as (_ & -> & Hst).
  exact Hst.
Qed.

End Stabilizing.

(** X6. When the [while] loop of [finish] ends normally, every branch has an
    argument and is at least [2 + 2*arg_ext_needed(arg)] bytes long: the
    assertion of [Branch.code] holds for each branch that is emitted next. *)
Theorem finish_loop_leaves_branches_long_enough {rt : Runtime}
  (fuel : nat) (self self' : Editor.t) :
  Editor.stabilize fuel self = Some (Ok self') ->
  Forall (fun b =>
            exists a, Branch.arg b = Ok a /\
                      Branch.length b >= 2 + 2 * arg_ext_needed a)
         (Editor.branches self').
Proof.
  intros H. apply stabilize_Ok in H.
  eapply Forall_impl; [| exact H]. intros b Hb. now apply stable_iff.
Qed.

Lemma finish_loop_leaves_branches_long_enough_witness :
  let grown := Branch.mk 0 10 113 false false 4294967304 in
  exists self',
    Editor.stabilize (rt := Sample.py39) 2 Sample.far_branch_editor = Some (Ok self') /\
    Editor.branches self' = [grown] /\
    Branch.arg (rt := Sample.py39) grown = Ok 4294967304 /\
    Branch.length grown >= 2 + 2 * arg_ext_needed 4294967304.
Proof.
  intros grown.
  destruct (Editor.stabilize (rt := Sample.py39) 2 Sample.far_branch_editor)
    as [[self' | e] |] eqn:E; try (vm_compute in E; discriminate).
  exists self'. split; [reflexivity |].
  pose proof (finish_loop_leaves_branches_long_enough (rt := Sample.py39) _ _ _ E) as H.
  assert (Editor.branches self' = [grown]) as Hb
      by (vm_compute in E; injection E as <-; reflexivity).
  split; [exact Hb |]. rewrite Hb in H.
  apply Forall_cons_iff in H. destruct H as [(a & Ha & Hl) _].
  assert (a = 4294967304) as -> by (vm_compute in Ha; congruence).
  split; assumption.
Defined.

(** X7. On an editor whose branches are all long enough for their
    arguments, the [while] loop of [finish] ends after one scan and leaves
    the editor as it was; the editor [Editor(code)] of a code of bytes is
    such an editor. *)
Theorem finish_loop_rests_when_stable {rt : Runtime} (self : Editor.t) :
  (Forall (fun b =>
             exists a, Branch.arg b = Ok a /\
                       Branch.length b >= 2 + 2 * arg_ext_needed a)
          (Editor.branches self) ->
   forall fuel, Editor.stabilize (S fuel) self = Some (Ok self)) /\
  (forall code,
      Editor.init code = Ok self ->
      Forall (fun b => is_byte b = true) (co_code code) ->
      forall fuel, Editor.stabilize (S fuel) self = Some (Ok self)).
Proof.
  assert (Forall stable (Editor.branches self) ->
          forall fuel, Editor.stabilize (S fuel) self = Some (Ok self)) as Hrest.
  { intros Hst fuel. cbn [Editor.stabilize].
    rewrite adjust_lengths_stable by exact Hst. cbn [app].
    now rewrite set_branches_same. }
  split.
  - intros H. apply Hrest. eapply Forall_impl; [| exact H].
    intros b Hb. now apply stable_iff.
  - intros code Hinit Hbytes. apply Hrest.
    unfold Editor.init in Hinit. inv_bind Hinit. inv_bind Hinit.
    injection Hinit as <-. cbn [Editor.branches].
    eapply Forall_impl; [| exact (from_code_facts _ _ E Hbytes)].
    cbn. tauto.
Qed.

Lemma finish_loop_rests_when_stable_witness :
  Editor.init (rt := Sample.py311) Sample.forward_branch_code
    = Ok Sample.forward_branch_editor /\
  Editor.stabilize (rt := Sample.py311) 1 Sample.forward_branch_editor
    = Some (Ok Sample.forward_branch_editor).
Proof.
  assert (Editor.init (rt := Sample.py311) Sample.forward_branch_code
          = Ok Sample.forward_branch_editor) as Hinit by reflexivity.
  split; [exact Hinit |].
  destruct (finish_loop_rests_when_stable (rt := Sample.py311)
              Sample.forward_branch_editor) as [_ H].
  apply (H Sample.forward_branch_code Hinit).
  repeat constructor.
Defined.

Section LoopFrame.
Context {rt : Runtime}.

Lemma slice_index_range {A : Type} (l : list A) (i : Z) :
  0 <= slice_index l i <= len l.
Proof. unfold slice_index. pose proof (len_nonneg l). destruct (Z.ltb_spec i 0); lia. Qed.

(** [l[i:i] = repl] inserts [repl]. *)
Lemma setslice_insert {A : Type} (l repl : list A) (i : Z) :
  setslice l i i repl
  = firstn (Z.to_nat (slice_index l i)) l ++ repl
    ++ skipn (Z.to_nat (slice_index l i)) l.
Proof. unfold setslice. cbn zeta. now rewrite Z.max_id. Qed.

Lemma len_setslice_insert {A : Type} (l repl : list A) (i : Z) :
  len (setslice l i i repl) = len l + len repl.
Proof.
  rewrite setslice_insert.
  pose proof (f_equal len (firstn_skipn (Z.to_nat (slice_index l i)) l)) as H.
  rewrite len_app in H. rewrite !len_app. lia.
Qed.

Lemma len_repeat_list {A : Type} (l : list A) (n : Z) :
  len (repeat_list l n) = Z.max 0 n * len l.
Proof.
  unfold repeat_list.
  assert (forall k : nat, len (List.concat (repeat l k)) = Z.of_nat k * len l) as H.
  { induction k as [| k IH]; [reflexivity |].
    cbn [repeat List.concat]. rewrite len_app, IH. lia. }
  rewrite H. lia.
Qed.

(** What a scan leaves alone, and how much the patch grows. *)
Lemma adjust_lengths_frame (n : nat) :
  forall todo, List.length todo = n ->
  forall self done any_adjusted self' any_adjusted',
    Editor.adjust_lengths self done todo any_adjusted = Ok (self', any_adjusted') ->
    Editor.orig_code self' = Editor.orig_code self /\
    Editor.consts self' = Editor.consts self /\
    Editor.max_addtl_stack self' = Editor.max_addtl_stack self /\
    Editor.finished self' = Editor.finished self /\
    List.length (Editor.lines self') = List.length (Editor.lines self) /\
    List.length (Editor.ex_table self') = List.length (Editor.ex_table self) /\
    List.length (Editor.branches self') = List.length (done ++ todo) /\
    len (Editor.patch self') - total_length (Editor.branches self')
      = len (Editor.patch self) - total_length (done ++ todo).
Proof.
  induction n as [| n IH]; intros todo Hn self done any self' any' Hrun;
    rewrite adjust_lengths_eq in Hrun.
  - destruct todo; [| discriminate]. injection Hrun as <- <-.
    rewrite app_nil_r. cbn. repeat split; reflexivity.
  - destruct todo as [| b todo]; [discriminate |]. injection Hn as Hn.
    destruct (Branch.adjust_length b) as [[change b'] | e] eqn:Hb; [| discriminate].
    destruct (adjust_length_Ok _ _ _ Hb) as (a & _ & Hc & Hb').
    destruct (truthy change) eqn:Ht.
    + assert (0 < change) as Hpos.
      { unfold truthy in Ht. destruct (Z.eqb_spec change 0); [discriminate | lia]. }
      apply IH in Hrun; [| now rewrite length_map].
      destruct Hrun as (H1 & H2 & H3 & H4 & H5 & H6 & H7 & H8).
      cbn [Editor.grow Editor.orig_code Editor.consts Editor.max_addtl_stack
           Editor.finished Editor.lines Editor.ex_table Editor.patch] in *.
      rewrite !length_map in *.
      repeat (split; [assumption |]). split.
      * rewrite H7, !length_app, !length_map. cbn [List.length]. lia.
      * rewrite H8, len_setslice_insert, len_repeat_list.
        change (len [0]) with 1.
        rewrite !total_length_app, !total_length_adjust. cbn [total_length].
        assert (Branch.length b' = Branch.length b + change) as ->; [| lia].
        subst b'. cbn [Branch.set_length Branch.length]. lia.
    + subst b'. apply IH in Hrun; [| exact Hn].
      rewrite <- app_assoc in Hrun. exact Hrun.
Qed.

Lemma stabilize_frame (fuel : nat) :
  forall self self',
    Editor.stabilize fuel self = Some (Ok self') ->
    Editor.orig_code self' = Editor.orig_code self /\
    Editor.consts self' = Editor.consts self /\
    Editor.max_addtl_stack self' = Editor.max_addtl_stack self /\
    Editor.finished self' = Editor.finished self /\
    List.length (Editor.lines self') = List.length (Editor.lines self) /\
    List.length (Editor.ex_table self') = List.length (Editor.ex_table self) /\
    List.length (Editor.branches self') = List.length (Editor.branches self) /\
    len (Editor.patch self') - total_length (Editor.branches self')
      = len (Editor.patch self) - total_length (Editor.branches self).
Proof.
  induction fuel as [| fuel IH]; intros self self' H; [discriminate |].
  cbn [Editor.stabilize] in H.
  destruct (Editor.adjust_lengths self [] (Editor.branches self) false)
    as [[s any_adjusted] | e] eqn:Hscan; [| discriminate].
  apply (adjust_lengths_frame _ _ eq_refl) in Hscan. cbn [app] in Hscan.
  destruct Hscan as (H1 & H2 & H3 & H4 & H5 & H6 & H7 & H8).
  destruct any_adjusted.
  - apply IH in H. destruct H as (G1 & G2 & G3 & G4 & G5 & G6 & G7 & G8).
    repeat split; congruence.
  - injection H as <-. repeat split; assumption.
Qed.

End LoopFrame.

(** ** What an insertion does to jumps, regions and lines *)

Section Adjusting.

(** The distance a branch jumps is kept by an insertion outside of the jump
    and grows by the inserted length otherwise. *)
Lemma branch_adjust_distance (b : Branch.t) (ins n : Z) :
  Branch.target (Branch.adjust b ins n) - Branch.offset (Branch.adjust b ins n)
  = Branch.target b - Branch.offset b
    + (if (Branch.offset b <? ins) && (ins <? Branch.target b) then n else 0)
    - (if (Branch.target b <=? ins) && (ins <=? Branch.offset b) then n else 0).
Proof.
  unfold Branch.adjust.
  destruct (Z.geb_spec (Branch.offset b) ins);
    cbn [Branch.set_offset Branch.target Branch.offset];
    destruct (Z.gtb_spec (Branch.target b) ins);
    cbn [Branch.set_target Branch.set_offset Branch.target Branch.offset];
    destruct (Z.ltb_spec (Branch.offset b) ins);
    destruct (Z.ltb_spec ins (Branch.target b));
    destruct (Z.leb_spec (Branch.target b) ins);
    destruct (Z.leb_spec ins (Branch.offset b));
    cbn [andb]; lia.
Qed.

Fixpoint contiguous (ls : list LineEntry.t) : Prop :=
  match ls with
  | l :: ((l' :: _) as rest) => LineEntry.end_ l = LineEntry.start l' /\ contiguous rest
  | _ => True
  end.

Lemma gen_lines_contiguous (starts : list (Z * option Z)) :
  forall last code_len,
    contiguous (LineEntry.gen_lines starts last code_len) /\
    (forall x, last = Some x ->
       exists l rest, LineEntry.gen_lines starts last code_len = l :: rest /\
                      LineEntry.start l = fst x /\ LineEntry.number l = snd x) /\
    (last = None ->
       match starts with
       | x :: _ =>
           exists l rest, LineEntry.gen_lines starts None code_len = l :: rest /\
                          LineEntry.start l = fst x /\ LineEntry.number l = snd x
       | [] => LineEntry.gen_lines starts None code_len = []
       end).
Proof.
  induction starts as [| line starts IH]; intros last code_len.
  - destruct last as [x |]; cbn; (split; [exact I |]); split;
      try discriminate; try reflexivity.
    intros y [= <-]. eauto.
  - destruct (IH (Some line) code_len) as (Hc & Hs & _).
    destruct (Hs line eq_refl) as (l & rest & E & Hst & Hnum).
    destruct last as [x |]; cbn [LineEntry.gen_lines].
    + split; [| split; [| discriminate]].
      * rewrite E in *. cbn. split; [symmetry; exact Hst | exact Hc].
      * intros y [= <-]. eauto.
    + split; [exact Hc |]. split; [discriminate |]. intros _. eauto.
Qed.

Lemma gen_lines_last (starts : list (Z * option Z)) :
  forall last code_len,
    LineEntry.gen_lines starts last code_len <> [] ->
    LineEntry.end_ (List.last (LineEntry.gen_lines starts last code_len)
                              (LineEntry.mk 0 0 None)) = code_len.
Proof.
  induction starts as [| line starts IH]; intros last code_len Hne.
  - destruct last; cbn in *; [reflexivity | contradiction].
  - destruct last as [x |]; cbn [LineEntry.gen_lines] in *.
    + assert (LineEntry.gen_lines starts (Some line) code_len <> []) as Hne'.
      { destruct (gen_lines_contiguous starts (Some line) code_len) as (_ & Hs & _).
        destruct (Hs line eq_refl) as (l & rest & E & _). rewrite E. discriminate. }
      specialize (IH (Some line) code_len Hne').
      destruct (LineEntry.gen_lines starts (Some line) code_len) eqn:E;
        [contradiction | exact IH].
    + apply IH. exact Hne.
Qed.

Lemma line_adjust_start (l : LineEntry.t) (ins n : Z) :
  LineEntry.start (LineEntry.adjust l ins n)
  = if LineEntry.start l >? ins then LineEntry.start l + n else LineEntry.start l.
Proof.
  unfold LineEntry.adjust.
  destruct (LineEntry.start l >? ins); cbn [LineEntry.start LineEntry.end_];
    destruct (LineEntry.end_ l >? ins); reflexivity.
Qed.

Lemma line_adjust_end (l : LineEntry.t) (ins n : Z) :
  LineEntry.end_ (LineEntry.adjust l ins n)
  = if LineEntry.end_ l >? ins then LineEntry.end_ l + n else LineEntry.end_ l.
Proof.
  unfold LineEntry.adjust.
  destruct (LineEntry.start l >? ins); cbn [LineEntry.start LineEntry.end_];
    destruct (LineEntry.end_ l >? ins); reflexivity.
Qed.

Lemma line_adjust_number (l : LineEntry.t) (ins n : Z) :
  LineEntry.number (LineEntry.adjust l ins n) = LineEntry.number l.
Proof.
  unfold LineEntry.adjust.
  destruct (LineEntry.start l >? ins); cbn [LineEntry.start LineEntry.end_];
    destruct (LineEntry.end_ l >? ins); reflexivity.
Qed.

End Adjusting.

(** X9. [Branch.adjust] never turns a jump around and never shortens it: the
    distance between offset and target is kept by an insertion outside of the
    jump and grows by the inserted length when the insertion falls between the
    two (after the offset and before the target of a forward jump; from the
    target to the offset, both included, of a backward jump).  So
    [adjust_length], which reads the direction off [target > offset], sees
    the same direction after any insertion of a non-negative length. *)
Theorem branch_adjust_keeps_direction (b : Branch.t) (ins n : Z) :
  0 <= n ->
  let b' := Branch.adjust b ins n in
  (Branch.target b' >? Branch.offset b') = (Branch.target b >? Branch.offset b) /\
  (Branch.target b > Branch.offset b ->
   Branch.target b' - Branch.offset b'
   = Branch.target b - Branch.offset b
     + (if (Branch.offset b <? ins) && (ins <? Branch.target b) then n else 0)) /\
  (Branch.target b <= Branch.offset b ->
   Branch.offset b' - Branch.target b'
   = Branch.offset b - Branch.target b
     + (if (Branch.target b <=? ins) && (ins <=? Branch.offset b) then n else 0)).
Proof.
  intros Hn b'. subst b'. pose proof (branch_adjust_distance b ins n) as H.
  destruct (Z.ltb_spec (Branch.offset b) ins);
    destruct (Z.ltb_spec ins (Branch.target b));
    destruct (Z.leb_spec (Branch.target b) ins);
    destruct (Z.leb_spec ins (Branch.offset b));
    cbn [andb] in *; try lia;
    (split; [| split; intros; lia]);
    destruct (Z.gtb_spec (Branch.target (Branch.adjust b ins n))
                         (Branch.offset (Branch.adjust b ins n)));
    destruct (Z.gtb_spec (Branch.target b) (Branch.offset b)); try reflexivity; lia.
Qed.

Lemma branch_adjust_keeps_direction_witness :
  let b := Branch.mk 10 2 110 true false 20 in
  let b' := Branch.adjust b 14 6 in
  b' = Branch.mk 10 2 110 true false 26 /\
  (Branch.target b' >? Branch.offset b') = true /\
  Branch.target b' - Branch.offset b' = 16.
Proof.
  intros b b'.
  destruct (branch_adjust_keeps_direction b 14 6 ltac:(lia)) as (Hd & Hf & _).
  split; [reflexivity |]. split; [exact Hd |].
  apply Hf. reflexivity.
Defined.

(** X10. [ExceptionTableEntry.adjust] on a region [start <= end]: a region
    that is not empty grows by the inserted length when the insertion falls
    strictly inside of it and keeps its size otherwise, so with a
    non-negative length it stays not empty; an empty region at the insertion
    offset has its start moved and its end kept, so that its size becomes
    the negated length. *)
Theorem exception_entry_adjust_region (e : ExceptionTableEntry.t) (ins n : Z) :
  ExceptionTableEntry.start e <= ExceptionTableEntry.end_ e ->
  let e' := ExceptionTableEntry.adjust e ins n in
  ExceptionTableEntry.end_ e' - ExceptionTableEntry.start e'
  = ExceptionTableEntry.end_ e - ExceptionTableEntry.start e
    + (if (ExceptionTableEntry.start e <? ins) && (ins <? ExceptionTableEntry.end_ e)
       then n
       else if (ExceptionTableEntry.start e =? ExceptionTableEntry.end_ e)
               && (ins =? ExceptionTableEntry.start e)
            then - n else 0) /\
  (0 <= n -> ExceptionTableEntry.start e < ExceptionTableEntry.end_ e ->
   ExceptionTableEntry.start e' < ExceptionTableEntry.end_ e') /\
  ExceptionTableEntry.other e' = ExceptionTableEntry.other e.
Proof.
  intros Hle e'. subst e'.
  rewrite exception_entry_adjust_fields.
  cbn [ExceptionTableEntry.start ExceptionTableEntry.end_ ExceptionTableEntry.other].
  destruct (Z.leb_spec ins (ExceptionTableEntry.start e));
    destruct (Z.ltb_spec ins (ExceptionTableEntry.end_ e));
    destruct (Z.ltb_spec (ExceptionTableEntry.start e) ins);
    destruct (Z.eqb_spec (ExceptionTableEntry.start e) (ExceptionTableEntry.end_ e));
    destruct (Z.eqb_spec ins (ExceptionTableEntry.start e));
    cbn [andb]; repeat split; intros; lia.
Qed.

Lemma exception_entry_adjust_region_witness :
  let inside := ExceptionTableEntry.adjust (ExceptionTableEntry.mk 4 10 20 1) 6 8 in
  let empty := ExceptionTableEntry.adjust (ExceptionTableEntry.mk 4 4 20 1) 4 8 in
  ExceptionTableEntry.end_ inside - ExceptionTableEntry.start inside = 14 /\
  ExceptionTableEntry.end_ empty - ExceptionTableEntry.start empty = - 8.
Proof.
  intros inside empty. split.
  - exact (proj1 (exception_entry_adjust_region (ExceptionTableEntry.mk 4 10 20 1) 6 8
                    ltac:(cbn; lia))).
  - exact (proj1 (exception_entry_adjust_region (ExceptionTableEntry.mk 4 4 20 1) 4 8
                    ltac:(cbn; lia))).
Defined.

(** X11. The lines [LineEntry.from_code] returns, one for every line start
    [dis.findlinestarts] yields, follow one another without a gap: every line
    ends where the next one starts, every line starts at its line start and
    has its line number, and the last line ends at [len(code.co_code)]. *)
Theorem line_entries_from_code_contiguous {rt : Runtime} (code : CodeType object) :
  let ls := LineEntry.from_code code in
  contiguous ls /\
  map (fun l => (LineEntry.start l, LineEntry.number l)) ls = findlinestarts code /\
  (ls <> [] ->
   LineEntry.end_ (List.last ls (LineEntry.mk 0 0 None)) = len (co_code code)).
Proof.
  unfold LineEntry.from_code. cbn zeta. split; [| split].
  - apply gen_lines_contiguous.
  - generalize (len (co_code code)) as n.
    assert (forall starts last n,
              map (fun l => (LineEntry.start l, LineEntry.number l))
                  (LineEntry.gen_lines starts last n)
              = match last with Some x => x :: starts | None => starts end) as H.
    { induction starts as [| line starts IH]; intros last n.
      - destruct last as [[a b] |]; reflexivity.
      - destruct last as [[a b] |]; cbn [LineEntry.gen_lines map]; rewrite IH;
          reflexivity. }
    intros n. apply (H _ None).
  - apply gen_lines_last.
Qed.

Lemma line_entries_from_code_contiguous_witness :
  let ls := LineEntry.from_code (rt := Sample.py311) Sample.forward_branch_code in
  ls <> [] /\
  LineEntry.end_ (List.last ls (LineEntry.mk 0 0 None))
  = len (co_code Sample.forward_branch_code).
Proof.
  intros ls.
  assert (Hne : ls <> []) by (vm_compute; discriminate).
  split; [exact Hne |].
  exact (proj2 (proj2 (line_entries_from_code_contiguous (rt := Sample.py311)
                         Sample.forward_branch_code)) Hne).
Defined.

(** X12. The [adjust] loop over the lines keeps them in one piece: lines that
    follow one another without a gap still do after every line has been
    adjusted to the same insertion, whatever its offset and length; and with a
    non-negative length no line that has [start <= end] is turned around. *)
Theorem line_adjust_keeps_contiguous (ls : list LineEntry.t) (ins n : Z) :
  contiguous ls ->
  contiguous (map (fun l => LineEntry.adjust l ins n) ls) /\
  (0 <= n ->
   Forall (fun l => LineEntry.start l <= LineEntry.end_ l) ls ->
   Forall (fun l => LineEntry.start l <= LineEntry.end_ l)
          (map (fun l => LineEntry.adjust l ins n) ls)).
Proof.
  intros Hc. split.
  - induction ls as [| l ls IH]; [exact I |].
    destruct ls as [| l' ls]; [exact I |].
    destruct Hc as [He Hc]. specialize (IH Hc).
    cbn [map] in *. split; [| exact IH].
    rewrite line_adjust_end, line_adjust_start, He. reflexivity.
  - intros Hn Hall. apply Forall_map. eapply Forall_impl; [| exact Hall].
    intros l Hl. cbn beta in *. rewrite line_adjust_end, line_adjust_start.
    destruct (Z.gtb_spec (LineEntry.start l) ins);
      destruct (Z.gtb_spec (LineEntry.end_ l) ins); lia.
Qed.

Lemma line_adjust_keeps_contiguous_witness :
  let ls := [LineEntry.mk 0 4 (Some 1); LineEntry.mk 4 10 (Some 2)] in
  contiguous (map (fun l => LineEntry.adjust l 4 6) ls) /\
  map (fun l => LineEntry.adjust l 4 6) ls
  = [LineEntry.mk 0 4 (Some 1); LineEntry.mk 4 16 (Some 2)].
Proof.
  intros ls. split; [| reflexivity].
  apply (line_adjust_keeps_contiguous ls 4 6). cbn. split; [reflexivity | exact I].
Defined.

(** ** Reading an exception table *)

Section ReadingTables.
Context {rt : Runtime}.

Lemma read_varint_be_loop_raises (it : list Z) :
  forall value e, read_varint_be_loop value it = Raise e -> e = StopIteration.
Proof.
  induction it as [| b it IH]; cbn [read_varint_be_loop]; intros value e H.
  - now injection H as <-.
  - destruct (truthy (Z.land b 64)); [eauto | discriminate].
Qed.

Lemma read_varint_be_loop_nonneg (it : list Z) :
  forall value v it',
    0 <= value -> read_varint_be_loop value it = Ok (v, it') -> 0 <= v.
Proof.
  induction it as [| b it IH]; cbn [read_varint_be_loop]; intros value v it' Hv H;
    [discriminate |].
  assert (0 <= Z.lor value (Z.land b 63)) as Hlor.
  { apply Z.lor_nonneg. pose proof (land_63_bounds b). lia. }
  destruct (truthy (Z.land b 64)).
  - eapply IH; [| exact H]. now apply Z.shiftl_nonneg.
  - now injection H as <- _.
Qed.

Lemma branch2offset_nonneg (a : Z) : 0 <= a -> 0 <= branch2offset a.
Proof. unfold branch2offset. destruct (version_ge _ _); lia. Qed.

(** The entries [from_code] accepts. *)
Definition well_formed (e : ExceptionTableEntry.t) : Prop :=
  0 <= ExceptionTableEntry.start e <= ExceptionTableEntry.end_ e /\
  0 <= ExceptionTableEntry.target e /\ 0 <= ExceptionTableEntry.other e.

Lemma read_entry_cases (it : list Z) :
  ExceptionTableEntry.read_entry it = Raise StopIteration \/
  exists e it',
    ExceptionTableEntry.read_entry it = Ok (e, it') /\ well_formed e /\
    (4 + List.length it' <= List.length it)%nat.
Proof.
  unfold ExceptionTableEntry.read_entry, read_varint_be.
  destruct (read_varint_be_loop 0 it) as [[v1 it1] | x] eqn:E1; cbn [bind];
    [| left; now rewrite (read_varint_be_loop_raises _ _ _ E1)].
  destruct (read_varint_be_loop 0 it1) as [[v2 it2] | x] eqn:E2; cbn [bind];
    [| left; now rewrite (read_varint_be_loop_raises _ _ _ E2)].
  destruct (read_varint_be_loop 0 it2) as [[v3 it3] | x] eqn:E3; cbn [bind];
    [| left; now rewrite (read_varint_be_loop_raises _ _ _ E3)].
  destruct (read_varint_be_loop 0 it3) as [[v4 it4] | x] eqn:E4; cbn [bind];
    [| left; now rewrite (read_varint_be_loop_raises _ _ _ E4)].
  right. eexists _, _. split; [reflexivity |].
  pose proof (read_varint_be_loop_nonneg _ _ _ _ (Z.le_refl 0) E1) as H1.
  pose proof (read_varint_be_loop_nonneg _ _ _ _ (Z.le_refl 0) E2) as H2.
  pose proof (read_varint_be_loop_nonneg _ _ _ _ (Z.le_refl 0) E3) as H3.
  pose proof (read_varint_be_loop_nonneg _ _ _ _ (Z.le_refl 0) E4) as H4.
  apply branch2offset_nonneg in H1, H2, H3.
  apply read_varint_be_loop_consumes in E1, E2, E3, E4.
  split; [| lia].
  unfold well_formed.
  cbn [ExceptionTableEntry.start ExceptionTableEntry.end_ ExceptionTableEntry.target
       ExceptionTableEntry.other].
  lia.
Qed.

Lemma from_code_loop_total (n : nat) :
  forall it entries,
    (List.length it <= n)%nat -> Forall well_formed entries ->
    exists out,
      ExceptionTableEntry.from_code_loop it entries = Ok out /\
      Forall well_formed out /\
      (4 * List.length out <= 4 * List.length entries + List.length it)%nat.
Proof.
  induction n as [| n IH]; intros it entries Hlen Hwf; rewrite from_code_loop_eq;
    destruct (read_entry_cases it) as [-> | (e & it' & -> & He & Hit)].
  - exists entries. split; [reflexivity |]. split; [exact Hwf | lia].
  - lia.
  - exists entries. split; [reflexivity |]. split; [exact Hwf | lia].
  - destruct (IH it' (entries ++ [e])) as (out & Hout & Hall & Hcount).
    + lia.
    + apply Forall_app. split; [exact Hwf | now constructor].
    + exists out. split; [exact Hout |]. split; [exact Hall |].
      rewrite length_app in Hcount. cbn [List.length] in Hcount. lia.
Qed.

End ReadingTables.

(** X13. [ExceptionTableEntry.from_code] returns a list for every table,
    whatever its bytes, also when the last record is cut short: the
    [StopIteration] that ends the reading is caught and no other exception
    is raised.  Every entry read takes at least four bytes and has
    [0 <= start <= end], [0 <= target] and [0 <= other]. *)
Theorem exception_table_from_code_never_raises {rt : Runtime} (table : list Z) :
  exists entries,
    ExceptionTableEntry.from_code table = Ok entries /\
    4 * len entries <= len table /\
    Forall well_formed entries.
Proof.
  destruct (from_code_loop_total (List.length table) table [] (le_n _) (Forall_nil _))
    as (out & Hout & Hall & Hcount).
  exists out. split; [exact Hout |]. split; [| exact Hall].
  unfold len. cbn [List.length] in Hcount. lia.
Qed.

(** ** The positions table *)

(** The code units an entry of the positions table stands for: the low three
    bits of its first byte, which has the high bit set, plus one; the bytes
    of the line delta that follow have the high bit clear. *)
Definition units (b : Z) : Z := if 128 <=? b then Z.land b 7 + 1 else 0.

Definition covered (table : list Z) : Z := fold_right (fun b n => units b + n) 0 table.

(** Lines in the order of the code, on even offsets, from [prev] on. *)
Fixpoint in_order (prev : Z) (ls : list LineEntry.t) : Prop :=
  match ls with
  | [] => True
  | l :: ls =>
      match LineEntry.number l with
      | Some _ =>
          prev <= LineEntry.start l <= LineEntry.end_ l /\
          Z.even (LineEntry.start l) = true
      | None => prev <= LineEntry.end_ l
      end /\
      Z.even (LineEntry.end_ l) = true /\ in_order (LineEntry.end_ l) ls
  end.

Section Positions.

Lemma covered_app (a b : list Z) : covered (a ++ b) = covered a + covered b.
Proof.
  induction a as [| x a IH]; [reflexivity |].
  cbn [app covered fold_right]. fold (covered (a ++ b)). fold (covered a). lia.
Qed.

Lemma forallb_is_byte_app (a b : list Z) :
  forallb is_byte (a ++ b) = forallb is_byte a && forallb is_byte b.
Proof. apply forallb_app. Qed.

Lemma header_byte (code k : Z) :
  code = 13 \/ code = 15 -> 0 <= k <= 7 ->
  is_byte (Z.lor (Z.lor 128 (Z.shiftl code 3)) k) = true /\
  units (Z.lor (Z.lor 128 (Z.shiftl code 3)) k) = k + 1.
Proof.
  intros Hc Hk.
  assert (k = 0 \/ k = 1 \/ k = 2 \/ k = 3 \/ k = 4 \/ k = 5 \/ k = 6 \/ k = 7)
    as Hcases by lia.
  destruct Hc as [-> | ->];
    repeat (destruct Hcases as [-> | Hcases]; [split; reflexivity |]);
    subst k; split; reflexivity.
Qed.

(** The bytes of a variable length integer have the high bit clear. *)
Lemma append_varint_bytes (n : Z) :
  0 <= n ->
  forall data, exists bs,
    append_varint data n = data ++ bs /\
    forallb is_byte bs = true /\ covered bs = 0.
Proof.
  intros Hn. remember (Z.to_nat n) as k eqn:Hk. revert n Hn Hk.
  induction k as [k IH] using lt_wf_ind. intros n Hn Hk data.
  rewrite append_varint_eq. destruct (Z_gt_dec n 63) as [Hgt | Hle].
  - assert (0 <= Z.shiftr n 6 < n) as Hs.
    { rewrite Z.shiftr_div_pow2 by lia. change (2 ^ 6) with 64.
      split; [apply Z.div_pos; lia | apply Z.div_lt; lia]. }
    destruct (IH (Z.to_nat (Z.shiftr n 6)) ltac:(lia) (Z.shiftr n 6) ltac:(lia)
                 eq_refl (data ++ [Z.lor 64 (Z.land n 63)])) as (bs & -> & Hb & Hc).
    exists (Z.lor 64 (Z.land n 63) :: bs).
    rewrite <- app_assoc. split; [reflexivity |].
    pose proof (land_63_bounds n) as Hl.
    assert (Z.lor 64 (Z.land n 63) = Z.land n 63 + 64) as ->.
    { rewrite Z.lor_comm. apply (lor_pow2_add _ 6); [exact Hl | lia]. }
    cbn [forallb covered fold_right]. fold (covered bs). rewrite Hb, Hc.
    unfold is_byte, units.
    destruct (Z.leb_spec 0 (Z.land n 63 + 64)); [| lia].
    destruct (Z.ltb_spec (Z.land n 63 + 64) 256); [| lia].
    destruct (Z.leb_spec 128 (Z.land n 63 + 64)); [lia |].
    split; reflexivity.
  - exists [n]. split; [reflexivity |].
    cbn [forallb covered fold_right]. unfold is_byte, units.
    destruct (Z.leb_spec 0 n); [| lia].
    destruct (Z.ltb_spec n 256); [| lia].
    destruct (Z.leb_spec 128 n); [lia |].
    split; reflexivity.
Qed.

Lemma append_svarint_bytes (n : Z) (data : list Z) :
  exists bs,
    append_svarint data n = data ++ bs /\
    forallb is_byte bs = true /\ covered bs = 0.
Proof.
  unfold append_svarint. apply append_varint_bytes.
  destruct (Z.ltb_spec n 0) as [Hneg | Hpos].
  - apply Z.lor_nonneg. split; [apply Z.shiftl_nonneg |]; lia.
  - apply Z.shiftl_nonneg. exact Hpos.
Qed.

Lemma positions_no_line_covers (tab : list Z) (bc : Z) :
  forallb is_byte tab = true ->
  forallb is_byte (fst (LineEntry.positions_no_line (tab, bc))) = true /\
  covered (fst (LineEntry.positions_no_line (tab, bc))) = covered tab + Z.max 0 bc.
Proof.
  intros Htab. unfold LineEntry.positions_no_line.
  match goal with
  | |- context [while ?c ?b ?v ?d _] =>
      destruct (while_invariant c b v d
                  (fun s => forallb is_byte (fst s) = true /\
                            covered (fst s) + Z.max 0 (snd s)
                            = covered tab + Z.max 0 bc)) with (s := (tab, bc))
        as [[Hb Hc] Hexit]
  end.
  - intros [t b] [Hb Hc] Hcond. cbn [fst snd] in *.
    apply gtb_gt in Hcond.
    destruct (header_byte 15 (Z.min b 8 - 1)) as [Hh Hu]; [now right | lia |].
    rewrite forallb_is_byte_app, covered_app, Hb.
    cbn [forallb covered fold_right andb]. rewrite Hh, Hu. split; [reflexivity | lia].
  - split; [exact Htab | reflexivity].
  - split; [exact Hb |].
    destruct (while _ _ _ _ (tab, bc)) as [t b]. cbn [fst snd] in *.
    destruct (Z.gtb_spec b 0); [discriminate | lia].
Qed.

Lemma positions_line_covers (tab : list Z) (line_delta bc : Z) :
  forallb is_byte tab = true ->
  forallb is_byte (fst (fst (LineEntry.positions_line (tab, line_delta, bc)))) = true /\
  covered (fst (fst (LineEntry.positions_line (tab, line_delta, bc))))
  = covered tab + Z.max 0 bc.
Proof.
  intros Htab. unfold LineEntry.positions_line.
  match goal with
  | |- context [while ?c ?b ?v ?d _] =>
      destruct (while_invariant c b v d
                  (fun s => forallb is_byte (fst (fst s)) = true /\
                            covered (fst (fst s)) + Z.max 0 (snd s)
                            = covered tab + Z.max 0 bc))
        with (s := (tab, line_delta, bc))
        as [[Hb Hc] Hexit]
  end.
  - intros [[t d] b] [Hb Hc] Hcond. cbn [fst snd] in *.
    apply gtb_gt in Hcond.
    destruct (header_byte 13 (Z.min b 8 - 1)) as [Hh Hu]; [now left | lia |].
    destruct (append_svarint_bytes d
                (t ++ [Z.lor (Z.lor 128 (Z.shiftl 13 3)) (Z.min b 8 - 1)]))
      as (bs & -> & Hbs & Hcs).
    rewrite !forallb_is_byte_app, !covered_app, Hb, Hbs, Hcs.
    cbn [forallb covered fold_right andb]. rewrite Hh, Hu. split; [reflexivity | lia].
  - split; [exact Htab | reflexivity].
  - split; [exact Hb |].
    destruct (while _ _ _ _ (tab, line_delta, bc)) as [[t d] b]. cbn [fst snd] in *.
    destruct (Z.gtb_spec b 0); [discriminate | lia].
Qed.

(** The body of the loop over the lines. *)
Definition positions_step : list Z * Z * Z -> LineEntry.t -> list Z * Z * Z :=
  fun '(linetable, prev_end, prev_number) l =>
  match LineEntry.number l with
  | None =>
      let bytecodes := (LineEntry.end_ l - prev_end) / 2 in
      let '(linetable, _) := LineEntry.positions_no_line (linetable, bytecodes) in
      (linetable, LineEntry.end_ l, prev_number)
  | Some number =>
      let linetable :=
        if prev_end <? LineEntry.start l then
          let bytecodes := (LineEntry.start l - prev_end) / 2 in
          fst (LineEntry.positions_no_line (linetable, bytecodes))
        else linetable in
      let line_delta := number - prev_number in
      let bytecodes := (LineEntry.end_ l - LineEntry.start l) / 2 in
      let '(linetable, _, _) :=
        LineEntry.positions_line (linetable, line_delta, bytecodes) in
      (linetable, LineEntry.end_ l, number)
  end.

Lemma make_positions_eq (firstlineno : Z) (lines : list LineEntry.t) :
  LineEntry.make_positions firstlineno lines
  = as_bytes (fst (fst (fold_left positions_step lines ([], 0, firstlineno)))).
Proof.
  unfold LineEntry.make_positions.
  change (fold_left _ lines ([], 0, firstlineno))
    with (fold_left positions_step lines ([], 0, firstlineno)).
  destruct (fold_left positions_step lines ([], 0, firstlineno)) as [[t e] n].
  reflexivity.
Qed.

Lemma half_even (a b : Z) :
  Z.even a = true -> Z.even b = true -> 2 * ((a - b) / 2) = a - b.
Proof.
  intros Ha Hb. apply Z.even_spec in Ha, Hb. destruct Ha as [x ->], Hb as [y ->].
  replace (2 * x - 2 * y) with ((x - y) * 2) by lia.
  rewrite Z.div_mul by lia. lia.
Qed.

Lemma positions_step_covers (tab : list Z) (prev_end prev_number : Z) (l : LineEntry.t) :
  forallb is_byte tab = true ->
  exists tab' number',
    positions_step (tab, prev_end, prev_number) l = (tab', LineEntry.end_ l, number') /\
    forallb is_byte tab' = true /\
    (Z.even prev_end = true -> in_order prev_end [l] ->
     2 * covered tab' = 2 * covered tab + (LineEntry.end_ l - prev_end)).
Proof.
  intros Htab. unfold positions_step. cbv beta iota. cbn [in_order].
  destruct (LineEntry.number l) as [number |].
  - set (tab1 := if prev_end <? LineEntry.start l
                 then fst (LineEntry.positions_no_line
                             (tab, (LineEntry.start l - prev_end) / 2))
                 else tab).
    assert (forallb is_byte tab1 = true /\
            (Z.even prev_end = true -> Z.even (LineEntry.start l) = true ->
             prev_end <= LineEntry.start l ->
             2 * covered tab1 = 2 * covered tab + (LineEntry.start l - prev_end)))
      as [Hb1 Hc1].
    { subst tab1. destruct (Z.ltb_spec prev_end (LineEntry.start l)) as [Hlt | Hge].
      - destruct (positions_no_line_covers tab ((LineEntry.start l - prev_end) / 2) Htab)
          as [Hb Hc].
        split; [exact Hb |]. intros He Hs _. rewrite Hc.
        pose proof (half_even _ _ Hs He). lia.
      - split; [exact Htab |]. intros. lia. }
    cbn zeta.
    destruct (positions_line_covers tab1 (number - prev_number)
                ((LineEntry.end_ l - LineEntry.start l) / 2) Hb1) as [Hb2 Hc2].
    destruct (LineEntry.positions_line _) as [[t d] b]. cbn [fst snd] in *.
    exists t, number. split; [reflexivity |]. split; [exact Hb2 |].
    intros He ((Hord & Hs) & Hen & _). rewrite Hc2.
    specialize (Hc1 He Hs ltac:(lia)).
    pose proof (half_even _ _ Hen Hs). lia.
  - cbn zeta.
    destruct (positions_no_line_covers tab ((LineEntry.end_ l - prev_end) / 2) Htab)
      as [Hb Hc].
    destruct (LineEntry.positions_no_line _) as [t b]. cbn [fst snd] in *.
    exists t, prev_number. split; [reflexivity |]. split; [exact Hb |].
    intros He (Hord & Hen & _). rewrite Hc.
    pose proof (half_even _ _ Hen He). lia.
Qed.

Lemma last_cons {A : Type} (x d : A) (l : list A) : last (x :: l) d = last l x.
Proof.
  revert x d. induction l as [| y l IH]; intros x d; [reflexivity |].
  change (last (x :: y :: l) d) with (last (y :: l) d). rewrite !IH. reflexivity.
Qed.

Lemma positions_fold_covers (lines : list LineEntry.t) :
  forall tab prev_end prev_number,
    forallb is_byte tab = true ->
    exists tab' number',
      fold_left positions_step lines (tab, prev_end, prev_number)
      = (tab', last (map LineEntry.end_ lines) prev_end, number') /\
      forallb is_byte tab' = true /\
      (Z.even prev_end = true -> in_order prev_end lines ->
       2 * covered tab'
       = 2 * covered tab + (last (map LineEntry.end_ lines) prev_end - prev_end)).
Proof.
  induction lines as [| l lines IH]; intros tab prev_end prev_number Htab.
  - exists tab, prev_number. cbn. split; [reflexivity |]. split; [exact Htab | lia].
  - destruct (positions_step_covers tab prev_end prev_number l Htab)
      as (tab1 & n1 & Hstep & Hb1 & Hc1).
    destruct (IH tab1 (LineEntry.end_ l) n1 Hb1) as (tab2 & n2 & Hfold & Hb2 & Hc2).
    exists tab2, n2. cbn [fold_left map]. rewrite Hstep, Hfold, last_cons.
    split; [reflexivity |]. split; [exact Hb2 |].
    intros He Hord. pose proof Hord as (Hl & Hen & Hrest).
    rewrite (Hc2 Hen Hrest), (Hc1 He); [lia |].
    cbn [in_order]. tauto.
Qed.

End Positions.

(** X14. [make_positions] returns a table for every list of lines, whatever
    their offsets and numbers: every value it writes is a byte.  When the
    lines come in the order of the code and on even offsets (a line with a
    number has [prev_end <= start <= end], one without has
    [prev_end <= end]), the entries of the table stand for as many code units
    as there are up to the end of the last line. *)
Theorem make_positions_covers_the_code (firstlineno : Z) (lines : list LineEntry.t) :
  exists table,
    LineEntry.make_positions firstlineno lines = Ok table /\
    (in_order 0 lines ->
     2 * covered table = last (map LineEntry.end_ lines) 0).
Proof.
  rewrite make_positions_eq.
  destruct (positions_fold_covers lines [] 0 firstlineno eq_refl)
    as (tab & n & -> & Hb & Hc).
  exists tab. cbn [fst]. unfold as_bytes. rewrite Hb. split; [reflexivity |].
  intros Hord. rewrite (Hc eq_refl Hord). cbn. lia.
Qed.

Lemma make_positions_covers_the_code_witness :
  let lines := [LineEntry.mk 0 4 (Some 10); LineEntry.mk 4 24 None;
                LineEntry.mk 30 32 (Some 7)] in
  LineEntry.make_positions 10 lines = Ok [233; 0; 255; 249; 250; 232; 7] /\
  2 * covered [233; 0; 255; 249; 250; 232; 7] = 32.
Proof.
  intros lines.
  destruct (make_positions_covers_the_code 10 lines) as (table & Htable & Hcov).
  assert (table = [233; 0; 255; 249; 250; 232; 7]) as ->
      by (vm_compute in Htable; now injection Htable as <-).
  split; [reflexivity |].
  apply Hcov. cbn. repeat split; lia.
Defined.

(** ** The line number table of Python 3.9 *)

(** What the interpreter adds up when it reads a line number table: the
    bytes at the even positions are increments of the offset, those at the
    odd positions signed increments of the line number. *)
Fixpoint offset_increments (table : list Z) : Z :=
  match table with
  | a :: _ :: rest => a + offset_increments rest
  | _ => 0
  end.

Definition signed_byte (b : Z) : Z := if b <? 128 then b else b - 256.

Fixpoint line_increments (table : list Z) : Z :=
  match table with
  | _ :: b :: rest => signed_byte b + line_increments rest
  | _ => 0
  end.

(** The line starts never go back, from [prev] on. *)
Fixpoint ascending (prev : Z) (ls : list LineEntry.t) : bool :=
  match ls with
  | [] => true
  | l :: ls => (prev <=? LineEntry.start l) && ascending (LineEntry.start l) ls
  end.

Definition number_or (d : Z) (l : LineEntry.t) : Z :=
  match LineEntry.number l with Some n => n | None => d end.

Section Lnotab.

Lemma pair_induction (P : list Z -> Prop) :
  P [] -> (forall a b t, P t -> P (a :: b :: t)) ->
  forall t, Nat.even (List.length t) = true -> P t.
Proof.
  intros Hnil Hstep.
  assert (forall t, (Nat.even (List.length t) = true -> P t) /\
                    (forall a, Nat.even (List.length (a :: t)) = true -> P (a :: t)))
    as H.
  { induction t as [| b t [IH0 IH1]].
    - split; [intros _; exact Hnil | intros a H; discriminate].
    - split; [apply IH1 |]. intros a H. apply Hstep, IH0. exact H. }
  intros t. apply H.
Qed.

Lemma pairs_append (t : list Z) (a b : Z) :
  Nat.even (List.length t) = true ->
  Nat.even (List.length (t ++ [a; b])) = true /\
  offset_increments (t ++ [a; b]) = offset_increments t + a /\
  line_increments (t ++ [a; b]) = line_increments t + signed_byte b.
Proof.
  revert t. apply pair_induction.
  - cbn. repeat split; lia.
  - intros x y t (He & Ho & Hl).
    change ((x :: y :: t) ++ [a; b]) with (x :: y :: (t ++ [a; b])).
    cbn [List.length Nat.even offset_increments line_increments].
    rewrite Ho, Hl. repeat split; [exact He | lia | lia].
Qed.

(** The state of the loops over one line: the table is made of pairs,
    [delta_start] fits a byte unless it is negative, [v] tells whether all
    is bytes so far, and [o] and [n] are where the increments written and
    those still to write add up to. *)
Definition lnotab_inv (v : bool) (o n : Z) (s : list Z * Z * Z) : Prop :=
  Nat.even (List.length (fst (fst s))) = true /\
  snd (fst s) <= 255 /\
  forallb is_byte (fst (fst s)) && (0 <=? snd (fst s)) = v /\
  offset_increments (fst (fst s)) + snd (fst s) = o /\
  line_increments (fst (fst s)) + snd s = n.

Lemma lnotab_inv_append (v : bool) (o n : Z) (t : list Z) (d x b : Z) :
  lnotab_inv v o n (t, d, x) -> is_byte b = true ->
  lnotab_inv v o n (t ++ [d; b], 0, x - signed_byte b).
Proof.
  unfold lnotab_inv. cbn [fst snd]. intros (He & Hd & Hv & Ho & Hn) Hb.
  destruct (pairs_append t d b He) as (He' & Ho' & Hn').
  rewrite He', Ho', Hn', forallb_app. cbn [forallb]. rewrite Hb.
  repeat split; try lia.
  rewrite <- Hv. unfold is_byte.
  destruct (Z.leb_spec 0 d); destruct (Z.ltb_spec d 256); try lia;
    cbn [andb]; rewrite ?andb_true_r, ?andb_false_r; reflexivity.
Qed.

Lemma lnotab_long_start_spec (t : list Z) (d : Z) :
  Nat.even (List.length t) = true ->
  exists t' d',
    LineEntry.lnotab_long_start (t, d) = (t', d') /\
    Nat.even (List.length t') = true /\ d' <= 255 /\
    forallb is_byte t' = forallb is_byte t /\ (0 <=? d') = (0 <=? d) /\
    offset_increments t' + d' = offset_increments t + d /\
    line_increments t' = line_increments t.
Proof.
  intros He. unfold LineEntry.lnotab_long_start.
  match goal with
  | |- context [while ?c ?b ?v ?p _] =>
      destruct (while_invariant c b v p
                  (fun s => Nat.even (List.length (fst s)) = true /\
                            forallb is_byte (fst s) = forallb is_byte t /\
                            (0 <=? snd s) = (0 <=? d) /\
                            offset_increments (fst s) + snd s
                            = offset_increments t + d /\
                            line_increments (fst s) = line_increments t))
        with (s := (t, d)) as [(H1 & H2 & H3 & H4 & H5) Hexit]
  end.
  - intros [t1 d1] (H1 & H2 & H3 & H4 & H5) Hcond. cbn [fst snd] in *.
    apply gtb_gt in Hcond.
    destruct (pairs_append t1 255 0 H1) as (He' & Ho' & Hn').
    rewrite He', Ho', Hn', forallb_app, H2, <- H3, <- H4, H5.
    cbn [forallb]. change (is_byte 255) with true. change (is_byte 0) with true.
    change (signed_byte 0) with 0.
    rewrite !andb_true_r.
    destruct (Z.leb_spec 0 (d1 - 255)); destruct (Z.leb_spec 0 d1); try lia.
    repeat split; lia.
  - repeat split; try reflexivity. exact He.
  - destruct (while _ _ _ _ (t, d)) as [t' d']. cbn [fst snd] in *.
    exists t', d'. split; [reflexivity |].
    destruct (Z.gtb_spec d' 255); [discriminate |].
    repeat split; try assumption.
Qed.

Lemma lnotab_long_forward_spec (v : bool) (o n : Z) (t : list Z) (d x : Z) :
  lnotab_inv v o n (t, d, x) ->
  exists t' d' x',
    LineEntry.lnotab_long_forward (t, d, x) = (t', d', x') /\
    lnotab_inv v o n (t', d', x') /\ x' <= 127 /\ (-128 <= x -> -128 <= x').
Proof.
  intros Hinv. unfold LineEntry.lnotab_long_forward.
  match goal with
  | |- context [while ?c ?b ?w ?p _] =>
      destruct (while_invariant c b w p
                  (fun s => lnotab_inv v o n s /\ (-128 <= x -> -128 <= snd s)))
        with (s := (t, d, x)) as [[H1 H2] Hexit]
  end.
  - intros [[t1 d1] x1] [H1 H2] Hcond. apply gtb_gt in Hcond. cbn [fst snd] in *.
    split; [| lia].
    apply (lnotab_inv_append _ _ _ _ _ _ 127 H1 eq_refl).
  - split; [exact Hinv | cbn; lia].
  - destruct (while _ _ _ _ (t, d, x)) as [[t' d'] x']. cbn [fst snd] in *.
    exists t', d', x'. split; [reflexivity |].
    destruct (Z.gtb_spec x' 127); [discriminate |].
    split; [exact H1 |]. split; [lia | exact H2].
Qed.

Lemma lnotab_long_backward_spec (v : bool) (o n : Z) (t : list Z) (d x : Z) :
  lnotab_inv v o n (t, d, x) -> x <= 127 ->
  exists t' d' x',
    LineEntry.lnotab_long_backward (t, d, x) = (t', d', x') /\
    lnotab_inv v o n (t', d', x') /\ -128 <= x' <= 127.
Proof.
  intros Hinv Hx. unfold LineEntry.lnotab_long_backward.
  match goal with
  | |- context [while ?c ?b ?w ?p _] =>
      destruct (while_invariant c b w p
                  (fun s => lnotab_inv v o n s /\ snd s <= 127))
        with (s := (t, d, x)) as [[H1 H2] Hexit]
  end.
  - intros [[t1 d1] x1] [H1 H2] Hcond. apply Z.ltb_lt in Hcond. cbn [fst snd] in *.
    split; [| lia].
    change (Z.land (-128) 255) with 128.
    replace (x1 + 128) with (x1 - signed_byte 128) by reflexivity.
    apply (lnotab_inv_append _ _ _ _ _ _ 128 H1 eq_refl).
  - split; [exact Hinv | exact Hx].
  - destruct (while _ _ _ _ (t, d, x)) as [[t' d'] x']. cbn [fst snd] in *.
    exists t', d', x'. split; [reflexivity |].
    destruct (Z.ltb_spec x' (-128)); [discriminate |].
    split; [exact H1 | lia].
Qed.

Lemma signed_byte_land (x : Z) :
  -128 <= x <= 127 ->
  is_byte (Z.land x 255) = true /\ signed_byte (Z.land x 255) = x.
Proof.
  intros Hx. change 255 with (Z.ones 8). rewrite Z.land_ones by lia.
  change (2 ^ 8) with 256. unfold is_byte, signed_byte.
  pose proof (Z.mod_pos_bound x 256 ltac:(lia)) as Hm.
  destruct (Z.leb_spec 0 (x mod 256)); [| lia].
  destruct (Z.ltb_spec (x mod 256) 256); [| lia].
  split; [reflexivity |].
  destruct (Z.ltb_spec (x mod 256) 128); Z.div_mod_to_equations; lia.
Qed.

(** The body of the loop over the lines. *)
Definition lnotab_step : list Z * Z * Z -> LineEntry.t -> result (list Z * Z * Z) :=
  fun '(lnotab, prev_start, prev_number) l =>
    let delta_start := LineEntry.start l - prev_start in
    match LineEntry.number l with
    | None => Raise TypeError
    | Some number =>
        let delta_number := number - prev_number in
        let '(lnotab, delta_start) :=
          LineEntry.lnotab_long_start (lnotab, delta_start) in
        let '(lnotab, delta_start, delta_number) :=
          LineEntry.lnotab_long_forward (lnotab, delta_start, delta_number) in
        let '(lnotab, delta_start, delta_number) :=
          LineEntry.lnotab_long_backward (lnotab, delta_start, delta_number) in
        let lnotab :=
          if truthy delta_start || truthy delta_number
          then lnotab ++ [delta_start; Z.land delta_number 255] else lnotab in
        Ok (lnotab, LineEntry.start l, number)
    end.

Lemma make_lnotab_eq (firstlineno : Z) (lines : list LineEntry.t) :
  LineEntry.make_lnotab firstlineno lines
  = (st <- for_each lnotab_step lines ([], 0, firstlineno) ;;
     as_bytes (fst (fst st))).
Proof.
  unfold LineEntry.make_lnotab.
  change (for_each _ lines ([], 0, firstlineno))
    with (for_each lnotab_step lines ([], 0, firstlineno)).
  destruct (for_each lnotab_step lines ([], 0, firstlineno)) as [[[t s] n] | e];
    reflexivity.
Qed.

Lemma lnotab_step_spec (t : list Z) (prev_start prev_number : Z) (l : LineEntry.t)
  (number : Z) :
  LineEntry.number l = Some number ->
  Nat.even (List.length t) = true ->
  exists t',
    lnotab_step (t, prev_start, prev_number) l = Ok (t', LineEntry.start l, number) /\
    Nat.even (List.length t') = true /\
    forallb is_byte t' = forallb is_byte t && (prev_start <=? LineEntry.start l) /\
    offset_increments t'
    = offset_increments t + (LineEntry.start l - prev_start) /\
    line_increments t' = line_increments t + (number - prev_number).
Proof.
  intros Hnum He. unfold lnotab_step. cbv beta iota zeta. rewrite Hnum.
  destruct (lnotab_long_start_spec t (LineEntry.start l - prev_start) He)
    as (t1 & d1 & -> & He1 & Hd1 & Hv1 & Hs1 & Ho1 & Hl1).
  assert (lnotab_inv (forallb is_byte t && (prev_start <=? LineEntry.start l))
            (offset_increments t + (LineEntry.start l - prev_start))
            (line_increments t + (number - prev_number))
            (t1, d1, number - prev_number)) as Hinv.
  { unfold lnotab_inv. cbn [fst snd]. rewrite Hv1, Hs1, Hl1.
    repeat split; try assumption.
    f_equal.
    destruct (Z.leb_spec 0 (LineEntry.start l - prev_start));
      destruct (Z.leb_spec prev_start (LineEntry.start l)); try reflexivity; lia. }
  destruct (lnotab_long_forward_spec _ _ _ _ _ _ Hinv)
    as (t2 & d2 & x2 & -> & Hinv2 & Hx2 & _).
  destruct (lnotab_long_backward_spec _ _ _ _ _ _ Hinv2 Hx2)
    as (t3 & d3 & x3 & -> & Hinv3 & Hx3).
  destruct (signed_byte_land x3 Hx3) as [Hb Hsb].
  destruct (truthy d3 || truthy x3) eqn:Hany.
  - eexists. split; [reflexivity |].
    pose proof (lnotab_inv_append _ _ _ _ _ _ _ Hinv3 Hb) as Hinv4.
    rewrite Hsb in Hinv4. unfold lnotab_inv in Hinv4. cbn [fst snd] in Hinv4.
    destruct Hinv4 as (H1 & H2 & H3 & H4 & H5).
    change (0 <=? 0) with true in H3. rewrite andb_true_r in H3.
    repeat split; try assumption; lia.
  - exists t3. split; [reflexivity |].
    apply orb_false_iff in Hany. destruct Hany as [Hd Hx]. unfold truthy in Hd, Hx.
    destruct (Z.eqb_spec d3 0) as [-> |]; [| discriminate].
    destruct (Z.eqb_spec x3 0) as [-> |]; [| discriminate].
    unfold lnotab_inv in Hinv3. cbn [fst snd] in Hinv3.
    destruct Hinv3 as (H1 & H2 & H3 & H4 & H5).
    change (0 <=? 0) with true in H3. rewrite andb_true_r in H3.
    repeat split; try assumption; lia.
Qed.

Lemma lnotab_fold_spec (lines : list LineEntry.t) :
  forall t prev_start prev_number,
    Forall (fun l => LineEntry.number l <> None) lines ->
    Nat.even (List.length t) = true ->
    exists t',
      for_each lnotab_step lines (t, prev_start, prev_number)
      = Ok (t', last (map LineEntry.start lines) prev_start,
            last (map (number_or 0) lines) prev_number) /\
      forallb is_byte t' = forallb is_byte t && ascending prev_start lines /\
      offset_increments t'
      = offset_increments t + (last (map LineEntry.start lines) prev_start - prev_start) /\
      line_increments t'
      = line_increments t + (last (map (number_or 0) lines) prev_number - prev_number).
Proof.
  induction lines as [| l lines IH]; intros t prev_start prev_number Hall He.
  - exists t. cbn. rewrite andb_true_r. repeat split; lia.
  - apply Forall_cons_iff in Hall. destruct Hall as [Hl Hall].
    destruct (LineEntry.number l) as [number |] eqn:Hnum; [| contradiction].
    destruct (lnotab_step_spec t prev_start prev_number l number Hnum He)
      as (t1 & Hstep & He1 & Hv1 & Ho1 & Hn1).
    destruct (IH t1 (LineEntry.start l) number Hall He1) as (t2 & Hfold & Hv2 & Ho2 & Hn2).
    exists t2. cbn [for_each map ascending]. rewrite Hstep. cbn [bind].
    assert (number_or 0 l = number) as Hno by (unfold number_or; now rewrite Hnum).
    rewrite !last_cons, Hno.
    split; [exact Hfold |].
    rewrite Hv2, Hv1, Ho2, Ho1, Hn2, Hn1.
    split; [symmetry; apply andb_assoc |]. split; lia.
Qed.

Lemma lnotab_fold_type_error (lines : list LineEntry.t) :
  forall t prev_start prev_number,
    Exists (fun l => LineEntry.number l = None) lines ->
    Nat.even (List.length t) = true ->
    for_each lnotab_step lines (t, prev_start, prev_number) = Raise TypeError.
Proof.
  induction lines as [| l lines IH]; intros t prev_start prev_number Hex He.
  - inversion Hex.
  - cbn [for_each].
    destruct (LineEntry.number l) as [number |] eqn:Hnum.
    + destruct (lnotab_step_spec t prev_start prev_number l number Hnum He)
        as (t1 & -> & He1 & _). cbn [bind]. apply IH; [| exact He1].
      apply Exists_cons in Hex. destruct Hex as [Hex | Hex]; [congruence | exact Hex].
    + unfold lnotab_step. cbv beta iota zeta. rewrite Hnum. reflexivity.
Qed.

End Lnotab.

(** X15. [make_lnotab] on lines that all have a number: when no line starts
    before the line before it (nor the first before offset 0) it returns a
    table whose offset increments add up to the start of the last line and
    whose signed line increments add up to the number of the last line less
    [firstlineno]; otherwise it raises [ValueError], for the negative
    increment that is no byte.  A line without a number makes it raise
    [TypeError]. *)
Theorem make_lnotab_increments_add_up (firstlineno : Z) (lines : list LineEntry.t) :
  (Forall (fun l => LineEntry.number l <> None) lines ->
   if ascending 0 lines
   then exists table,
          LineEntry.make_lnotab firstlineno lines = Ok table /\
          offset_increments table = last (map LineEntry.start lines) 0 /\
          firstlineno + line_increments table
          = last (map (number_or 0) lines) firstlineno
   else LineEntry.make_lnotab firstlineno lines = Raise ValueError) /\
  (Exists (fun l => LineEntry.number l = None) lines ->
   LineEntry.make_lnotab firstlineno lines = Raise TypeError).
Proof.
  rewrite make_lnotab_eq. split.
  - intros Hall.
    destruct (lnotab_fold_spec lines [] 0 firstlineno Hall eq_refl)
      as (t & -> & Hv & Ho & Hn).
    cbn [bind fst]. unfold as_bytes. rewrite Hv. cbn [forallb andb].
    destruct (ascending 0 lines); [| reflexivity].
    exists t. split; [reflexivity |]. cbn in Ho, Hn. split; lia.
  - intros Hex. rewrite (lnotab_fold_type_error lines [] 0 firstlineno Hex eq_refl).
    reflexivity.
Qed.

Lemma make_lnotab_increments_add_up_witness :
  let lines := [LineEntry.mk 0 6 (Some 5); LineEntry.mk 300 310 (Some 200);
                LineEntry.mk 310 320 (Some 3)] in
  LineEntry.make_lnotab 5 lines
  = Ok [255; 0; 45; 127; 0; 68; 10; 128; 0; 187] /\
  offset_increments [255; 0; 45; 127; 0; 68; 10; 128; 0; 187] = 310 /\
  5 + line_increments [255; 0; 45; 127; 0; 68; 10; 128; 0; 187] = 3 /\
  LineEntry.make_lnotab 5 [LineEntry.mk 8 10 (Some 5); LineEntry.mk 4 8 (Some 6)]
  = Raise ValueError.
Proof.
  intros lines.
  pose proof (proj1 (make_lnotab_increments_add_up 5 lines)) as H.
  destruct H as (table & Htable & Ho & Hn).
  { repeat constructor; discriminate. }
  assert (table = [255; 0; 45; 127; 0; 68; 10; 128; 0; 187]) as ->
      by (vm_compute in Htable; now injection Htable as <-).
  split; [reflexivity |]. split; [exact Ho |]. split; [exact Hn |].
  apply (proj1 (make_lnotab_increments_add_up 5
                  [LineEntry.mk 8 10 (Some 5); LineEntry.mk 4 8 (Some 6)])).
  repeat constructor; discriminate.
Defined.

(** ** Inserting a call *)

Section Inserting.
Context {rt : Runtime}.

Lemma getitem_app_l {A : Type} (a b : list A) (i : Z) :
  0 <= i < len a -> getitem (a ++ b) i = getitem a i.
Proof.
  intros Hi. unfold getitem.
  assert ((i <? 0) = false) as Hn by (apply Z.ltb_ge; lia).
  rewrite !Hn. unfold len in Hi. rewrite nth_error_app1 by lia. reflexivity.
Qed.

Lemma getitem_app_r {A : Type} (a b : list A) (j : Z) :
  0 <= j -> getitem (a ++ b) (len a + j) = getitem b j.
Proof.
  intros Hj. unfold getitem. pose proof (len_nonneg a) as Ha.
  assert ((len a + j <? 0) = false) as Hn by (apply Z.ltb_ge; lia).
  assert ((j <? 0) = false) as Hn' by (apply Z.ltb_ge; lia).
  rewrite !Hn, !Hn'. unfold len in *. rewrite nth_error_app2 by lia.
  replace (Z.to_nat (Z.of_nat (List.length a) + j) - List.length a)%nat
    with (Z.to_nat j) by lia.
  reflexivity.
Qed.

Lemma len_firstn {A : Type} (l : list A) (k : Z) :
  0 <= k <= len l -> len (firstn (Z.to_nat k) l) = k.
Proof. unfold len. intros Hk. rewrite length_firstn. lia. Qed.

(** What [l[k:k] = repl] leaves where, for [k] within [l]. *)
Lemma setslice_insert_items {A : Type} (l repl : list A) (k : Z) :
  0 <= k <= len l ->
  (forall i, 0 <= i < k -> getitem (setslice l k k repl) i = getitem l i) /\
  (forall i, 0 <= i < len repl -> getitem (setslice l k k repl) (k + i) = getitem repl i) /\
  (forall i, k <= i -> getitem (setslice l k k repl) (i + len repl) = getitem l i).
Proof.
  intros Hk. rewrite setslice_insert.
  assert (slice_index l k = k) as ->.
  { unfold slice_index. destruct (Z.ltb_spec k 0); lia. }
  pose proof (len_firstn l k Hk) as Hf.
  pose proof (firstn_skipn (Z.to_nat k) l) as Hsplit.
  split; [| split].
  - intros i Hi. rewrite getitem_app_l by lia.
    transitivity (getitem (firstn (Z.to_nat k) l ++ skipn (Z.to_nat k) l) i).
    + rewrite getitem_app_l by lia. reflexivity.
    + now rewrite Hsplit.
  - intros i Hi.
    replace (k + i) with (len (firstn (Z.to_nat k) l) + i) by lia.
    rewrite getitem_app_r by lia.
    apply getitem_app_l. exact Hi.
  - intros i Hi.
    replace (i + len repl) with (len (firstn (Z.to_nat k) l) + (len repl + (i - k)))
      by lia.
    rewrite getitem_app_r by (pose proof (len_nonneg repl); lia).
    rewrite getitem_app_r by lia.
    transitivity (getitem (firstn (Z.to_nat k) l ++ skipn (Z.to_nat k) l)
                          (len (firstn (Z.to_nat k) l) + (i - k))).
    + rewrite getitem_app_r by lia. reflexivity.
    + rewrite Hsplit. f_equal. lia.
Qed.

Lemma extend_Ok (data values r : list Z) :
  extend data values = Ok r -> r = data ++ values.
Proof.
  unfold extend, as_bytes. destruct (forallb is_byte values); cbn; [| discriminate].
  now intros [= <-].
Qed.

Lemma opcode_arg_len (opcode arg min_ext : Z) (code : list Z) :
  opcode_arg opcode arg min_ext = Ok code ->
  exists k, len code = 2 + 2 * k /\ 0 <= k.
Proof.
  intros H. destruct (opcode_arg_Ok _ _ _ _ H) as (_ & m & _ & _ & ->).
  rewrite len_app, len_ext_words.
  change (?o :: ?b :: ?rest) with ([o; b] ++ rest).
  rewrite len_app, len_cache_words. change (len [opcode; Z.land arg 255]) with 2.
  exists (Z.of_nat (Z.to_nat (Z.max (arg_ext_needed arg) min_ext)) + Z.of_nat m).
  lia.
Qed.

(** The loop of [insert_function_call] over the arguments of the call. *)
Lemma load_args_appends (args : list Z) :
  forall insert insert',
    for_each (fun insert a => c <- opcode_arg op_LOAD_CONST a 0 ;; extend insert c)
             args insert = Ok insert' ->
    exists suffix k, insert' = insert ++ suffix /\ len suffix = 2 * k /\ 0 <= k.
Proof.
  induction args as [| a args IH]; intros insert insert' H.
  - injection H as <-. exists [], 0. rewrite app_nil_r. repeat split; lia.
  - cbn [for_each] in H. inv_bind H. inv_bind E.
    apply extend_Ok in E. subst a0.
    destruct (opcode_arg_len _ _ _ _ E0) as (k1 & Hk1 & Hk1').
    destruct (IH _ _ H) as (suffix & k & -> & Hk & Hk').
    exists (a1 ++ suffix), (1 + k1 + k). rewrite <- app_assoc, len_app.
    repeat split; lia.
Qed.

Lemma call_sequence_shape (function : Z) (args insert : list Z) :
  Editor.call_sequence function args = Ok insert ->
  exists rest k,
    insert = op_NOP :: 0 :: rest /\ len rest = 2 * k /\ 3 <= k.
Proof.
  unfold Editor.call_sequence. intros H.
  destruct (version_ge PYTHON_VERSION (3, 11)).
  - inv_bind H. inv_bind H. inv_bind H. inv_bind H. inv_bind H.
    apply extend_Ok in E0, H. cbn [app] in E0. subst a0 insert.
    destruct (load_args_appends _ _ _ E1) as (suffix & k & -> & Hk & Hk').
    destruct (opcode_arg_len _ _ _ _ E) as (k0 & Hk0 & Hk0').
    destruct (opcode_arg_len _ _ _ _ E2) as (k2 & Hk2 & Hk2').
    destruct (opcode_arg_len _ _ _ _ E3) as (k3 & Hk3 & Hk3').
    exists ((([op_PUSH_NULL; 0] ++ a) ++ suffix) ++ a2 ++ a3 ++ [op_POP_TOP; 0]),
           (1 + (1 + k0) + k + (1 + k2) + (1 + k3) + 1).
    split; [reflexivity |].
    rewrite !len_app. change (len [op_PUSH_NULL; 0]) with 2.
    change (len [op_POP_TOP; 0]) with 2. split; lia.
  - inv_bind H. inv_bind H. inv_bind H.
    apply extend_Ok in E0, H. cbn [app] in E0. subst a0 insert.
    destruct (load_args_appends _ _ _ E1) as (suffix & k & -> & Hk & Hk').
    destruct (opcode_arg_len _ _ _ _ E) as (k0 & Hk0 & Hk0').
    exists ((a ++ suffix) ++ [op_CALL_FUNCTION; len args; op_POP_TOP; 0]),
           ((1 + k0) + k + 2).
    split; [reflexivity |].
    rewrite !len_app.
    change (len [op_CALL_FUNCTION; len args; op_POP_TOP; 0]) with 4. split; lia.
Qed.

(** The sequence [insert_function_call] inserts: a [NOP] whose argument is
    the branch over the rest of the sequence, and the rest. *)
Lemma insert_function_call_sequence
  (self self' : Editor.t) (offset function : Z) (args : list Z) (n : Z) :
  Editor.insert_function_call self offset function args = Ok (n, self') ->
  exists v rest,
    offset2branch (n - 2) = Ok v /\ is_byte v = true /\
    n = len (op_NOP :: v :: rest) /\ 8 <= n /\ n mod 2 = 0 /\
    Editor.patch self'
    = setslice (Editor.patch self) offset offset (op_NOP :: v :: rest) /\
    Editor.max_addtl_stack self <= Editor.max_addtl_stack self' /\
    Editor.consts self' = Editor.consts self /\
    Editor.orig_code self' = Editor.orig_code self /\
    Editor.finished self' = Editor.finished self.
Proof.
  unfold Editor.insert_function_call. intros H.
  inv_bind H. inv_bind H. inv_bind H. inv_bind H.
  injection H as <- <-.
  destruct (call_sequence_shape _ _ _ E) as (rest & k & -> & Hk & Hk').
  unfold setitem in E1. change (1 <? 0) with false in E1. cbv iota in E1.
  change (len (op_NOP :: 0 :: rest)) with (len ([op_NOP; 0] ++ rest)) in *.
  rewrite len_app in *. change (len [op_NOP; 0]) with 2 in *.
  assert (((1 <? 0) || (2 + len rest <=? 1)) = false) as Hin.
  { destruct (Z.leb_spec (2 + len rest) 1); [lia | reflexivity]. }
  rewrite Hin in E1.
  destruct (is_byte a0) eqn:Hv; [| discriminate].
  injection E1 as <-.
  exists a0, rest. split; [exact E0 |]. split; [exact Hv |].
  change (len (op_NOP :: a0 :: rest)) with (len ([op_NOP; a0] ++ rest)).
  rewrite len_app. change (len [op_NOP; a0]) with 2.
  split; [reflexivity |]. split; [lia |].
  split; [rewrite Hk; replace (2 + 2 * k) with ((1 + k) * 2) by lia;
          apply Z.mod_mul; lia |].
  cbn [Editor.adjust_all Editor.patch Editor.max_addtl_stack Editor.consts
       Editor.orig_code Editor.finished].
  split; [reflexivity |]. split; [lia |]. repeat split.
Qed.

End Inserting.

(** X16. [insert_function_call] at an offset within the patch splices its
    sequence in: the bytes before the offset stay, those from the offset on
    move up by the length returned, which is even and at least 8.  The
    sequence starts with a [NOP] whose argument is a byte and the branch
    over the rest of the sequence, so that a jump put in the place of the
    [NOP] lands on the first instruction after the call.  The constants, the
    original code and the finished flag are kept, the additional stack does
    not shrink. *)
Theorem insert_function_call_splices {rt : Runtime}
  (self self' : Editor.t) (offset function : Z) (args : list Z) (n : Z) :
  Editor.insert_function_call self offset function args = Ok (n, self') ->
  0 <= offset <= len (Editor.patch self) ->
  8 <= n /\ n mod 2 = 0 /\
  len (Editor.patch self') = len (Editor.patch self) + n /\
  (forall i, 0 <= i < offset ->
     getitem (Editor.patch self') i = getitem (Editor.patch self) i) /\
  (forall i, offset <= i ->
     getitem (Editor.patch self') (i + n) = getitem (Editor.patch self) i) /\
  getitem (Editor.patch self') offset = Ok op_NOP /\
  (exists v, getitem (Editor.patch self') (offset + 1) = Ok v /\
             is_byte v = true /\
             offset + 2 + branch2offset v = offset + n) /\
  Editor.consts self' = Editor.consts self /\
  Editor.orig_code self' = Editor.orig_code self /\
  Editor.finished self' = Editor.finished self /\
  Editor.max_addtl_stack self <= Editor.max_addtl_stack self'.
Proof.
  intros H Hoff.
  destruct (insert_function_call_sequence _ _ _ _ _ _ H)
    as (v & rest & Hv & Hbyte & Hn & Hmin & Heven & Hpatch & Hstack & Hc & Ho & Hf).
  destruct (setslice_insert_items (Editor.patch self) (op_NOP :: v :: rest) offset Hoff)
    as (Hbefore & Hin & Hafter).
  rewrite <- Hn in Hin, Hafter. rewrite Hpatch.
  split; [exact Hmin |]. split; [exact Heven |].
  split; [rewrite len_setslice_insert; lia |].
  split; [exact Hbefore |]. split; [exact Hafter |].
  split; [rewrite <- (Z.add_0_r offset) at 3; rewrite Hin by lia; reflexivity |].
  split.
  - exists v. rewrite Hin by lia. split; [reflexivity |]. split; [exact Hbyte |].
    apply offset2branch_Ok in Hv. lia.
  - repeat split; assumption.
Qed.

Lemma insert_function_call_splices_witness :
  exists self',
    Editor.insert_function_call (rt := Sample.py311)
      Sample.forward_branch_editor 4 0 [] = Ok (22, self') /\
    getitem (Editor.patch self') 4 = Ok 9 /\
    getitem (Editor.patch self') 5 = Ok 10 /\
    getitem (Editor.patch self') (4 + 22) = Ok 114.
Proof.
  destruct (Editor.insert_function_call (rt := Sample.py311)
              Sample.forward_branch_editor 4 0 []) as [[n self'] | e] eqn:E;
    [| vm_compute in E; discriminate].
  assert (n = 22) as -> by (vm_compute in E; congruence).
  exists self'. split; [reflexivity |].
  destruct (insert_function_call_splices (rt := Sample.py311) _ _ _ _ _ _ E)
    as (_ & _ & _ & _ & Hafter & Hnop & (v & Hv & _ & Hjump) & _).
  { vm_compute. split; discriminate. }
  split; [exact Hnop |]. split.
  - change (4 + 1) with 5 in Hv. rewrite Hv. f_equal.
    change (branch2offset v) with (v * 2) in Hjump. lia.
  - rewrite Hafter by lia. reflexivity.
Defined.

(** X17. [add_const] returns the index under which the value is found in the
    constants afterwards, which is the number of constants there were; these
    keep their indices, and the code, the patch and the tables of the editor
    are left alone. *)
Theorem add_const_index {rt : Runtime} (self : Editor.t) (value : object) :
  let index := fst (Editor.add_const self value) in
  let self' := snd (Editor.add_const self value) in
  index = len (Editor.consts self) /\
  getitem (Editor.consts self') index = Ok value /\
  (forall i, 0 <= i < len (Editor.consts self) ->
     getitem (Editor.consts self') i = getitem (Editor.consts self) i) /\
  len (Editor.consts self') = len (Editor.consts self) + 1 /\
  Editor.orig_code self' = Editor.orig_code self /\
  Editor.patch self' = Editor.patch self /\
  Editor.branches self' = Editor.branches self /\
  Editor.lines self' = Editor.lines self /\
  Editor.ex_table self' = Editor.ex_table self /\
  Editor.max_addtl_stack self' = Editor.max_addtl_stack self /\
  Editor.finished self' = Editor.finished self.
Proof.
  unfold Editor.add_const. cbn [fst snd Editor.consts Editor.orig_code Editor.patch
    Editor.branches Editor.lines Editor.ex_table Editor.max_addtl_stack
    Editor.finished].
  rewrite len_app. change (len [value]) with 1.
  split; [lia |]. split; [| split; [| repeat split; lia]].
  - replace (len (Editor.consts self) + 1 - 1) with (len (Editor.consts self)) by lia.
    apply getitem_app_0.
  - intros i Hi. now apply getitem_app_l.
Qed.

Lemma add_const_index_witness :
  let self' := snd (Editor.add_const (rt := Sample.py311) Sample.forward_branch_editor 7) in
  fst (Editor.add_const (rt := Sample.py311) Sample.forward_branch_editor 7) = 1 /\
  getitem (Editor.consts self') 0 = Ok 0 /\
  getitem (Editor.consts self') 1 = Ok 7.
Proof.
  intros self'.
  destruct (add_const_index (rt := Sample.py311) Sample.forward_branch_editor 7)
    as (Hi & Hv & Hold & _).
  split; [exact Hi |]. split.
  - apply (Hold 0). vm_compute. split; [discriminate | reflexivity].
  - exact Hv.
Defined.

(** ** What the loop of [finish] does to the bytes of the patch *)

(** The bytes [l'] are the bytes of [l], all of them and in their order, with
    zero bytes put in between. *)
Inductive padded : list Z -> list Z -> Prop :=
| padded_nil : padded [] []
| padded_keep (x : Z) (l l' : list Z) : padded l l' -> padded (x :: l) (x :: l')
| padded_fill (l l' : list Z) : padded l l' -> padded l (0 :: l').

(** By how much the byte at offset [i] is moved when the branches [before]
    become the branches [after]: the growth of every branch that began at or
    before [i]. *)
Fixpoint shift_of (i : Z) (before after : list Branch.t) : Z :=
  match before, after with
  | b :: before, b' :: after =>
      (if Branch.offset b <=? i then Branch.length b' - Branch.length b else 0)
      + shift_of i before after
  | _, _ => 0
  end.

(** The branch [b'] that [b] has become begins with zero bytes, as many as
    it has grown by. *)
Definition filled (patch : list Z) (b b' : Branch.t) : Prop :=
  Branch.length b <= Branch.length b' /\
  forall j, 0 <= j < Branch.length b' - Branch.length b ->
            getitem patch (Branch.offset b' + j) = Ok 0.

Lemma padded_refl (l : list Z) : padded l l.
Proof. induction l as [| x l IH]; constructor; exact IH. Qed.

Lemma padded_trans (l1 l2 l3 : list Z) : padded l1 l2 -> padded l2 l3 -> padded l1 l3.
Proof.
  intros H12 H23. revert l1 H12.
  induction H23 as [| x l l' _ IH | l l' _ IH]; intros l1 H12.
  - exact H12.
  - inversion H12 as [| y m m' Hm | m m' Hm]; subst.
    + apply padded_keep, IH, Hm.
    + apply padded_fill, IH, Hm.
  - apply padded_fill, IH, H12.
Qed.

Lemma padded_app (l1 l1' l2 l2' : list Z) :
  padded l1 l1' -> padded l2 l2' -> padded (l1 ++ l2) (l1' ++ l2').
Proof.
  intros H1 H2. induction H1 as [| x l l' _ IH | l l' _ IH]; cbn.
  - exact H2.
  - apply padded_keep, IH.
  - apply padded_fill, IH.
Qed.

Lemma padded_zeros (n : Z) : padded [] (repeat_list [0] n).
Proof.
  unfold repeat_list. induction (Z.to_nat n) as [| k IH]; cbn.
  - constructor.
  - apply padded_fill, IH.
Qed.

Lemma padded_insert (l : list Z) (k n : Z) :
  padded l (setslice l k k (repeat_list [0] n)).
Proof.
  rewrite setslice_insert.
  rewrite <- (firstn_skipn (Z.to_nat (slice_index l k)) l) at 1.
  apply padded_app; [apply padded_refl |].
  apply (padded_app [] _ _ _ (padded_zeros n)), padded_refl.
Qed.

Lemma getitem_zeros (n m : Z) : 0 <= m < n -> getitem (repeat_list [0] n) m = Ok 0.
Proof.
  intros Hm. unfold repeat_list.
  assert (forall k : nat, List.concat (repeat [0] k) = repeat 0 k) as E.
  { induction k as [| k IH]; cbn; [reflexivity | now rewrite IH]. }
  rewrite E. unfold getitem.
  assert ((m <? 0) = false) as -> by (apply Z.ltb_ge; lia).
  assert ((m <? 0) = false) as -> by (apply Z.ltb_ge; lia).
  destruct (nth_error (repeat 0 (Z.to_nat n)) (Z.to_nat m)) as [x |] eqn:Hx.
  - apply nth_error_In, repeat_spec in Hx. now subst x.
  - apply nth_error_None in Hx. rewrite repeat_length in Hx. lia.
Qed.

Lemma Forall2_map_right {A B C : Type} (R : A -> C -> Prop) (f : B -> C)
  (l1 : list A) (l2 : list B) :
  Forall2 (fun x y => R x (f y)) l1 l2 -> Forall2 R l1 (map f l2).
Proof. induction 1; cbn; constructor; assumption. Qed.

Lemma shift_of_app (i : Z) (o1 o2 c1 c2 : list Branch.t) :
  List.length o1 = List.length c1 ->
  shift_of i (o1 ++ o2) (c1 ++ c2) = shift_of i o1 c1 + shift_of i o2 c2.
Proof.
  revert c1. induction o1 as [| b o1 IH]; intros [| c c1] H; try discriminate.
  - cbn. lia.
  - injection H as H. cbn [app shift_of]. rewrite (IH _ H). lia.
Qed.

Lemma shift_of_adjust (i k n : Z) (o cs : list Branch.t) :
  shift_of i o (map (fun c => Branch.adjust c k n) cs) = shift_of i o cs.
Proof.
  revert cs. induction o as [| b o IH]; intros [| c cs]; try reflexivity.
  cbn [map shift_of]. rewrite IH, branch_adjust_fields. reflexivity.
Qed.

Lemma shift_of_same (i : Z) (bs : list Branch.t) : shift_of i bs bs = 0.
Proof.
  induction bs as [| b bs IH]; [reflexivity |]. cbn [shift_of]. rewrite IH.
  destruct (Branch.offset b <=? i); lia.
Qed.

Section PatchContents.
Context {rt : Runtime}.

Lemma adjust_length_grows (b b' : Branch.t) (change : Z) :
  Branch.adjust_length b = Ok (change, b') -> truthy change = true ->
  0 < change /\ Branch.offset b' = Branch.offset b /\
  Branch.length b' = Branch.length b + change.
Proof.
  intros Hb Ht. destruct (adjust_length_Ok _ _ _ Hb) as (a & _ & Hc & Hb').
  rewrite Ht in Hb'.
  assert (0 < change) as Hpos.
  { unfold truthy in Ht. destruct (Z.eqb_spec change 0); [discriminate | lia]. }
  split; [exact Hpos |]. subst b'.
  split.
  - destruct (Branch.target b >? Branch.offset b); reflexivity.
  - cbn [Branch.set_length Branch.length]. lia.
Qed.

(** A property of the patch and of the branches that every growth of a branch
    keeps is kept by a scan of the branches, and by the loop. *)
Section ScanInvariant.
Variable Inv : list Z -> list Branch.t -> Prop.
Hypothesis Inv_grow :
  forall (patch : list Z) (done todo : list Branch.t) (b b' : Branch.t) (change : Z),
    0 < change ->
    Branch.offset b' = Branch.offset b ->
    Branch.length b' = Branch.length b + change ->
    Inv patch (done ++ b :: todo) ->
    Inv (setslice patch (Branch.offset b) (Branch.offset b) (repeat_list [0] change))
        (map (fun c => Branch.adjust c (Branch.offset b) change) done
         ++ b' :: map (fun c => Branch.adjust c (Branch.offset b) change) todo).

Lemma adjust_lengths_invariant (n : nat) :
  forall todo, List.length todo = n ->
  forall self done any_adjusted self' any_adjusted',
    Editor.adjust_lengths self done todo any_adjusted = Ok (self', any_adjusted') ->
    Inv (Editor.patch self) (done ++ todo) ->
    Inv (Editor.patch self') (Editor.branches self').
Proof.
  induction n as [| n IH]; intros todo Hn self done any self' any' Hrun HI;
    rewrite adjust_lengths_eq in Hrun.
  - destruct todo; [| discriminate]. injection Hrun as <- <-.
    rewrite app_nil_r in HI. exact HI.
  - destruct todo as [| b todo]; [discriminate |]. injection Hn as Hn.
    destruct (Branch.adjust_length b) as [[change b'] | e] eqn:Hb; [| discriminate].
    destruct (truthy change) eqn:Ht.
    + destruct (adjust_length_grows _ _ _ Hb Ht) as (Hpos & Ho & Hl).
      apply IH in Hrun; [exact Hrun | now rewrite length_map |].
      cbn [Editor.grow Editor.patch]. rewrite <- app_assoc. cbn [app].
      rewrite Ho. apply Inv_grow; assumption.
    + destruct (adjust_length_Ok _ _ _ Hb) as (a & _ & _ & Hb').
      rewrite Ht in Hb'. subst b'.
      apply IH in Hrun; [exact Hrun | exact Hn |].
      rewrite <- app_assoc. exact HI.
Qed.

Lemma stabilize_invariant (fuel : nat) :
  forall self self',
    Editor.stabilize fuel self = Some (Ok self') ->
    Inv (Editor.patch self) (Editor.branches self) ->
    Inv (Editor.patch self') (Editor.branches self').
Proof.
  induction fuel as [| fuel IH]; intros self self' H HI; [discriminate |].
  cbn [Editor.stabilize] in H.
  destruct (Editor.adjust_lengths self [] (Editor.branches self) false)
    as [[s any_adjusted] | e] eqn:Hscan; [| discriminate].
  apply (adjust_lengths_invariant _ _ eq_refl) in Hscan; [| exact HI].
  destruct any_adjusted.
  - apply (IH _ _ H Hscan).
  - injection H as <-. exact Hscan.
Qed.

End ScanInvariant.

(** The bytes are kept, and zero bytes are all that is added. *)
Lemma stabilize_pads (fuel : nat) (self self' : Editor.t) :
  Editor.stabilize fuel self = Some (Ok self') ->
  padded (Editor.patch self) (Editor.patch self').
Proof.
  intros H.
  apply (stabilize_invariant (fun patch _ => padded (Editor.patch self) patch)
           ltac:(cbn beta; intros; eapply padded_trans;
                 [eassumption | apply padded_insert])
           _ _ _ H).
  apply padded_refl.
Qed.

(** Where the byte that was at offset [i] is found. *)
Section ByteMoved.
Variable bs0 : list Branch.t.
Variable patch0 : list Z.
Variable i : Z.
Hypothesis i_nonneg : 0 <= i.

(** The branch [b] that [b0] has become is on the same side of the byte, now
    at [p], and no shorter. *)
Definition beside (p : Z) (b0 b : Branch.t) : Prop :=
  Branch.length b0 <= Branch.length b /\
  (Branch.offset b0 <= i <-> Branch.offset b <= p).

Definition byte_moved (patch : list Z) (cur : list Branch.t) : Prop :=
  Forall (fun b => 0 <= Branch.offset b <= len patch) cur /\
  Forall2 (beside (i + shift_of i bs0 cur)) bs0 cur /\
  getitem patch (i + shift_of i bs0 cur) = getitem patch0 i.

Lemma beside_shift_nonneg (p : Z) (o cs : list Branch.t) :
  Forall2 (beside p) o cs -> 0 <= shift_of i o cs.
Proof.
  induction 1 as [| b0 b o cs [Hl _] _ IH]; cbn [shift_of]; [lia |].
  destruct (Branch.offset b0 <=? i); lia.
Qed.

Lemma beside_others (p p' k change : Z) (o cs : list Branch.t) :
  0 < change ->
  (k <= p -> p' = p + change) -> (p < k -> p' = p) ->
  Forall2 (beside p) o cs ->
  Forall2 (beside p') o (map (fun c => Branch.adjust c k change) cs).
Proof.
  intros Hpos Hge Hlt H. apply Forall2_map_right.
  eapply Forall2_impl; [| exact H]. cbn beta.
  intros b0 c [Hl Hside]. unfold beside. rewrite branch_adjust_fields.
  cbn [Branch.length Branch.offset]. split; [exact Hl |].
  destruct (Z.geb_spec (Branch.offset c) k); lia.
Qed.

Lemma in_range_others (patch : list Z) (k change : Z) (cs : list Branch.t) :
  0 < change ->
  Forall (fun b => 0 <= Branch.offset b <= len patch) cs ->
  Forall (fun b => 0 <= Branch.offset b
                   <= len (setslice patch k k (repeat_list [0] change)))
         (map (fun c => Branch.adjust c k change) cs).
Proof.
  intros Hpos H. apply Forall_map. eapply Forall_impl; [| exact H]. cbn beta.
  intros c Hc. rewrite branch_adjust_fields. cbn [Branch.offset].
  rewrite len_setslice_insert, len_repeat_list. change (len [0]) with 1.
  destruct (Branch.offset c >=? k); lia.
Qed.

Lemma byte_moved_grow :
  forall (patch : list Z) (done todo : list Branch.t) (b b' : Branch.t) (change : Z),
    0 < change ->
    Branch.offset b' = Branch.offset b ->
    Branch.length b' = Branch.length b + change ->
    byte_moved patch (done ++ b :: todo) ->
    byte_moved (setslice patch (Branch.offset b) (Branch.offset b) (repeat_list [0] change))
        (map (fun c => Branch.adjust c (Branch.offset b) change) done
         ++ b' :: map (fun c => Branch.adjust c (Branch.offset b) change) todo).
Proof.
  intros patch done todo b b' change Hpos Ho Hl (Hr & Hs & Hg).
  set (k := Branch.offset b) in *.
  set (p := i + shift_of i bs0 (done ++ b :: todo)) in *.
  apply Forall2_app_inv_r in Hs. destruct Hs as (o1 & o2 & Hs1 & Hs2 & E).
  inversion Hs2 as [| ob b_ o2' todo_ Hb Hs3]; subst o2 b_ todo_.
  pose proof (Forall2_length Hs1) as Hlen.
  apply Forall_app in Hr. destruct Hr as [Hr1 Hr2].
  apply Forall_cons_iff in Hr2. destruct Hr2 as [Hk Hr2].
  assert (0 <= shift_of i bs0 (done ++ b :: todo)) as Hnn.
  { rewrite E. apply (beside_shift_nonneg p).
    apply Forall2_app; [exact Hs1 | constructor; assumption]. }
  set (delta := if Branch.offset ob <=? i then change else 0).
  assert (shift_of i bs0
            (map (fun c => Branch.adjust c k change) done
             ++ b' :: map (fun c => Branch.adjust c k change) todo)
          = shift_of i bs0 (done ++ b :: todo) + delta) as Hshift.
  { rewrite E, !shift_of_app by (rewrite ?length_map; exact Hlen).
    cbn [shift_of]. rewrite !shift_of_adjust, Hl. subst delta.
    destruct (Branch.offset ob <=? i); lia. }
  unfold byte_moved. rewrite Hshift.
  destruct Hb as [Hbl Hbside]. fold k in Hbside.
  assert (k <= p -> p + delta = p + change) as Hge.
  { intros H. apply Hbside in H. subst delta.
    destruct (Z.leb_spec (Branch.offset ob) i); lia. }
  assert (p < k -> p + delta = p) as Hlt.
  { intros H. subst delta.
    destruct (Z.leb_spec (Branch.offset ob) i) as [Hle | _]; [| lia].
    apply Hbside in Hle. lia. }
  replace (i + (shift_of i bs0 (done ++ b :: todo) + delta)) with (p + delta)
    by (subst p; lia).
  split; [| split].
  - apply Forall_app. split; [apply in_range_others; assumption |].
    apply Forall_cons.
    + rewrite Ho. fold k. rewrite len_setslice_insert. pose proof (len_nonneg (repeat_list [0] change)). lia.
    + apply in_range_others; assumption.
  - rewrite E. apply Forall2_app.
    + apply (beside_others p); assumption.
    + constructor.
      * unfold beside. rewrite Ho, Hl. fold k.
        split; [lia |]. destruct (Z.le_gt_cases k p) as [H | H].
        -- rewrite (Hge H). split; [lia | tauto].
        -- rewrite (Hlt H). exact Hbside.
      * apply (beside_others p); assumption.
  - rewrite <- Hg.
    destruct (setslice_insert_items patch (repeat_list [0] change) k Hk)
      as (Hbefore & _ & Hafter).
    assert (len (repeat_list [0] change) = change) as Hrep.
    { rewrite len_repeat_list. change (len [0]) with 1. lia. }
    destruct (Z.le_gt_cases k p) as [H | H].
    + rewrite (Hge H). rewrite Hrep in Hafter. apply Hafter. exact H.
    + rewrite (Hlt H). apply Hbefore. subst p. lia.
Qed.

End ByteMoved.

Lemma stabilize_moves_bytes (fuel : nat) (self self' : Editor.t) (i : Z) :
  Editor.stabilize fuel self = Some (Ok self') ->
  Forall (fun b => 0 <= Branch.offset b <= len (Editor.patch self))
         (Editor.branches self) ->
  0 <= i ->
  getitem (Editor.patch self') (i + shift_of i (Editor.branches self) (Editor.branches self'))
  = getitem (Editor.patch self) i.
Proof.
  intros H Hr Hi.
  apply (stabilize_invariant
           (byte_moved (Editor.branches self) (Editor.patch self) i)
           (byte_moved_grow _ _ _ Hi) _ _ _ H).
  split; [exact Hr |]. rewrite shift_of_same, Z.add_0_r. split; [| reflexivity].
  clear. induction (Editor.branches self) as [| b bs IH]; constructor; [| exact IH].
  unfold beside. split; [lia | tauto].
Qed.

(** Where the zero bytes are. *)
Section Filler.
Variable bs0 : list Branch.t.

Definition filler (patch : list Z) (b0 b : Branch.t) : Prop :=
  0 <= Branch.offset b /\
  Branch.offset b + (Branch.length b - Branch.length b0) <= len patch /\
  filled patch b0 b.

Lemma filler_others (patch : list Z) (k change : Z) (o cs : list Branch.t) :
  0 < change -> 0 <= k <= len patch ->
  Forall2 (filler patch) o cs ->
  Forall2 (filler (setslice patch k k (repeat_list [0] change)))
          o (map (fun c => Branch.adjust c k change) cs).
Proof.
  intros Hpos Hk H. apply Forall2_map_right.
  eapply Forall2_impl; [| exact H]. cbn beta.
  intros c0 c (Hc0 & Hc1 & Hcl & Hcz). unfold filler, filled.
  rewrite branch_adjust_fields. cbn [Branch.length Branch.offset].
  rewrite len_setslice_insert.
  assert (len (repeat_list [0] change) = change) as Hrep.
  { rewrite len_repeat_list. change (len [0]) with 1. lia. }
  rewrite Hrep.
  destruct (setslice_insert_items patch (repeat_list [0] change) k Hk)
    as (Hbefore & Hin & Hafter).
  rewrite Hrep in Hin.
  destruct (Z.geb_spec (Branch.offset c) k) as [Hge | Hlt].
  - split; [lia |]. split; [lia |]. split; [exact Hcl |].
    intros j Hj.
    replace (Branch.offset c + change + j)
      with (Branch.offset c + j + len (repeat_list [0] change)) by lia.
    rewrite Hafter by lia. apply Hcz, Hj.
  - split; [lia |]. split; [lia |]. split; [exact Hcl |].
    intros j Hj.
    destruct (Z.lt_ge_cases (Branch.offset c + j) k) as [H1 | H1].
    + rewrite Hbefore by lia. apply Hcz, Hj.
    + destruct (Z.lt_ge_cases (Branch.offset c + j) (k + change)) as [H2 | H2].
      * replace (Branch.offset c + j) with (k + (Branch.offset c + j - k)) by lia.
        rewrite Hin by lia. apply getitem_zeros. lia.
      * replace (Branch.offset c + j)
          with (Branch.offset c + (j - change) + len (repeat_list [0] change)) by lia.
        rewrite Hafter by lia. apply Hcz. lia.
Qed.

Lemma filler_grow :
  forall (patch : list Z) (done todo : list Branch.t) (b b' : Branch.t) (change : Z),
    0 < change ->
    Branch.offset b' = Branch.offset b ->
    Branch.length b' = Branch.length b + change ->
    Forall2 (filler patch) bs0 (done ++ b :: todo) ->
    Forall2 (filler (setslice patch (Branch.offset b) (Branch.offset b)
                              (repeat_list [0] change)))
            bs0
            (map (fun c => Branch.adjust c (Branch.offset b) change) done
             ++ b' :: map (fun c => Branch.adjust c (Branch.offset b) change) todo).
Proof.
  intros patch done todo b b' change Hpos Ho Hl Hs.
  set (k := Branch.offset b) in *.
  apply Forall2_app_inv_r in Hs. destruct Hs as (o1 & o2 & Hs1 & Hs2 & E).
  inversion Hs2 as [| ob b_ o2' todo_ Hb Hs3]; subst o2 b_ todo_.
  destruct Hb as (Hb0 & Hb1 & Hbl & Hbz). fold k in Hb0, Hb1, Hbz.
  assert (0 <= k <= len patch) as Hk by lia.
  rewrite E. apply Forall2_app; [apply filler_others; assumption |].
  constructor; [| apply filler_others; assumption].
  unfold filler, filled. rewrite Ho, Hl. fold k. rewrite len_setslice_insert.
  assert (len (repeat_list [0] change) = change) as Hrep.
  { rewrite len_repeat_list. change (len [0]) with 1. lia. }
  rewrite Hrep.
  destruct (setslice_insert_items patch (repeat_list [0] change) k Hk)
    as (_ & Hin & Hafter).
  rewrite Hrep in Hin.
  split; [lia |]. split; [lia |]. split; [lia |].
  intros j Hj. destruct (Z.lt_ge_cases j change) as [H1 | H1].
  - rewrite Hin by lia. apply getitem_zeros. lia.
  - replace (k + j) with (k + (j - change) + len (repeat_list [0] change)) by lia.
    rewrite Hafter by lia. apply Hbz. lia.
Qed.

End Filler.

Lemma stabilize_fills (fuel : nat) (self self' : Editor.t) :
  Editor.stabilize fuel self = Some (Ok self') ->
  Forall (fun b => 0 <= Branch.offset b <= len (Editor.patch self))
         (Editor.branches self) ->
  Forall2 (filled (Editor.patch self')) (Editor.branches self) (Editor.branches self').
Proof.
  intros H Hr.
  assert (Forall2 (filler (Editor.patch self'))
                  (Editor.branches self) (Editor.branches self')) as HF.
  { apply (stabilize_invariant
             (fun patch cur => Forall2 (filler patch)
                                       (Editor.branches self) cur)
             (filler_grow (Editor.branches self)) _ _ _ H).
    induction Hr as [| b bs Hb _ IH]; constructor; [| exact IH].
    unfold filler, filled. split; [lia |]. split; [lia |]. split; [lia |].
    intros j Hj. lia. }
  eapply Forall2_impl; [| exact HF]. cbn beta. intros b b' (_ & _ & Hf). exact Hf.
Qed.

End PatchContents.

(** X8. The [while] loop of [finish] adds to the patch exactly the bytes by
    which the branches have grown, and it leaves the original code, the
    constants, the additional stack, the finished flag and the numbers of
    branches, lines and exception table entries as they were.  The bytes of
    the patch are all kept, in their order, and what is added are zero bytes;
    when the branches begin within the patch, the byte that was at offset [i]
    is moved by the growth of the branches that began at or before [i], and
    every branch begins with as many zero bytes as it has grown by. *)
Theorem finish_loop_grows_patch_with_branches {rt : Runtime}
  (fuel : nat) (self self' : Editor.t) :
  Editor.stabilize fuel self = Some (Ok self') ->
  len (Editor.patch self') - len (Editor.patch self)
    = total_length (Editor.branches self') - total_length (Editor.branches self) /\
  Editor.orig_code self' = Editor.orig_code self /\
  Editor.consts self' = Editor.consts self /\
  Editor.max_addtl_stack self' = Editor.max_addtl_stack self /\
  Editor.finished self' = Editor.finished self /\
  List.length (Editor.branches self') = List.length (Editor.branches self) /\
  List.length (Editor.lines self') = List.length (Editor.lines self) /\
  List.length (Editor.ex_table self') = List.length (Editor.ex_table self) /\
  padded (Editor.patch self) (Editor.patch self') /\
  (Forall (fun b => 0 <= Branch.offset b <= len (Editor.patch self))
          (Editor.branches self) ->
   (forall i, 0 <= i ->
      getitem (Editor.patch self')
              (i + shift_of i (Editor.branches self) (Editor.branches self'))
      = getitem (Editor.patch self) i) /\
   Forall2 (filled (Editor.patch self'))
           (Editor.branches self) (Editor.branches self')).
Proof.
  intros H. pose proof (stabilize_frame _ _ _ H) as HF.
  destruct HF as (H1 & H2 & H3 & H4 & H5 & H6 & H7 & H8).
  split; [lia |]. repeat (split; [assumption |]).
  split; [exact (stabilize_pads _ _ _ H) |].
  intros Hr. split.
  - intros i Hi. apply (stabilize_moves_bytes _ _ _ _ H Hr Hi).
  - apply (stabilize_fills _ _ _ H Hr).
Qed.

Lemma finish_loop_grows_patch_with_branches_witness :
  exists self',
    Editor.stabilize (rt := Sample.py39) 2 Sample.far_branch_editor = Some (Ok self') /\
    len (Editor.patch self') = 10 /\
    total_length (Editor.branches self') = 10 /\
    getitem (Editor.patch self') 8 = Ok 113 /\
    getitem (Editor.patch self') 9 = Ok 0 /\
    getitem (Editor.patch self') 7 = Ok 0 /\
    padded [113; 0] (Editor.patch self').
Proof.
  destruct (Editor.stabilize (rt := Sample.py39) 2 Sample.far_branch_editor)
    as [[self' | e] |] eqn:E; try (vm_compute in E; discriminate).
  exists self'. split; [reflexivity |].
  destruct (finish_loop_grows_patch_with_branches (rt := Sample.py39) _ _ _ E)
    as (Hgrow & _ & _ & _ & _ & _ & _ & _ & Hpad & Hbytes).
  assert (Editor.branches self' = [Branch.mk 0 10 113 false false 4294967304]) as Hb
      by (vm_compute in E; injection E as <-; reflexivity).
  destruct Hbytes as [Hmove Hfill]; [repeat constructor; cbn; lia |].
  pose proof (Hmove 0 ltac:(lia)) as H0. pose proof (Hmove 1 ltac:(lia)) as H1.
  rewrite Hb in Hgrow, H0, H1, Hfill.
  change (len (Editor.patch Sample.far_branch_editor)) with 2 in Hgrow.
  change (total_length (Editor.branches Sample.far_branch_editor)) with 2 in Hgrow.
  cbn [total_length Branch.length] in Hgrow.
  inversion Hfill as [| b b' bs bs' [_ Hzero] _ Eb Eb']. subst b b'.
  split; [lia |]. split; [rewrite Hb; reflexivity |].
  split; [exact H0 |]. split; [exact H1 |].
  split; [exact (Hzero 7 ltac:(cbn; lia)) | exact Hpad].
Defined.

(** ** Replacing the loads of a global *)

Section Replacing.
Context {rt : Runtime}.

(** What [replace_global_with_const] never touches. *)
Definition same_frame (self self' : Editor.t) : Prop :=
  Editor.orig_code self' = Editor.orig_code self /\
  Editor.consts self' = Editor.consts self /\
  Editor.max_addtl_stack self' = Editor.max_addtl_stack self /\
  Editor.finished self' = Editor.finished self /\
  List.length (Editor.branches self') = List.length (Editor.branches self) /\
  List.length (Editor.lines self') = List.length (Editor.lines self) /\
  List.length (Editor.ex_table self') = List.length (Editor.ex_table self).

Lemma same_frame_refl (self : Editor.t) : same_frame self self.
Proof. repeat split. Qed.

Lemma same_frame_trans (a b c : Editor.t) :
  same_frame a b -> same_frame b c -> same_frame a c.
Proof. unfold same_frame. intuition congruence. Qed.

Lemma replace_load_frame (const_index : Z) (self self' : Editor.t) (delta delta' : Z)
  (i : oparg) :
  Editor.replace_load const_index (self, delta) i = Ok (self', delta') ->
  same_frame self self'.
Proof.
  destruct i as [[[op_off op_len] op] op_arg].
  unfold Editor.replace_load. intros H. inv_bind H. inv_bind H. inv_bind H.
  injection H as <- <-.
  destruct (truthy (len a1 - op_len)); unfold same_frame;
    cbn [Editor.adjust_all Editor.orig_code Editor.consts Editor.max_addtl_stack
         Editor.finished Editor.branches Editor.lines Editor.ex_table];
    rewrite ?length_map; repeat split.
Qed.

Lemma replace_loads_frame (const_index : Z) (found : list oparg) :
  forall self delta self' delta',
    for_each (Editor.replace_load const_index) found (self, delta) = Ok (self', delta') ->
    same_frame self self'.
Proof.
  induction found as [| i found IH]; intros self delta self' delta' H.
  - injection H as <- <-. apply same_frame_refl.
  - cbn [for_each] in H. inv_bind H. destruct a as [self1 delta1].
    apply replace_load_frame in E.
    eapply same_frame_trans; [exact E | eapply IH; exact H].
Qed.

End Replacing.

(** X18. [replace_global_with_const] keeps the original code, the constants,
    the additional stack and the finished flag of the editor, and the number
    of its branches, lines and exception table entries; and when the patch
    holds no load of the global, the editor is left as it is. *)
Theorem replace_global_with_const_frame {rt : Runtime}
  (self self' : Editor.t) (global_name : string) (const_index : Z) :
  Editor.replace_global_with_const self global_name const_index = Ok self' ->
  same_frame self self' /\
  (Editor.find_load_globals self
     (index global_name (co_names (Editor.orig_code self))) = Ok [] ->
   self' = self).
Proof.
  unfold Editor.replace_global_with_const. intros H.
  destruct (existsb _ _).
  - inv_bind H. inv_bind H. destruct a0 as [s d]. injection H as <-.
    split; [eapply replace_loads_frame; exact E0 |].
    intros Hnone. rewrite Hnone in E. injection E as <-.
    cbn [for_each] in E0. now injection E0 as <- _.
  - injection H as <-. split; [apply same_frame_refl | reflexivity].
Qed.

Lemma replace_global_with_const_frame_witness :
  Editor.replace_global_with_const (rt := Sample.py311)
    Sample.forward_branch_editor "print" 0 = Ok Sample.forward_branch_editor.
Proof.
  destruct (Editor.replace_global_with_const (rt := Sample.py311)
              Sample.forward_branch_editor "print" 0) as [self' | e] eqn:E;
    [| vm_compute in E; discriminate].
  destruct (replace_global_with_const_frame (rt := Sample.py311) _ _ _ _ E)
    as [_ Hsame].
  rewrite Hsame; reflexivity.
Defined.

(** ** The stack a sequence needs *)

(** The net effect of a run of instructions on the stack. *)
Definition net (effects : list Z) : Z := fold_right Z.add 0 effects.

Section MaxStack.
Context {rt : Runtime}.

(** [dis.stack_effect] of one decoded instruction, as [calc_max_stack] asks
    for it. *)
Definition effect_of (i : oparg) : result Z :=
  let '(_, _, op, arg) := i in
  stack_effect dis op (if HAVE_ARGUMENT dis <=? op then Some arg else None).

Definition max_stack_step (st : Z * Z) (i : oparg) : result (Z * Z) :=
  let '(max_stack, stack) := st in
  let '(_, _, op, arg) := i in
  d <- stack_effect dis op (if HAVE_ARGUMENT dis <=? op then Some arg else None) ;;
  let stack := stack + d in
  Ok (Z.max stack max_stack, stack).

Lemma calc_max_stack_eq (code : list Z) :
  calc_max_stack code
  = (st <- for_generated max_stack_step (unpack_opargs code) (0, 0) ;; Ok (fst st)).
Proof.
  unfold calc_max_stack.
  change (for_generated _ (unpack_opargs code) (0, 0))
    with (for_generated max_stack_step (unpack_opargs code) (0, 0)).
  destruct (for_generated max_stack_step (unpack_opargs code) (0, 0)) as [[m s] | e];
    reflexivity.
Qed.

Lemma max_stack_fold (instrs : list oparg) :
  forall max_stack stack max_stack' stack',
    for_each max_stack_step instrs (max_stack, stack) = Ok (max_stack', stack') ->
    exists effects,
      Forall2 (fun i d => effect_of i = Ok d) instrs effects /\
      stack' = stack + net effects /\
      max_stack <= max_stack' /\
      (forall k, (1 <= k <= List.length effects)%nat ->
         stack + net (firstn k effects) <= max_stack') /\
      (max_stack' = max_stack \/
       exists k, (1 <= k)%nat /\ stack + net (firstn k effects) = max_stack').
Proof.
  induction instrs as [| i instrs IH]; intros max_stack stack max_stack' stack' H.
  - injection H as <- <-. exists []. split; [constructor |].
    split; [cbn [net fold_right]; lia |]. split; [lia |]. split; [| now left].
    intros k Hk. cbn [List.length] in Hk. lia.
  - cbn [for_each] in H. inv_bind H. destruct a as [m1 s1].
    destruct i as [[[off length] op] arg].
    unfold max_stack_step in E. inv_bind E. injection E as <- <-.
    destruct (IH _ _ _ _ H) as (effects & Hall & Hs & Hm & Hle & Hpeak).
    exists (a :: effects). split; [constructor; [exact E0 | exact Hall] |].
    cbn [net fold_right]. fold (net effects).
    split; [lia |]. split; [lia |]. split.
    + intros [| k] Hk; [lia |]. cbn [firstn net fold_right]. fold (net (firstn k effects)).
      cbn [List.length] in Hk.
      destruct k as [| k]; [cbn [firstn net fold_right]; lia |].
      specialize (Hle (S k) ltac:(lia)). lia.
    + destruct Hpeak as [-> | (k & Hk & Hpeak)].
      * destruct (Z.max_spec (stack + a) max_stack) as [[_ ->] | [_ ->]]; [now left |].
        right. exists 1%nat. split; [lia |]. cbn [firstn net fold_right]. lia.
      * right. exists (S k). split; [lia |].
        cbn [firstn net fold_right]. fold (net (firstn k effects)). lia.
Qed.

End MaxStack.

(** X19. What [calc_max_stack] returns is the peak of the stack when the
    instructions run one after the other from an empty stack: no run of the
    first [k] instructions leaves more on the stack, and one of them (none
    of them, for a peak of 0) leaves exactly that much; so the result is
    never negative.  It returns only if the code decodes to the end and
    [dis.stack_effect] knows every instruction. *)
Theorem calc_max_stack_is_the_peak {rt : Runtime} (code : list Z) (max_stack : Z) :
  calc_max_stack code = Ok max_stack ->
  snd (unpack_opargs code) = None /\
  exists effects,
    Forall2 (fun i d => effect_of i = Ok d) (fst (unpack_opargs code)) effects /\
    (forall k : nat, net (firstn k effects) <= max_stack) /\
    (exists k : nat, net (firstn k effects) = max_stack).
Proof.
  rewrite calc_max_stack_eq. intros H. inv_bind H. injection H as <-.
  unfold for_generated in E. inv_bind E. destruct a0 as [m s].
  destruct (snd (unpack_opargs code)) as [e |]; [discriminate |].
  injection E as <-. split; [reflexivity |].
  destruct (max_stack_fold _ _ _ _ _ E0) as (effects & Hall & _ & Hm & Hle & Hpeak).
  exists effects. split; [exact Hall |]. cbn [fst]. split.
  - intros k. destruct (Nat.le_gt_cases k (List.length effects)) as [Hk | Hk].
    + destruct k as [| k]; [cbn [firstn net fold_right]; lia |].
      specialize (Hle (S k) ltac:(lia)). lia.
    + rewrite firstn_all2 by lia.
      destruct effects as [| d effects]; [cbn [net fold_right]; lia |].
      specialize (Hle (List.length (d :: effects)) ltac:(cbn [List.length]; lia)).
      rewrite firstn_all in Hle. lia.
  - destruct Hpeak as [-> | (k & _ & Hk)]; [exists 0%nat; reflexivity |].
    exists k. lia.
Qed.

Lemma calc_max_stack_is_the_peak_witness :
  calc_max_stack (rt := Sample.py39) [100; 0; 100; 0; 131; 1; 1; 0] = Ok 2 /\
  exists effects,
    Forall2 (fun i d => effect_of (rt := Sample.py39) i = Ok d)
            [(0, 2, 100, 0); (2, 2, 100, 0); (4, 2, 131, 1); (6, 2, 1, 0)] effects /\
    net (firstn 2 effects) <= 2.
Proof.
  assert (calc_max_stack (rt := Sample.py39) [100; 0; 100; 0; 131; 1; 1; 0] = Ok 2)
    as H by reflexivity.
  split; [exact H |].
  destruct (calc_max_stack_is_the_peak (rt := Sample.py39) _ _ H)
    as (_ & effects & Hall & Hle & _).
  exists effects. split; [exact Hall | apply Hle].
Defined.

(** ** The line number table of Python 3.10 *)

(** In the table of 3.10 the line increment -128 marks a range that has no
    line, and adds nothing to the line number. *)
Definition line_delta (b : Z) : Z := if b =? 128 then 0 else signed_byte b.

Fixpoint line_deltas (table : list Z) : Z :=
  match table with
  | _ :: b :: rest => line_delta b + line_deltas rest
  | _ => 0
  end.

(** Lines in the order of the code, from [prev] on. *)
Fixpoint in_sequence (prev : Z) (ls : list LineEntry.t) : Prop :=
  match ls with
  | [] => True
  | l :: ls =>
      prev <= LineEntry.start l <= LineEntry.end_ l /\ in_sequence (LineEntry.end_ l) ls
  end.

(** The entries [(254, -128)] that [make_linetable] writes for a gap, before
    the entry for what is left of the gap. *)
Definition long_gap_entries (gap : Z) : Z := if gap <=? 254 then 0 else (gap - 1) / 254.

Fixpoint long_gaps (prev : Z) (ls : list LineEntry.t) : Z :=
  match ls with
  | [] => 0
  | l :: ls => long_gap_entries (LineEntry.start l - prev) + long_gaps (LineEntry.end_ l) ls
  end.

Section Linetable.

Lemma pairs_append_deltas (t : list Z) (a b : Z) :
  Nat.even (List.length t) = true ->
  line_deltas (t ++ [a; b]) = line_deltas t + line_delta b.
Proof.
  revert t. apply pair_induction.
  - cbn. lia.
  - intros x y t IH.
    change ((x :: y :: t) ++ [a; b]) with (x :: y :: (t ++ [a; b])).
    cbn [line_deltas]. rewrite IH. lia.
Qed.

(** The state of the loops over one line: the table is made of pairs of
    bytes, and [o] and [n] are what the increments written and those still
    to write add up to. *)
Definition linetable_inv (o n : Z) (t : list Z) (d x : Z) : Prop :=
  Nat.even (List.length t) = true /\
  forallb is_byte t = true /\
  offset_increments t + d = o /\
  line_deltas t + x = n.

Lemma linetable_inv_append (o n : Z) (t : list Z) (d x a b : Z) :
  linetable_inv o n t d x -> is_byte a = true -> is_byte b = true ->
  linetable_inv o n (t ++ [a; b]) (d - a) (x - line_delta b).
Proof.
  unfold linetable_inv. intros (He & Hb & Ho & Hn) Ha Hb'.
  destruct (pairs_append t a b He) as (He' & Ho' & _).
  rewrite He', Ho', (pairs_append_deltas t a b He), forallb_app, Hb.
  cbn [forallb]. rewrite Ha, Hb'. repeat split; lia.
Qed.

Lemma line_delta_land (x : Z) :
  -127 <= x <= 127 ->
  is_byte (Z.land x 255) = true /\ line_delta (Z.land x 255) = x.
Proof.
  intros Hx. destruct (signed_byte_land x ltac:(lia)) as [Hb Hs].
  split; [exact Hb |]. unfold line_delta.
  destruct (Z.eqb_spec (Z.land x 255) 128) as [E | _]; [| exact Hs].
  rewrite E in Hs. cbn in Hs. lia.
Qed.

Lemma linetable_long_gap_spec (o n : Z) (t : list Z) (gap x : Z) :
  linetable_inv o n t gap x -> 0 < gap ->
  exists t' gap',
    LineEntry.linetable_long_gap (t, gap) = (t', gap') /\
    linetable_inv o n t' gap' x /\ 0 < gap' <= 254 /\
    gap = gap' + 254 * long_gap_entries gap.
Proof.
  intros Hinv Hgap. unfold LineEntry.linetable_long_gap.
  match goal with
  | |- context [while ?c ?b ?w ?p _] =>
      destruct (while_invariant c b w p
                  (fun s => linetable_inv o n (fst s) (snd s) x /\ 0 < snd s /\
                            exists k, 0 <= k /\ gap = snd s + 254 * k))
        with (s := (t, gap)) as [(H1 & H2 & k & Hk & H3) Hexit]
  end.
  - intros [t1 g1] (H1 & H2 & k & Hk & H3) Hcond. apply gtb_gt in Hcond.
    cbn [fst snd] in *. split; [| split; [lia | exists (k + 1); lia]].
    change (Z.land (-128) 255) with 128.
    pose proof (linetable_inv_append _ _ _ _ _ 254 128 H1 eq_refl eq_refl) as H.
    change (line_delta 128) with 0 in H. now rewrite Z.sub_0_r in H.
  - cbn [fst snd]. split; [exact Hinv |]. split; [exact Hgap |]. exists 0. lia.
  - destruct (while _ _ _ _ (t, gap)) as [t' gap']. cbn [fst snd] in *.
    exists t', gap'. split; [reflexivity |]. split; [exact H1 |].
    destruct (Z.gtb_spec gap' 254); [discriminate |]. split; [lia |].
    unfold long_gap_entries. destruct (Z.leb_spec gap 254).
    + assert (k = 0) by nia. lia.
    + assert ((gap - 1) / 254 = k) as ->; [| lia].
      symmetry. apply (Z.div_unique _ _ _ (gap' - 1)); lia.
Qed.

Lemma linetable_long_forward_spec (o n : Z) (t : list Z) (d x : Z) :
  linetable_inv o n t d x ->
  exists t' x',
    LineEntry.linetable_long_forward (t, x) = (t', x') /\
    linetable_inv o n t' d x' /\ x' <= 127.
Proof.
  intros Hinv. unfold LineEntry.linetable_long_forward.
  match goal with
  | |- context [while ?c ?b ?w ?p _] =>
      destruct (while_invariant c b w p
                  (fun s => linetable_inv o n (fst s) d (snd s)))
        with (s := (t, x)) as [H1 Hexit]
  end.
  - intros [t1 x1] H1 Hcond. cbn [fst snd] in *.
    pose proof (linetable_inv_append _ _ _ _ _ 0 127 H1 eq_refl eq_refl) as H.
    change (line_delta 127) with 127 in H. now rewrite Z.sub_0_r in H.
  - exact Hinv.
  - destruct (while _ _ _ _ (t, x)) as [t' x']. cbn [fst snd] in *.
    exists t', x'. split; [reflexivity |]. split; [exact H1 |].
    destruct (Z.gtb_spec x' 127); [discriminate | lia].
Qed.

Lemma linetable_long_backward_spec (o n : Z) (t : list Z) (d x : Z) :
  linetable_inv o n t d x -> x <= 127 ->
  exists t' x',
    LineEntry.linetable_long_backward (t, x) = (t', x') /\
    linetable_inv o n t' d x' /\ -127 <= x' <= 127.
Proof.
  intros Hinv Hx. unfold LineEntry.linetable_long_backward.
  match goal with
  | |- context [while ?c ?b ?w ?p _] =>
      destruct (while_invariant c b w p
                  (fun s => linetable_inv o n (fst s) d (snd s) /\ snd s <= 127))
        with (s := (t, x)) as [[H1 H2] Hexit]
  end.
  - intros [t1 x1] [H1 H2] Hcond. apply Z.ltb_lt in Hcond. cbn [fst snd] in *.
    split; [| lia].
    change (Z.land (-127) 255) with 129.
    pose proof (linetable_inv_append _ _ _ _ _ 0 129 H1 eq_refl eq_refl) as H.
    change (line_delta 129) with (-127) in H. rewrite Z.sub_0_r in H.
    now replace (x1 - -127) with (x1 + 127) in H by lia.
  - split; [exact Hinv | exact Hx].
  - destruct (while _ _ _ _ (t, x)) as [t' x']. cbn [fst snd] in *.
    exists t', x'. split; [reflexivity |]. split; [exact H1 |].
    destruct (Z.ltb_spec x' (-127)); [discriminate | lia].
Qed.

Lemma linetable_long_end_spec (o n : Z) (t : list Z) (d x : Z) :
  linetable_inv o n t d x -> -127 <= x <= 127 -> 0 <= d ->
  exists t' x' d',
    LineEntry.linetable_long_end (t, x, d) = (t', x', d') /\
    linetable_inv o n t' d' x' /\ -127 <= x' <= 127 /\ 0 <= d' <= 254.
Proof.
  intros Hinv Hx Hd. unfold LineEntry.linetable_long_end.
  match goal with
  | |- context [while ?c ?b ?w ?p _] =>
      destruct (while_invariant c b w p
                  (fun s => linetable_inv o n (fst (fst s)) (snd s) (snd (fst s)) /\
                            -127 <= snd (fst s) <= 127 /\ 0 <= snd s))
        with (s := (t, x, d)) as [(H1 & H2 & H3) Hexit]
  end.
  - intros [[t1 x1] d1] (H1 & H2 & H3) Hcond. apply gtb_gt in Hcond.
    cbn [fst snd] in *. split; [| lia].
    destruct (line_delta_land x1 H2) as [Hb Hl].
    pose proof (linetable_inv_append _ _ _ _ _ 254 _ H1 eq_refl Hb) as H.
    now rewrite Hl, Z.sub_diag in H.
  - cbn [fst snd]. split; [exact Hinv |]. split; [exact Hx | exact Hd].
  - destruct (while _ _ _ _ (t, x, d)) as [[t' x'] d']. cbn [fst snd] in *.
    exists t', x', d'. split; [reflexivity |]. split; [exact H1 |].
    destruct (Z.gtb_spec d' 254); [discriminate | lia].
Qed.

Lemma is_byte_range (b : Z) : 0 <= b <= 255 -> is_byte b = true.
Proof.
  intros Hb. unfold is_byte.
  destruct (Z.leb_spec 0 b); [| lia]. destruct (Z.ltb_spec b 256); [reflexivity | lia].
Qed.

(** The loop body from [delta_end = ...] on, for a line with a number. *)
Lemma linetable_entry_spec (t : list Z) (prev_end prev_number : Z) (l : LineEntry.t)
  (number : Z) :
  LineEntry.number l = Some number ->
  Nat.even (List.length t) = true -> forallb is_byte t = true ->
  prev_end <= LineEntry.end_ l ->
  exists t',
    LineEntry.linetable_entry t prev_end prev_number l
    = Ok (t', LineEntry.end_ l, number) /\
    Nat.even (List.length t') = true /\ forallb is_byte t' = true /\
    offset_increments t' = offset_increments t + (LineEntry.end_ l - prev_end) /\
    line_deltas t' = line_deltas t + (number - prev_number).
Proof.
  intros Hnum He Hb Hle. unfold LineEntry.linetable_entry. rewrite Hnum. cbv zeta.
  assert (linetable_inv (offset_increments t + (LineEntry.end_ l - prev_end))
            (line_deltas t + (number - prev_number))
            t (LineEntry.end_ l - prev_end) (number - prev_number)) as Hinv.
  { repeat split; assumption. }
  destruct (linetable_long_forward_spec _ _ _ _ _ Hinv) as (t1 & x1 & -> & Hinv1 & Hx1).
  destruct (linetable_long_backward_spec _ _ _ _ _ Hinv1 Hx1)
    as (t2 & x2 & -> & Hinv2 & Hx2).
  destruct (linetable_long_end_spec _ _ _ _ _ Hinv2 Hx2 ltac:(lia))
    as (t3 & x3 & d3 & -> & Hinv3 & Hx3 & Hd3).
  destruct (line_delta_land x3 Hx3) as [Hb3 Hl3].
  pose proof (linetable_inv_append _ _ _ _ _ _ _ Hinv3
                (is_byte_range d3 ltac:(lia)) Hb3) as (H1 & H2 & H3 & H4).
  eexists. split; [reflexivity |].
  split; [exact H1 |]. split; [exact H2 |]. split; lia.
Qed.

(** The body of the loop over the lines. *)
Definition linetable_step : list Z * Z * Z -> LineEntry.t -> result (list Z * Z * Z) :=
  fun '(linetable, prev_end, prev_number) l =>
    let gap :=
      match LineEntry.number l with
      | Some _ => LineEntry.start l - prev_end
      | None => LineEntry.end_ l - prev_end
      end in
    if truthy gap then
      let '(linetable, gap) := LineEntry.linetable_long_gap (linetable, gap) in
      let linetable := linetable ++ [gap; Z.land (-128) 255] in
      let prev_end := prev_end + gap in
      match LineEntry.number l with
      | None => Ok (linetable, prev_end, prev_number)
      | Some _ => LineEntry.linetable_entry linetable prev_end prev_number l
      end
    else LineEntry.linetable_entry linetable prev_end prev_number l.

Lemma make_linetable_eq (firstlineno : Z) (lines : list LineEntry.t) :
  LineEntry.make_linetable firstlineno lines
  = (st <- for_each linetable_step lines ([], 0, firstlineno) ;;
     as_bytes (fst (fst st))).
Proof.
  unfold LineEntry.make_linetable.
  change (for_each _ lines ([], 0, firstlineno))
    with (for_each linetable_step lines ([], 0, firstlineno)).
  destruct (for_each linetable_step lines ([], 0, firstlineno)) as [[[t s] n] | e];
    reflexivity.
Qed.

Lemma linetable_step_spec (t : list Z) (prev_end prev_number : Z) (l : LineEntry.t)
  (number : Z) :
  LineEntry.number l = Some number ->
  Nat.even (List.length t) = true -> forallb is_byte t = true ->
  prev_end <= LineEntry.start l <= LineEntry.end_ l ->
  exists t',
    linetable_step (t, prev_end, prev_number) l = Ok (t', LineEntry.end_ l, number) /\
    Nat.even (List.length t') = true /\ forallb is_byte t' = true /\
    offset_increments t'
    = offset_increments t + (LineEntry.end_ l - prev_end)
      + 254 * long_gap_entries (LineEntry.start l - prev_end) /\
    line_deltas t' = line_deltas t + (number - prev_number).
Proof.
  intros Hnum He Hb Hord. unfold linetable_step. cbv beta iota zeta. rewrite Hnum.
  unfold truthy. destruct (Z.eqb_spec (LineEntry.start l - prev_end) 0) as [E | Hne];
    cbn [negb].
  - destruct (linetable_entry_spec t prev_end prev_number l number Hnum He Hb
                ltac:(lia)) as (t' & -> & H1 & H2 & H3 & H4).
    exists t'. split; [reflexivity |]. rewrite E. change (long_gap_entries 0) with 0.
    repeat split; try assumption. lia.
  - assert (linetable_inv (offset_increments t + (LineEntry.start l - prev_end))
              (line_deltas t) t (LineEntry.start l - prev_end) 0) as Hinv.
    { repeat split; try assumption. lia. }
    destruct (linetable_long_gap_spec _ _ _ _ _ Hinv ltac:(lia))
      as (t1 & g1 & -> & Hinv1 & Hg1 & Hk).
    change (Z.land (-128) 255) with 128.
    pose proof (linetable_inv_append _ _ _ _ _ _ 128 Hinv1
                  (is_byte_range g1 ltac:(lia)) eq_refl) as (H1 & H2 & H3 & H4).
    change (line_delta 128) with 0 in H4.
    destruct (linetable_entry_spec (t1 ++ [g1; 128]) (prev_end + g1) prev_number l
                number Hnum H1 H2) as (t' & -> & G1 & G2 & G3 & G4).
    { assert (0 <= long_gap_entries (LineEntry.start l - prev_end)); [| lia].
      unfold long_gap_entries. destruct (Z.leb_spec (LineEntry.start l - prev_end) 254);
        [lia | apply Z.div_pos; lia]. }
    exists t'. split; [reflexivity |]. split; [exact G1 |]. split; [exact G2 |].
    split; lia.
Qed.

Lemma linetable_fold_spec (lines : list LineEntry.t) :
  forall t prev_end prev_number,
    Forall (fun l => LineEntry.number l <> None) lines ->
    in_sequence prev_end lines ->
    Nat.even (List.length t) = true -> forallb is_byte t = true ->
    exists t',
      for_each linetable_step lines (t, prev_end, prev_number)
      = Ok (t', last (map LineEntry.end_ lines) prev_end,
            last (map (number_or 0) lines) prev_number) /\
      forallb is_byte t' = true /\
      offset_increments t'
      = offset_increments t + (last (map LineEntry.end_ lines) prev_end - prev_end)
        + 254 * long_gaps prev_end lines /\
      line_deltas t'
      = line_deltas t + (last (map (number_or 0) lines) prev_number - prev_number).
Proof.
  induction lines as [| l lines IH]; intros t prev_end prev_number Hall Hord He Hb.
  - exists t. cbn. repeat split; try assumption; lia.
  - apply Forall_cons_iff in Hall. destruct Hall as [Hl Hall]. destruct Hord as [Hl' Hord].
    destruct (LineEntry.number l) as [number |] eqn:Hnum; [| contradiction].
    destruct (linetable_step_spec t prev_end prev_number l number Hnum He Hb Hl')
      as (t1 & Hstep & He1 & Hb1 & Ho1 & Hn1).
    destruct (IH t1 (LineEntry.end_ l) number Hall Hord He1 Hb1)
      as (t2 & Hfold & Hb2 & Ho2 & Hn2).
    exists t2. cbn [for_each map long_gaps]. rewrite Hstep. cbn [bind].
    assert (number_or 0 l = number) as Hno by (unfold number_or; now rewrite Hnum).
    rewrite !last_cons, Hno.
    split; [exact Hfold |]. split; [exact Hb2 |]. split; lia.
Qed.

Lemma long_gaps_none (lines : list LineEntry.t) :
  forall prev,
    in_sequence prev lines ->
    (long_gaps prev lines = 0 <->
     forall before l after,
       lines = before ++ l :: after ->
       LineEntry.start l - last (map LineEntry.end_ before) prev <= 254).
Proof.
  assert (forall g, 0 <= long_gap_entries g /\ (long_gap_entries g = 0 <-> g <= 254))
    as Hentries.
  { intros g. unfold long_gap_entries. destruct (Z.leb_spec g 254) as [Hle | Hgt].
    - split; [lia |]. split; intros; [exact Hle | reflexivity].
    - assert (1 <= (g - 1) / 254) by (apply Z.div_le_lower_bound; lia).
      split; [lia |]. split; intros; lia. }
  assert (forall ls prev, 0 <= long_gaps prev ls) as Hnonneg.
  { induction ls as [| l ls IH]; intros prev; cbn [long_gaps]; [lia |].
    specialize (IH (LineEntry.end_ l)).
    pose proof (proj1 (Hentries (LineEntry.start l - prev))). lia. }
  induction lines as [| l lines IH]; intros prev Hord.
  - split; [| reflexivity]. intros _ [| x before] l after H; discriminate.
  - destruct Hord as [_ Hord]. specialize (IH (LineEntry.end_ l) Hord).
    cbn [long_gaps].
    pose proof (Hentries (LineEntry.start l - prev)) as [Hg0 Hg].
    pose proof (Hnonneg lines (LineEntry.end_ l)) as Hrest. split.
    + intros Hsum [| x before] l' after Heq.
      * injection Heq as <- <-. cbn [map last]. apply Hg. lia.
      * injection Heq as <- ->. cbn [map]. rewrite last_cons.
        apply (proj1 IH ltac:(lia) before l' after eq_refl).
    + intros Hgaps.
      assert (long_gap_entries (LineEntry.start l - prev) = 0) as ->.
      { apply Hg. exact (Hgaps [] l lines eq_refl). }
      apply IH. intros before l' after ->.
      specialize (Hgaps (l :: before) l' after eq_refl).
      cbn [map] in Hgaps. rewrite last_cons in Hgaps. exact Hgaps.
Qed.

End Linetable.

(** X20. [make_linetable] on lines that all have a number and come in the
    order of the code ([prev_end <= start <= end]) returns a table whose
    line increments add up to the number of the last line less
    [firstlineno].  Its offset increments add up to the end of the last
    line and 254 more for every entry [(254, -128)] written for a gap
    between two lines: the gap is cut into entries of at most 254 bytes, but
    [prev_end] moves on by the last of them only.  So the increments add up
    to the end of the last line exactly when no line starts more than 254
    bytes after the end of the line before it. *)
Theorem make_linetable_increments_add_up (firstlineno : Z) (lines : list LineEntry.t) :
  Forall (fun l => LineEntry.number l <> None) lines ->
  in_sequence 0 lines ->
  exists table,
    LineEntry.make_linetable firstlineno lines = Ok table /\
    firstlineno + line_deltas table = last (map (number_or 0) lines) firstlineno /\
    offset_increments table
    = last (map LineEntry.end_ lines) 0 + 254 * long_gaps 0 lines /\
    (offset_increments table = last (map LineEntry.end_ lines) 0 <->
     forall before l after,
       lines = before ++ l :: after ->
       LineEntry.start l - last (map LineEntry.end_ before) 0 <= 254).
Proof.
  intros Hall Hord. rewrite make_linetable_eq.
  destruct (linetable_fold_spec lines [] 0 firstlineno Hall Hord eq_refl eq_refl)
    as (t & -> & Hb & Ho & Hn).
  cbn [bind fst]. unfold as_bytes. rewrite Hb.
  exists t. split; [reflexivity |]. cbn [offset_increments line_deltas] in Ho, Hn.
  split; [lia |]. split; [lia |].
  rewrite <- (long_gaps_none lines 0 Hord). lia.
Qed.

Lemma make_linetable_increments_add_up_witness :
  let lines := [LineEntry.mk 0 4 (Some 1); LineEntry.mk 304 310 (Some 2)] in
  LineEntry.make_linetable 1 lines = Ok [4; 0; 254; 128; 46; 128; 254; 1; 6; 0] /\
  offset_increments [4; 0; 254; 128; 46; 128; 254; 1; 6; 0] = 310 + 254 /\
  1 + line_deltas [4; 0; 254; 128; 46; 128; 254; 1; 6; 0] = 2.
Proof.
  intros lines.
  destruct (make_linetable_increments_add_up 1 lines) as (table & Htable & Hn & Ho & _).
  { repeat constructor; discriminate. }
  { cbn. repeat split; lia. }
  assert (table = [4; 0; 254; 128; 46; 128; 254; 1; 6; 0]) as ->
      by (vm_compute in Htable; now injection Htable as <-).
  split; [reflexivity |]. split; [exact Ho | exact Hn].
Defined.

(** ** Writing the branches *)

(** Two branches that do not overlap. *)
Definition apart (b c : Branch.t) : Prop :=
  Branch.offset b + Branch.length b <= Branch.offset c \/
  Branch.offset c + Branch.length c <= Branch.offset b.

Section Emitting.
Context {rt : Runtime}.

(** What [l[k:k+n] = repl] leaves where, for a slice within [l] and as many
    new items as there were. *)
Lemma setslice_replace_items {A : Type} (l repl : list A) (k n : Z) :
  0 <= k -> 0 <= n -> k + n <= len l -> len repl = n ->
  len (setslice l k (k + n) repl) = len l /\
  (forall i, 0 <= i < k -> getitem (setslice l k (k + n) repl) i = getitem l i) /\
  (forall i, k + n <= i -> getitem (setslice l k (k + n) repl) i = getitem l i) /\
  (forall j, 0 <= j < n -> getitem (setslice l k (k + n) repl) (k + j) = getitem repl j).
Proof.
  intros Hk Hn Hin Hrepl. unfold setslice. cbn zeta.
  assert (slice_index l k = k) as ->.
  { unfold slice_index. destruct (Z.ltb_spec k 0); lia. }
  assert (slice_index l (k + n) = k + n) as ->.
  { unfold slice_index. destruct (Z.ltb_spec (k + n) 0); lia. }
  rewrite Z.max_r by lia.
  pose proof (len_firstn l k ltac:(lia)) as Hf.
  pose proof (firstn_skipn (Z.to_nat k) l) as Hk'.
  pose proof (firstn_skipn (Z.to_nat (k + n)) l) as Hkn.
  pose proof (len_firstn l (k + n) ltac:(lia)) as Hfn.
  assert (len (skipn (Z.to_nat (k + n)) l) = len l - (k + n)) as Hs.
  { pose proof (f_equal len Hkn) as H. rewrite len_app in H. lia. }
  split; [rewrite !len_app; lia |]. split; [| split].
  - intros i Hi. rewrite getitem_app_l by lia.
    transitivity (getitem (firstn (Z.to_nat k) l ++ skipn (Z.to_nat k) l) i).
    + rewrite getitem_app_l by lia. reflexivity.
    + now rewrite Hk'.
  - intros i Hi.
    replace i with (len (firstn (Z.to_nat k) l) + (len repl + (i - (k + n)))) at 1 by lia.
    rewrite getitem_app_r by lia. rewrite getitem_app_r by lia.
    transitivity (getitem (firstn (Z.to_nat (k + n)) l ++ skipn (Z.to_nat (k + n)) l)
                          (len (firstn (Z.to_nat (k + n)) l) + (i - (k + n)))).
    + rewrite getitem_app_r by lia. reflexivity.
    + rewrite Hkn. f_equal. lia.
  - intros j Hj.
    replace (k + j) with (len (firstn (Z.to_nat k) l) + j) by lia.
    rewrite getitem_app_r by lia. apply getitem_app_l. lia.
Qed.

(** A branch is emitted at its own length, when that is even and its opcode
    has no cache entries. *)
Lemma branch_code_len (b : Branch.t) (c : list Z) :
  Branch.code b = Ok c ->
  2 <= Branch.length b -> Branch.length b mod 2 = 0 ->
  (version_ge PYTHON_VERSION (3, 11) = true ->
   getitem (_inline_cache_entries dis) (Branch.opcode b) = Ok 0) ->
  len c = Branch.length b.
Proof.
  unfold Branch.code. intros H Hlen Heven Hcache.
  inv_bind H. destruct (Z.geb_spec (Branch.length b) (2 + 2 * arg_ext_needed a))
    as [Hge | ?]; [| discriminate].
  cbn [bind] in H. inv_bind H. rewrite E in E0. injection E0 as <-.
  destruct (opcode_arg_Ok _ _ _ _ H) as (_ & m & Hold & Hnew & ->).
  assert (m = 0%nat) as ->.
  { destruct (version_ge PYTHON_VERSION (3, 11)) eqn:Hv; [| now apply Hold].
    destruct (Hnew eq_refl) as (n & Hn & ->). rewrite (Hcache eq_refl) in Hn.
    now injection Hn as <-. }
  rewrite len_app, len_ext_words. cbn [repeat List.concat].
  change (len [Branch.opcode b; Z.land a 255]) with 2.
  assert (arg_ext_needed a <= (Branch.length b - 2) / 2) as Hext
      by (apply Z.div_le_lower_bound; lia).
  rewrite Z.max_r by exact Hext.
  assert (0 <= (Branch.length b - 2) / 2) by (apply Z.div_pos; lia).
  rewrite Z2Nat.id by assumption.
  pose proof (Z.div_mod (Branch.length b - 2) 2 ltac:(lia)) as Hdm.
  assert ((Branch.length b - 2) mod 2 = 0) as Hm.
  { replace (Branch.length b - 2) with (Branch.length b + (-1) * 2) by lia.
    rewrite Z.mod_add by lia. exact Heven. }
  lia.
Qed.

(** What [finish] asks of a branch it writes into [patch]. *)
Definition fits (patch : list Z) (b : Branch.t) : Prop :=
  0 <= Branch.offset b /\
  Branch.offset b + Branch.length b <= len patch /\
  2 <= Branch.length b /\ Branch.length b mod 2 = 0 /\
  (version_ge PYTHON_VERSION (3, 11) = true ->
   getitem (_inline_cache_entries dis) (Branch.opcode b) = Ok 0).

Definition emit_branch (patch : list Z) (b : Branch.t) : result (list Z) :=
  op <- getitem patch (Branch.offset b + Branch.length b - 2) ;;
  assert (op =? Branch.opcode b) ;;
  c <- Branch.code b ;;
  c <- as_bytes c ;;
  Ok (setslice patch (Branch.offset b) (Branch.offset b + Branch.length b) c).

Lemma emit_branch_Ok (patch patch' : list Z) (b : Branch.t) :
  emit_branch patch b = Ok patch' -> fits patch b ->
  exists c,
    Branch.code b = Ok c /\ forallb is_byte c = true /\
    getitem patch (Branch.offset b + Branch.length b - 2) = Ok (Branch.opcode b) /\
    len patch' = len patch /\
    (forall i, 0 <= i -> i < Branch.offset b \/ Branch.offset b + Branch.length b <= i ->
       getitem patch' i = getitem patch i) /\
    (forall j, 0 <= j < Branch.length b ->
       getitem patch' (Branch.offset b + j) = getitem c j).
Proof.
  unfold emit_branch. intros H (Hoff & Hin & Hlen & Heven & Hcache).
  inv_bind H. destruct (Z.eqb_spec a (Branch.opcode b)) as [-> | ?]; [| discriminate].
  cbn [bind] in H. inv_bind H. inv_bind H. injection H as <-.
  unfold as_bytes in E1. destruct (forallb is_byte a) eqn:Hbytes; [| discriminate].
  injection E1 as <-.
  pose proof (branch_code_len b a E0 Hlen Heven Hcache) as Hc.
  destruct (setslice_replace_items patch a (Branch.offset b) (Branch.length b)
              Hoff ltac:(lia) Hin Hc) as (H1 & H2 & H3 & H4).
  exists a. repeat split; try assumption.
  intros i Hi [Hlt | Hge]; [apply H2 | apply H3]; lia.
Qed.

Lemma fits_same_len (patch patch' : list Z) (b : Branch.t) :
  len patch' = len patch -> fits patch b -> fits patch' b.
Proof. unfold fits. intros ->. tauto. Qed.

Lemma emit_branches_frame (bs : list Branch.t) :
  forall patch patched,
    for_each emit_branch bs patch = Ok patched ->
    Forall (fits patch) bs ->
    len patched = len patch /\
    (forall i, 0 <= i ->
       Forall (fun b => i < Branch.offset b \/
                        Branch.offset b + Branch.length b <= i) bs ->
       getitem patched i = getitem patch i).
Proof.
  induction bs as [| b bs IH]; intros patch patched H Hfits.
  - injection H as <-. split; reflexivity.
  - cbn [for_each] in H. inv_bind H.
    apply Forall_cons_iff in Hfits. destruct Hfits as [Hb Hfits].
    destruct (emit_branch_Ok _ _ _ E Hb) as (c & _ & _ & _ & Hlen & Hout & _).
    destruct (IH a patched H) as [Hlen' Hout'].
    { eapply Forall_impl; [| exact Hfits]. intros x. now apply fits_same_len. }
    split; [lia |]. intros i Hi Hall.
    apply Forall_cons_iff in Hall. destruct Hall as [Hib Hall].
    rewrite Hout' by assumption. now apply Hout.
Qed.

Lemma emit_branches_content (bs : list Branch.t) :
  forall patch patched,
    for_each emit_branch bs patch = Ok patched ->
    Forall (fits patch) bs ->
    ForallOrdPairs apart bs ->
    Forall (fun b =>
              exists c,
                Branch.code b = Ok c /\
                forall j, 0 <= j < Branch.length b ->
                  getitem patched (Branch.offset b + j) = getitem c j) bs.
Proof.
  induction bs as [| b bs IH]; intros patch patched H Hfits Hapart; [constructor |].
  cbn [for_each] in H. inv_bind H.
  apply Forall_cons_iff in Hfits. destruct Hfits as [Hb Hfits].
  inversion Hapart as [| ? ? Hhead Hrest]; subst.
  destruct (emit_branch_Ok _ _ _ E Hb) as (c & Hc & _ & _ & Hlen & _ & Hin).
  assert (Forall (fits a) bs) as Hfits'.
  { eapply Forall_impl; [| exact Hfits]. intros x. now apply fits_same_len. }
  constructor; [| now apply (IH a)].
  exists c. split; [exact Hc |]. intros j Hj.
  destruct (emit_branches_frame bs a patched H Hfits') as [_ Hout].
  rewrite Hout; [now apply Hin | destruct Hb; lia |].
  eapply Forall_impl; [| exact Hhead]. intros x [Hx | Hx]; cbn beta; lia.
Qed.

Lemma emit_branches_eq (self : Editor.t) :
  Editor.emit_branches self
  = for_each emit_branch (Editor.branches self) (Editor.patch self).
Proof. reflexivity. Qed.

End Emitting.

(** X21. The loop of [finish] that writes the branches, on branches that lie
    in the patch and have an even length (and, from 3.11 on, an opcode
    without cache entries): the patch keeps its length, and the bytes that
    lie in no branch.  When no two branches overlap, every branch is found in
    the patch as [Branch.code] emits it. *)
Theorem finish_writes_the_branches {rt : Runtime} (self : Editor.t) (patched : list Z) :
  Editor.emit_branches self = Ok patched ->
  Forall (fits (Editor.patch self)) (Editor.branches self) ->
  len patched = len (Editor.patch self) /\
  (forall i, 0 <= i ->
     Forall (fun b => i < Branch.offset b \/
                      Branch.offset b + Branch.length b <= i) (Editor.branches self) ->
     getitem patched i = getitem (Editor.patch self) i) /\
  (ForallOrdPairs apart (Editor.branches self) ->
   Forall (fun b =>
             exists c,
               Branch.code b = Ok c /\
               forall j, 0 <= j < Branch.length b ->
                 getitem patched (Branch.offset b + j) = getitem c j)
          (Editor.branches self)).
Proof.
  rewrite emit_branches_eq. intros H Hfits.
  destruct (emit_branches_frame _ _ _ H Hfits) as [Hlen Hout].
  split; [exact Hlen |]. split; [exact Hout |].
  intros Hapart. now apply (emit_branches_content _ _ _ H).
Qed.

Lemma finish_writes_the_branches_witness :
  exists patched,
    Editor.emit_branches (rt := Sample.py311) Sample.forward_branch_editor = Ok patched /\
    len patched = 20 /\
    getitem patched 0 = Ok 100 /\
    exists c,
      Branch.code (rt := Sample.py311) (Branch.mk 4 2 114 true false 16) = Ok c /\
      getitem patched (4 + 1) = getitem c 1.
Proof.
  destruct (Editor.emit_branches (rt := Sample.py311) Sample.forward_branch_editor)
    as [patched | e] eqn:E; [| vm_compute in E; discriminate].
  exists patched. split; [reflexivity |].
  destruct (finish_writes_the_branches (rt := Sample.py311) _ _ E)
    as (Hlen & Hout & Hin).
  { repeat constructor; vm_compute; congruence. }
  split; [exact Hlen |]. split.
  - rewrite Hout; [reflexivity | lia |].
    constructor; [left; cbn; lia | constructor].
  - specialize (Hin ltac:(repeat constructor)).
    apply Forall_cons_iff in Hin. destruct Hin as [(c & Hc & Hj) _].
    exists c. split; [exact Hc |]. apply Hj. cbn. lia.
Defined.

(** ** What replacing the loads of a global leaves in the patch *)

(** [l[a:b]] for [0 <= a]. *)
Definition between {A : Type} (l : list A) (a b : Z) : list A :=
  firstn (Z.to_nat (b - a)) (skipn (Z.to_nat a) l).

(** The patch with every instruction of [found] replaced by the sequence
    of [repls] that goes with it, from offset [pos] on. *)
Fixpoint spliced (orig : list Z) (pos : Z) (found : list oparg) (repls : list (list Z))
  : list Z :=
  match found, repls with
  | (off, n, _, _) :: found, repl :: repls =>
      between orig pos off ++ repl ++ spliced orig (off + n) found repls
  | _, _ => skipn (Z.to_nat pos) orig
  end.

(** Instructions one after the other, from [pos] on and up to [bound]. *)
Fixpoint chain (pos : Z) (found : list oparg) (bound : Z) : Prop :=
  match found with
  | [] => True
  | (off, n, _, _) :: found =>
      pos <= off /\ 0 <= n /\ off + n <= bound /\ chain (off + n) found bound
  end.

Section ReplacingLoads.
Context {rt : Runtime}.

(** Whether an instruction loads the global of index [name_index]. *)
Definition loads_global (name_index : Z) (i : oparg) : bool :=
  let '(_, _, op, op_arg) := i in
  (op =? op_LOAD_GLOBAL) &&
  (if version_ge PYTHON_VERSION (3, 11)
   then Z.shiftr op_arg 1 =? name_index else op_arg =? name_index).

(** The sequence that replaces a load. *)
Definition load_replacement (const_index : Z) (i : oparg) : result (list Z) :=
  let '(_, _, _, op_arg) := i in
  repl <- (if version_ge PYTHON_VERSION (3, 11) && truthy (Z.land op_arg 1)
           then c <- opcode_arg op_PUSH_NULL 0 0 ;; extend [] c
           else Ok []) ;;
  c <- opcode_arg op_LOAD_CONST const_index 0 ;;
  extend repl c.

Lemma collect_loads (name_index : Z) (l : list oparg) :
  forall acc out,
    for_each
      (fun found '(op_off, op_len, op, op_arg) =>
         if op =? op_LOAD_GLOBAL then
           if version_ge PYTHON_VERSION (3, 11) then
             if Z.shiftr op_arg 1 =? name_index
             then Ok (found ++ [(op_off, op_len, op, op_arg)]) else Ok found
           else
             if op_arg =? name_index
             then Ok (found ++ [(op_off, op_len, op, op_arg)]) else Ok found
         else Ok found)
      l acc = Ok out ->
    out = acc ++ filter (loads_global name_index) l.
Proof.
  induction l as [| [[[off n] op] op_arg] l IH]; intros acc out H.
  - injection H as <-. cbn. now rewrite app_nil_r.
  - cbn [for_each filter] in H |- *. unfold loads_global at 1.
    destruct (op =? op_LOAD_GLOBAL); cbn [andb].
    + destruct (version_ge PYTHON_VERSION (3, 11)).
      * destruct (Z.shiftr op_arg 1 =? name_index); cbn [bind] in H; apply IH in H;
          [rewrite <- app_assoc in H |]; exact H.
      * destruct (op_arg =? name_index); cbn [bind] in H; apply IH in H;
          [rewrite <- app_assoc in H |]; exact H.
    + cbn [bind] in H. apply IH in H. exact H.
Qed.

Lemma find_load_globals_Ok (self : Editor.t) (name_index : Z) (found : list oparg) :
  Editor.find_load_globals self name_index = Ok found ->
  snd (unpack_opargs (Editor.patch self)) = None /\
  found = filter (loads_global name_index) (fst (unpack_opargs (Editor.patch self))).
Proof.
  unfold Editor.find_load_globals, for_generated. intros H. inv_bind H.
  match type of H with
  | match ?x with _ => _ end = _ => destruct x eqn:Hs
  end; [discriminate H |].
  injection H as <-. split; [exact Hs |].
  apply collect_loads in E. exact E.
Qed.

Lemma chain_of_tiles (p : oparg -> bool) (code : list Z) (l : list oparg) :
  len code mod 2 = 0 ->
  forall start pos,
    pos <= start -> tiles start l -> Forall (decoded_from code) l ->
    chain pos (filter p l) (len code).
Proof.
  intros Heven. induction l as [| [[[off n] op] arg] l IH]; intros start pos Hpos Ht Hd;
    [exact I |].
  cbn [tiles] in Ht. destruct Ht as (-> & Hn & _ & Ht).
  apply Forall_cons_iff in Hd. destruct Hd as [(Hoff & Hin & _) Hd].
  cbn [filter]. destruct (p (start, n, op, arg)).
  - cbn [chain]. split; [lia |]. split; [lia |]. split; [now apply Hin |].
    apply (IH (start + n)); [lia | exact Ht | exact Hd].
  - apply (IH (start + n)); [lia | exact Ht | exact Hd].
Qed.

(** What [replace_load] does to the patch. *)
Lemma replace_load_patch (const_index : Z) (self self' : Editor.t) (delta delta' : Z)
  (off n op op_arg : Z) :
  Editor.replace_load const_index (self, delta) (off, n, op, op_arg) = Ok (self', delta') ->
  exists repl,
    load_replacement const_index (off, n, op, op_arg) = Ok repl /\
    Editor.patch self'
    = setslice (Editor.patch self) (off + delta) (off + delta + n) repl /\
    delta' = delta + (len repl - n).
Proof.
  unfold Editor.replace_load, load_replacement. intros H.
  inv_bind H. inv_bind H. inv_bind H. injection H as <- <-.
  exists a1. rewrite E. cbn [bind]. rewrite E0. cbn [bind]. split; [exact E1 |].
  split; [| reflexivity].
  destruct (truthy (len a1 - n)); reflexivity.
Qed.

Lemma len_skipn {A : Type} (l : list A) (k : Z) :
  0 <= k <= len l -> len (skipn (Z.to_nat k) l) = len l - k.
Proof. unfold len. intros Hk. rewrite length_skipn. lia. Qed.

Lemma replace_loads_patch (const_index : Z) (orig : list Z) (found : list oparg) :
  forall self delta self' delta' done pos,
    for_each (Editor.replace_load const_index) found (self, delta) = Ok (self', delta') ->
    Editor.patch self = done ++ skipn (Z.to_nat pos) orig ->
    len done = pos + delta -> 0 <= pos <= len orig ->
    chain pos found (len orig) ->
    exists repls,
      Forall2 (fun i repl => load_replacement const_index i = Ok repl) found repls /\
      Editor.patch self' = done ++ spliced orig pos found repls.
Proof.
  induction found as [| [[[off n] op] op_arg] found IH];
    intros self delta self' delta' done pos H Hpatch Hdone Hpos Hchain.
  - injection H as <- <-. exists []. split; [constructor | exact Hpatch].
  - cbn [for_each] in H. inv_bind H. destruct a as [self1 delta1].
    destruct (replace_load_patch _ _ _ _ _ _ _ _ _ E) as (repl & Hrepl & Hp1 & ->).
    destruct Hchain as (Hoff & Hn & Hin & Hchain).
    destruct (IH self1 (delta + (len repl - n)) self' delta'
                 (done ++ between orig pos off ++ repl) (off + n) H)
      as (repls & Hall & Hfinal).
    + rewrite Hp1, Hpatch. unfold setslice. cbn zeta.
      pose proof (len_skipn orig pos Hpos) as Hrest.
      assert (len (done ++ skipn (Z.to_nat pos) orig) = len orig + delta) as Hcur
          by (rewrite len_app; lia).
      assert (slice_index (done ++ skipn (Z.to_nat pos) orig) (off + delta)
              = off + delta) as ->.
      { unfold slice_index. pose proof (len_nonneg done).
        destruct (Z.ltb_spec (off + delta) 0); lia. }
      assert (slice_index (done ++ skipn (Z.to_nat pos) orig) (off + delta + n)
              = off + delta + n) as ->.
      { unfold slice_index. pose proof (len_nonneg done).
        destruct (Z.ltb_spec (off + delta + n) 0); lia. }
      rewrite Z.max_r by lia.
      replace (Z.to_nat (off + delta)) with (List.length done + Z.to_nat (off - pos))%nat
        by (unfold len in Hdone; lia).
      rewrite firstn_app_2.
      replace (Z.to_nat (off + delta + n))
        with (List.length done + Z.to_nat (off + n - pos))%nat
        by (unfold len in Hdone; lia).
      rewrite skipn_app. rewrite (@skipn_all2 _ _ done) by lia.
      replace (List.length done + Z.to_nat (off + n - pos) - List.length done)%nat
        with (Z.to_nat (off + n - pos)) by lia.
      rewrite skipn_skipn.
      replace (Z.to_nat (off + n - pos) + Z.to_nat pos)%nat with (Z.to_nat (off + n))
        by lia.
      unfold between. cbn [app]. rewrite <- !app_assoc. reflexivity.
    + rewrite !len_app. unfold between, len. rewrite length_firstn, length_skipn.
      unfold len in *. lia.
    + lia.
    + exact Hchain.
    + exists (repl :: repls). split; [constructor; assumption |].
      rewrite Hfinal. cbn [spliced]. rewrite <- !app_assoc. reflexivity.
Qed.

End ReplacingLoads.

(** X22. [replace_global_with_const] for a name of the code, on a patch of
    even length: the instructions replaced are the [LOAD_GLOBAL]
    instructions of the patch whose argument is the index of the name (its
    argument shifted right by one, on 3.11+); each is replaced where it
    stands by [LOAD_CONST const_index] (after a [PUSH_NULL] on 3.11+ when the
    low bit of its argument is set), and the bytes between them, before the
    first and after the last are kept in their order. *)
Theorem replace_global_with_const_splices {rt : Runtime}
  (self self' : Editor.t) (global_name : string) (const_index : Z) :
  Editor.replace_global_with_const self global_name const_index = Ok self' ->
  existsb (String.eqb global_name) (co_names (Editor.orig_code self)) = true ->
  len (Editor.patch self) mod 2 = 0 ->
  let found :=
    filter (loads_global (index global_name (co_names (Editor.orig_code self))))
           (fst (unpack_opargs (Editor.patch self))) in
  exists repls,
    Forall2 (fun i repl => load_replacement const_index i = Ok repl) found repls /\
    Editor.patch self' = spliced (Editor.patch self) 0 found repls.
Proof.
  intros H Hname Heven found. unfold Editor.replace_global_with_const in H.
  rewrite Hname in H. inv_bind H. inv_bind H. destruct a0 as [s d]. injection H as <-.
  destruct (find_load_globals_Ok _ _ _ E) as [_ Hfound]. fold found in Hfound. subst a.
  destruct (unpack_opargs_decoded (Editor.patch self)) as [Htiles Hdecoded].
  destruct (replace_loads_patch const_index (Editor.patch self) found
              self 0 s d [] 0 E0) as (repls & Hall & Hpatch).
  - reflexivity.
  - reflexivity.
  - pose proof (len_nonneg (Editor.patch self)). lia.
  - apply (chain_of_tiles _ _ _ Heven 0 0 (Z.le_refl 0) Htiles Hdecoded).
  - exists repls. split; [exact Hall | exact Hpatch].
Qed.

Lemma replace_global_with_const_splices_witness :
  let self :=
    @Editor.mk Sample.py39 Sample.forward_branch_code [0] [] [] []
               [116; 0; 100; 0; 116; 0; 83; 0] 0 false in
  exists self',
    Editor.replace_global_with_const (rt := Sample.py39) self "print" 5 = Ok self' /\
    Editor.patch self' = [100; 5; 100; 0; 100; 5; 83; 0].
Proof.
  intros self.
  destruct (Editor.replace_global_with_const (rt := Sample.py39) self "print" 5)
    as [self' | e] eqn:E; [| vm_compute in E; discriminate].
  exists self'. split; [reflexivity |].
  destruct (replace_global_with_const_splices (rt := Sample.py39) _ _ _ _ E
              eq_refl eq_refl) as (repls & Hall & Hpatch).
  assert (filter (loads_global (rt := Sample.py39)
                    (index "print" (co_names (Editor.orig_code self))))
                 (fst (unpack_opargs (rt := Sample.py39) (Editor.patch self)))
          = [(0, 2, 116, 0); (4, 2, 116, 0)]) as Hfound by (vm_compute; reflexivity).
  rewrite Hfound in Hall, Hpatch.
  inversion Hall as [| i1 r1 f1 rs1 H1 Hrest1]; subst.
  inversion Hrest1 as [| i2 r2 f2 rs2 H2 Hrest2]; subst.
  inversion Hrest2; subst.
  vm_compute in H1. injection H1 as <-.
  vm_compute in H2. injection H2 as <-.
  rewrite Hpatch. reflexivity.
Defined.

(** ** When decoding fails *)

Section DecodingFails.
Context {rt : Runtime}.

Lemma getitem_in_range {A : Type} (l : list A) (i : Z) :
  0 <= i < len l -> exists x, getitem l i = Ok x.
Proof.
  intros Hi. unfold getitem.
  assert ((i <? 0) = false) as Hn by (apply Z.ltb_ge; lia).
  rewrite !Hn.
  destruct (nth_error l (Z.to_nat i)) eqn:E; [eauto |].
  apply nth_error_None in E. unfold len in Hi. lia.
Qed.

Lemma getitem_raises {A : Type} (l : list A) (i : Z) (e : exn) :
  getitem l i = Raise e -> e = IndexError /\ (0 <= i -> len l <= i).
Proof.
  unfold getitem. intros H.
  assert (e = IndexError) as ->.
  { destruct (_ <? 0); [now injection H as <- |].
    destruct (nth_error _ _); [discriminate | now injection H as <-]. }
  split; [reflexivity |]. intros Hi.
  destruct (Z_lt_dec i (len l)) as [Hlt | ?]; [| lia].
  destruct (getitem_in_range l i ltac:(lia)) as [x Hx].
  unfold getitem in Hx. rewrite Hx in H. discriminate.
Qed.

Lemma skip_cache_total (code : list Z) (off : Z) :
  0 <= off -> exists off', skip_cache code off = Ok off'.
Proof.
  funelim (skip_cache code off); intros Hoff; eauto.
  - apply getitem_raises in Heq. destruct Heq as [_ Heq]. lia.
  - apply H. lia.
Qed.

Lemma unpack_loop_raises (code : list Z) (ext_arg next_off off : Z) :
  0 <= off -> off mod 2 = 0 ->
  (snd (unpack_loop code ext_arg next_off off) = None \/
   snd (unpack_loop code ext_arg next_off off) = Some IndexError) /\
  (len code mod 2 = 0 -> snd (unpack_loop code ext_arg next_off off) = None) /\
  (version_ge PYTHON_VERSION (3, 11) = false -> len code mod 2 = 1 -> off <= len code ->
   snd (unpack_loop code ext_arg next_off off) = Some IndexError).
Proof.
  funelim (unpack_loop code ext_arg next_off off); intros Hoff Heven; cbn [snd yield].
  - (* the end of the code *)
    split; [now left |]. split; [reflexivity |].
    intros _ Hodd Hle. assert (off = len code) as E by lia. rewrite E in Heven. lia.
  - (* the opcode cannot be read *)
    apply getitem_raises in Heq. destruct Heq as [_ Hlen]. lia.
  - (* the argument cannot be read *)
    apply getitem_raises in Heq. destruct Heq as [-> Hlen]. specialize (Hlen ltac:(lia)).
    split; [now right |]. split; [| reflexivity].
    intros Hcode. pose proof (even_below off (len code) Heven Hcode ltac:(lia)). lia.
  - (* an extension prefix *)
    destruct (getitem_Ok code (off + 1) b ltac:(lia) Heq0) as [Hin _].
    destruct H as (H1 & H2 & H3); [lia | now apply even_plus |].
    split; [exact H1 |]. split; [exact H2 |]. intros Hv Hodd _.
    apply H3; [assumption.. | lia].
  - (* an instruction *)
    destruct (getitem_Ok code (off + 1) b ltac:(lia) Heq0) as [Hin _].
    assert (off <= off' /\ off' mod 2 = 0 /\
            (version_ge PYTHON_VERSION (3, 11) = false -> off' = off))
      as (Hle & Heven' & Hold).
    { pose proof e as He. clear H0.
      destruct (version_ge PYTHON_VERSION (3, 11)).
      - apply skip_cache_Ok in He. destruct He as (? & ? & ?).
        split; [assumption |]. split; [| discriminate].
        replace off' with (off + (off' - off)) by lia. now apply even_plus.
      - injection He as <-. repeat split; auto with zarith. }
    destruct H as (H1 & H2 & H3); [lia | now apply even_plus |].
    split; [exact H1 |]. split; [exact H2 |]. intros Hv Hodd _.
    apply H3; [assumption.. |]. rewrite (Hold Hv). lia.
  - (* the cache words cannot be read *)
    exfalso.
    match goal with
    | He : (if version_ge _ _ then _ else _) = Raise _ |- _ =>
        destruct (version_ge PYTHON_VERSION (3, 11)); [| discriminate He];
        destruct (skip_cache_total code off Hoff) as [off' Hoff']; congruence
    end.
Qed.

Lemma unpack_opargs_fails (code : list Z) :
  (len code mod 2 = 0 -> snd (unpack_opargs code) = None) /\
  (snd (unpack_opargs code) = None \/ snd (unpack_opargs code) = Some IndexError).
Proof.
  destruct (unpack_loop_raises code 0 0 0 (Z.le_refl 0) eq_refl) as (H1 & H2 & _).
  split; [exact H2 | exact H1].
Qed.

End DecodingFails.

(** X23. [unpack_opargs] reads a code of even length to its end, and an
    [IndexError] (for the argument that is missing after the last byte) is
    the only exception that ever ends it; before 3.11, where no cache words
    are skipped, it ends with that [IndexError] exactly on a code of odd
    length. *)
Theorem unpack_opargs_fails_on_odd_length {rt : Runtime} (code : list Z) :
  (len code mod 2 = 0 -> snd (unpack_opargs code) = None) /\
  (snd (unpack_opargs code) = None \/ snd (unpack_opargs code) = Some IndexError) /\
  (version_ge PYTHON_VERSION (3, 11) = false ->
   (snd (unpack_opargs code) = Some IndexError <-> len code mod 2 = 1)).
Proof.
  destruct (unpack_loop_raises code 0 0 0 (Z.le_refl 0) eq_refl) as (H1 & H2 & H3).
  fold (unpack_opargs code) in H1, H2, H3.
  split; [exact H2 |]. split; [exact H1 |].
  intros Hv. split.
  - intros Hraise. pose proof (Z.mod_pos_bound (len code) 2 ltac:(lia)) as Hm.
    destruct (Z.eq_dec (len code mod 2) 0) as [Heven | ?]; [| lia].
    rewrite (H2 Heven) in Hraise. discriminate.
  - intros Hodd. apply (H3 Hv Hodd). apply len_nonneg.
Qed.

Lemma unpack_opargs_fails_on_odd_length_witness :
  snd (unpack_opargs (rt := Sample.py39) [100; 0; 83]) = Some IndexError /\
  snd (unpack_opargs (rt := Sample.py39) [100; 0; 83; 0]) = None.
Proof.
  destruct (unpack_opargs_fails_on_odd_length (rt := Sample.py39) [100; 0; 83])
    as (_ & _ & Hodd).
  destruct (unpack_opargs_fails_on_odd_length (rt := Sample.py39) [100; 0; 83; 0])
    as (Heven & _).
  split.
  - apply (Hodd eq_refl). reflexivity.
  - apply Heven. reflexivity.
Defined.

(** ** Building an editor *)

Section Building.
Context {rt : Runtime}.

Lemma unpack_loop_opcodes (code : list Z) (ext_arg next_off off : Z) :
  0 <= off ->
  Forall (fun i : oparg => In (snd (fst i)) code)
         (fst (unpack_loop code ext_arg next_off off)).
Proof.
  funelim (unpack_loop code ext_arg next_off off); intros Hoff; cbn [fst yield];
    try solve [constructor].
  - apply H. lia.
  - assert (off <= off') as Hle.
    { match goal with
      | He : (if version_ge _ _ then _ else _) = Ok _ |- _ =>
          pose proof He as He'
      end.
      destruct (version_ge PYTHON_VERSION (3, 11)) in He';
        [apply skip_cache_ge in He'; exact He' | injection He' as <-; lia]. }
    constructor; [| apply H; lia].
    cbn [fst snd]. now destruct (getitem_Ok code off op Hoff Heq1).
Qed.

Lemma branch_init_raises (offset length opcode a : Z) (e : exn) :
  Branch.init offset length opcode a = Raise e ->
  e = IndexError /\ (0 <= opcode -> len (opname dis) <= opcode).
Proof.
  unfold Branch.init. intros H.
  destruct (getitem (opname dis) opcode) as [name | e'] eqn:E; cbn [bind] in H;
    [discriminate |].
  injection H as <-. now apply getitem_raises.
Qed.

Definition collect_branch (branches : list Branch.t) (i : oparg)
  : result (list Branch.t) :=
  let '(off, length, op, arg) := i in
  if mem op (hasjrel dis ++ hasjabs dis) then
    b <- Branch.init off length op arg ;;
    Ok (branches ++ [b])
  else Ok branches.

Lemma from_code_eq (co_code : list Z) :
  Branch.from_code co_code = for_generated collect_branch (unpack_opargs co_code) [].
Proof. reflexivity. Qed.

Lemma collect_branches_raises (instrs : list oparg) :
  forall acc,
    (forall e, for_each collect_branch instrs acc = Raise e ->
       e = IndexError /\
       Exists (fun i : oparg => 0 <= snd (fst i) -> len (opname dis) <= snd (fst i))
              instrs).
Proof.
  induction instrs as [| [[[off n] op] arg] instrs IH]; intros acc e H;
    [discriminate |].
  cbn [for_each collect_branch] in H.
  destruct (mem op (hasjrel dis ++ hasjabs dis)).
  - destruct (Branch.init off n op arg) as [b | e'] eqn:E; cbn [bind] in H.
    + destruct (IH _ _ H) as [-> Hex]. split; [reflexivity | now right].
    + injection H as <-. apply branch_init_raises in E. destruct E as [-> E].
      split; [reflexivity |]. left. exact E.
  - cbn [bind] in H. destruct (IH _ _ H) as [-> Hex]. split; [reflexivity | now right].
Qed.

Lemma from_code_raises (co_code : list Z) (e : exn) :
  Branch.from_code co_code = Raise e ->
  e = IndexError /\
  (len co_code mod 2 = 0 -> Forall (fun b => is_byte b = true) co_code ->
   len (opname dis) < 256).
Proof.
  rewrite from_code_eq. unfold for_generated. intros H.
  destruct (unpack_opargs_fails co_code) as (Heven & Hcases).
  destruct (for_each collect_branch (fst (unpack_opargs co_code)) []) as [bs | e'] eqn:E;
    cbn [bind] in H.
  - destruct (snd (unpack_opargs co_code)) as [e' |] eqn:Hs; [| discriminate].
    injection H as <-. destruct Hcases as [? | Hc]; [discriminate |].
    injection Hc as ->. split; [reflexivity |]. intros Hlen _.
    specialize (Heven Hlen). discriminate.
  - injection H as <-. destruct (collect_branches_raises _ _ _ E) as [-> Hex].
    split; [reflexivity |]. intros _ Hbytes.
    apply Exists_exists in Hex. destruct Hex as ([[[off n] op] arg] & Hin & Hop).
    pose proof (unpack_loop_opcodes co_code 0 0 0 (Z.le_refl 0)) as Hops.
    rewrite Forall_forall in Hops. specialize (Hops _ Hin). cbn [fst snd] in Hops, Hop.
    rewrite Forall_forall in Hbytes. specialize (Hbytes _ Hops).
    unfold is_byte in Hbytes. apply andb_prop in Hbytes. destruct Hbytes as [H0 H1].
    apply Z.leb_le in H0. apply Z.ltb_lt in H1. specialize (Hop H0). lia.
Qed.

End Building.

(** X24. [Editor(code)] fails with an [IndexError] only.  On a code of bytes
    of even length, with [dis.opname] naming all 256 opcodes, it returns an
    editor, whose patch is the code, whose constants, lines and branches are
    those of the code, and that is not finished and needs no additional
    stack. *)
Theorem editor_init_succeeds {rt : Runtime} (code : CodeType object) :
  (forall e, Editor.init code = Raise e -> e = IndexError) /\
  (len (co_code code) mod 2 = 0 ->
   Forall (fun b => is_byte b = true) (co_code code) ->
   256 <= len (opname dis) ->
   exists self,
     Editor.init code = Ok self /\
     Editor.orig_code self = code /\
     Editor.patch self = co_code code /\
     Editor.consts self = co_consts code /\
     Editor.lines self = LineEntry.from_code code /\
     Branch.from_code (co_code code) = Ok (Editor.branches self) /\
     Editor.max_addtl_stack self = 0 /\
     Editor.finished self = false).
Proof.
  unfold Editor.init.
  assert (exists entries,
             (if version_ge PYTHON_VERSION (3, 11)
              then ExceptionTableEntry.from_code (co_exceptiontable code)
              else Ok []) = Ok entries) as [entries Hentries].
  { destruct (version_ge PYTHON_VERSION (3, 11)); [| eauto].
    destruct (from_code_loop_total (List.length (co_exceptiontable code))
                (co_exceptiontable code) [] (le_n _) (Forall_nil _))
      as (out & Hout & _).
    exists out. exact Hout. }
  rewrite Hentries.
  destruct (Branch.from_code (co_code code)) as [bs | e'] eqn:E; cbn [bind].
  - split; [intros e H; discriminate |]. intros _ _ _.
    eexists. split; [reflexivity |]. cbn. repeat split.
  - apply from_code_raises in E. destruct E as [-> E].
    split; [intros e H; now injection H as <- |].
    intros Heven Hbytes Hnames. specialize (E Heven Hbytes). lia.
Qed.

Lemma editor_init_succeeds_witness :
  exists self,
    Editor.init (rt := Sample.py311) Sample.forward_branch_code = Ok self /\
    Editor.patch self = co_code Sample.forward_branch_code /\
    Editor.finished self = false.
Proof.
  destruct (editor_init_succeeds (rt := Sample.py311) Sample.forward_branch_code)
    as [_ H].
  destruct H as (self & Hinit & _ & Hpatch & _ & _ & _ & _ & Hfinished).
  - reflexivity.
  - repeat constructor.
  - vm_compute. discriminate.
  - exists self. repeat split; assumption.
Defined.

(** ** Variable-length integers in the exception table *)

(** The number a run of six-bit digits stands for, the first digit being the
    most significant. *)
Definition be_value (digits : list Z) : Z :=
  fold_left (fun v b => 64 * v + Z.land b 63) digits 0.

(** A byte with the continuation bit [0x40]. *)
Definition continues (b : Z) : bool := truthy (Z.land b 64).

(** The bytes of a table that have the bit [0x80], which marks the first
    byte of an entry. *)
Definition marks (table : list Z) : nat :=
  List.length (filter (fun b => 128 <=? b) table).

Section Varints.
Context {rt : Runtime}.

Lemma lor_digit (q c : Z) : 0 <= c < 64 -> Z.lor (64 * q) c = 64 * q + c.
Proof.
  intros Hc.
  assert (Z.shiftr (64 * q + c) 6 = q) as Hq.
  { rewrite Z.shiftr_div_pow2 by lia. change (2 ^ 6) with 64.
    symmetry. apply (Z.div_unique _ _ _ c); lia. }
  assert (Z.land (64 * q + c) 63 = c) as Hl.
  { change 63 with (Z.ones 6). rewrite Z.land_ones by lia. change (2 ^ 6) with 64.
    symmetry. apply (Z.mod_unique _ _ q); lia. }
  pose proof (chunk_join (64 * q + c)) as H. rewrite Hq, Hl in H.
  rewrite Z.shiftl_mul_pow2 in H by lia. change (2 ^ 6) with 64 in H.
  now replace (q * 64) with (64 * q) in H by lia.
Qed.

Lemma read_digits (lead : list Z) (b : Z) (rest : list Z) :
  Forall (fun x => continues x = true) lead -> continues b = false ->
  forall q,
    read_varint_be_loop (64 * q) (lead ++ b :: rest)
    = Ok (fold_left (fun v b => 64 * v + Z.land b 63) (lead ++ [b]) q, rest).
Proof.
  intros Hlead Hb. induction lead as [| x lead IH]; intros q.
  - cbn [app read_varint_be_loop fold_left]. unfold continues in Hb. rewrite Hb.
    rewrite lor_digit by apply land_63_bounds. reflexivity.
  - apply Forall_cons_iff in Hlead. destruct Hlead as [Hx Hlead].
    cbn [app read_varint_be_loop fold_left]. unfold continues in Hx. rewrite Hx.
    rewrite lor_digit by apply land_63_bounds.
    rewrite Z.shiftl_mul_pow2 by lia. change (2 ^ 6) with 64.
    replace ((64 * q + Z.land x 63) * 64) with (64 * (64 * q + Z.land x 63)) by lia.
    apply IH. exact Hlead.
Qed.

Lemma read_no_end (it : list Z) :
  Forall (fun x => continues x = true) it ->
  forall value, read_varint_be_loop value it = Raise StopIteration.
Proof.
  induction it as [| x it IH]; intros Hall value; [reflexivity |].
  apply Forall_cons_iff in Hall. destruct Hall as [Hx Hall].
  cbn [read_varint_be_loop]. unfold continues in Hx. rewrite Hx. now apply IH.
Qed.

Lemma marks_app (a b : list Z) : marks (a ++ b) = (marks a + marks b)%nat.
Proof. unfold marks. now rewrite filter_app, length_app. Qed.

Lemma marks_low (l : list Z) : Forall (fun b => 0 <= b < 128) l -> marks l = 0%nat.
Proof.
  unfold marks. induction 1 as [| b l Hb Hl IH]; [reflexivity |].
  cbn [filter]. destruct (Z.leb_spec 128 b); [lia | exact IH].
Qed.

Lemma marks_be_bytes (n : Z) : marks (be_bytes n) = 0%nat /\ 1 <= len (be_bytes n).
Proof.
  split; [apply marks_low, be_bytes_range |].
  pose proof (be_bytes_not_nil n) as Hnil.
  destruct (be_bytes n); [contradiction |]. unfold len. cbn [List.length]. lia.
Qed.

Lemma marks_be_marked (n : Z) : marks (be_marked n) = 1%nat /\ 1 <= len (be_marked n).
Proof.
  pose proof (be_bytes_range n) as Hr. pose proof (be_bytes_not_nil n) as Hnil.
  unfold be_marked. destruct (be_bytes n) as [| b rest]; [contradiction |].
  apply Forall_cons_iff in Hr. destruct Hr as [Hb Hr].
  split; [| unfold len; cbn [List.length]; lia].
  change (Z.lor b 128 :: rest) with ([Z.lor b 128] ++ rest).
  rewrite marks_app, (marks_low rest Hr). unfold marks. cbn [filter].
  change 128 with (2 ^ 7) at 2. rewrite lor_pow2_add by (cbn; lia).
  destruct (Z.leb_spec 128 (b + 2 ^ 7)); [reflexivity | cbn in *; lia].
Qed.

Lemma encode_entry_marks (e : ExceptionTableEntry.t) (bs : list Z) :
  ExceptionTableEntry.encode_entry e = Ok bs ->
  marks bs = 1%nat /\ 4 <= len bs /\ exists b rest, bs = b :: rest /\ 128 <= b.
Proof.
  unfold ExceptionTableEntry.encode_entry. intros H.
  inv_bind H. rewrite write_varint_be_marked in H. cbn [bind] in H.
  inv_bind H. rewrite !write_varint_be_plain in H. cbn [bind] in H.
  inv_bind H. rewrite !write_varint_be_plain in H. cbn [bind] in H.
  injection H as <-.
  destruct (marks_be_marked a) as [M1 L1]. destruct (marks_be_bytes a0) as [M2 L2].
  destruct (marks_be_bytes a1) as [M3 L3].
  destruct (marks_be_bytes (ExceptionTableEntry.other e)) as [M4 L4].
  rewrite !marks_app, !len_app, M1, M2, M3, M4.
  split; [reflexivity |]. split; [lia |].
  unfold be_marked in *. pose proof (be_bytes_range a) as Hr.
  destruct (be_bytes a) as [| b rest]; [cbn in L1; lia |].
  apply Forall_cons_iff in Hr. destruct Hr as [Hb _].
  eexists _, _. split; [reflexivity |].
  change 128 with (2 ^ 7) at 2. rewrite lor_pow2_add by (cbn; lia). cbn. lia.
Qed.

Lemma make_exceptiontable_marks (entries : list ExceptionTableEntry.t) :
  forall acc table,
    for_each (fun table e => b <- ExceptionTableEntry.encode_entry e ;; Ok (table ++ b))
             entries acc = Ok table ->
    marks table = (marks acc + List.length entries)%nat /\
    len acc + 4 * len entries <= len table.
Proof.
  induction entries as [| e entries IH]; intros acc table H.
  - injection H as <-. unfold len. cbn [List.length]. lia.
  - cbn [for_each] in H. inv_bind H. inv_bind E. injection E as <-.
    destruct (encode_entry_marks _ _ E0) as (M & L & _).
    destruct (IH _ _ H) as [M' L']. rewrite marks_app, M in M'.
    rewrite len_app in L'. unfold len in *. cbn [List.length]. lia.
Qed.

End Varints.

(** X25. [read_varint_be] reads the bytes up to the first one without the
    continuation bit [0x40], that one included, and returns the number their
    low six bits stand for as digits to the base 64, the first being the most
    significant; the bits [0x80] are ignored.  When every byte left has the
    continuation bit, and when none is left, it raises [StopIteration]. *)
Theorem read_varint_be_reads_digits (lead : list Z) (b : Z) (rest : list Z) :
  Forall (fun x => continues x = true) lead ->
  (continues b = false ->
   read_varint_be (lead ++ b :: rest) = Ok (be_value (lead ++ [b]), rest)) /\
  read_varint_be lead = Raise StopIteration.
Proof.
  intros Hlead. split.
  - intros Hb. exact (read_digits lead b rest Hlead Hb 0).
  - now apply read_no_end.
Qed.

Lemma read_varint_be_reads_digits_witness :
  read_varint_be [193; 66; 3; 7] = Ok (1 * 64 * 64 + 2 * 64 + 3, [7]) /\
  read_varint_be [193; 66] = Raise StopIteration.
Proof.
  destruct (read_varint_be_reads_digits [193; 66] 3 [7]) as [Hvalue Hstop].
  - repeat constructor.
  - split; [exact (Hvalue eq_refl) | exact Hstop].
Defined.

(** X26. In the table [make_exceptiontable] returns, the bytes with the bit
    [0x80] are the first bytes of the entries and no others: there are as
    many as there are entries, each entry takes four bytes at least, and a
    table that is not empty starts with such a byte. *)
Theorem make_exceptiontable_marks_entries {rt : Runtime}
  (entries : list ExceptionTableEntry.t) (table : list Z) :
  ExceptionTableEntry.make_exceptiontable entries = Ok table ->
  marks table = List.length entries /\
  4 * len entries <= len table /\
  (entries <> [] -> exists b rest, table = b :: rest /\ 128 <= b).
Proof.
  unfold ExceptionTableEntry.make_exceptiontable. intros H. inv_bind H.
  injection H as <-.
  destruct (make_exceptiontable_marks _ _ _ E) as [M L].
  split; [exact M |]. split; [exact L |].
  intros Hne. destruct entries as [| e entries]; [contradiction |].
  cbn [for_each] in E. inv_bind E. inv_bind E0. injection E0 as <-.
  destruct (encode_entry_marks _ _ E1) as (_ & _ & b & rest & -> & Hb).
  assert (forall es acc out,
             for_each (fun table e => b <- ExceptionTableEntry.encode_entry e ;;
                                      Ok (table ++ b)) es acc = Ok out ->
             exists tail, out = acc ++ tail) as Hgrow.
  { induction es as [| x es IH]; intros acc out Hrun.
    - injection Hrun as <-. exists []. now rewrite app_nil_r.
    - cbn [for_each] in Hrun. inv_bind Hrun. inv_bind E0. injection E0 as <-.
      destruct (IH _ _ Hrun) as [tail ->]. exists (a1 ++ tail). now rewrite app_assoc. }
  destruct (Hgrow _ _ _ E) as [tail ->]. cbn [app]. eauto.
Qed.

Lemma make_exceptiontable_marks_entries_witness :
  exists table,
    ExceptionTableEntry.make_exceptiontable (rt := Sample.py311)
      [ExceptionTableEntry.mk 4 20 20 1; ExceptionTableEntry.mk 200 260 300 3]
    = Ok table /\
    marks table = 2%nat.
Proof.
  destruct (ExceptionTableEntry.make_exceptiontable (rt := Sample.py311)
              [ExceptionTableEntry.mk 4 20 20 1; ExceptionTableEntry.mk 200 260 300 3])
    as [table | e] eqn:E; [| vm_compute in E; discriminate].
  exists table. split; [reflexivity |].
  exact (proj1 (make_exceptiontable_marks_entries (rt := Sample.py311) _ _ E)).
Defined.

(** ** Finishing an editor to which nothing was done *)

(** The words of the prefixes that carry the bytes [ps]. *)
Definition prefix_words {rt : Runtime} (ps : list Z) : list Z :=
  flat_map (fun p => [op_EXTENDED_ARG; p]) ps.

(** The argument as [unpack_opargs] builds it up over the prefixes. *)
Definition join (ps : list Z) (ext_arg : Z) : Z :=
  fold_left (fun v p => Z.shiftl (Z.lor v p) 8) ps ext_arg.

Definition length_of (i : oparg) : Z := snd (fst (fst i)).

Section FreshFinish.
Context {rt : Runtime}.

Lemma firstn_S_nth {A : Type} (l : list A) :
  forall n x, nth_error l n = Some x -> firstn (S n) l = firstn n l ++ [x].
Proof.
  induction l as [| y l IH]; intros [| n] x H; try discriminate.
  - cbn in H. injection H as <-. reflexivity.
  - cbn [firstn app]. f_equal. apply IH. exact H.
Qed.

Lemma getitem_nth {A : Type} (l : list A) (i : Z) (x : A) :
  0 <= i -> getitem l i = Ok x -> nth_error l (Z.to_nat i) = Some x.
Proof.
  intros Hi. unfold getitem.
  assert ((i <? 0) = false) as Hn by (apply Z.ltb_ge; lia).
  rewrite !Hn. destruct (nth_error l (Z.to_nat i)); [| discriminate].
  now intros [= <-].
Qed.

Lemma between_extend {A : Type} (l : list A) (a off : Z) (x y : A) :
  0 <= a <= off ->
  getitem l off = Ok x -> getitem l (off + 1) = Ok y ->
  between l a (off + 2) = between l a off ++ [x; y].
Proof.
  intros Ha Hx Hy. unfold between.
  apply getitem_nth in Hx; [| lia]. apply getitem_nth in Hy; [| lia].
  replace (Z.to_nat (off + 2 - a)) with (S (S (Z.to_nat (off - a)))) by lia.
  rewrite (firstn_S_nth _ (S (Z.to_nat (off - a))) y).
  - rewrite (firstn_S_nth _ (Z.to_nat (off - a)) x).
    + rewrite <- app_assoc. reflexivity.
    + rewrite nth_error_skipn. rewrite <- Hx. f_equal. lia.
  - rewrite nth_error_skipn. rewrite <- Hy. f_equal. lia.
Qed.

Lemma between_empty {A : Type} (l : list A) (a : Z) : between l a a = [].
Proof. unfold between. now rewrite Z.sub_diag. Qed.

(** An instruction whose bytes in the code are prefixes and one more word. *)
Definition spelled (code : list Z) (i : oparg) : Prop :=
  let '(off, n, op, arg) := i in
  exists ps b,
    between code off (off + n) = prefix_words ps ++ [op; b] /\
    arg = Z.lor (join ps 0) b /\ n = 2 * len ps + 2.

Lemma len_prefix_words (ps : list Z) : len (prefix_words ps) = 2 * len ps.
Proof.
  induction ps as [| p ps IH]; [reflexivity |].
  unfold prefix_words in *. cbn [flat_map app]. unfold len in *.
  cbn [List.length]. lia.
Qed.

Lemma prefix_words_app (ps : list Z) (p : Z) :
  prefix_words (ps ++ [p]) = prefix_words ps ++ [op_EXTENDED_ARG; p].
Proof. unfold prefix_words. now rewrite flat_map_app. Qed.

Lemma unpack_loop_spelled (code : list Z) (ext_arg next_off off : Z) :
  version_ge PYTHON_VERSION (3, 11) = false ->
  forall ps,
    0 <= next_off <= off ->
    between code next_off off = prefix_words ps ->
    ext_arg = join ps 0 ->
    Forall (spelled code) (fst (unpack_loop code ext_arg next_off off)).
Proof.
  funelim (unpack_loop code ext_arg next_off off); intros Hv ps Hoff Hbytes Hext;
    cbn [fst yield]; try solve [constructor].
  - (* an extension prefix *)
    apply (H Hv (ps ++ [b])); [lia | |].
    + rewrite (between_extend _ _ _ op b) by (assumption || lia).
      rewrite Hbytes, prefix_words_app. do 2 f_equal.
      unfold is_EXTENDED_ARG, mem in Heq. rewrite Hv in Heq. cbn in Heq.
      rewrite orb_false_r in Heq. apply Z.eqb_eq in Heq. now rewrite Heq.
    + unfold join. rewrite fold_left_app. cbn [fold_left]. now rewrite Hext.
  - (* an instruction *)
    assert (off' = off) as ->.
    { match goal with
      | He : (if version_ge _ _ then _ else _) = Ok _ |- _ => pose proof He as He'
      end.
      rewrite Hv in He'. now injection He' as <-. }
    constructor.
    + exists ps, b. split; [| split].
      * replace (next_off + (off + 2 - next_off)) with (off + 2) by lia.
        rewrite (between_extend _ _ _ op b) by (assumption || lia).
        now rewrite Hbytes.
      * now rewrite Hext.
      * pose proof (f_equal len Hbytes) as Hl. rewrite len_prefix_words in Hl.
        unfold between, len in Hl. rewrite length_firstn, length_skipn in Hl.
        destruct (getitem_Ok code off op ltac:(lia) Heq1) as [Hin _].
        unfold len in *. lia.
    + apply (H Hv []); [lia | apply between_empty | reflexivity].
Qed.

Lemma lor_low_byte (e b : Z) : 0 <= b < 256 -> Z.lor (256 * e) b = 256 * e + b.
Proof.
  intros Hb.
  assert (Z.shiftr (256 * e + b) 8 = e) as Hq.
  { rewrite Z.shiftr_div_pow2 by lia. change (2 ^ 8) with 256.
    symmetry. apply (Z.div_unique _ _ _ b); lia. }
  assert (Z.land (256 * e + b) (Z.ones 8) = b) as Hl.
  { rewrite Z.land_ones by lia. change (2 ^ 8) with 256.
    symmetry. apply (Z.mod_unique _ _ e); lia. }
  pose proof (low_bits_join 8 (256 * e + b) ltac:(lia)) as H. rewrite Hq, Hl in H.
  rewrite Z.shiftl_mul_pow2 in H by lia. change (2 ^ 8) with 256 in H.
  now replace (e * 256) with (256 * e) in H by lia.
Qed.

(** The prefixes [opcode_arg] emits for an argument are those it was read
    from. *)
Lemma join_words (ps : list Z) (b : Z) :
  Forall (fun p => 0 <= p < 256) ps -> 0 <= b < 256 ->
  forall e,
    let a := Z.lor (join ps (256 * e)) b in
    Z.shiftr a (8 * (len ps + 1)) = e /\
    ext_words a (len ps) (List.length ps) = prefix_words ps /\
    Z.land a 255 = b.
Proof.
  intros Hps Hb. induction Hps as [| p ps Hp Hps IH]; intros e a.
  - subst a. cbn [join fold_left]. rewrite lor_low_byte by exact Hb.
    change (8 * (len [] + 1)) with 8.
    split; [| split; [reflexivity |]].
    + rewrite Z.shiftr_div_pow2 by lia. change (2 ^ 8) with 256.
      symmetry. apply (Z.div_unique _ _ _ b); lia.
    + change 255 with (Z.ones 8). rewrite Z.land_ones by lia. change (2 ^ 8) with 256.
      symmetry. apply (Z.mod_unique _ _ e); lia.
  - assert (join (p :: ps) (256 * e) = join ps (256 * (256 * e + p))) as Hj.
    { unfold join. cbn [fold_left]. rewrite lor_low_byte by exact Hp.
      rewrite Z.shiftl_mul_pow2 by lia. change (2 ^ 8) with 256. f_equal. lia. }
    subst a. rewrite Hj.
    destruct (IH (256 * e + p)) as (Hs & Hw & Hl).
    set (a := Z.lor (join ps (256 * (256 * e + p))) b) in *.
    assert (len (p :: ps) = len ps + 1) as Hlen
        by (unfold len; cbn [List.length]; lia).
    pose proof (len_nonneg ps) as Hnn.
    split; [| split; [| exact Hl]].
    + rewrite Hlen. replace (8 * (len ps + 1 + 1)) with (8 * (len ps + 1) + 8) by lia.
      rewrite <- Z.shiftr_shiftr by lia. rewrite Hs.
      rewrite Z.shiftr_div_pow2 by lia. change (2 ^ 8) with 256.
      symmetry. apply (Z.div_unique _ _ _ p); lia.
    + cbn [List.length ext_words]. unfold prefix_words. cbn [flat_map app].
      fold (prefix_words ps). rewrite Hlen.
      replace ((len ps + 1) * 8) with (8 * (len ps + 1)) by lia. rewrite Hs.
      replace (len ps + 1 - 1) with (len ps) by lia. rewrite Hw.
      do 2 f_equal.
      change 255 with (Z.ones 8). rewrite Z.land_ones by lia. change (2 ^ 8) with 256.
      symmetry. apply (Z.mod_unique _ _ e); lia.
Qed.

Lemma opcode_arg_old (opcode arg min_ext : Z) :
  version_ge PYTHON_VERSION (3, 11) = false ->
  Z.max (arg_ext_needed arg) min_ext <= 3 ->
  opcode_arg opcode arg min_ext
  = Ok (ext_words arg (Z.max (arg_ext_needed arg) min_ext)
                  (Z.to_nat (Z.max (arg_ext_needed arg) min_ext))
        ++ [opcode; Z.land arg 255]).
Proof.
  intros Hv Hext.
  assert (exists c, opcode_arg opcode arg min_ext = Ok c) as [c Hc].
  { unfold opcode_arg. destruct (Z.leb_spec (Z.max (arg_ext_needed arg) min_ext) 3);
      [| lia]. cbn [bind]. rewrite Hv. eauto. }
  rewrite Hc. destruct (opcode_arg_Ok _ _ _ _ Hc) as (_ & m & Hold & _ & ->).
  rewrite (Hold Hv). reflexivity.
Qed.

Lemma Forall_firstn_skipn {A : Type} (P : A -> Prop) (l : list A) :
  Forall P l -> forall n, Forall P (firstn n l) /\ Forall P (skipn n l).
Proof.
  induction 1 as [| x l Hx Hl IH]; intros [| n]; cbn [firstn skipn];
    try (split; constructor; assumption).
  destruct (IH n) as [Hf Hs]. split; [now constructor | exact Hs].
Qed.

Lemma bytes_between (code : list Z) (a b : Z) :
  Forall (fun x => is_byte x = true) code ->
  Forall (fun x => is_byte x = true) (between code a b).
Proof.
  intros H. unfold between.
  apply Forall_firstn_skipn. now apply Forall_firstn_skipn.
Qed.

Lemma setslice_same {A : Type} (l : list A) (k n : Z) :
  0 <= k -> 0 <= n -> k + n <= len l ->
  setslice l k (k + n) (between l k (k + n)) = l.
Proof.
  intros Hk Hn Hin. unfold setslice, between. cbn zeta.
  assert (slice_index l k = k) as ->.
  { unfold slice_index. destruct (Z.ltb_spec k 0); lia. }
  assert (slice_index l (k + n) = k + n) as ->.
  { unfold slice_index. destruct (Z.ltb_spec (k + n) 0); lia. }
  rewrite Z.max_r by lia.
  replace (Z.to_nat (k + n)) with (Z.to_nat (k + n - k) + Z.to_nat k)%nat by lia.
  rewrite <- skipn_skipn, firstn_skipn, firstn_skipn. reflexivity.
Qed.

(** Before 3.11, what [opcode_arg] emits for a decoded instruction of up to
    three prefixes, at the length of that instruction, are its bytes. *)
Lemma opcode_arg_respells (code : list Z) (off n op arg : Z) :
  version_ge PYTHON_VERSION (3, 11) = false ->
  Forall (fun b => is_byte b = true) code ->
  spelled code (off, n, op, arg) -> n <= 8 ->
  0 <= arg /\
  2 + 2 * arg_ext_needed arg <= n /\
  opcode_arg op arg ((n - 2) / 2) = Ok (between code off (off + n)).
Proof.
  intros Hv Hbytes (ps & b & Hbetween & Harg & Hn) Hmax.
  pose proof (bytes_between code off (off + n) Hbytes) as Hb.
  rewrite Hbetween in Hb. apply Forall_app in Hb. destruct Hb as [Hps Hb].
  assert (Forall (fun p => 0 <= p < 256) ps) as Hps'.
  { clear -Hps. induction ps as [| p ps IH]; [constructor |].
    unfold prefix_words in Hps. cbn [flat_map app] in Hps.
    apply Forall_cons_iff in Hps. destruct Hps as [_ Hps].
    apply Forall_cons_iff in Hps. destruct Hps as [Hp Hps].
    constructor; [| now apply IH].
    unfold is_byte in Hp. apply andb_prop in Hp. destruct Hp as [H0 H1].
    apply Z.leb_le in H0. apply Z.ltb_lt in H1. lia. }
  assert (0 <= b < 256) as Hb'.
  { apply Forall_cons_iff in Hb. destruct Hb as [_ Hb].
    apply Forall_cons_iff in Hb. destruct Hb as [Hb _].
    unfold is_byte in Hb. apply andb_prop in Hb. destruct Hb as [H0 H1].
    apply Z.leb_le in H0. apply Z.ltb_lt in H1. lia. }
  destruct (join_words ps b Hps' Hb' 0) as (Hs & Hw & Hl).
  change (256 * 0) with 0 in Hs, Hw, Hl. rewrite <- Harg in Hs, Hw, Hl.
  pose proof (len_nonneg ps) as Hnn.
  assert (0 <= arg) as Hpos.
  { subst arg. apply Z.lor_nonneg. split; [| lia].
    clear -Hps'. unfold join.
    assert (forall v, 0 <= v ->
              0 <= fold_left (fun v p => Z.shiftl (Z.lor v p) 8) ps v) as H.
    { induction Hps' as [| p ps Hp Hps IH]; intros v Hv; [exact Hv |].
      cbn [fold_left]. apply IH. apply Z.shiftl_nonneg. apply Z.lor_nonneg. lia. }
    apply H. lia. }
  assert (arg < 2 ^ (8 * (len ps + 1))) as Hlt.
  { apply Z.shiftr_eq_0_iff in Hs. destruct Hs as [-> | [Hgt Hs]].
    - apply Z.pow_pos_nonneg; lia.
    - apply Z.log2_lt_pow2; [exact Hgt | exact Hs]. }
  assert (arg_ext_needed arg <= len ps) as Hneeded.
  { assert (2 + 2 * arg_ext_needed arg <= n); [| lia].
    apply needed_within_length; [lia | |].
    - rewrite Hn. replace (2 * len ps + 2) with ((len ps + 1) * 2) by lia.
      apply Z.mod_mul. lia.
    - split; [exact Hpos |]. rewrite Hn.
      replace (4 * (2 * len ps + 2)) with (8 * (len ps + 1)) by lia. exact Hlt. }
  split; [exact Hpos |]. split; [lia |].
  assert ((n - 2) / 2 = len ps) as ->.
  { rewrite Hn. replace (2 * len ps + 2 - 2) with (len ps * 2) by lia.
    apply Z.div_mul. lia. }
  rewrite opcode_arg_old by (assumption || lia).
  rewrite Z.max_r by exact Hneeded.
  unfold len at 2. rewrite Nat2Z.id. fold (len ps). rewrite Hw, Hl, Hbetween. reflexivity.
Qed.

Lemma emit_fresh_branch (code : list Z) (off n op arg : Z) (b : Branch.t) :
  version_ge PYTHON_VERSION (3, 11) = false ->
  Forall (fun x => is_byte x = true) code ->
  len code mod 2 = 0 ->
  spelled code (off, n, op, arg) -> decoded_from code (off, n, op, arg) ->
  2 <= n -> n <= 8 ->
  Branch.init off n op arg = Ok b ->
  emit_branch code b = Ok code.
Proof.
  intros Hv Hbytes Heven Hsp (Hoff & Hin & _ & Hop) Hmin Hmax Hinit.
  destruct (opcode_arg_respells code off n op arg Hv Hbytes Hsp Hmax)
    as (Hpos & Hneeded & Hemit).
  destruct (init_Ok _ _ _ _ _ Hinit) as (Ho & Hl & Hopc & _ & Harg).
  replace (if Branch.is_relative b then Z.abs arg else arg) with arg in Harg
    by (destruct (Branch.is_relative b); lia).
  unfold emit_branch, Branch.code. rewrite Harg, Ho, Hl, Hopc, (Hop Hv). cbn [bind].
  rewrite Z.eqb_refl. cbn [bind].
  destruct (Z.geb_spec n (2 + 2 * arg_ext_needed arg)); [| lia].
  cbn [bind]. rewrite Hemit. cbn [bind].
  pose proof (bytes_between code off (off + n) Hbytes) as Hb.
  unfold as_bytes.
  assert (forallb is_byte (between code off (off + n)) = true) as ->.
  { apply forallb_forall. rewrite Forall_forall in Hb. exact Hb. }
  cbn [bind]. rewrite setslice_same; [reflexivity | lia | lia |]. now apply Hin.
Qed.

Lemma emit_fresh_branches (code : list Z) (bs : list Branch.t) :
  Forall (fun b => emit_branch code b = Ok code) bs ->
  for_each emit_branch bs code = Ok code.
Proof.
  induction 1 as [| b bs Hb _ IH]; [reflexivity |].
  cbn [for_each]. rewrite Hb. exact IH.
Qed.

Lemma fresh_branches_emit (code : list Z) (bs : list Branch.t) :
  version_ge PYTHON_VERSION (3, 11) = false ->
  Forall (fun x => is_byte x = true) code ->
  len code mod 2 = 0 ->
  Forall (fun i => length_of i <= 8) (fst (unpack_opargs code)) ->
  Branch.from_code code = Ok bs ->
  Forall (fun b => emit_branch code b = Ok code) bs.
Proof.
  intros Hv Hbytes Heven Hshort Hfrom.
  apply from_code_Ok in Hfrom. destruct Hfrom as [_ Hall].
  destruct (unpack_opargs_decoded code) as [Htiles Hdec].
  apply tiles_lengths in Htiles.
  pose proof (unpack_loop_spelled code 0 0 0 Hv [] ltac:(lia) (between_empty _ _)
                eq_refl) as Hsp.
  fold (unpack_opargs code) in Hsp.
  set (branchy := fun i => mem (opcode_of i) (hasjrel dis ++ hasjabs dis)) in *.
  assert (Forall (fun i => In i (fst (unpack_opargs code)))
                 (filter branchy (fst (unpack_opargs code)))) as Hins.
  { apply Forall_forall. intros i Hi. apply filter_In in Hi. tauto. }
  revert Hins. induction Hall as [| i b is' bs' Hb _ IH]; intros Hins; constructor.
  - apply Forall_cons_iff in Hins. destruct Hins as [Hi _].
    rewrite Forall_forall in Hdec, Htiles, Hsp, Hshort.
    specialize (Hdec i Hi). specialize (Htiles i Hi). specialize (Hsp i Hi).
    specialize (Hshort i Hi).
    destruct i as [[[off n] op] arg]. cbn [branch_of length_of fst snd] in *.
    apply (emit_fresh_branch code off n op arg b); tauto.
  - apply IH. apply Forall_cons_iff in Hins. tauto.
Qed.

End FreshFinish.

(** X27. Before 3.11, finishing the editor of a code to which nothing was
    done gives the code back: for a code of bytes of even length in which no
    instruction has more than three prefixes, with [dis.opname] naming all
    256 opcodes, [Editor(code)] is built, the [while] loop of [finish]
    leaves it alone, and writing the branches leaves the patch equal to
    [code.co_code], every branch being emitted as it is spelled in the
    code. *)
Theorem finish_of_fresh_editor_keeps_code {rt : Runtime} (code : CodeType object) :
  version_ge PYTHON_VERSION (3, 11) = false ->
  Forall (fun b => is_byte b = true) (co_code code) ->
  len (co_code code) mod 2 = 0 ->
  Forall (fun i => length_of i <= 8) (fst (unpack_opargs (co_code code))) ->
  256 <= len (opname dis) ->
  exists self,
    Editor.init code = Ok self /\
    Editor.stabilize 1 self = Some (Ok self) /\
    Editor.emit_branches self = Ok (co_code code).
Proof.
  intros Hv Hbytes Heven Hshort Hnames.
  destruct (Branch.from_code (co_code code)) as [bs | e] eqn:Hfrom.
  2:{ apply from_code_raises in Hfrom. destruct Hfrom as [_ Hfrom].
      specialize (Hfrom Heven Hbytes). lia. }
  assert (Editor.init code
          = Ok (Editor.mk code (co_consts code) bs [] (LineEntry.from_code code)
                          (co_code code) 0 false)) as Hinit.
  { unfold Editor.init. rewrite Hfrom. cbn [bind].
    assert (version_ge PYTHON_VERSION (3, 11) = false) as -> by exact Hv.
    reflexivity. }
  eexists. split; [exact Hinit |]. split.
  - cbn [Editor.stabilize].
    rewrite adjust_lengths_stable.
    + cbn [app Editor.branches]. reflexivity.
    + cbn [Editor.branches].
      eapply Forall_impl; [| exact (from_code_facts _ _ Hfrom Hbytes)]. cbn. tauto.
  - rewrite emit_branches_eq. cbn [Editor.branches Editor.patch].
    apply emit_fresh_branches.
    now apply fresh_branches_emit.
Qed.

Lemma finish_of_fresh_editor_keeps_code_witness :
  let code : CodeType Z :=
    {| co_code := [100; 0; 144; 1; 114; 8; 9; 0; 110; 2; 9; 0; 83; 0];
       co_consts := [0]; co_names := []; co_firstlineno := 1; co_stacksize := 1;
       co_exceptiontable := []; co_lnotab := []; co_linetable := [] |} in
  exists self,
    Editor.init (rt := Sample.py39) code = Ok self /\
    Editor.branches self
    = [Branch.mk 2 4 114 false false 264; Branch.mk 8 2 110 true false 12] /\
    Editor.emit_branches self = Ok (co_code code).
Proof.
  intros code.
  destruct (finish_of_fresh_editor_keeps_code (rt := Sample.py39) code)
    as (self & Hinit & _ & Hemit).
  - reflexivity.
  - repeat constructor.
  - reflexivity.
  - vm_compute. repeat constructor; discriminate.
  - vm_compute. discriminate.
  - exists self. split; [exact Hinit |]. split; [| exact Hemit].
    vm_compute in Hinit. now injection Hinit as <-.
Defined.

(** ** What the inserted call decodes to *)

(** The bytes of one instruction: prefixes, the instruction, cache words. *)
Definition instruction_bytes {rt : Runtime} (op a : Z) (count m : nat) : list Z :=
  ext_words a (Z.of_nat count) count
  ++ op :: Z.land a 255 :: List.concat (repeat [op_CACHE; 0] m).

(** Bytes after which the skipping of cache words stops. *)
Definition stops {rt : Runtime} (rest : list Z) : Prop :=
  match rest with
  | [] => True
  | x :: _ => x <> op_CACHE
  end.

(** An opcode with its argument and the bytes that spell them. *)
Definition encodes {rt : Runtime} (item : Z * Z * list Z) : Prop :=
  let '(op, a, bytes) := item in
  exists count m,
    bytes = instruction_bytes op a count m /\
    0 <= a /\ Z.shiftr a (8 * (Z.of_nat count + 1)) = 0 /\
    mem op is_EXTENDED_ARG = false /\
    (version_ge PYTHON_VERSION (3, 11) = false -> m = 0%nat) /\
    (version_ge PYTHON_VERSION (3, 11) = true -> op <> op_CACHE).

Definition op_arg (i : oparg) : Z * Z := (snd (fst i), snd i).

(** The opcodes of the call sequence. *)
Definition call_opcodes {rt : Runtime} : list Z :=
  if version_ge PYTHON_VERSION (3, 11)
  then [op_NOP; op_PUSH_NULL; op_LOAD_CONST; op_PRECALL; op_CALL; op_POP_TOP]
  else [op_NOP; op_LOAD_CONST; op_CALL_FUNCTION; op_POP_TOP].

(** The instructions of the call sequence after the [NOP]. *)
Definition call_instructions {rt : Runtime} (function : Z) (args : list Z)
  : list (Z * Z) :=
  if version_ge PYTHON_VERSION (3, 11) then
    [(op_PUSH_NULL, 0); (op_LOAD_CONST, function)]
    ++ map (fun a => (op_LOAD_CONST, a)) args
    ++ [(op_PRECALL, len args); (op_CALL, len args); (op_POP_TOP, 0)]
  else
    [(op_LOAD_CONST, function)]
    ++ map (fun a => (op_LOAD_CONST, a)) args
    ++ [(op_CALL_FUNCTION, len args); (op_POP_TOP, 0)].

Section DecodingCalls.
Context {rt : Runtime}.

Lemma skip_cache_words_then (m : nat) :
  forall Q R,
    2 <= len Q -> stops R ->
    skip_cache (Q ++ List.concat (repeat [op_CACHE; 0] m) ++ R) (len Q - 2)
    = Ok (len Q - 2 + 2 * Z.of_nat m).
Proof.
  induction m as [| m IH]; intros Q R HQ HR; rewrite skip_cache_eq.
  - cbn [repeat List.concat app].
    replace (len Q - 2 + 2) with (len Q) by lia.
    destruct (Z_lt_dec (len Q) (len (Q ++ R))) as [Hlt | _]; [| f_equal; lia].
    destruct R as [| x R]; [rewrite app_nil_r in Hlt; lia |].
    rewrite getitem_app_0. cbn [stops] in HR.
    destruct (Z.eqb_spec x op_CACHE); [contradiction | f_equal; lia].
  - cbn [repeat List.concat app].
    replace (len Q - 2 + 2) with (len Q) by lia.
    set (tail := List.concat (repeat [op_CACHE; 0] m) ++ R).
    change ((op_CACHE :: 0 :: List.concat (repeat [op_CACHE; 0] m)) ++ R)
      with (op_CACHE :: 0 :: tail).
    destruct (Z_lt_dec (len Q) (len (Q ++ op_CACHE :: 0 :: tail))) as [_ | Hge].
    2:{ rewrite len_app in Hge.
        assert (0 < len (op_CACHE :: 0 :: tail)) by (unfold len; cbn [List.length]; lia).
        lia. }
    rewrite getitem_app_0, Z.eqb_refl.
    replace (Q ++ op_CACHE :: 0 :: tail) with ((Q ++ [op_CACHE; 0]) ++ tail)
      by (rewrite <- app_assoc; reflexivity).
    assert (len (Q ++ [op_CACHE; 0]) = len Q + 2) as HQ'
        by (rewrite len_app; reflexivity).
    pose proof (IH (Q ++ [op_CACHE; 0]) R ltac:(rewrite HQ'; lia) HR) as Hs.
    rewrite HQ' in Hs. replace (len Q + 2 - 2) with (len Q) in Hs by lia.
    subst tail. rewrite Hs. f_equal. lia.
Qed.

(** Decoding the words of one instruction, and going on with what follows
    it. *)
Lemma unpack_instruction_then (a opcode : Z) (m count : nat) (R : list Z) :
  0 <= a ->
  mem opcode is_EXTENDED_ARG = false ->
  (version_ge PYTHON_VERSION (3, 11) = false -> m = 0%nat) ->
  (version_ge PYTHON_VERSION (3, 11) = true -> stops R) ->
  forall P ext_arg next_off,
    ext_arg = Z.shiftl (Z.shiftr a (8 * (Z.of_nat count + 1))) 8 ->
    unpack_loop (P ++ instruction_bytes opcode a count m ++ R) ext_arg next_off (len P)
    = yield (next_off, len P + len (instruction_bytes opcode a count m) - next_off,
             opcode, a)
            (unpack_loop (P ++ instruction_bytes opcode a count m ++ R) 0
               (len P + len (instruction_bytes opcode a count m))
               (len P + len (instruction_bytes opcode a count m))).
Proof.
  intros Ha Hop Hm HR. unfold instruction_bytes.
  set (caches := List.concat (repeat [op_CACHE; 0] m)).
  assert (len caches = 2 * Z.of_nat m) as Hcaches by apply len_cache_words.
  induction count as [| count IH]; intros P ext_arg next_off Hext.
  - cbn [ext_words app].
    set (code := P ++ opcode :: Z.land a 255 :: caches ++ R).
    assert (len (opcode :: Z.land a 255 :: caches) = 2 + 2 * Z.of_nat m) as Hinstr.
    { change (opcode :: Z.land a 255 :: caches) with ([opcode; Z.land a 255] ++ caches).
      rewrite len_app, Hcaches. reflexivity. }
    assert (len code = len P + 2 + 2 * Z.of_nat m + len R) as Hlen.
    { subst code.
      change (opcode :: Z.land a 255 :: caches ++ R)
        with ((opcode :: Z.land a 255 :: caches) ++ R).
      rewrite !len_app, Hinstr. lia. }
    pose proof (len_nonneg P) as HP. pose proof (len_nonneg R) as HR'.
    rewrite unpack_loop_eq.
    destruct (Z_lt_dec (len P) (len code)) as [_ | Hge]; [| lia].
    subst code. rewrite getitem_app_0, getitem_app_1, Hop.
    assert ((if version_ge PYTHON_VERSION (3, 11)
             then skip_cache (P ++ opcode :: Z.land a 255 :: caches ++ R) (len P)
             else Ok (len P)) = Ok (len P + 2 * Z.of_nat m)) as ->.
    { destruct (version_ge PYTHON_VERSION (3, 11)) eqn:Hv.
      - replace (P ++ opcode :: Z.land a 255 :: caches ++ R)
          with ((P ++ [opcode; Z.land a 255]) ++ caches ++ R)
          by (rewrite <- app_assoc; reflexivity).
        assert (len (P ++ [opcode; Z.land a 255]) = len P + 2) as HQ
            by (rewrite len_app; reflexivity).
        pose proof (skip_cache_words_then m (P ++ [opcode; Z.land a 255]) R
                      ltac:(lia) (HR eq_refl)) as Hs.
        rewrite HQ in Hs. replace (len P + 2 - 2) with (len P) in Hs by lia.
        subst caches. rewrite Hs. reflexivity.
      - rewrite (Hm eq_refl). f_equal. lia. }
    rewrite Hinstr, Hext.
    change (8 * (Z.of_nat 0 + 1)) with 8. change 255 with (Z.ones 8).
    rewrite low_bits_join by lia.
    replace (len P + 2 * Z.of_nat m + 2) with (len P + (2 + 2 * Z.of_nat m)) by lia.
    reflexivity.
  - cbn [ext_words].
    set (c := Z.land (Z.shiftr a (Z.of_nat (S count) * 8)) 255).
    set (words := ext_words a (Z.of_nat (S count) - 1) count
                  ++ opcode :: Z.land a 255 :: caches).
    change ((op_EXTENDED_ARG :: c :: ext_words a (Z.of_nat (S count) - 1) count)
            ++ opcode :: Z.land a 255 :: caches)
      with (op_EXTENDED_ARG :: c :: words).
    change ((op_EXTENDED_ARG :: c :: words) ++ R)
      with (op_EXTENDED_ARG :: c :: words ++ R).
    pose proof (len_nonneg P) as HP.
    rewrite unpack_loop_eq.
    destruct (Z_lt_dec (len P) (len (P ++ op_EXTENDED_ARG :: c :: words ++ R)))
      as [_ | Hge].
    2:{ rewrite len_app in Hge.
        assert (0 < len (op_EXTENDED_ARG :: c :: words ++ R))
          by (unfold len; cbn [List.length]; lia).
        lia. }
    rewrite getitem_app_0, getitem_app_1, mem_EXTENDED_ARG.
    replace (P ++ op_EXTENDED_ARG :: c :: words ++ R)
      with ((P ++ [op_EXTENDED_ARG; c]) ++ words ++ R)
      by (rewrite <- app_assoc; reflexivity).
    assert (len (P ++ [op_EXTENDED_ARG; c]) = len P + 2) as HP'
        by (rewrite len_app; reflexivity).
    rewrite <- HP'.
    assert (len (op_EXTENDED_ARG :: c :: words) = 2 + len words) as Hw
        by (unfold len; cbn [List.length]; lia).
    rewrite Hw.
    replace (len P + (2 + len words)) with (len (P ++ [op_EXTENDED_ARG; c]) + len words)
      by lia.
    subst words. replace (Z.of_nat (S count) - 1) with (Z.of_nat count) by lia.
    apply IH. subst ext_arg c.
    replace (8 * (Z.of_nat (S count) + 1)) with (Z.of_nat (S count) * 8 + 8) by lia.
    rewrite <- Z.shiftr_shiftr by lia. change 255 with (Z.ones 8).
    rewrite low_bits_join by lia. f_equal. f_equal. lia.
Qed.

(** An opcode that is no prefix and, from 3.11 on, no cache word. *)
Definition plain (op : Z) : Prop :=
  mem op is_EXTENDED_ARG = false /\
  (version_ge PYTHON_VERSION (3, 11) = true -> op <> op_CACHE).

Lemma encodes_stops (item : Z * Z * list Z) (rest : list Z) :
  (version_ge PYTHON_VERSION (3, 11) = true -> op_EXTENDED_ARG <> op_CACHE) ->
  version_ge PYTHON_VERSION (3, 11) = true ->
  encodes item -> stops (snd item ++ rest).
Proof.
  destruct item as [[op a] bytes]. intros Hext Hv (count & m & -> & _ & _ & _ & _ & Hop).
  cbn [snd]. unfold instruction_bytes.
  destruct count as [| count]; cbn [ext_words app stops]; auto.
Qed.

Lemma decode_items (items : list (Z * Z * list Z)) :
  (version_ge PYTHON_VERSION (3, 11) = true -> op_EXTENDED_ARG <> op_CACHE) ->
  Forall encodes items ->
  forall P,
    map op_arg (fst (unpack_loop (P ++ List.concat (map snd items)) 0 (len P) (len P)))
    = map fst items /\
    snd (unpack_loop (P ++ List.concat (map snd items)) 0 (len P) (len P)) = None.
Proof.
  intros Hext. induction 1 as [| [[op a] bytes] items Hitem Hitems IH]; intros P.
  - cbn [map List.concat]. rewrite app_nil_r, unpack_loop_eq.
    destruct (Z_lt_dec (len P) (len P)); [lia |]. split; reflexivity.
  - cbn [map List.concat fst snd].
    assert (version_ge PYTHON_VERSION (3, 11) = true ->
            stops (List.concat (map snd items))) as Hstops.
    { intros Hv. destruct Hitems as [| item items Hi _]; [exact I |].
      cbn [map List.concat]. now apply encodes_stops. }
    destruct Hitem as (count & m & -> & Ha & Hs & Hop & Hm & _).
    rewrite (unpack_instruction_then a op m count _ Ha Hop Hm Hstops P 0 (len P))
      by (rewrite Hs; reflexivity).
    specialize (IH (P ++ instruction_bytes op a count m)).
    rewrite <- app_assoc, len_app in IH. destruct IH as [IH1 IH2].
    unfold yield. cbn [fst snd map]. split; [| exact IH2].
    change (op_arg (len P, len P + len (instruction_bytes op a count m) - len P, op, a))
      with (op, a).
    f_equal. exact IH1.
Qed.

Lemma opcode_arg_encodes (op a : Z) (c : list Z) :
  opcode_arg op a 0 = Ok c -> 0 <= a -> plain op -> encodes (op, a, c).
Proof.
  intros H Ha [Hop Hcache].
  destruct (opcode_arg_Ok _ _ _ _ H) as (Hext & m & Hold & _ & ->).
  set (ext := Z.max (arg_ext_needed a) 0) in *.
  exists (Z.to_nat ext), m. unfold instruction_bytes.
  rewrite Z2Nat.id by lia.
  split; [reflexivity |]. split; [exact Ha |]. split; [| auto].
  apply shiftr_small; [| lia]. split; [exact Ha |].
  apply arg_ext_needed_bound; lia.
Qed.

Lemma literal_encodes (op b : Z) :
  0 <= b < 256 -> plain op -> encodes (op, b, [op; b]).
Proof.
  intros Hb [Hop Hcache]. exists 0%nat, 0%nat. unfold instruction_bytes.
  cbn [ext_words repeat List.concat app].
  assert (Z.land b 255 = b) as ->.
  { change 255 with (Z.ones 8). rewrite Z.land_ones by lia. apply Z.mod_small. exact Hb. }
  split; [reflexivity |]. split; [lia |]. split; [| auto].
  apply shiftr_small; [cbn; lia | lia].
Qed.

Lemma load_args_items (args : list Z) :
  Forall (fun a => 0 <= a) args -> plain op_LOAD_CONST ->
  forall insert insert',
    for_each (fun insert a => c <- opcode_arg op_LOAD_CONST a 0 ;; extend insert c)
             args insert = Ok insert' ->
    exists items,
      insert' = insert ++ List.concat (map snd items) /\
      Forall encodes items /\
      map fst items = map (fun a => (op_LOAD_CONST, a)) args.
Proof.
  intros Hargs Hplain. induction Hargs as [| a args Ha Hargs IH]; intros insert insert' H.
  - injection H as <-. exists []. rewrite app_nil_r. repeat split. constructor.
  - cbn [for_each] in H. inv_bind H. inv_bind E. apply extend_Ok in E. subst a0.
    destruct (IH _ _ H) as (items & -> & Hall & Hmap).
    exists ((op_LOAD_CONST, a, a1) :: items). cbn [map List.concat fst snd].
    rewrite <- app_assoc. split; [reflexivity |]. split; [| now rewrite Hmap].
    constructor; [now apply opcode_arg_encodes | exact Hall].
Qed.

Lemma is_byte_bounds (b : Z) : is_byte b = true -> 0 <= b < 256.
Proof.
  unfold is_byte. intros H. apply andb_prop in H. destruct H as [H0 H1].
  apply Z.leb_le in H0. apply Z.ltb_lt in H1. lia.
Qed.

Lemma call_sequence_items (function : Z) (args insert : list Z) :
  Editor.call_sequence function args = Ok insert ->
  0 <= function -> Forall (fun a => 0 <= a) args ->
  Forall plain call_opcodes ->
  exists items,
    insert = [op_NOP; 0] ++ List.concat (map snd items) /\
    Forall encodes items /\
    map fst items = call_instructions function args /\
    plain op_NOP.
Proof.
  unfold Editor.call_sequence, call_opcodes, call_instructions. intros H Hf Hargs Hplain.
  pose proof (len_nonneg args) as Hn.
  destruct (version_ge PYTHON_VERSION (3, 11)).
  - repeat (apply Forall_cons_iff in Hplain;
            let Hp := fresh "Hp" in destruct Hplain as [Hp Hplain]).
    inv_bind H. inv_bind H. inv_bind H. inv_bind H. inv_bind H.
    apply extend_Ok in E0, H. cbn [app] in E0. subst a0 insert.
    destruct (load_args_items args Hargs Hp1 _ _ E1) as (items & -> & Hall & Hmap).
    exists ((op_PUSH_NULL, 0, [op_PUSH_NULL; 0]) :: (op_LOAD_CONST, function, a)
            :: items
            ++ [(op_PRECALL, len args, a2); (op_CALL, len args, a3);
                (op_POP_TOP, 0, [op_POP_TOP; 0])]).
    split; [| split; [| split; [| exact Hp]]].
    + cbn [map List.concat fst snd app]. rewrite map_app, concat_app.
      cbn [map List.concat snd app]. rewrite ?app_nil_r, <- ?app_assoc. reflexivity.
    + constructor; [apply literal_encodes; [lia | exact Hp0] |].
      constructor; [now apply opcode_arg_encodes |].
      apply Forall_app. split; [exact Hall |].
      constructor; [now apply opcode_arg_encodes |].
      constructor; [now apply opcode_arg_encodes |].
      constructor; [apply literal_encodes; [lia | exact Hp4] | constructor].
    + cbn [map fst app]. rewrite map_app, Hmap. reflexivity.
  - repeat (apply Forall_cons_iff in Hplain;
            let Hp := fresh "Hp" in destruct Hplain as [Hp Hplain]).
    inv_bind H. inv_bind H. inv_bind H.
    apply extend_Ok in E0. cbn [app] in E0. subst a0.
    unfold extend in H. inv_bind H. injection H as <-.
    unfold as_bytes in E0.
    destruct (forallb is_byte [op_CALL_FUNCTION; len args; op_POP_TOP; 0]) eqn:Hb;
      [| discriminate].
    injection E0 as <-. cbn [forallb] in Hb.
    apply andb_prop in Hb. destruct Hb as [_ Hb].
    apply andb_prop in Hb. destruct Hb as [Hb _]. apply is_byte_bounds in Hb.
    destruct (load_args_items args Hargs Hp0 _ _ E1) as (items & -> & Hall & Hmap).
    exists ((op_LOAD_CONST, function, a)
            :: items
            ++ [(op_CALL_FUNCTION, len args, [op_CALL_FUNCTION; len args]);
                (op_POP_TOP, 0, [op_POP_TOP; 0])]).
    split; [| split; [| split; [| exact Hp]]].
    + cbn [map List.concat fst snd app]. rewrite map_app, concat_app.
      cbn [map List.concat snd app]. rewrite ?app_nil_r, <- ?app_assoc. reflexivity.
    + constructor; [now apply opcode_arg_encodes |].
      apply Forall_app. split; [exact Hall |].
      constructor; [apply literal_encodes; [lia | exact Hp1] |].
      constructor; [apply literal_encodes; [lia | exact Hp2] | constructor].
    + cbn [map fst app]. rewrite map_app, Hmap. reflexivity.
Qed.

End DecodingCalls.

(** X28. The sequence [insert_function_call] inserts decodes, with
    [unpack_opargs], to the call it stands for: the [NOP] whose argument
    branches over the rest, then [LOAD_CONST function], a [LOAD_CONST] for
    every argument in order, [CALL_FUNCTION len(args)] and [POP_TOP] (from
    3.11 on: [PUSH_NULL] before the loads, and [PRECALL] and [CALL] for
    [CALL_FUNCTION]), for indices that are not negative and opcodes that are
    no prefixes (nor cache words, from 3.11 on). *)
Theorem inserted_call_decodes {rt : Runtime}
  (self self' : Editor.t) (offset function : Z) (args : list Z) (n : Z) :
  Editor.insert_function_call self offset function args = Ok (n, self') ->
  0 <= function -> Forall (fun a => 0 <= a) args ->
  Forall plain call_opcodes ->
  (version_ge PYTHON_VERSION (3, 11) = true -> op_EXTENDED_ARG <> op_CACHE) ->
  exists insert v,
    len insert = n /\
    Editor.patch self' = setslice (Editor.patch self) offset offset insert /\
    offset2branch (n - 2) = Ok v /\
    snd (unpack_opargs insert) = None /\
    map op_arg (fst (unpack_opargs insert))
    = (op_NOP, v) :: call_instructions function args.
Proof.
  intros H Hf Hargs Hplain Hext.
  unfold Editor.insert_function_call in H.
  inv_bind H. inv_bind H. inv_bind H. inv_bind H. injection H as <- <-.
  destruct (call_sequence_items _ _ _ E Hf Hargs Hplain)
    as (items & -> & Hall & Hmap & Hnop).
  unfold setitem in E1. change (1 <? 0) with false in E1. cbv iota in E1.
  destruct ((1 <? 0) || (len ([op_NOP; 0] ++ List.concat (map snd items)) <=? 1));
    [discriminate |].
  destruct (is_byte a0) eqn:Hv; [| discriminate].
  injection E1 as <-. cbn [app firstn skipn Z.to_nat Pos.to_nat Pos.iter_op Nat.add].
  change (Z.to_nat 1) with 1%nat. cbn [firstn skipn app].
  exists (op_NOP :: a0 :: List.concat (map snd items)), a0.
  split; [unfold len; cbn [List.length]; reflexivity |].
  split; [reflexivity |]. split; [exact E0 |].
  destruct (decode_items ((op_NOP, a0, [op_NOP; a0]) :: items) Hext) with (P := @nil Z)
    as [Hdecode Hend].
  { constructor; [| exact Hall].
    apply literal_encodes; [now apply is_byte_bounds | exact Hnop]. }
  cbn [map List.concat fst snd app] in Hdecode, Hend.
  change (len []) with 0 in Hdecode, Hend.
  unfold unpack_opargs. split; [exact Hend |].
  rewrite <- Hmap. exact Hdecode.
Qed.

Lemma inserted_call_decodes_witness :
  exists self' insert,
    Editor.insert_function_call (rt := Sample.py311)
      Sample.forward_branch_editor 4 0 [7; 300] = Ok (28, self') /\
    Editor.patch self'
    = setslice (Editor.patch Sample.forward_branch_editor) 4 4 insert /\
    map op_arg (fst (unpack_opargs (rt := Sample.py311) insert))
    = [(9, 13); (2, 0); (100, 0); (100, 7); (100, 300); (166, 2); (171, 2); (1, 0)].
Proof.
  destruct (Editor.insert_function_call (rt := Sample.py311)
              Sample.forward_branch_editor 4 0 [7; 300]) as [[n self'] | e] eqn:E;
    [| vm_compute in E; discriminate].
  assert (n = 28) as -> by (vm_compute in E; congruence).
  destruct (inserted_call_decodes (rt := Sample.py311) _ _ _ _ _ _ E)
    as (insert & v & _ & Hpatch & Hv & _ & Hdecode).
  - lia.
  - repeat constructor; lia.
  - repeat (constructor; [split; [reflexivity | intros _; discriminate] |]). constructor.
  - intros _. discriminate.
  - exists self', insert. split; [reflexivity |]. split; [exact Hpatch |].
    rewrite Hdecode. vm_compute in Hv. injection Hv as <-. reflexivity.
Defined.

(** ** Offsets and branch arguments *)

(** X29. [offset2branch] and [branch2offset] undo one another: the offset of
    a branch argument has that argument, and an offset that has a branch
    argument is the offset of it.  [offset2branch] fails only by its
    assertion, from 3.10 on and exactly for the odd offsets. *)
Theorem branch_offsets_round_trip {rt : Runtime} (x : Z) :
  offset2branch (branch2offset x) = Ok x /\
  (forall a, offset2branch x = Ok a -> branch2offset a = x) /\
  (forall e, offset2branch x = Raise e ->
     e = AssertionError /\ version_ge PYTHON_VERSION (3, 10) = true /\ x mod 2 = 1) /\
  (version_ge PYTHON_VERSION (3, 10) = true -> x mod 2 = 1 ->
   offset2branch x = Raise AssertionError).
Proof.
  split; [apply offset2branch_branch2offset |].
  split; [intros a H; now apply offset2branch_Ok in H |].
  unfold offset2branch. pose proof (Z.mod_pos_bound x 2 ltac:(lia)) as Hm.
  destruct (version_ge PYTHON_VERSION (3, 10)).
  - destruct (Z.eqb_spec (x mod 2) 0) as [E | Hne]; cbn [bind]; split.
    + intros e H. discriminate.
    + intros _ Hodd. lia.
    + intros e H. injection H as <-. repeat split. lia.
    + reflexivity.
  - split; [intros e H; discriminate | intros H; discriminate].
Qed.

Lemma branch_offsets_round_trip_witness :
  offset2branch (rt := Sample.py310) 7 = Raise AssertionError /\
  offset2branch (rt := Sample.py310) 8 = Ok 4 /\
  branch2offset (rt := Sample.py310) 4 = 8 /\
  offset2branch (rt := Sample.py39) 7 = Ok 7.
Proof.
  destruct (branch_offsets_round_trip (rt := Sample.py310) 7) as (_ & _ & _ & Hodd).
  destruct (branch_offsets_round_trip (rt := Sample.py310) 8) as (_ & Hback & _).
  split; [apply Hodd; reflexivity |].
  split; [reflexivity |]. split; [apply Hback; reflexivity | reflexivity].
Defined.
